(** * Tic-Tac-Toe: a shallow embedding of [board.py], [game_tree.py] and
      [full_tree_search.py], and the properties of the specification
      checked against it; then [algorithms.py], [player.py], [game.py] and
      [misc.py], and further properties of the code.

    Conventions of the embedding.
    - Python integers are [Z]; list subscripts follow Python (negative
      subscripts count from the end, anything else out of range raises
      [IndexError]).
    - A call that may raise returns an [outcome]: [Ok v], [Raise e], or
      [OutOfFuel] for the loops that are modelled with fuel (the board
      iterator's [for] loop and the recursion of the tree iterator, where
      lemmas show that the fuel chosen is always enough; the [while] loops
      of [game.py], which need not end).
    - Tokens are Python strings, modelled by their values.  The source
      tests [cell is self.empty], identity with the string object [' ']
      that the constructor puts in every cell.  The model reads a cell
      with the value [" "] as a cell holding that object.  This is what
      the cells hold on every board built by the constructor, by [play]
      with tokens whose value differs from [' '], and by [copy], [rotate]
      and [reflect], which move the objects of the cells; a token equal to
      [' '] that is another object (in CPython, [' '.lower()]) has no
      counterpart in the model.  The properties that depend on the
      test are stated for boards built with tokens that differ from
      [' '] ([reachable player_token]).
    - [Board] values are the attribute values of a Python [Board] object.
      The module [Heap] further down models the list objects behind them
      where a property depends on which lists two boards share. *)

From Stdlib Require Import String Ascii DecimalString.
From Stdlib Require Import List ZArith Bool Lia Arith PeanoNat Permutation.
From Stdlib Require Import QArith.
Close Scope Q_scope.
Import ListNotations.

Set Implicit Arguments.

(** ** Exceptions and outcomes *)

Inductive exn : Type :=
| IndexError (msg : string)
| ValueError (msg : string)
| AssertionError (msg : string)
| KeyError
| StatisticsError (msg : string)
| ZeroDivisionError
| TypeError (msg : string)
| StopIteration
| OverflowError (msg : string).

Inductive outcome (A : Type) : Type :=
| Ok (a : A)
| Raise (e : exn)
| OutOfFuel.

Arguments Ok {A} a.
Arguments Raise {A} e.
Arguments OutOfFuel {A}.

Definition bind {A B} (c : outcome A) (k : A -> outcome B) : outcome B :=
  match c with
  | Ok a => k a
  | Raise e => Raise e
  | OutOfFuel => OutOfFuel
  end.

Notation "x <- c ;; k" := (bind c (fun x => k))
  (at level 61, c at next level, right associativity).

Fixpoint mapM {A B} (f : A -> outcome B) (l : list A) : outcome (list B) :=
  match l with
  | [] => Ok []
  | x :: l' => y <- f x ;; ys <- mapM f l' ;; Ok (y :: ys)
  end.

(** ** Python lists *)

Definition index_error : exn := IndexError "list index out of range".

(** The list position a Python subscript [i] denotes in a list of [len]
    elements. *)
Definition norm_index (len : nat) (i : Z) : option nat :=
  let n := Z.of_nat len in
  if ((0 <=? i) && (i <? n))%Z then Some (Z.to_nat i)
  else if ((- n <=? i) && (i <? 0))%Z then Some (Z.to_nat (n + i))
  else None.

(** [l[i]] *)
Definition getitem {A} (l : list A) (i : Z) : outcome A :=
  match norm_index (length l) i with
  | Some k => match nth_error l k with
              | Some x => Ok x
              | None => Raise index_error
              end
  | None => Raise index_error
  end.

Fixpoint replace_nth {A} (k : nat) (x : A) (l : list A) : list A :=
  match l, k with
  | [], _ => []
  | _ :: l', O => x :: l'
  | y :: l', S k' => y :: replace_nth k' x l'
  end.

(** [l[i] = x] *)
Definition setitem {A} (l : list A) (i : Z) (x : A) : outcome (list A) :=
  match norm_index (length l) i with
  | Some k => Ok (replace_nth k x l)
  | None => Raise (IndexError "list assignment index out of range")
  end.

(** [range(n)] *)
Definition range (n : Z) : list Z := map Z.of_nat (seq 0 (Z.to_nat n)).

(** [l.remove(x)]: drops the first element equal to [x]. *)
Fixpoint list_remove {A} (eqb : A -> A -> bool) (x : A) (l : list A)
  : outcome (list A) :=
  match l with
  | [] => Raise (ValueError "list.remove(x): x not in list")
  | y :: l' => if eqb y x then Ok l'
               else r <- list_remove eqb x l' ;; Ok (y :: r)
  end.

Fixpoint list_eqb {A} (eqb : A -> A -> bool) (l1 l2 : list A) : bool :=
  match l1, l2 with
  | [], [] => true
  | x :: l1', y :: l2' => eqb x y && list_eqb eqb l1' l2'
  | _, _ => false
  end.

(** [x in l] *)
Definition contains {A} (eqb : A -> A -> bool) (x : A) (l : list A) : bool :=
  existsb (fun y => eqb y x) l.

(** ** Tokens, positions, grids *)

Definition token := string.
Bind Scope string_scope with token.

(** [self.empty = ' '] *)
Definition empty : token := " "%string.

Definition token_eqb : token -> token -> bool := String.eqb.

Definition position := (Z * Z)%type.

Definition pos_eqb (p q : position) : bool :=
  (fst p =? fst q)%Z && (snd p =? snd q)%Z.

Definition grid := list (list token).

Definition grid_eqb : grid -> grid -> bool := list_eqb (list_eqb token_eqb).

(** [str(i)] for a Python integer. *)
Definition str_of_Z (i : Z) : string := NilZero.string_of_int (Z.to_int i).

(** ** class Board *)

Record Board : Type := mkBoard {
  num_rows : Z;
  num_cols : Z;
  num_cells : Z;
  board : grid;
  played_positions : list position;
  played_tokens : list token;
  empty_cells : list position
}.

Definition set_board (b : Board) (g : grid) : Board :=
  mkBoard (num_rows b) (num_cols b) (num_cells b) g
          (played_positions b) (played_tokens b) (empty_cells b).

(** [Board.__init__] *)
Definition Board_init (nr nc : Z) : outcome Board :=
  if negb (nr =? nc)%Z
  then Raise (AssertionError "Boards must be square (i.e. num rows = num columns)")
  else Ok (mkBoard nr nc (nr * nc)
             (map (fun _ => map (fun _ => empty) (range nc)) (range nr))
             [] []
             (flat_map (fun i => map (fun j => (i, j)) (range nr)) (range nc))).

(** The properties [rows], [columns], [main_diagonal], [anti_diagonal]. *)
Definition rows (b : Board) : grid := board b.

Definition cell_at (g : grid) (row col : Z) : outcome token :=
  r <- getitem g row ;; getitem r col.

Definition columns (b : Board) : outcome grid :=
  mapM (fun col => mapM (fun row => cell_at (board b) row col)
                        (range (num_rows b)))
       (range (num_cols b)).

Definition main_diagonal (b : Board) : outcome (list token) :=
  mapM (fun i => cell_at (board b) i i) (range (num_rows b)).

Definition anti_diagonal (b : Board) : outcome (list token) :=
  mapM (fun i => cell_at (board b) i (num_cols b - i - 1)%Z)
       (range (num_rows b)).

(** [Board.play].  The call mutates the board, so the model returns the
    board after the call next to the result; a raised exception keeps the
    mutations made before it. *)
Definition already_played_msg (row col : Z) : string :=
  ("Invalid Positon - (" ++ str_of_Z (row + 1) ++ "," ++ str_of_Z (col + 1)
     ++ ") has already been played!")%string.

Definition play (b : Board) (row col : Z) (tok : token)
  : Board * outcome unit :=
  if contains pos_eqb (row, col) (played_positions b)
  then (b, Raise (IndexError (already_played_msg row col)))
  else
    match getitem (board b) row with
    | Ok r =>
        match setitem r col tok with
        | Ok r' =>
            match setitem (board b) row r' with
            | Ok g' =>
                let b1 := mkBoard (num_rows b) (num_cols b) (num_cells b) g'
                            (played_positions b ++ [(row, col)])
                            (played_tokens b ++ [tok])
                            (empty_cells b) in
                match list_remove pos_eqb (row, col) (empty_cells b) with
                | Ok ec =>
                    (mkBoard (num_rows b1) (num_cols b1) (num_cells b1)
                       (board b1) (played_positions b1) (played_tokens b1) ec,
                     Ok tt)
                | Raise e => (b1, Raise e)
                | OutOfFuel => (b1, OutOfFuel)
                end
            | Raise e => (b, Raise e)
            | OutOfFuel => (b, OutOfFuel)
            end
        | Raise e => (b, Raise e)
        | OutOfFuel => (b, OutOfFuel)
        end
    | Raise e => (b, Raise e)
    | OutOfFuel => (b, OutOfFuel)
    end.

(** [Board.winner].  [all(line[0] == cell for cell in line)] evaluates
    [line[0]] once per cell, hence never on an empty line; the assignment
    [winner = line[0]] that follows does evaluate it. *)
Definition all_equal_first (line : list token) : bool :=
  match line with
  | [] => true
  | first :: _ => forallb (fun cell => token_eqb first cell) line
  end.

(** One line of [winner]: [all(line[0] == cell for cell in line)], then
    [winner is not self.empty], read as a comparison of values (see the
    conventions: exact on boards whose tokens differ from [' ']). *)
Definition check_line (line : list token) : outcome (option token) :=
  if all_equal_first line
  then w <- getitem line 0%Z ;;
       Ok (if negb (token_eqb w empty) then Some w else None)
  else Ok None.

Fixpoint check_lines (lines : list (list token)) : outcome (option token) :=
  match lines with
  | [] => Ok None
  | line :: rest =>
      r <- check_line line ;;
      match r with
      | Some w => Ok (Some w)
      | None => check_lines rest
      end
  end.

Definition winner (b : Board) : outcome (option token) :=
  r <- check_lines (rows b) ;;
  match r with
  | Some w => Ok (Some w)
  | None =>
      cols <- columns b ;;
      r <- check_lines cols ;;
      match r with
      | Some w => Ok (Some w)
      | None =>
          md <- main_diagonal b ;;
          r <- check_line md ;;
          match r with
          | Some w => Ok (Some w)
          | None =>
              ad <- anti_diagonal b ;;
              r <- check_line ad ;;
              match r with
              | Some w => Ok (Some w)
              | None => Ok None
              end
          end
      end
  end.

(** [Board.full] *)
Definition full (b : Board) : bool :=
  match empty_cells b with [] => true | _ => false end.

(** [Board.copy] *)
Definition copy (b : Board) : outcome Board :=
  new_board <- Board_init (num_rows b) (num_cols b) ;;
  Ok (mkBoard (num_rows new_board) (num_cols new_board) (num_cells new_board)
        (map (fun row => row) (rows b))
        (played_positions b) (played_tokens b) (empty_cells b)).

(** [Board.__eq__] *)
Definition board_eqb (b1 b2 : Board) : bool := grid_eqb (board b1) (board b2).

(** ** class BoardIterator *)

Record BoardIterator : Type := mkIter {
  it_board : grid;
  it_num_rows : Z;
  next_row_id : Z;
  next_col_id : Z;
  row_id : Z;
  col_id : Z
}.

(** [BoardIterator.__init__]; [row_id] and [col_id] do not exist before
    the first [__next__] and are never read before it. *)
Definition BoardIterator_init (array : grid) : BoardIterator :=
  mkIter array (Z.of_nat (length array)) 0 0 0 0.

(** [BoardIterator.__next__]: [None] stands for [StopIteration]. *)
Definition iter_next (it : BoardIterator) : option (token * BoardIterator) :=
  let rid := next_row_id it in
  let cid := next_col_id it in
  match cell_at (it_board it) rid cid with
  | Ok cell =>
      let width := Z.of_nat (length (hd [] (it_board it))) in
      if (cid <? width - 1)%Z
      then Some (cell, mkIter (it_board it) (it_num_rows it) rid (cid + 1)%Z rid cid)
      else Some (cell, mkIter (it_board it) (it_num_rows it) (rid + 1)%Z 0%Z rid cid)
  | _ => None
  end.

(** [Board.recitfy_game_history]: the body of its loop, then the
    [for cell in board_iter] loop itself.  [cell is self.empty] is read
    as a comparison of values (see the conventions: exact on boards whose
    tokens differ from [' ']). *)
Definition rectify_step (b : Board) (pos : position) (cell : token) : Board :=
  if token_eqb cell empty
  then mkBoard (num_rows b) (num_cols b) (num_cells b) (board b)
         (played_positions b) (played_tokens b) (empty_cells b ++ [pos])
  else mkBoard (num_rows b) (num_cols b) (num_cells b) (board b)
         (played_positions b ++ [pos]) (played_tokens b ++ [cell])
         (empty_cells b).

Fixpoint rectify_loop (fuel : nat) (it : BoardIterator) (b : Board)
  : outcome Board :=
  match fuel with
  | O => OutOfFuel
  | S fuel' =>
      match iter_next it with
      | None => Ok b
      | Some (cell, it') =>
          rectify_loop fuel' it' (rectify_step b (row_id it', col_id it') cell)
      end
  end.

(** Every [__next__] that returns a cell moves to a later cell of the
    [len(board)] by [len(board[0])] rectangle, so this many calls reach
    [StopIteration]. *)
Definition rectify_fuel (g : grid) : nat :=
  S (length g * length (hd [] g)).

Definition recitfy_game_history (b : Board) : outcome Board :=
  rectify_loop (rectify_fuel (board b)) (BoardIterator_init (board b))
    (mkBoard (num_rows b) (num_cols b) (num_cells b) (board b) [] [] []).

(** [Board.rotate] *)
Definition rotate (b : Board) (degrees : Z) : outcome Board :=
  if negb ((degrees =? 90) || (degrees =? 180) || (degrees =? 270))%Z
  then Raise (AssertionError "degrees must be 90, 180 or 270")
  else
    new_board <- Board_init (num_rows b) (num_cols b) ;;
    g <- (if (degrees =? 90)%Z
          then cols <- columns b ;; Ok (map (fun column => rev column) cols)
          else if (degrees =? 180)%Z
          then Ok (map (fun row => rev row) (rev (rows b)))
          else cols <- columns b ;; Ok (rev cols)) ;;
    recitfy_game_history (set_board new_board g).

(** [str.lower] on the characters that matter for an axis name. *)
Definition lower_ascii (c : ascii) : ascii :=
  let n := nat_of_ascii c in
  if (65 <=? n) && (n <=? 90) then ascii_of_nat (n + 32) else c.

Fixpoint lower (s : string) : string :=
  match s with
  | EmptyString => EmptyString
  | String c s' => String (lower_ascii c) (lower s')
  end.

Definition str_in (s : string) (l : list string) : bool :=
  existsb (fun x => String.eqb x s) l.

(** [Board.reflect] *)
Definition reflect (b : Board) (axis : string) : outcome Board :=
  let axis := lower axis in
  if negb (str_in axis ["horizontal"; "h"; "vertical"; "v";
                        "main diagonal"; "md"; "anti-diagonal"; "ad"]%string)
  then Raise (AssertionError "")
  else
    new_board <- copy b ;;
    g <- (if str_in axis ["horizontal"; "h"]%string
          then Ok (rev (rows b))
          else if str_in axis ["vertical"; "v"]%string
          then Ok (map (fun row => rev row) (rows b))
          else if str_in axis ["main diagonal"; "md"]%string
          then cols <- columns b ;; Ok (map (fun column => rev column) (rev cols))
          else cols <- columns b ;; Ok cols) ;;
    recitfy_game_history (set_board new_board g).

(** The property [Board.isomorphisms] *)
Definition isomorphisms (b : Board) : outcome (list Board) :=
  rotations <- mapM (rotate b) [90; 180; 270]%Z ;;
  reflections <- mapM (reflect b) ["h"; "v"; "md"; "ad"]%string ;;
  let rotations :=
    b :: filter (fun x => negb (board_eqb x b)) rotations in
  let reflections :=
    filter (fun x => negb (contains board_eqb x rotations)) reflections in
  Ok (rotations ++ reflections).

(** [Board.isomorphic_to] *)
Definition isomorphic_to (b other : Board) : outcome bool :=
  isos <- isomorphisms other ;;
  Ok (contains board_eqb b isos).

(** ** full_tree_search.py *)

(** [itertools.permutations(l)], in the order the iterator yields them:
    every position of [l] in turn as first element, followed by the
    permutations of the rest. *)
Fixpoint selects {A} (l : list A) : list (A * list A) :=
  match l with
  | [] => []
  | x :: l' => (x, l') :: map (fun yr => (fst yr, x :: snd yr)) (selects l')
  end.

Fixpoint perms_of_length {A} (n : nat) (l : list A) : list (list A) :=
  match n with
  | O => [[]]
  | S n' =>
      flat_map (fun xr => map (cons (fst xr)) (perms_of_length n' (snd xr)))
               (selects l)
  end.

Definition permutations {A} (l : list A) : list (list A) :=
  perms_of_length (length l) l.

(** A [dict], as the list of its items in insertion order. *)
Definition dict (K V : Type) : Type := list (K * V).

(** [d[k] = v] *)
Fixpoint dict_set {K V} (eqb : K -> K -> bool) (k : K) (v : V) (d : dict K V)
  : dict K V :=
  match d with
  | [] => [(k, v)]
  | (k', v') :: d' =>
      if eqb k' k then (k', v) :: d' else (k', v') :: dict_set eqb k v d'
  end.

(** [d[k]] *)
Fixpoint dict_get {K V} (eqb : K -> K -> bool) (k : K) (d : dict K V)
  : outcome V :=
  match d with
  | [] => Raise KeyError
  | (k', v') :: d' => if eqb k' k then Ok v' else dict_get eqb k d'
  end.

(** [d[k].append(v)] on a [defaultdict(list)] *)
Fixpoint dict_append {K V} (eqb : K -> K -> bool) (k : K) (v : V)
  (d : dict K (list V)) : dict K (list V) :=
  match d with
  | [] => [(k, [v])]
  | (k', vs) :: d' =>
      if eqb k' k then (k', vs ++ [v]) :: d'
      else (k', vs) :: dict_append eqb k v d'
  end.

(** A sequence of moves, a tuple of coordinates. *)
Definition perm := list position.

Definition perm_eqb : perm -> perm -> bool := list_eqb pos_eqb.

(** The scores. *)
Definition WIN : Z := 100.
Definition LOSS : Z := -100.
Definition DRAW : Z := 0.

(** What [get_move] closes over. *)
Record closure : Type := mkClosure {
  move_permuations : list perm;
  winners : dict perm token
}.

(** The inner loop of the construction: replay [moves] on [board_copy] and
    return the outcome to record ([for ... else] records ['Draw']). *)
Fixpoint replay (tokens : list token) (board_copy : Board) (player_id : Z)
  (moves : perm) : outcome token :=
  match moves with
  | [] => Ok "Draw"%string
  | move :: rest =>
      tok <- getitem tokens player_id ;;
      let (board_copy', r) := play board_copy (fst move) (snd move) tok in
      _ <- r ;;
      w <- winner board_copy' ;;
      match w with
      | Some t => Ok t
      | None =>
          let num_players := Z.of_nat (length tokens) in
          if (num_players =? 0)%Z then Raise ZeroDivisionError
          else replay tokens board_copy' ((player_id + 1) mod num_players)%Z rest
      end
  end.

(** The outer loop: one entry of [winners] per permutation. *)
Fixpoint record_outcomes (board : Board) (tokens : list token)
  (perms : list perm) (winners : dict perm token) : outcome (dict perm token) :=
  match perms with
  | [] => Ok winners
  | p :: rest =>
      board_copy <- copy board ;;
      w <- replay tokens board_copy 0%Z p ;;
      record_outcomes board tokens rest (dict_set perm_eqb p w winners)
  end.

(** [full_tree_search(board, tokens)], up to the definition of [get_move]. *)
Definition full_tree_search (board : Board) (tokens : list token)
  : outcome closure :=
  let moveset := empty_cells board in
  let move_permuations := permutations moveset in
  winners <- record_outcomes board tokens move_permuations [] ;;
  Ok (mkClosure move_permuations winners).

(** [a / b] on integers is the float nearest to the quotient, ties going
    to the even mantissa: a mantissa of 53 bits, exponents down to that of
    the subnormal numbers ([2^-1074]), [OverflowError] from [2^1024] on.
    A float is modelled by the rational number it stands for.

    [at_least_pow2 p q e] tells whether [p / q >= 2^e], for positive [p]
    and [q]; [floor_log2 p q] is the integer part of the binary logarithm
    of [p / q]; [round_half_even num den] is the integer nearest to
    [num / den], the even one of two. *)
Definition at_least_pow2 (p q e : Z) : bool :=
  if (0 <=? e)%Z then (q * 2 ^ e <=? p)%Z else (q <=? p * 2 ^ (- e))%Z.

Definition floor_log2 (p q : Z) : Z :=
  let d := (Z.log2 p - Z.log2 q)%Z in
  if at_least_pow2 p q d then d else (d - 1)%Z.

Definition round_half_even (num den : Z) : Z :=
  let qt := (num / den)%Z in
  match (2 * (num mod den) ?= den)%Z with
  | Lt => qt
  | Gt => (qt + 1)%Z
  | Eq => if Z.even qt then qt else (qt + 1)%Z
  end.

Definition true_divide (a b : Z) : outcome Q :=
  if (b =? 0)%Z then Raise ZeroDivisionError
  else if (a =? 0)%Z then Ok 0%Q
  else
    let sign := (Z.sgn a * Z.sgn b)%Z in
    let p := Z.abs a in
    let q := Z.abs b in
    let e := floor_log2 p q in
    let k := Z.max (e - 52) (-1074) in
    let m := if (0 <=? k)%Z then round_half_even p (q * 2 ^ k)
             else round_half_even (p * 2 ^ (- k)) q in
    if ((0 <=? k) && (2 ^ 1024 <=? m * 2 ^ k))%Z
    then Raise (OverflowError "integer division result too large for a float")
    else Ok (if (0 <=? k)%Z then inject_Z (sign * m * 2 ^ k)
             else Qmake (sign * m) (Z.to_pos (2 ^ (- k)))).

(** [statistics.mean] of integers: the exact mean when it is an integer,
    and else [float] of the exact mean, the quotient [total / n] of its
    numerator and denominator as a float. *)
Definition mean (values : list Z) : outcome Q :=
  match values with
  | [] => Raise (StatisticsError "mean requires at least one data point")
  | _ =>
      let total := fold_right Z.add 0%Z values in
      let n := Z.of_nat (length values) in
      if (total mod n =? 0)%Z then Ok (inject_Z (total / n))
      else true_divide total n
  end.

(** [max(l)]: the first of the largest elements. *)
Definition py_max (l : list Q) : outcome Q :=
  match l with
  | [] => Raise (ValueError "max() arg is an empty sequence")
  | x :: l' => Ok (fold_left (fun m y => if Qle_bool y m then m else y) l' x)
  end.

(** [random.sample(l, 1)[0]]; [rnd] is the number the generator draws. *)
Definition random_sample_one {A} (rnd : nat) (l : list A) : outcome A :=
  match l with
  | [] => Raise (ValueError "Sample larger than population or is negative")
  | x :: _ => Ok (nth (rnd mod length l) l x)
  end.

(** The value of a recorded outcome for the player [tok]. *)
Definition value_of (winner tok : token) : Z :=
  if token_eqb winner tok then WIN
  else if token_eqb winner "Draw" then DRAW
  else LOSS.

(** [t[i]] on a tuple: the subscripts of a list, the message of tuples. *)
Definition tuple_getitem {A} (t : list A) (i : Z) : outcome A :=
  match getitem t i with
  | Ok x => Ok x
  | _ => Raise (IndexError "tuple index out of range")
  end.

(** The loop filling [next_moves]; the permutations are tuples. *)
Fixpoint collect_values (num_moves : Z) (tok : token)
  (items : dict perm token) (next_moves : dict position (list Z))
  : outcome (dict position (list Z)) :=
  match items with
  | [] => Ok next_moves
  | (p, w) :: rest =>
      m <- tuple_getitem p num_moves ;;
      collect_values num_moves tok rest
        (dict_append pos_eqb m (value_of w tok) next_moves)
  end.

(** [{perm: winners[perm] for perm in perm_subset}] *)
Fixpoint restrict (winners : dict perm token) (perm_subset : list perm)
  (acc : dict perm token) : outcome (dict perm token) :=
  match perm_subset with
  | [] => Ok acc
  | p :: rest =>
      w <- dict_get perm_eqb p winners ;;
      restrict winners rest (dict_set perm_eqb p w acc)
  end.

(** [get_move(board, token)] *)
Definition get_move (cl : closure) (board : Board) (tok : token) (rnd : nat)
  : outcome (option position) :=
  match empty_cells board with
  | [] => Ok None
  | [c] => Ok (Some c)
  | _ =>
      let num_moves :=
        match played_positions board with
        | [] => 0%Z
        | _ => Z.of_nat (length (played_positions board))
        end in
      winners_subset <-
        match played_positions board with
        | [] => Ok (winners cl)
        | _ =>
            let perm_subset :=
              filter (fun p => perm_eqb (firstn (Z.to_nat num_moves) p)
                                        (played_positions board))
                     (move_permuations cl) in
            restrict (winners cl) perm_subset []
        end ;;
      next_moves <- collect_values num_moves tok winners_subset [] ;;
      agg_scores <- mapM (fun mv => s <- mean (snd mv) ;; Ok (fst mv, s))
                         next_moves ;;
      best_moves <-
        mapM (fun mv => top <- py_max (map snd agg_scores) ;;
                        Ok (mv, Qeq_bool (snd mv) top))
             agg_scores ;;
      m <- random_sample_one rnd
             (map (fun x => fst (fst x)) (filter snd best_moves)) ;;
      Ok (Some m)
  end.

(** ** The list objects behind a board

    [copy], [rotate] and [reflect] build new lists, or reuse lists of the
    board they are called on; [play] changes lists in place.  This module
    runs the same methods on a heap of list objects, so that two boards can
    share a list.  A [Board] here holds the references stored in the
    attributes of a Python [Board] object. *)

Module Heap.

(** The board as the attribute values read through the heap. *)
Definition Snapshot : Type := Board.
Definition snapshot := mkBoard.

Definition loc := nat.

Inductive obj : Type :=
| Tokens (cells : list token)    (* a row of the grid, or [played_tokens] *)
| Refs (rows : list loc)         (* the outer list of a grid *)
| Coords (ps : list position).   (* [played_positions] or [empty_cells] *)

Definition heap := list obj.

(** Computations that read and change the heap and may raise. *)
Definition M (A : Type) : Type := heap -> heap * outcome A.

Definition ret {A} (a : A) : M A := fun h => (h, Ok a).

Definition lift {A} (c : outcome A) : M A := fun h => (h, c).

Definition mbind {A B} (c : M A) (k : A -> M B) : M B :=
  fun h =>
    match c h with
    | (h', Ok a) => k a h'
    | (h', Raise e) => (h', Raise e)
    | (h', OutOfFuel) => (h', OutOfFuel)
    end.

Notation "x <~ c ;; k" := (mbind c (fun x => k))
  (at level 61, c at next level, right associativity).

Fixpoint mmap {A B} (f : A -> M B) (l : list A) : M (list B) :=
  match l with
  | [] => ret []
  | x :: l' => y <~ f x ;; ys <~ mmap f l' ;; ret (y :: ys)
  end.

(** A new list object. *)
Definition alloc (o : obj) : M loc := fun h => (h ++ [o], Ok (length h)).

(** No Python program reads a reference to nothing or finds a list of the
    wrong kind behind an attribute of a board; the model raises
    [TypeError] there. *)
Definition load (l : loc) : M obj :=
  fun h =>
    match nth_error h l with
    | Some o => (h, Ok o)
    | None => (h, Raise (TypeError "no such object"))
    end.

Definition store (l : loc) (o : obj) : M unit :=
  fun h => (replace_nth l o h, Ok tt).

Definition load_tokens (l : loc) : M (list token) :=
  o <~ load l ;;
  match o with
  | Tokens cells => ret cells
  | _ => lift (Raise (TypeError "not a list of tokens"))
  end.

Definition load_refs (l : loc) : M (list loc) :=
  o <~ load l ;;
  match o with
  | Refs rows => ret rows
  | _ => lift (Raise (TypeError "not a list of lists"))
  end.

Definition load_coords (l : loc) : M (list position) :=
  o <~ load l ;;
  match o with
  | Coords ps => ret ps
  | _ => lift (Raise (TypeError "not a list of coordinates"))
  end.

(** A new list of new rows holding the values [g]. *)
Definition alloc_grid (g : grid) : M loc :=
  rows <~ mmap (fun cells => alloc (Tokens cells)) g ;;
  alloc (Refs rows).

Record Board : Type := mkBoard {
  num_rows : Z;
  num_cols : Z;
  num_cells : Z;
  board : loc;
  played_positions : loc;
  played_tokens : loc;
  empty_cells : loc
}.

Definition set_board (b : Board) (g : loc) : Board :=
  mkBoard (num_rows b) (num_cols b) (num_cells b) g
          (played_positions b) (played_tokens b) (empty_cells b).

(** [Board.__init__] *)
Definition Board_init (nr nc : Z) : M Board :=
  if negb (nr =? nc)%Z
  then lift (Raise (AssertionError
                      "Boards must be square (i.e. num rows = num columns)"))
  else
    g <~ alloc_grid (map (fun _ => map (fun _ => empty) (range nc)) (range nr)) ;;
    pp <~ alloc (Coords []) ;;
    pt <~ alloc (Tokens []) ;;
    ec <~ alloc (Coords (flat_map (fun i => map (fun j => (i, j)) (range nr))
                                  (range nc))) ;;
    ret (mkBoard nr nc (nr * nc) g pp pt ec).

(** [self.board[row][col]] *)
Definition cell_at (g : loc) (row col : Z) : M token :=
  rows <~ load_refs g ;;
  r <~ lift (getitem rows row) ;;
  cells <~ load_tokens r ;;
  lift (getitem cells col).

(** The values of the rows, and the property [columns]: new lists. *)
Definition row_values (b : Board) : M grid :=
  rows <~ load_refs (board b) ;;
  mmap load_tokens rows.

Definition columns (b : Board) : M grid :=
  mmap (fun col => mmap (fun row => cell_at (board b) row col)
                        (range (num_rows b)))
       (range (num_cols b)).

(** [Board.play] *)
Definition play (b : Board) (row col : Z) (tok : token) : M unit :=
  pp <~ load_coords (played_positions b) ;;
  if contains pos_eqb (row, col) pp
  then lift (Raise (IndexError (already_played_msg row col)))
  else
    rows <~ load_refs (board b) ;;
    r <~ lift (getitem rows row) ;;
    cells <~ load_tokens r ;;
    cells' <~ lift (setitem cells col tok) ;;
    _ <~ store r (Tokens cells') ;;
    _ <~ store (played_positions b) (Coords (pp ++ [(row, col)])) ;;
    pt <~ load_tokens (played_tokens b) ;;
    _ <~ store (played_tokens b) (Tokens (pt ++ [tok])) ;;
    ec <~ load_coords (empty_cells b) ;;
    ec' <~ lift (list_remove pos_eqb (row, col) ec) ;;
    store (empty_cells b) (Coords ec').

(** [Board.copy]: every list is copied. *)
Definition copy (b : Board) : M Board :=
  new_board <~ Board_init (num_rows b) (num_cols b) ;;
  rows <~ row_values b ;;
  g <~ alloc_grid rows ;;
  pp <~ load_coords (played_positions b) ;;
  pp' <~ alloc (Coords pp) ;;
  pt <~ load_tokens (played_tokens b) ;;
  pt' <~ alloc (Tokens pt) ;;
  ec <~ load_coords (empty_cells b) ;;
  ec' <~ alloc (Coords ec) ;;
  ret (mkBoard (num_rows new_board) (num_cols new_board) (num_cells new_board)
         g pp' pt' ec').

(** [BoardIterator] over the list [it_board]. *)
Record BoardIterator : Type := mkIter {
  it_board : loc;
  next_row_id : Z;
  next_col_id : Z;
  row_id : Z;
  col_id : Z
}.

(** [BoardIterator.__next__]; the [except IndexError] clause turns an
    [IndexError] into the end of the iteration ([None]). *)
Definition iter_next (it : BoardIterator) : M (option (token * BoardIterator)) :=
  fun h =>
    let rid := next_row_id it in
    let cid := next_col_id it in
    match cell_at (it_board it) rid cid h with
    | (h', Ok cell) =>
        (rows <~ load_refs (it_board it) ;;
         r0 <~ lift (getitem rows 0%Z) ;;
         first_row <~ load_tokens r0 ;;
         let width := Z.of_nat (length first_row) in
         if (cid <? width - 1)%Z
         then ret (Some (cell, mkIter (it_board it) rid (cid + 1)%Z rid cid))
         else ret (Some (cell, mkIter (it_board it) (rid + 1)%Z 0%Z rid cid))) h'
    | (h', Raise (IndexError _)) => (h', Ok None)
    | (h', Raise e) => (h', Raise e)
    | (h', OutOfFuel) => (h', OutOfFuel)
    end.

(** The loop of [recitfy_game_history]; the three lists are those bound
    to the attributes of [b]. *)
Fixpoint rectify_loop (fuel : nat) (it : BoardIterator) (b : Board) : M unit :=
  match fuel with
  | O => lift OutOfFuel
  | S fuel' =>
      nxt <~ iter_next it ;;
      match nxt with
      | None => ret tt
      | Some (cell, it') =>
          let pos := (row_id it', col_id it') in
          _ <~ (if token_eqb cell empty
                then ec <~ load_coords (empty_cells b) ;;
                     store (empty_cells b) (Coords (ec ++ [pos]))
                else pt <~ load_tokens (played_tokens b) ;;
                     _ <~ store (played_tokens b) (Tokens (pt ++ [cell])) ;;
                     pp <~ load_coords (played_positions b) ;;
                     store (played_positions b) (Coords (pp ++ [pos]))) ;;
          rectify_loop fuel' it' b
      end
  end.

(** [Board.recitfy_game_history]: the board with its three attributes
    bound to new lists, filled by the loop. *)
Definition recitfy_game_history (b : Board) : M Board :=
  g <~ row_values b ;;
  ec <~ alloc (Coords []) ;;
  pp <~ alloc (Coords []) ;;
  pt <~ alloc (Tokens []) ;;
  let b' := mkBoard (num_rows b) (num_cols b) (num_cells b) (board b) pp pt ec in
  _ <~ rectify_loop (rectify_fuel g) (mkIter (board b) 0 0 0 0) b' ;;
  ret b'.

(** [Board.rotate]: every row of the new grid is a new list. *)
Definition rotate (b : Board) (degrees : Z) : M Board :=
  if negb ((degrees =? 90) || (degrees =? 180) || (degrees =? 270))%Z
  then lift (Raise (AssertionError "degrees must be 90, 180 or 270"))
  else
    new_board <~ Board_init (num_rows b) (num_cols b) ;;
    g <~ (if (degrees =? 90)%Z
          then cols <~ columns b ;;
               alloc_grid (map (fun column => rev column) cols)
          else if (degrees =? 180)%Z
          then rows <~ row_values b ;;
               alloc_grid (map (fun row => rev row) (rev rows))
          else cols <~ columns b ;; alloc_grid (rev cols)) ;;
    recitfy_game_history (set_board new_board g).

(** [Board.reflect].  For the horizontal axis the new outer list
    [[row for row in self.rows[::-1]]] holds the rows of [self]
    themselves; the other axes build new rows. *)
Definition reflect (b : Board) (axis : string) : M Board :=
  let axis := lower axis in
  if negb (str_in axis ["horizontal"; "h"; "vertical"; "v";
                        "main diagonal"; "md"; "anti-diagonal"; "ad"]%string)
  then lift (Raise (AssertionError ""))
  else
    new_board <~ copy b ;;
    g <~ (if str_in axis ["horizontal"; "h"]%string
          then rows <~ load_refs (board b) ;; alloc (Refs (rev rows))
          else if str_in axis ["vertical"; "v"]%string
          then rows <~ row_values b ;;
               alloc_grid (map (fun row => rev row) rows)
          else if str_in axis ["main diagonal"; "md"]%string
          then cols <~ columns b ;;
               alloc_grid (map (fun column => rev column) (rev cols))
          else cols <~ columns b ;; alloc_grid cols) ;;
    recitfy_game_history (set_board new_board g).

(** The attribute values of [b] in the heap [h]. *)
Definition view (h : heap) (b : Board) : outcome Snapshot :=
  snd ((g <~ row_values b ;;
        pp <~ load_coords (played_positions b) ;;
        pt <~ load_tokens (played_tokens b) ;;
        ec <~ load_coords (empty_cells b) ;;
        ret (snapshot (num_rows b) (num_cols b) (num_cells b) g pp pt ec)) h).

End Heap.

(** ** game_tree.py *)

(** [class Node].  [nboard] and [nwinner] are the attributes [board] and
    [winner]; [nwinner] holds a token, ['Draw'] or [None]. *)
#[local] Set Warnings "-register-all".
Inductive Node : Type := mkNode {
  nboard : Board;
  tokens : list token;
  move : option position;
  parent : option Node;
  token_played : option token;
  nwinner : option token;
  board_full : bool;
  next_moves : option (list position)
}.

(** [Node.__init__].  With a move the token played is [tokens[0]] whatever
    the parent; without one it is [None] at a root and [tokens[0]] below. *)
Definition Node_init (b : Board) (toks : list token) (mv : option position)
  (par : option Node) : outcome Node :=
  b0 <- copy b ;;
  tp <- match par, mv with
        | None, None => Ok None
        | _, _ => t <- getitem toks 0%Z ;; Ok (Some t)
        end ;;
  b1 <- match mv, tp with
        | Some m, Some t =>
            let (b', r) := play b0 (fst m) (snd m) t in
            _ <- r ;; Ok b'
        | _, _ => Ok b0
        end ;;
  w <- winner b1 ;;
  let is_full := full b1 in
  let w' := match w with
            | None => if is_full then Some "Draw"%string else None
            | Some t => Some t
            end in
  let nm := match w' with
            | None => Some (empty_cells b1)
            | Some _ => None
            end in
  Ok (mkNode b1 toks mv par tp w' is_full nm).

(** [Node.isomorphic_to] *)
Definition node_isomorphic_to (n other : Node) : outcome bool :=
  isomorphic_to (nboard n) (nboard other).

(** [all(not child.isomorphic_to(other) for other in child_nodes)] *)
Fixpoint isomorphic_to_none (child : Node) (child_nodes : list Node)
  : outcome bool :=
  match child_nodes with
  | [] => Ok true
  | other :: rest =>
      r <- node_isomorphic_to child other ;;
      if r then Ok false else isomorphic_to_none child rest
  end.

(** The loop of [Node.children] over [self.next_moves]. *)
Fixpoint add_children (n : Node) (tokens_rotate : list token)
  (moves : list position) (child_nodes : list Node) : outcome (list Node) :=
  match moves with
  | [] => Ok child_nodes
  | mv :: rest =>
      child <- Node_init (nboard n) tokens_rotate (Some mv) (Some n) ;;
      match child_nodes with
      | [] => add_children n tokens_rotate rest [child]
      | _ =>
          fresh <- isomorphic_to_none child child_nodes ;;
          if fresh
          then add_children n tokens_rotate rest (child_nodes ++ [child])
          else add_children n tokens_rotate rest child_nodes
      end
  end.

(** The property [Node.children]: [None] at a node with a winner or a
    draw. *)
Definition children (n : Node) : outcome (option (list Node)) :=
  match nwinner n with
  | Some _ => Ok None
  | None =>
      let tokens_rotate :=
        match parent n, move n with
        | None, None => tokens n
        | _, _ => skipn 1 (tokens n) ++ firstn 1 (tokens n)
        end in
      match next_moves n with
      | Some moves =>
          cs <- add_children n tokens_rotate moves [] ;; Ok (Some cs)
      | None => Raise (TypeError "'NoneType' object is not iterable")
      end
  end.

Definition option_eqb {A} (eqb : A -> A -> bool) (x y : option A) : bool :=
  match x, y with
  | None, None => true
  | Some a, Some b => eqb a b
  | _, _ => false
  end.

(** [Node.__eq__] *)
Definition node_eqb (n other : Node) : bool :=
  option_eqb pos_eqb (move n) (move other)
  && option_eqb token_eqb (token_played n) (token_played other)
  && board_eqb (nboard n) (nboard other).

(** [class NodeIterator] *)
Record NodeIterator : Type := mkNodeIterator {
  node : Node;
  visited_nodes : list Node
}.

(** [Node.__iter__] *)
Definition Node_iter (n : Node) : NodeIterator := mkNodeIterator n [].

(** [get_unvisited_items] *)
Definition get_unvisited_items (visited : list Node)
  (items : option (list Node)) : option (list Node) :=
  match items with
  | None | Some [] => None
  | Some items =>
      match filter (fun item => negb (contains node_eqb item visited)) items with
      | [] => None
      | unvisited_items => Some unvisited_items
      end
  end.

(** The [while] loop of [depth_first_search]: up the parents until a node
    with an unvisited child, or the root. *)
Fixpoint ascend (visited : list Node) (current_node : Node) : outcome Node :=
  match current_node with
  | mkNode _ _ _ par _ _ _ _ =>
      cs <- children current_node ;;
      match get_unvisited_items visited cs with
      | Some _ => Ok current_node
      | None =>
          match par with
          | None => Ok current_node
          | Some p => ascend visited p
          end
      end
  end.

(** [NodeIterator.depth_first_search]; the result is the node returned and
    the iterator after the call, [Raise StopIteration] at the end.  [fuel]
    bounds the depth of the recursive calls. *)
Fixpoint depth_first_search (fuel : nat) (visited : list Node)
  (current_node : Node) : outcome (Node * NodeIterator) :=
  match fuel with
  | O => OutOfFuel
  | S fuel' =>
      cs <- children current_node ;;
      let unvisited_children := get_unvisited_items visited cs in
      current_node' <-
        match unvisited_children with
        | None =>
            if contains node_eqb current_node visited
            then match parent current_node with
                 | None => Raise StopIteration
                 | Some _ => ascend visited current_node
                 end
            else Ok current_node
        | Some _ => Ok current_node
        end ;;
      let next_node :=
        match unvisited_children with
        | Some unvisited => hd current_node' unvisited
        | None => current_node'
        end in
      if negb (contains node_eqb current_node' visited)
      then Ok (current_node',
               mkNodeIterator next_node (visited ++ [current_node']))
      else depth_first_search fuel' visited next_node
  end.

(** A call of [depth_first_search] that does not return its node calls
    itself on a node that has an unvisited child or is the root, and that
    call on a node that has not been visited: three levels always do. *)
Definition search_depth : nat := 3.

(** [NodeIterator.__next__] *)
Definition NodeIterator_next (it : NodeIterator) : outcome (Node * NodeIterator) :=
  depth_first_search search_depth (visited_nodes it) (node it).

(** [for n in node_iter]: the nodes returned until [StopIteration];
    [fuel] bounds the number of calls of [__next__]. *)
Fixpoint iterate (fuel : nat) (it : NodeIterator) : outcome (list Node) :=
  match fuel with
  | O => OutOfFuel
  | S fuel' =>
      match NodeIterator_next it with
      | Ok (n, it') => rest <- iterate fuel' it' ;; Ok (n :: rest)
      | Raise StopIteration => Ok []
      | Raise e => Raise e
      | OutOfFuel => OutOfFuel
      end
  end.

(** * Definitions used to state the properties *)

Definition cell (g : grid) (i j : nat) : token := nth j (nth i g []) empty.

Definition tabulate (n : nat) (f : nat -> nat -> token) : grid :=
  map (fun i => map (fun j => f i j) (seq 0 n)) (seq 0 n).

Definition square (n : nat) (g : grid) : Prop :=
  length g = n /\ Forall (fun row => length row = n) g.

(** A board whose grid is [n] by [n] and whose size attributes say so. *)
Definition wf_board (n : nat) (b : Board) : Prop :=
  num_rows b = Z.of_nat n /\ num_cols b = Z.of_nat n /\ square n (board b).

Definition zpos (p : nat * nat) : position := (Z.of_nat (fst p), Z.of_nat (snd p)).

(** The cells of an [n] by [n] grid, row by row. *)
Definition all_cells (n : nat) : list (nat * nat) :=
  flat_map (fun i => map (fun j => (i, j)) (seq 0 n)) (seq 0 n).

Definition cell_of (g : grid) (p : nat * nat) : token := cell g (fst p) (snd p).

Definition is_empty_cell (g : grid) (p : nat * nat) : bool :=
  token_eqb (cell_of g p) empty.

Definition is_played_cell (g : grid) (p : nat * nat) : bool :=
  negb (is_empty_cell g p).

Definition scan_step (g : grid) (b : Board) (p : nat * nat) : Board :=
  rectify_step b (zpos p) (cell_of g p).

Definition fresh_board (n : nat) : Board :=
  mkBoard (Z.of_nat n) (Z.of_nat n) (Z.of_nat n * Z.of_nat n)
    (tabulate n (fun _ _ => empty)) [] [] (map zpos (all_cells n)).

(** The board [recitfy_game_history] leaves behind for the grid [g]. *)
Definition rectified (n : nat) (g : grid) : Board :=
  mkBoard (Z.of_nat n) (Z.of_nat n) (Z.of_nat n * Z.of_nat n) g
    (map zpos (filter (is_played_cell g) (all_cells n)))
    (map (cell_of g) (filter (is_played_cell g) (all_cells n)))
    (map zpos (filter (is_empty_cell g) (all_cells n))).

(** The grids built by [rotate] and [reflect], cell by cell. *)
Definition rotate_cell (degrees : Z) (n : nat) (g : grid) (i j : nat) : token :=
  if (degrees =? 90)%Z then cell g (n - 1 - j) i
  else if (degrees =? 180)%Z then cell g (n - 1 - i) (n - 1 - j)
  else cell g j (n - 1 - i).

Definition reflect_cell (axis : string) (n : nat) (g : grid) (i j : nat) : token :=
  if str_in axis ["horizontal"; "h"]%string then cell g (n - 1 - i) j
  else if str_in axis ["vertical"; "v"]%string then cell g i (n - 1 - j)
  else if str_in axis ["main diagonal"; "md"]%string
       then cell g (n - 1 - j) (n - 1 - i)
  else cell g j i.

Definition valid_degrees (degrees : Z) : bool :=
  ((degrees =? 90) || (degrees =? 180) || (degrees =? 270))%Z.

Definition valid_axis (axis : string) : bool :=
  str_in (lower axis) ["horizontal"; "h"; "vertical"; "v";
                       "main diagonal"; "md"; "anti-diagonal"; "ad"]%string.

Definition in_range (n : nat) (p : position) : Prop :=
  (0 <= fst p < Z.of_nat n)%Z /\ (0 <= snd p < Z.of_nat n)%Z.

Definition set_cell (g : grid) (i j : nat) (tok : token) : grid :=
  replace_nth i (replace_nth j tok (nth i g [])) g.

(** Boards built by the constructor (for a size [n] that is a natural
    number), successful [play] calls with in-range coordinates and allowed
    tokens, [copy], [rotate] and [reflect]. *)
Inductive reachable (allowed : token -> Prop) : Board -> Prop :=
| reach_init (n : nat) b :
    Board_init (Z.of_nat n) (Z.of_nat n) = Ok b -> reachable allowed b
| reach_play b row col tok b' :
    reachable allowed b ->
    (0 <= row < num_rows b)%Z -> (0 <= col < num_cols b)%Z ->
    allowed tok ->
    play b row col tok = (b', Ok tt) -> reachable allowed b'
| reach_copy b b' :
    reachable allowed b -> copy b = Ok b' -> reachable allowed b'
| reach_rotate b degrees b' :
    reachable allowed b -> rotate b degrees = Ok b' -> reachable allowed b'
| reach_reflect b axis b' :
    reachable allowed b -> reflect b axis = Ok b' -> reachable allowed b'.

Definition any_token (t : token) : Prop := True.
Definition player_token (t : token) : Prop := t <> empty.

(** The histories split the coordinates of an [n] by [n] board. *)
Record partitioned (n : nat) (b : Board) : Prop := mkPartitioned {
  part_wf : wf_board n b;
  part_nodup : NoDup (played_positions b ++ empty_cells b);
  part_cover : forall p, In p (played_positions b ++ empty_cells b) <-> in_range n p;
  part_count : length (played_positions b) + length (empty_cells b) = n * n
}.

(** The empty marker sits exactly on the cells listed in [empty_cells]. *)
Definition marked (n : nat) (b : Board) : Prop :=
  forall p, In p (all_cells n) ->
            (cell_of (board b) p = empty <-> In (zpos p) (empty_cells b)).

(** A 3 by 3 board after one move, used to exercise the statements. *)
Definition demo_board : Board := fst (play (fresh_board 3) 0 0 "X").

(** The grid of each of the eight symmetries of a square grid, in the order
    [isomorphisms] computes them. *)
Definition rotated (n : nat) (degrees : Z) (g : grid) : grid :=
  tabulate n (rotate_cell degrees n g).

Definition reflected (n : nat) (axis : string) (g : grid) : grid :=
  tabulate n (reflect_cell axis n g).

Definition orbit (n : nat) (g : grid) : list grid :=
  [g; rotated n 90 g; rotated n 180 g; rotated n 270 g;
   reflected n "h" g; reflected n "v" g; reflected n "md" g; reflected n "ad" g].

(** A legal position after three moves, symmetric under the half turn. *)
Definition diag_board : Board :=
  fst (play (fst (play (fst (play (fresh_board 3) 0 0 "O")) 1 1 "X")) 2 2 "O").

(** A 3 by 3 board with one token off both diagonals. *)
Definition edge_board : Board := fst (play (fresh_board 3) 0 1 "X").

(** The lines of an [n] by [n] grid in the order the specification gives:
    the rows from the top, the columns from the left, the main diagonal,
    the anti-diagonal. *)
Definition lines_in_order (n : nat) (g : grid) : list (list token) :=
  g ++ tabulate n (fun i j => cell g j i)
    ++ [map (fun i => cell g i i) (seq 0 n);
        map (fun i => cell g i (n - 1 - i)) (seq 0 n)].

(** A line wins when all its cells hold one token that is not the empty
    marker. *)
Definition winning_line (line : list token) : bool :=
  match line with
  | [] => false
  | t :: _ => forallb (fun cell => token_eqb t cell) line && negb (token_eqb t empty)
  end.

(** The token of the first winning line, if there is one. *)
Definition first_winner (lines : list (list token)) : option token :=
  match find winning_line lines with
  | Some line => Some (hd empty line)
  | None => None
  end.

(** Two simultaneous lines of different tokens, row 0 of ["X"] and row 2
    of ["O"]: [play] does not look for a winner, so the moves X (0,0),
    O (2,0), X (0,1), O (2,1), X (0,2), O (2,2), X (1,0) all succeed. *)
Definition two_winners_board : Board :=
  fst (play (fst (play (fst (play (fst (play (fst (play (fst (play (fst (play
    (fresh_board 3) 0 0 "X")) 2 0 "O")) 0 1 "X")) 2 1 "O")) 0 2 "X"))
    2 2 "O")) 1 0 "X").

(** ** The permutation search *)

(** [p] starts with the moves [played]. *)
Definition starts_with (played p : perm) : bool :=
  perm_eqb (firstn (length played) p) played.

(** [p] starts with the moves [played] and goes on after them. *)
Definition extends (played p : perm) : Prop :=
  starts_with played p = true /\ length played < length p.

(** The entry of [p] right after the moves [played]. *)
Definition next_of (played p : perm) : position :=
  nth (length played) p (0%Z, 0%Z).

(** The outcome table restricted to the permutations that start with the
    moves played. *)
Definition surviving (cl : closure) (played : perm) : dict perm token :=
  filter (fun e => starts_with played (fst e)) (winners cl).

(** The candidate next moves. *)
Definition candidates (cl : closure) (played : perm) : list position :=
  map (fun e => next_of played (fst e)) (surviving cl played).

(** The values collected for the candidate [m], and their mean score, the
    number that [statistics.mean] returns for them. *)
Definition values_for (cl : closure) (played : perm) (tok : token)
  (m : position) : list Z :=
  map (fun e => value_of (snd e) tok)
      (filter (fun e => pos_eqb (next_of played (fst e)) m) (surviving cl played)).

(** A value between -100 and 100. *)
Definition score (v : Z) : Prop := (-100 <= v <= 100)%Z.

Definition mean_of (values : list Z) : Q :=
  match mean values with
  | Ok score => score
  | _ => 0%Q
  end.

Definition mean_score (cl : closure) (played : perm) (tok : token)
  (m : position) : Q :=
  mean_of (values_for cl played tok m).

(** The arithmetic mean itself, and the arithmetic mean of the values
    collected for the candidate [m]. *)
Definition exact_mean (values : list Z) : Q :=
  Qdiv (inject_Z (fold_right Z.add 0%Z values))
       (inject_Z (Z.of_nat (length values))).

(** The rational [s] is within [2^-46] of the quotient of [a] by [n]. *)
Definition near (s : Q) (a n : Z) : Prop :=
  (Z.abs (Qnum s * n - a * QDen s) * 2 ^ 46 <= n * QDen s)%Z.

Definition exact_score (cl : closure) (played : perm) (tok : token)
  (m : position) : Q :=
  exact_mean (values_for cl played tok m).

(** A legal position after four moves, with five cells left. *)
Definition midgame_board : Board :=
  fst (play (fst (play (fst (play (fst (play (fresh_board 3)
    0 0 "O")) 1 1 "X")) 0 1 "O")) 0 2 "X").

(** A search set up on the empty 2 by 2 board, and a board one move into
    that game. *)
Definition small_search : closure :=
  match full_tree_search (fresh_board 2) ["O"; "X"]%string with
  | Ok cl => cl
  | _ => mkClosure [] []
  end.

Definition small_query : Board := fst (play (fresh_board 2) 0 0 "O").

(** A search set up on a game that has already started. *)
Definition midgame_search : closure :=
  match full_tree_search midgame_board ["O"; "X"]%string with
  | Ok cl => cl
  | _ => mkClosure [] []
  end.

(** A table made by hand (no search builds it), on which the candidate
    moves of the empty 2 by 2 board have different mean scores for ["O"]:
    100/3 for (0,0), 200/3 for (0,1), 0 for (1,0). *)
Definition sample_table : closure :=
  let outcomes : dict perm token :=
    [([(0, 0); (0, 1)], "O"); ([(0, 0); (1, 0)], "O"); ([(0, 0); (1, 1)], "X");
     ([(0, 1); (0, 0)], "O"); ([(0, 1); (1, 0)], "Draw"); ([(0, 1); (1, 1)], "O");
     ([(1, 0); (0, 0)], "X"); ([(1, 0); (0, 1)], "O")]%Z%string in
  mkClosure (map fst outcomes) outcomes.

Definition no_sample : exn :=
  ValueError "Sample larger than population or is negative".

(** ** The game tree and its traversal *)

(** The children of a node as a list (none at a terminal node). *)
Definition kids (x : Node) : list Node :=
  match children x with
  | Ok (Some cs) => cs
  | _ => []
  end.

(** The items that are not equal to any visited node. *)
Definition unvisited (visited : list Node) (items : list Node) : list Node :=
  filter (fun item => negb (contains node_eqb item visited)) items.

(** Depth-first, pre-order traversal with a visited list: [preorder h x v]
    lists [x], then in turn the traversal of every child that is equal to
    no node seen so far ([v], then the nodes listed before).  [h] bounds
    the height of the subtree. *)
Fixpoint preorder_kids (pre : Node -> list Node -> list Node)
  (cs : list Node) (v : list Node) : list Node :=
  match cs with
  | [] => []
  | c :: rest =>
      if contains node_eqb c v then preorder_kids pre rest v
      else let new := pre c v in new ++ preorder_kids pre rest (v ++ new)
  end.

Fixpoint preorder (h : nat) (x : Node) (v : list Node) : list Node :=
  match h with
  | O => [x]
  | S h' => x :: preorder_kids (preorder h') (kids x) (v ++ [x])
  end.

(** The number of moves left below a node bounds the height of its
    subtree. *)
Definition height (x : Node) : nat := length (empty_cells (nboard x)).

(** The traversal the specification describes, from the node [root]. *)
Definition traversal (root : Node) : list Node := preorder (height root) root [].

(** What [__next__] returns when it visits [c]. *)
Definition visit (c : Node) (v : list Node) : outcome (Node * NodeIterator) :=
  Ok (c, mkNodeIterator (hd c (unvisited v (kids c))) (v ++ [c])).

(** A visited node none of whose children is left to visit. *)
Definition finished (v : list Node) (z : Node) : Prop :=
  (exists cs, children z = Ok cs)
  /\ contains node_eqb z v = true
  /\ unvisited v (kids z) = [].

(** [y] lies below [x] and every node from [y] up to [x] is finished. *)
Inductive exhausted (v : list Node) (x : Node) : Node -> Prop :=
| ex_here : finished v x -> exhausted v x x
| ex_up y p :
    finished v y -> parent y = Some p -> exhausted v x p -> exhausted v x y.

(** [k] calls of [__next__]. *)
Fixpoint drain (k : nat) (it : NodeIterator)
  : outcome (list Node * NodeIterator) :=
  match k with
  | O => Ok ([], it)
  | S k' =>
      r <- NodeIterator_next it ;;
      r' <- drain k' (snd r) ;;
      Ok (fst r :: fst r', snd r')
  end.

(** No two nodes of the list are equal as nodes. *)
Fixpoint distinct (l : list Node) : Prop :=
  match l with
  | [] => True
  | x :: l' => contains node_eqb x l' = false /\ distinct l'
  end.

(** [n] is [x] or below it in the tree. *)
Inductive below (x : Node) : Node -> Prop :=
| below_refl : below x x
| below_kid p c : below x p -> In c (kids p) -> below x c.

(** [empty_cells] lists the empty cells of the grid row by row. *)
Definition canonical (n : nat) (b : Board) : Prop :=
  empty_cells b = map zpos (filter (is_empty_cell (board b)) (all_cells n)).

(** The attribute [winner] of a node with board [b]: the result of
    [winner()], ['Draw'] for a full board without a winner. *)
Definition classify (b : Board) : option token :=
  match winner b with
  | Ok (Some t) => Some t
  | Ok None => if full b then Some "Draw"%string else None
  | _ => None
  end.

(** The node [Node.__init__] builds around the board [b1] it has played
    on. *)
Definition node_of (b1 : Board) (toks : list token) (mv : option position)
  (par : option Node) (tp : option token) : Node :=
  mkNode b1 toks mv par tp (classify b1) (full b1)
    (match classify b1 with
     | None => Some (empty_cells b1)
     | Some _ => None
     end).

(** The token list [children] hands to the children of [x]. *)
Definition rot (l : list token) : list token := skipn 1 l ++ firstn 1 l.

Definition tokens_rotate (x : Node) : list token :=
  match parent x, move x with
  | None, None => tokens x
  | _, _ => rot (tokens x)
  end.

(** The candidate child of [x] for the move [mv]. *)
Definition child_of (x : Node) (mv : position) : Node :=
  let t := hd empty (tokens_rotate x) in
  node_of (fst (play (nboard x) (fst mv) (snd mv) t))
          (tokens_rotate x) (Some mv) (Some x) (Some t).

Definition iso_b (c o : Node) : bool :=
  match isomorphic_to (nboard c) (nboard o) with
  | Ok r => r
  | _ => false
  end.

(** The candidates kept by [children]: those isomorphic to no candidate
    kept before. *)
Fixpoint keep_new (cands kept : list Node) : list Node :=
  match cands with
  | [] => kept
  | c :: rest =>
      if forallb (fun o => negb (iso_b c o)) kept
      then keep_new rest (kept ++ [c])
      else keep_new rest kept
  end.

(** The token list of the nodes [d] levels below [root]. *)
Fixpoint sched (root : Node) (d : nat) : list token :=
  match d with
  | O => tokens root
  | S d' =>
      match d' with
      | O => tokens_rotate root
      | S _ => rot (sched root d')
      end
  end.

Definition played (x : Node) : nat := length (played_positions (nboard x)).

(** What holds of every node of the tree under [root]. *)
Definition node_inv (root x : Node) : Prop :=
  reachable player_token (nboard x)
  /\ (0 < num_rows (nboard x))%Z
  /\ x = node_of (nboard x) (tokens x) (move x) (parent x) (token_played x)
  /\ tokens x = sched root (played x - played root)
  /\ played root <= played x
  /\ (x = root
      \/ exists q mv, parent x = Some q /\ move x = Some mv
                      /\ played root < played x).

(** Nodes that are equal and sit on [n] by [n] boards. *)
Definition alike (n : nat) (a b : Node) : Prop :=
  node_eqb a b = true /\ wf_board n (nboard a) /\ wf_board n (nboard b).

(** The dictionary [next_moves] after the entries [done]: each next move
    is a key, with the values of its entries in order. *)
Section Grouping.
Context {E : Type} (key : E -> position) (val : E -> Z).

Definition group_step (d : dict position (list Z)) (e : E) :=
  dict_append pos_eqb (key e) (val e) d.

Definition values_of (m : position) (done : list E) : list Z :=
  map val (filter (fun e => pos_eqb (key e) m) done).

Definition grouped (d : dict position (list Z)) (done : list E) : Prop :=
  NoDup (map fst d)
  /\ (forall m vs, In (m, vs) d -> vs = values_of m done /\ vs <> [])
  /\ (forall e, In e done -> In (key e) (map fst d)).
End Grouping.

(** The root of the game tree of the 2 by 2 board, and the first child of
    a node. *)
Definition small_root : Node :=
  node_of (fresh_board 2) ["O"; "X"]%string None None None.

Definition first_child (x : Node) : Node := hd x (kids x).

(** Playing the moves [moves] in order, with the tokens [toks]. *)
Fixpoint play_all (b : Board) (moves : list position) (toks : list token)
  : Board * outcome unit :=
  match moves, toks with
  | m :: ms, t :: ts =>
      match play b (fst m) (snd m) t with
      | (b', Ok _) => play_all b' ms ts
      | (b', r) => (b', r)
      end
  | _, _ => (b, Ok tt)
  end.

(** A 3 by 3 board with O in the centre, as read before and after a move
    in cell (0, 0) of the board that [derive] makes from it. *)
Definition original_around (derive : Heap.Board -> Heap.M Heap.Board)
  : outcome (Board * Board) :=
  snd (Heap.mbind (Heap.Board_init 3 3) (fun b =>
       Heap.mbind (Heap.play b 1 1 "O") (fun _ =>
       Heap.mbind (fun h => (h, Heap.view h b)) (fun before =>
       Heap.mbind (derive b) (fun r =>
       Heap.mbind (Heap.play r 0 0 "X") (fun _ =>
       Heap.mbind (fun h => (h, Heap.view h b)) (fun after =>
       Heap.ret (before, after))))))) []).


(** * Further definitions *)

(** ** board.py *)

(** The coordinates of the lines of an [n] by [n] grid, in the order of
    [lines_in_order]. *)
Definition line_cells (n : nat) : list (list (nat * nat)) :=
  map (fun i => map (fun j => (i, j)) (seq 0 n)) (seq 0 n)
  ++ map (fun i => map (fun j => (j, i)) (seq 0 n)) (seq 0 n)
  ++ [map (fun i => (i, i)) (seq 0 n); map (fun i => (i, n - 1 - i)) (seq 0 n)].

(** The token in the grid at a position. *)
Definition token_at (b : Board) (p : position) : token :=
  cell (board b) (Z.to_nat (fst p)) (Z.to_nat (snd p)).

(** The properties [BoardIterator.row] and [BoardIterator.col]. *)
Definition iter_row (it : BoardIterator) : outcome (list token) :=
  getitem (it_board it) (row_id it).

Definition iter_col (it : BoardIterator) : outcome (list token) :=
  mapM (fun row => cell_at (it_board it) row (col_id it))
       (range (it_num_rows it)).

(** [[(it.row_id, it.col_id, cell, it.row, it.col) for cell in it]]: the
    cells a [for] loop over the iterator sees, each with the coordinates
    and the row and column the iterator shows for it. *)
Fixpoint iterate_cells (fuel : nat) (it : BoardIterator)
  : outcome (list (position * token * list token * list token)) :=
  match fuel with
  | O => OutOfFuel
  | S fuel' =>
      match iter_next it with
      | None => Ok []
      | Some (cell, it') =>
          r <- iter_row it' ;;
          c <- iter_col it' ;;
          rest <- iterate_cells fuel' it' ;;
          Ok (((row_id it', col_id it'), cell, r, c) :: rest)
      end
  end.

(** [Board.__iter__] *)
Definition Board_iter (b : Board) : BoardIterator := BoardIterator_init (board b).

(** Row [i] and column [j] of a grid. *)
Definition row_of (n : nat) (g : grid) (i : nat) : list token :=
  map (fun j => cell g i j) (seq 0 n).

Definition column_of (n : nat) (g : grid) (j : nat) : list token :=
  map (fun i => cell g i j) (seq 0 n).

(** The board after X (0,0), as a position to overwrite. *)
Definition negative_play : Board * outcome unit := play demo_board (-3) (-3) "O".

(** A 2 by 2 game that O wins with the top row. *)
Definition won_board : Board :=
  fst (play (fst (play (fst (play (fresh_board 2) 0 0 "O")) 1 0 "X")) 0 1 "O").

(** What a loop over the iterator of an [n] by [n] grid sees at the cell
    [p]. *)
Definition seen_at (n : nat) (g : grid) (p : nat * nat)
  : position * token * list token * list token :=
  (zpos p, cell_of g p, row_of n g (fst p), column_of n g (snd p)).

(** The token [t] fills a row, a column or a diagonal of the grid. *)
Definition holds_line (n : nat) (g : grid) (t : token) : Prop :=
  t <> empty
  /\ ((exists i, i < n /\ forall j, j < n -> cell g i j = t)
      \/ (exists j, j < n /\ forall i, i < n -> cell g i j = t)
      \/ (forall i, i < n -> cell g i i = t)
      \/ (forall i, i < n -> cell g i (n - 1 - i) = t)).

(** ** game_tree.py *)

(** The property [Node.turn_number]. *)
Fixpoint turn_number (x : Node) : Z :=
  match x with
  | mkNode _ _ mv par _ _ _ _ =>
      match par with
      | None => match mv with None => 0%Z | Some _ => 1%Z end
      | Some p => (turn_number p + 1)%Z
      end
  end.

(** The property [Node.siblings]; [sibling != self] is the negation of
    [Node.__eq__]. *)
Definition siblings (x : Node) : outcome (option (list Node)) :=
  match parent x with
  | None => Ok None
  | Some p =>
      cs <- children p ;;
      match cs with
      | None => Raise (TypeError "'NoneType' object is not iterable")
      | Some l => Ok (Some (filter (fun sibling => negb (node_eqb sibling x)) l))
      end
  end.

(** The root of a game tree: a node made without a parent from a board of
    a game and a non-empty list of player tokens. *)
Definition game_root (root : Node) : Prop :=
  exists b toks mv,
    reachable player_token b /\ toks <> [] /\ Forall player_token toks
    /\ Node_init b toks mv None = Ok root.

(** No board of a node of the list is isomorphic to the board of another
    one. *)
Fixpoint non_isomorphic (l : list Node) : Prop :=
  match l with
  | [] => True
  | c :: l' =>
      (forall d, In d l' -> node_isomorphic_to d c = Ok false
                            /\ node_isomorphic_to c d = Ok false)
      /\ non_isomorphic l'
  end.

(** ** algorithms.py *)

(** [sequential(board)] *)
Definition sequential (b : Board) : option position :=
  match empty_cells b with
  | [] => None
  | c :: _ => Some c
  end.

(** [random_search(board)]; [rnd] is the number the generator draws. *)
Definition random_search (rnd : nat) (b : Board) : outcome (option position) :=
  match empty_cells b with
  | [] => Ok None
  | _ => m <- random_sample_one rnd (empty_cells b) ;; Ok (Some m)
  end.


(** ** player.py and game.py *)

(** A player object after its constructor: the attribute values, and the
    [algorithm] of a [ComputerPlayer] ([None] for a [HumanPlayer] or a
    plain [Player]).  An algorithm is called with the board; the number it
    gets first is the number the random generator draws during the call
    ([sequential] ignores it). *)
Record Player : Type := mkPlayer {
  pname : string;
  ptype : string;
  ptoken : token;
  algorithm : option (nat -> Board -> outcome (option position))
}.

(** [AttributeError], which [add_player] raises, next to the exceptions of
    the board. *)
Inductive failure : Type :=
| Builtin (e : exn)
| AttributeError (msg : string).

Inductive result (A : Type) : Type :=
| Done (a : A)
| Failed (f : failure).

Arguments Done {A} a.
Arguments Failed {A} f.

(** What [play_turn] makes of a line typed by a human player: ['exit'],
    ['skip'], two integers, or a line for which
    [row, col = [int(i) for i in usr_input.split(' ')]] raises
    [ValueError]. *)
Inductive command : Type :=
| Exit
| Skip
| Move (row col : Z)
| Malformed (msg : string).

(** [class Game].  [ticks] is no attribute: it counts the lines read from
    the console and the algorithm calls so far, and tells which line or
    random draw comes next. *)
Record Game : Type := mkGame {
  gboard : Board;
  players : list Player;
  token_lookup : dict token Player;
  player_counter : dict Player Z;
  round_num : Z;
  exit_flag : bool;
  ticks : nat
}.

(** [k in d] *)
Definition dict_mem {K V} (eqb : K -> K -> bool) (k : K) (d : dict K V) : bool :=
  existsb (fun e => eqb (fst e) k) d.

Definition set_gboard (g : Game) (b : Board) : Game :=
  mkGame b (players g) (token_lookup g) (player_counter g) (round_num g)
         (exit_flag g) (ticks g).

Definition tick (g : Game) : Game :=
  mkGame (gboard g) (players g) (token_lookup g) (player_counter g)
         (round_num g) (exit_flag g) (S (ticks g)).

Section Game.

(** The library functions and the console the game depends on:
    [str(player)], on which [Player.__eq__] and [Player.__hash__] rest;
    [token.strip() == ''];  the line that the [k]-th call of [input]
    returns; and the reading of a line as a command. *)
Variable render : Player -> string.
Variable is_blank : token -> bool.
Variable console : nat -> string.
Variable parse : string -> command.

(** [Player.__eq__] *)
Definition player_eqb (p q : Player) : bool := String.eqb (render p) (render q).

(** [Game.__init__] *)
Definition Game_init (b : Board) (players : option (list Player)) : outcome Game :=
  match players with
  | None => Ok (mkGame b [] [] [] 1 false 0)
  | Some ps =>
      let player_tokens := map ptoken ps in
      if negb (length (nodup string_dec player_tokens) =? length ps)
      then Raise (AssertionError "Each player must have a unique token!")
      else if contains token_eqb empty player_tokens
      then Raise (AssertionError "' ' is not a valid token!")
      else
        Ok (mkGame b ps
              (fold_left (fun d player => dict_set token_eqb (ptoken player) player d)
                         ps [])
              (fold_left (fun d ip => dict_set player_eqb (snd ip) (fst ip + 1)%Z d)
                         (combine (range (Z.of_nat (length ps))) ps) [])
              1 false 0)
  end.

(** The property [Game.winner] *)
Definition Game_winner (g : Game) : outcome (option Player) :=
  w <- winner (gboard g) ;;
  match w with
  | None => Ok None
  | Some t => player <- dict_get token_eqb t (token_lookup g) ;; Ok (Some player)
  end.

(** [Game.add_player]; the game next to the result is the game after the
    call, with the changes made before an exception. *)
Definition add_player (g : Game) (player : Player) : Game * result unit :=
  if dict_mem token_eqb (ptoken player) (token_lookup g)
  then (g, Failed (AttributeError
                     ("Player with token '" ++ ptoken player
                        ++ "' already playing! Pick another token.")))
  else if is_blank (ptoken player) || token_eqb (ptoken player) empty
  then (g, Failed (AttributeError
                     ("Token '" ++ ptoken player
                        ++ "' is not a valid token! Pick another token.")))
  else
    let g1 := mkGame (gboard g) (players g ++ [player])
                (dict_set token_eqb (ptoken player) player (token_lookup g))
                (player_counter g) (round_num g) (exit_flag g) (ticks g) in
    match map snd (player_counter g) with
    | [] => (g1, Failed (Builtin (ValueError "max() arg is an empty sequence")))
    | x :: values =>
        let player_id := (fold_left Z.max values x + 1)%Z in
        (mkGame (gboard g1) (players g1) (token_lookup g1)
           (dict_set player_eqb player player_id (player_counter g1))
           (round_num g1) (exit_flag g1) (ticks g1),
         Done tt)
    end.

(** [Game.welcome]: the look-ups behind its prints. *)
Definition welcome (g : Game) : outcome unit :=
  _ <- mapM (fun player => dict_get player_eqb player (player_counter g))
            (players g) ;;
  Ok tt.

(** [Game.play_turn] for a human player: the [while True] loop, one line
    of the console per round of it. *)
Fixpoint human_turn (fuel : nat) (g : Game) (player : Player)
  : Game * outcome unit :=
  match fuel with
  | O => (g, OutOfFuel)
  | S fuel' =>
      let usr_input := console (ticks g) in
      let g := tick g in
      match parse usr_input with
      | Exit =>
          (mkGame (gboard g) (players g) (token_lookup g) (player_counter g)
                  (round_num g) true (ticks g),
           Ok tt)
      | Skip => (g, Ok tt)
      | Malformed msg => (g, Raise (ValueError msg))
      | Move row col =>
          let (b', r) := play (gboard g) (row - 1) (col - 1) (ptoken player) in
          match r with
          | Ok _ => (set_gboard g b', Ok tt)
          | Raise (IndexError _) => human_turn fuel' (set_gboard g b') player
          | Raise e => (set_gboard g b', Raise e)
          | OutOfFuel => (set_gboard g b', OutOfFuel)
          end
      end
  end.

(** [Game.play_turn]: [input('Play turn...')] reads a line; then a
    computer player asks its algorithm and plays the answer, a human
    player types moves. *)
Definition play_turn (fuel : nat) (g : Game) (player : Player)
  : Game * outcome unit :=
  let g := tick g in
  match algorithm player with
  | Some alg =>
      let answer := alg (ticks g) (gboard g) in
      let g := tick g in
      match answer with
      | Ok (Some (row, col)) =>
          let (b', r) := play (gboard g) row col (ptoken player) in
          (set_gboard g b', r)
      | Ok None =>
          (g, Raise (TypeError "cannot unpack non-iterable NoneType object"))
      | Raise e => (g, Raise e)
      | OutOfFuel => (g, OutOfFuel)
      end
  | None => human_turn fuel g player
  end.

(** The [for] loop of [Game.play_round]; the result tells whether the
    loop ended with [return]. *)
Fixpoint round_turns (fuel : nat) (g : Game) (ps : list Player)
  : Game * outcome bool :=
  match ps with
  | [] => (g, Ok false)
  | player :: rest =>
      let (g1, r) := play_turn fuel g player in
      match r with
      | Ok _ =>
          if exit_flag g1 then (g1, Ok true)
          else
            match Game_winner g1 with
            | Ok (Some _) => (g1, Ok true)
            | Ok None =>
                if full (gboard g1) then (g1, Ok true)
                else round_turns fuel g1 rest
            | Raise e => (g1, Raise e)
            | OutOfFuel => (g1, OutOfFuel)
            end
      | Raise e => (g1, Raise e)
      | OutOfFuel => (g1, OutOfFuel)
      end
  end.

(** [Game.play_round] *)
Definition play_round (fuel : nat) (g : Game) : Game * outcome unit :=
  let (g1, r) := round_turns fuel g (players g) in
  match r with
  | Ok true => (g1, Ok tt)
  | Ok false =>
      (mkGame (gboard g1) (players g1) (token_lookup g1) (player_counter g1)
              (round_num g1 + 1)%Z (exit_flag g1) (ticks g1),
       Ok tt)
  | Raise e => (g1, Raise e)
  | OutOfFuel => (g1, OutOfFuel)
  end.

(** The [while] loop of [Game.play_game]; [fuel] bounds the number of
    rounds (and of lines a human player may type in one turn). *)
Fixpoint game_loop (fuel : nat) (g : Game) : Game * outcome unit :=
  match fuel with
  | O => (g, OutOfFuel)
  | S fuel' =>
      match Game_winner g with
      | Ok (Some _) => (g, Ok tt)
      | Ok None =>
          if exit_flag g then (g, Ok tt)
          else if full (gboard g) then (g, Ok tt)
          else
            let (g1, r) := play_round fuel' g in
            match r with
            | Ok _ => game_loop fuel' g1
            | Raise e => (g1, Raise e)
            | OutOfFuel => (g1, OutOfFuel)
            end
      | Raise e => (g, Raise e)
      | OutOfFuel => (g, OutOfFuel)
      end
  end.

(** [Game.exit_game]: what it evaluates for its prints. *)
Definition exit_game (g : Game) : outcome unit :=
  _ <- Game_winner g ;; Ok tt.

(** [Game.play_game] *)
Definition play_game (fuel : nat) (g : Game) : Game * outcome unit :=
  match welcome g with
  | Ok _ =>
      let (g1, r) := game_loop fuel g in
      match r with
      | Ok _ => (g1, exit_game g1)
      | Raise e => (g1, Raise e)
      | OutOfFuel => (g1, OutOfFuel)
      end
  | Raise e => (g, Raise e)
  | OutOfFuel => (g, OutOfFuel)
  end.

End Game.

(** An algorithm that, on a board of a game with an empty cell, returns
    one of the empty cells. *)
Definition finds_empty_cell (alg : nat -> Board -> outcome (option position))
  : Prop :=
  forall rnd b, reachable player_token b -> full b = false ->
                exists m, alg rnd b = Ok (Some m) /\ In m (empty_cells b).

(** Two computer players that play [sequential]. *)
Definition alice : Player :=
  mkPlayer "Alice" "Computer" "O" (Some (fun _ b => Ok (sequential b))).

Definition bob : Player :=
  mkPlayer "Bob" "Computer" "X" (Some (fun _ b => Ok (sequential b))).

(** [Game(Board())], a game made without players. *)
Definition empty_game : Game := mkGame (fresh_board 3) [] [] [] 1 false 0.

(** The game of [alice] and [bob] on the empty 2 by 2 board. *)
Definition two_player_game : Game :=
  mkGame (fresh_board 2) [alice; bob] [("O"%string, alice); ("X"%string, bob)]
         [(alice, 1%Z); (bob, 2%Z)] 1 false 0.

(** A third player. *)
Definition carol : Player := mkPlayer "Carol" "Human" "Y" None.

(** [str(player)] for the three players. *)
Definition show (p : Player) : string := (ptype p ++ " " ++ pname p)%string.

(** Computer players with different tokens, none of them the empty
    marker, whose algorithms find an empty cell. *)
Definition computer_players (ps : list Player) : Prop :=
  NoDup (map ptoken ps)
  /\ Forall (fun p => ptoken p <> empty
                      /\ exists alg, algorithm p = Some alg /\ finds_empty_cell alg)
            ps.

(** A game of the players [ps] that is under way: nobody has left, and
    all tokens on the board are tokens of the players. *)
Definition in_play (ps : list Player) (g : Game) : Prop :=
  reachable player_token (gboard g)
  /\ (0 < num_rows (gboard g))%Z
  /\ players g = ps
  /\ token_lookup g = map (fun p => (ptoken p, p)) ps
  /\ exit_flag g = false
  /\ Forall (fun t => In t (map ptoken ps)) (played_tokens (gboard g)).

(** A game of [carol] alone on the board after X (0,0), and a console on
    which she types a move with row 0. *)
Definition carol_game : Game :=
  mkGame demo_board [carol] [("Y"%string, carol)] [(carol, 1%Z)] 1 false 0.

Definition reads_row_zero (line : string) : command := Move 0 2.

(** ** misc.py *)

(** [range(a, b)] *)
Definition range_from (a b : Z) : list Z :=
  map (fun k => (a + Z.of_nat k)%Z) (seq 0 (Z.to_nat (b - a))).

(** [reduce(mul, l)], without an initial value. *)
Definition reduce_mul (l : list Z) : outcome Z :=
  match l with
  | [] => Raise (TypeError "reduce() of empty iterable with no initial value")
  | x :: l' => Ok (fold_left Z.mul l' x)
  end.

(** The loop of [f]: [total += reduce(mul, range(i, x+1))] for each [i]. *)
Fixpoint f_loop (x : Z) (indices : list Z) (total : Z) : outcome Z :=
  match indices with
  | [] => Ok total
  | i :: rest =>
      product <- reduce_mul (range_from i (x + 1)) ;;
      f_loop x rest (total + product)
  end.

(** [f(x)] *)
Definition f (x : Z) : outcome Z := f_loop x (range_from 1 (x + 1)) 0.

(** The number of non-empty sequences of different cells out of [n]: a
    first cell, alone or followed by a sequence out of the other
    [n - 1]. *)
Fixpoint move_sequences (n : nat) : Z :=
  match n with
  | O => 0
  | S m => Z.of_nat n * (1 + move_sequences m)
  end.


(** ** Boards on the heap *)

(** The list objects of a board in the heap [h]: the outer list of the
    grid, the three history lists, and the rows the outer list holds. *)
Definition grid_rows (h : Heap.heap) (b : Heap.Board) : list Heap.loc :=
  match nth_error h (Heap.board b) with
  | Some (Heap.Refs rows) => rows
  | _ => []
  end.

Definition lists_of (h : Heap.heap) (b : Heap.Board) : list Heap.loc :=
  Heap.board b :: Heap.played_positions b :: Heap.played_tokens b
    :: Heap.empty_cells b :: grid_rows h b.

(** The heaps [h] and [h'] hold the same object at [l]. *)
Definition same_at (h h' : Heap.heap) (l : Heap.loc) : Prop :=
  nth_error h' l = nth_error h l.

(** The attributes of [b] are bound, in [h], to lists with the values of
    [s]: [Heap.view] spelled out. *)
Definition holds (h : Heap.heap) (b : Heap.Board) (s : Board) : Prop :=
  exists rows,
    nth_error h (Heap.board b) = Some (Heap.Refs rows)
    /\ Forall2 (fun l cells => nth_error h l = Some (Heap.Tokens cells))
               rows (board s)
    /\ nth_error h (Heap.played_positions b)
       = Some (Heap.Coords (played_positions s))
    /\ nth_error h (Heap.played_tokens b)
       = Some (Heap.Tokens (played_tokens s))
    /\ nth_error h (Heap.empty_cells b) = Some (Heap.Coords (empty_cells s))
    /\ num_rows s = Heap.num_rows b
    /\ num_cols s = Heap.num_cols b
    /\ num_cells s = Heap.num_cells b.

(** The heaps that calls of [play] on the board [b] lead to from [h],
    whatever the calls return or raise. *)
Inductive played_on (b : Heap.Board) (h : Heap.heap) : Heap.heap -> Prop :=
| played_none : played_on b h h
| played_more (h1 h2 : Heap.heap) (row col : Z) (tok : token) (r : outcome unit) :
    played_on b h h1 ->
    Heap.play b row col tok h1 = (h2, r) ->
    played_on b h h2.

(** Objects of the same kind; for an outer list of a grid, with the same
    rows. *)
Definition same_kind (o o' : Heap.obj) : Prop :=
  match o, o' with
  | Heap.Tokens _, Heap.Tokens _ => True
  | Heap.Coords _, Heap.Coords _ => True
  | Heap.Refs rows, Heap.Refs rows' => rows = rows'
  | _, _ => False
  end.

(** From [h] to [h'] only the lists at the locations [L] changed their
    values: no list was made, none changed its kind, and no outer list of
    a grid changed at all. *)
Definition frame (L : list Heap.loc) (h h' : Heap.heap) : Prop :=
  length h' = length h
  /\ (forall l, ~ In l L -> same_at h h' l)
  /\ (forall l o, nth_error h l = Some o ->
        exists o', nth_error h' l = Some o' /\ same_kind o o').

(** The board with O in the centre, as the heap that [Board()] and
    [play(1, 1, 'O')] leave, and its attribute values. *)
Definition centre_board : Heap.Board := Heap.mkBoard 3 3 9 3 4 5 6.

Definition centre_heap : Heap.heap :=
  fst (Heap.play centre_board 1 1 "O" (fst (Heap.Board_init 3 3 []))).

Definition centre_values : Board := fst (play (fresh_board 3) 1 1 "O").


(** * Facts about the embedding *)

(** ** Python subscripts and loops over [range] *)

Lemma bind_Ok {A B} (c : outcome A) (k : A -> outcome B) (b : B) :
  bind c k = Ok b -> exists a, c = Ok a /\ k a = Ok b.
Proof. destruct c; simpl; intros H; try discriminate; eauto. Qed.

Lemma norm_index_nat (len k : nat) :
  k < len -> norm_index len (Z.of_nat k) = Some k.
Proof.
  intros H. unfold norm_index.
  replace ((0 <=? Z.of_nat k) && (Z.of_nat k <? Z.of_nat len))%Z with true.
  - now rewrite Nat2Z.id.
  - symmetry. apply andb_true_iff. split; [apply Z.leb_le | apply Z.ltb_lt]; lia.
Qed.

Lemma norm_index_in_range (len : nat) (i : Z) :
  (0 <= i < Z.of_nat len)%Z -> norm_index len i = Some (Z.to_nat i).
Proof.
  intros H. rewrite <- (Z2Nat.id i) at 1 by lia.
  apply norm_index_nat. lia.
Qed.

Lemma getitem_nat {A} (l : list A) (k : nat) :
  getitem l (Z.of_nat k)
  = match nth_error l k with Some x => Ok x | None => Raise index_error end.
Proof.
  unfold getitem. destruct (Nat.lt_ge_cases k (length l)) as [H | H].
  - now rewrite norm_index_nat.
  - replace (nth_error l k) with (@None A) by (symmetry; now apply nth_error_None).
    unfold norm_index.
    destruct ((0 <=? Z.of_nat k) && (Z.of_nat k <? Z.of_nat (length l)))%Z eqn:E1.
    + apply andb_true_iff in E1. destruct E1 as [_ E1]. apply Z.ltb_lt in E1. lia.
    + destruct ((- Z.of_nat (length l) <=? Z.of_nat k) && (Z.of_nat k <? 0))%Z eqn:E2;
        [|reflexivity].
      apply andb_true_iff in E2. destruct E2 as [_ E2]. apply Z.ltb_lt in E2. lia.
Qed.

Lemma getitem_nth {A} (l : list A) (k : nat) (d : A) :
  k < length l -> getitem l (Z.of_nat k) = Ok (nth k l d).
Proof.
  intros H. rewrite getitem_nat. now rewrite (nth_error_nth' l d H).
Qed.

Lemma range_of_nat (n : nat) : range (Z.of_nat n) = map Z.of_nat (seq 0 n).
Proof. unfold range. now rewrite Nat2Z.id. Qed.

Lemma mapM_Ok_map {A B} (f : A -> outcome B) (g : A -> B) (l : list A) :
  (forall x, In x l -> f x = Ok (g x)) -> mapM f l = Ok (map g l).
Proof.
  induction l as [|x l IH]; intros H; simpl; [reflexivity|].
  rewrite (H x) by now left. simpl.
  rewrite IH by (intros y Hy; apply H; now right). reflexivity.
Qed.

Lemma mapM_range {B} (f : Z -> outcome B) (g : nat -> B) (n : nat) :
  (forall k, k < n -> f (Z.of_nat k) = Ok (g k)) ->
  mapM f (range (Z.of_nat n)) = Ok (map g (seq 0 n)).
Proof.
  intros H. rewrite range_of_nat.
  assert (E : forall l, (forall k, In k l -> k < n) ->
                        mapM f (map Z.of_nat l) = Ok (map g l)).
  { induction l as [|k l IH]; intros Hl; simpl; [reflexivity|].
    rewrite H by (apply Hl; now left). simpl.
    rewrite IH by (intros j Hj; apply Hl; now right). reflexivity. }
  apply E. intros k Hk. apply in_seq in Hk. lia.
Qed.

(** ** Square grids as tables *)

Lemma nth_map_seq {A} (f : nat -> A) (n i : nat) (d : A) :
  i < n -> nth i (map f (seq 0 n)) d = f i.
Proof.
  intros H. rewrite (nth_indep _ d (f 0)) by (rewrite length_map, length_seq; exact H).
  rewrite map_nth. now rewrite seq_nth.
Qed.

Lemma list_as_map_seq {A} (l : list A) (d : A) :
  l = map (fun i => nth i l d) (seq 0 (length l)).
Proof.
  apply (nth_ext _ _ d d).
  - now rewrite length_map, length_seq.
  - intros i Hi. now rewrite nth_map_seq.
Qed.

Lemma rev_map_seq {A} (f : nat -> A) (n : nat) :
  rev (map f (seq 0 n)) = map (fun i => f (n - 1 - i)) (seq 0 n).
Proof.
  destruct n as [|m]; [reflexivity|].
  apply (nth_ext _ _ (f 0) (f 0)).
  - now rewrite length_rev, !length_map.
  - intros i Hi. rewrite length_rev, length_map, length_seq in Hi.
    rewrite rev_nth by (rewrite length_map, length_seq; exact Hi).
    rewrite length_map, length_seq.
    rewrite !nth_map_seq by lia. f_equal. lia.
Qed.

Lemma square_tabulate n f : square n (tabulate n f).
Proof.
  split.
  - unfold tabulate. now rewrite length_map, length_seq.
  - apply Forall_forall. intros row Hrow. unfold tabulate in Hrow.
    apply in_map_iff in Hrow. destruct Hrow as [i [<- _]].
    now rewrite length_map, length_seq.
Qed.

Lemma cell_tabulate n f i j : i < n -> j < n -> cell (tabulate n f) i j = f i j.
Proof.
  intros Hi Hj. unfold cell, tabulate.
  rewrite (nth_map_seq (fun i => map (fun j => f i j) (seq 0 n))) by exact Hi.
  now rewrite nth_map_seq.
Qed.

Lemma square_row_length n g i : square n g -> i < n -> length (nth i g []) = n.
Proof.
  intros [Hl Hr] Hi. rewrite Forall_forall in Hr. apply Hr.
  apply nth_In. lia.
Qed.

Lemma square_as_tabulate n g : square n g -> g = tabulate n (cell g).
Proof.
  intros H. unfold tabulate. destruct H as [Hl Hr].
  rewrite (list_as_map_seq g []) at 1. rewrite Hl.
  apply map_ext_in. intros i Hi. apply in_seq in Hi.
  rewrite (list_as_map_seq (nth i g []) empty) at 1.
  rewrite (square_row_length (g := g) (n := n)) by (try split; auto; lia).
  reflexivity.
Qed.

Lemma tabulate_ext n f f' :
  (forall i j, i < n -> j < n -> f i j = f' i j) -> tabulate n f = tabulate n f'.
Proof.
  intros H. unfold tabulate. apply map_ext_in. intros i Hi. apply in_seq in Hi.
  apply map_ext_in. intros j Hj. apply in_seq in Hj. apply H; lia.
Qed.

Lemma square_ext n g g' :
  square n g -> square n g' ->
  (forall i j, i < n -> j < n -> cell g i j = cell g' i j) -> g = g'.
Proof.
  intros H H' E. rewrite (square_as_tabulate H), (square_as_tabulate H').
  now apply tabulate_ext.
Qed.

Lemma rev_tabulate n f :
  rev (tabulate n f) = tabulate n (fun i j => f (n - 1 - i) j).
Proof. unfold tabulate. now rewrite rev_map_seq. Qed.

Lemma map_rev_tabulate n f :
  map (fun row => rev row) (tabulate n f) = tabulate n (fun i j => f i (n - 1 - j)).
Proof.
  unfold tabulate. rewrite map_map. apply map_ext. intros i.
  now rewrite rev_map_seq.
Qed.

Lemma cell_at_nat (g : grid) (n i j : nat) :
  square n g -> i < n -> j < n ->
  cell_at g (Z.of_nat i) (Z.of_nat j) = Ok (cell g i j).
Proof.
  intros H Hi Hj. unfold cell_at, cell.
  rewrite (getitem_nth g []) by (destruct H; lia). simpl.
  apply getitem_nth. rewrite (square_row_length H Hi). exact Hj.
Qed.

Lemma columns_wf n b :
  wf_board n b -> columns b = Ok (tabulate n (fun i j => cell (board b) j i)).
Proof.
  intros (Hr & Hc & Hs). unfold columns. rewrite Hr, Hc.
  apply mapM_range. intros i Hi.
  apply mapM_range. intros j Hj. now apply cell_at_nat with (n := n).
Qed.

Lemma main_diagonal_wf n b :
  wf_board n b -> main_diagonal b = Ok (map (fun i => cell (board b) i i) (seq 0 n)).
Proof.
  intros (Hr & Hc & Hs). unfold main_diagonal. rewrite Hr.
  apply mapM_range. intros i Hi. now apply cell_at_nat with (n := n).
Qed.

Lemma anti_diagonal_wf n b :
  wf_board n b ->
  anti_diagonal b = Ok (map (fun i => cell (board b) i (n - 1 - i)) (seq 0 n)).
Proof.
  intros (Hr & Hc & Hs). unfold anti_diagonal. rewrite Hr, Hc.
  apply mapM_range. intros i Hi.
  replace (Z.of_nat n - Z.of_nat i - 1)%Z with (Z.of_nat (n - 1 - i)) by lia.
  apply cell_at_nat with (n := n); auto; lia.
Qed.

(** ** The board iterator and [recitfy_game_history] on a square grid *)

Lemma iter_next_inside n g i j ri ci N :
  square n g -> i < n -> j < n ->
  iter_next (mkIter g N (Z.of_nat i) (Z.of_nat j) ri ci)
  = Some (cell g i j,
          if S j <? n
          then mkIter g N (Z.of_nat i) (Z.of_nat (S j)) (Z.of_nat i) (Z.of_nat j)
          else mkIter g N (Z.of_nat (S i)) 0%Z (Z.of_nat i) (Z.of_nat j)).
Proof.
  intros H Hi Hj. unfold iter_next. simpl.
  rewrite (cell_at_nat H Hi Hj).
  assert (Hw : length (hd [] g) = n).
  { destruct g as [|r0 g']; [destruct H as [H _]; simpl in H; lia|].
    apply (square_row_length (i := 0) H). lia. }
  rewrite Hw.
  destruct (S j <? n) eqn:E.
  - apply Nat.ltb_lt in E.
    replace (Z.of_nat j <? Z.of_nat n - 1)%Z with true
      by (symmetry; apply Z.ltb_lt; lia).
    repeat f_equal; lia.
  - apply Nat.ltb_ge in E.
    replace (Z.of_nat j <? Z.of_nat n - 1)%Z with false
      by (symmetry; apply Z.ltb_ge; lia).
    repeat f_equal; lia.
Qed.

Lemma iter_next_end n g ri ci N :
  square n g -> iter_next (mkIter g N (Z.of_nat n) 0%Z ri ci) = None.
Proof.
  intros [Hl _]. unfold iter_next, cell_at. simpl.
  rewrite getitem_nat.
  replace (nth_error g n) with (@None (list token))
    by (symmetry; apply nth_error_None; lia).
  reflexivity.
Qed.

Lemma rectify_row n g i N :
  square n g -> i < n ->
  forall k j ri ci b fuel,
    j + S k = n ->
    rectify_loop (S k + fuel) (mkIter g N (Z.of_nat i) (Z.of_nat j) ri ci) b
    = rectify_loop fuel
        (mkIter g N (Z.of_nat (S i)) 0%Z (Z.of_nat i) (Z.of_nat (n - 1)))
        (fold_left (scan_step g) (map (fun j => (i, j)) (seq j (S k))) b).
Proof.
  intros H Hi. induction k as [|k IH]; intros j ri ci b fuel Hj.
  - simpl. rewrite (iter_next_inside _ _ _ H Hi) by lia.
    replace (S j <? n) with false by (symmetry; apply Nat.ltb_ge; lia).
    simpl. replace (n - 1) with j by lia. reflexivity.
  - change (S (S k) + fuel) with (S (S k + fuel)).
    cbn [rectify_loop]. rewrite (iter_next_inside _ _ _ H Hi) by lia.
    replace (S j <? n) with true by (symmetry; apply Nat.ltb_lt; lia).
    cbn [row_id col_id].
    rewrite IH by lia. reflexivity.
Qed.

Lemma rectify_rows n g N :
  square n g ->
  forall m i ri ci b,
    i + m = n ->
    rectify_loop (S (m * n)) (mkIter g N (Z.of_nat i) 0%Z ri ci) b
    = Ok (fold_left (scan_step g)
            (flat_map (fun i => map (fun j => (i, j)) (seq 0 n)) (seq i m)) b).
Proof.
  intros H. induction m as [|m IH]; intros i ri ci b Hi.
  - simpl. replace i with n by lia. now rewrite (iter_next_end _ _ _ H).
  - destruct n as [|n']; [lia|].
    replace (S (S m * S n')) with (S n' + S (m * S n')) by lia.
    rewrite (rectify_row (n := S n') (i := i) N H) with (j := 0) by lia.
    rewrite IH by lia.
    cbn [seq flat_map]. now rewrite fold_left_app.
Qed.

Lemma fold_scan_step g l : forall b,
  fold_left (scan_step g) l b
  = mkBoard (num_rows b) (num_cols b) (num_cells b) (board b)
      (played_positions b ++ map zpos (filter (is_played_cell g) l))
      (played_tokens b ++ map (cell_of g) (filter (is_played_cell g) l))
      (empty_cells b ++ map zpos (filter (is_empty_cell g) l)).
Proof.
  induction l as [|p l IH]; intros b.
  - simpl. rewrite !app_nil_r. now destruct b.
  - simpl. rewrite IH. unfold scan_step, rectify_step, is_played_cell, is_empty_cell.
    destruct (token_eqb (cell_of g p) empty); simpl;
      now rewrite <- ?app_assoc.
Qed.

(** On a square grid the loop ends within its fuel and lists the cells row
    by row. *)
Lemma recitfy_game_history_square n b :
  square n (board b) ->
  recitfy_game_history b
  = Ok (mkBoard (num_rows b) (num_cols b) (num_cells b) (board b)
          (map zpos (filter (is_played_cell (board b)) (all_cells n)))
          (map (cell_of (board b)) (filter (is_played_cell (board b)) (all_cells n)))
          (map zpos (filter (is_empty_cell (board b)) (all_cells n)))).
Proof.
  intros H. unfold recitfy_game_history, BoardIterator_init, rectify_fuel.
  assert (Hf : length (board b) * length (hd [] (board b)) = n * n).
  { destruct H as [Hl Hr]. destruct (board b) as [|r0 g'] eqn:E.
    - simpl in Hl. subst n. reflexivity.
    - rewrite Hl. simpl. inversion Hr; subst. congruence. }
  rewrite Hf.
  rewrite (rectify_rows (n := n) _ H) with (i := 0) by lia.
  now rewrite fold_scan_step.
Qed.

(** ** What the constructor, [copy], [rotate] and [reflect] return *)

Lemma init_cells (l1 l2 : list nat) :
  flat_map (fun i => map (fun j => (i, j)) (map Z.of_nat l2)) (map Z.of_nat l1)
  = map zpos (flat_map (fun i => map (fun j => (i, j)) l2) l1).
Proof.
  induction l1 as [|i l1 IH]; simpl; [reflexivity|].
  rewrite IH, map_app, !map_map. reflexivity.
Qed.

Lemma Board_init_square (n : nat) :
  Board_init (Z.of_nat n) (Z.of_nat n) = Ok (fresh_board n).
Proof.
  unfold Board_init. rewrite Z.eqb_refl. simpl.
  unfold fresh_board, all_cells, tabulate. rewrite range_of_nat, init_cells, !map_map.
  reflexivity.
Qed.

Lemma copy_wf n b :
  wf_board n b ->
  copy b = Ok (mkBoard (Z.of_nat n) (Z.of_nat n) (Z.of_nat n * Z.of_nat n)
                 (board b) (played_positions b) (played_tokens b) (empty_cells b)).
Proof.
  intros (Hr & Hc & Hs). unfold copy. rewrite Hr, Hc, Board_init_square. simpl.
  unfold rows. now rewrite map_id.
Qed.

Lemma rotate_wf n b degrees :
  wf_board n b -> valid_degrees degrees = true ->
  rotate b degrees
  = Ok (rectified n (tabulate n (rotate_cell degrees n (board b)))).
Proof.
  intros Hwf Hd. pose proof Hwf as (Hr & Hc & Hs).
  unfold rotate. fold (valid_degrees degrees). rewrite Hd. simpl.
  rewrite Hr, Hc, Board_init_square. simpl.
  assert (E : (if (degrees =? 90)%Z
               then cols <- columns b ;; Ok (map (fun column => rev column) cols)
               else if (degrees =? 180)%Z
               then Ok (map (fun row => rev row) (rev (rows b)))
               else cols <- columns b ;; Ok (rev cols))
              = Ok (tabulate n (rotate_cell degrees n (board b)))).
  { unfold rotate_cell, rows. rewrite (columns_wf Hwf).
    destruct (degrees =? 90)%Z; [|destruct (degrees =? 180)%Z]; simpl.
    - now rewrite map_rev_tabulate.
    - rewrite (square_as_tabulate Hs) at 1.
      now rewrite rev_tabulate, map_rev_tabulate.
    - now rewrite rev_tabulate. }
  rewrite E. simpl.
  rewrite (recitfy_game_history_square (n := n)) by apply square_tabulate.
  reflexivity.
Qed.

Lemma reflect_wf n b axis :
  wf_board n b -> valid_axis axis = true ->
  reflect b axis
  = Ok (rectified n (tabulate n (reflect_cell (lower axis) n (board b)))).
Proof.
  intros Hwf Ha. pose proof Hwf as (Hr & Hc & Hs).
  unfold reflect. fold (valid_axis axis). rewrite Ha. cbn [negb].
  rewrite (copy_wf Hwf). cbn [bind].
  assert (E : (if str_in (lower axis) ["horizontal"; "h"]%string
               then Ok (rev (rows b))
               else if str_in (lower axis) ["vertical"; "v"]%string
               then Ok (map (fun row => rev row) (rows b))
               else if str_in (lower axis) ["main diagonal"; "md"]%string
               then cols <- columns b ;;
                    Ok (map (fun column => rev column) (rev cols))
               else cols <- columns b ;; Ok cols)
              = Ok (tabulate n (reflect_cell (lower axis) n (board b)))).
  { unfold reflect_cell, rows. rewrite (columns_wf Hwf).
    destruct (str_in (lower axis) ["horizontal"; "h"]%string);
      [|destruct (str_in (lower axis) ["vertical"; "v"]%string);
        [|destruct (str_in (lower axis) ["main diagonal"; "md"]%string)]]; simpl.
    - rewrite (square_as_tabulate Hs) at 1. now rewrite rev_tabulate.
    - rewrite (square_as_tabulate Hs) at 1. now rewrite map_rev_tabulate.
    - now rewrite rev_tabulate, map_rev_tabulate.
    - reflexivity. }
  rewrite E. cbn [bind].
  rewrite (recitfy_game_history_square (n := n)) by apply square_tabulate.
  reflexivity.
Qed.

Lemma rectified_wf n g : square n g -> wf_board n (rectified n g).
Proof. intros H. repeat split; simpl; apply H. Qed.

(** ** Positions *)

Lemma pos_eqb_eq (p q : position) : pos_eqb p q = true <-> p = q.
Proof.
  destruct p as [a b], q as [c d]. unfold pos_eqb. simpl.
  rewrite andb_true_iff, !Z.eqb_eq. split.
  - intros [-> ->]. reflexivity.
  - intros E. inversion E. auto.
Qed.

Lemma contains_pos_In (p : position) (l : list position) :
  contains pos_eqb p l = true <-> In p l.
Proof.
  unfold contains. rewrite existsb_exists. split.
  - intros [q [Hq E]]. apply pos_eqb_eq in E. now subst.
  - intros H. exists p. split; [exact H | now apply pos_eqb_eq].
Qed.

Lemma zpos_inj (p q : nat * nat) : zpos p = zpos q -> p = q.
Proof.
  destruct p as [a b], q as [c d]. unfold zpos. simpl. intros E.
  inversion E. f_equal; lia.
Qed.

Lemma NoDup_map_zpos (l : list (nat * nat)) : NoDup l -> NoDup (map zpos l).
Proof.
  induction 1 as [|p l Hp Hl IH]; simpl; constructor; [|exact IH].
  intros Hin. apply in_map_iff in Hin. destruct Hin as [q [E Hq]].
  apply zpos_inj in E. now subst.
Qed.

Lemma In_all_cells n p : In p (all_cells n) <-> fst p < n /\ snd p < n.
Proof.
  unfold all_cells. rewrite in_flat_map. split.
  - intros [i [Hi Hp]]. apply in_map_iff in Hp. destruct Hp as [j [<- Hj]].
    apply in_seq in Hi, Hj. simpl. lia.
  - intros [Hi Hj]. exists (fst p). split; [apply in_seq; lia|].
    apply in_map_iff. exists (snd p). split; [now destruct p | apply in_seq; lia].
Qed.

Lemma NoDup_pairs (l1 l2 : list nat) :
  NoDup l1 -> NoDup l2 ->
  NoDup (flat_map (fun i => map (fun j => (i, j)) l2) l1).
Proof.
  intros H1 H2. induction H1 as [|i l1 Hi Hl IH]; simpl; [constructor|].
  apply NoDup_app.
  - clear -H2. induction H2 as [|j l2 Hj Hl IH]; simpl; constructor; [|exact IH].
    intros Hin. apply in_map_iff in Hin. destruct Hin as [k [E Hk]].
    inversion E. now subst.
  - exact IH.
  - intros [a b] Ha Hb. apply in_map_iff in Ha. destruct Ha as [j [E _]].
    inversion E; subst. apply in_flat_map in Hb. destruct Hb as [k [Hk Hb]].
    apply in_map_iff in Hb. destruct Hb as [j' [E' _]]. inversion E'; subst.
    contradiction.
Qed.

Lemma NoDup_all_cells n : NoDup (all_cells n).
Proof. apply NoDup_pairs; apply seq_NoDup. Qed.

Lemma length_all_cells n : length (all_cells n) = n * n.
Proof.
  unfold all_cells.
  rewrite (flat_map_constant_length (c := n)).
  - now rewrite length_seq.
  - intros i _. now rewrite length_map, length_seq.
Qed.

Lemma in_range_zpos n p :
  in_range n p <-> exists q, p = zpos q /\ In q (all_cells n).
Proof.
  split.
  - intros [H1 H2]. exists (Z.to_nat (fst p), Z.to_nat (snd p)). split.
    + destruct p as [a b]. unfold zpos. simpl in *. f_equal; lia.
    + apply In_all_cells. simpl. lia.
  - intros [q [-> Hq]]. apply In_all_cells in Hq. unfold in_range, zpos. simpl. lia.
Qed.

Lemma NoDup_filter_split {A} (f : A -> bool) (l : list A) :
  NoDup l -> NoDup (filter (fun x => negb (f x)) l ++ filter f l).
Proof.
  intros H. apply NoDup_app; try now apply NoDup_filter.
  intros a Ha Hb. apply filter_In in Ha, Hb.
  destruct Ha as [_ Ha], Hb as [_ Hb]. rewrite Hb in Ha. discriminate.
Qed.

Lemma In_filter_split {A} (f : A -> bool) (l : list A) (a : A) :
  In a (filter (fun x => negb (f x)) l ++ filter f l) <-> In a l.
Proof.
  rewrite in_app_iff, !filter_In. destruct (f a); simpl; intuition congruence.
Qed.

(** ** [list.remove] *)

Lemma list_remove_split (p : position) (l : list position) :
  In p l ->
  exists l1 l2, l = l1 ++ p :: l2 /\ list_remove pos_eqb p l = Ok (l1 ++ l2).
Proof.
  induction l as [|q l IH]; intros H; [contradiction|].
  simpl. destruct (pos_eqb q p) eqn:E.
  - apply pos_eqb_eq in E. subst. now exists [], l.
  - destruct H as [-> | H].
    + assert (pos_eqb p p = true) by now apply pos_eqb_eq. congruence.
    + destruct (IH H) as (l1 & l2 & -> & R). exists (q :: l1), l2.
      rewrite R. now split.
Qed.

Lemma list_remove_absent (p : position) (l : list position) :
  ~ In p l ->
  list_remove pos_eqb p l = Raise (ValueError "list.remove(x): x not in list").
Proof.
  induction l as [|q l IH]; intros H; [reflexivity|].
  simpl. destruct (pos_eqb q p) eqn:E.
  - apply pos_eqb_eq in E. subst. exfalso. apply H. now left.
  - rewrite IH; [reflexivity|]. intros Hin. apply H. now right.
Qed.

(** ** Assigning one cell *)

Lemma length_replace_nth {A} (k : nat) (x : A) (l : list A) :
  length (replace_nth k x l) = length l.
Proof.
  revert k. induction l as [|y l IH]; intros [|k]; simpl; auto.
Qed.

Lemma nth_replace_nth {A} (k i : nat) (x d : A) (l : list A) :
  k < length l ->
  nth i (replace_nth k x l) d = if Nat.eqb i k then x else nth i l d.
Proof.
  revert k i. induction l as [|y l IH]; intros [|k] [|i] H; simpl in *;
    try lia; try reflexivity.
  apply IH. lia.
Qed.

Lemma square_set_cell n g i j tok :
  square n g -> i < n -> j < n -> square n (set_cell g i j tok).
Proof.
  intros H Hi Hj. pose proof H as [Hl Hr]. split.
  - unfold set_cell. now rewrite length_replace_nth.
  - apply Forall_forall. intros row Hrow.
    apply (In_nth _ _ []) in Hrow. destruct Hrow as [k [Hk <-]].
    unfold set_cell in *. rewrite length_replace_nth in Hk.
    rewrite nth_replace_nth by lia.
    destruct (Nat.eqb k i).
    + rewrite length_replace_nth. apply (square_row_length H Hi).
    + apply (square_row_length H). lia.
Qed.

Lemma cell_set_cell n g i j tok i' j' :
  square n g -> i < n -> j < n ->
  cell (set_cell g i j tok) i' j'
  = if Nat.eqb i' i && Nat.eqb j' j then tok else cell g i' j'.
Proof.
  intros H Hi Hj. pose proof H as [Hl Hr]. unfold cell, set_cell.
  rewrite nth_replace_nth by lia.
  destruct (Nat.eqb i' i) eqn:E; simpl; [|reflexivity].
  apply Nat.eqb_eq in E. subst i'.
  rewrite nth_replace_nth by (rewrite (square_row_length H Hi); exact Hj).
  reflexivity.
Qed.

(** The grid part of a successful [play]. *)
Lemma play_grid n g (row col : Z) tok :
  square n g -> in_range n (row, col) ->
  exists r,
    getitem g row = Ok r /\
    setitem r col tok = Ok (replace_nth (Z.to_nat col) tok r) /\
    setitem g row (replace_nth (Z.to_nat col) tok r)
    = Ok (set_cell g (Z.to_nat row) (Z.to_nat col) tok).
Proof.
  intros H [Hr Hc]. simpl in Hr, Hc. pose proof H as [Hl Hrows].
  exists (nth (Z.to_nat row) g []). split; [|split].
  - rewrite <- (Z2Nat.id row) at 1 by lia. apply getitem_nth. lia.
  - unfold setitem. rewrite norm_index_in_range; [reflexivity|].
    rewrite (square_row_length (n := n)); auto; lia.
  - unfold setitem. rewrite norm_index_in_range by lia. reflexivity.
Qed.

(** ** Boards reachable through the interface, and what holds of them *)

Lemma reachable_mono (P Q : token -> Prop) b :
  (forall t, P t -> Q t) -> reachable P b -> reachable Q b.
Proof.
  intros HPQ H. induction H.
  - eapply reach_init; eauto.
  - eapply reach_play; eauto.
  - eapply reach_copy; eauto.
  - eapply reach_rotate; eauto.
  - eapply reach_reflect; eauto.
Qed.

Lemma token_eqb_eq (s t : token) : token_eqb s t = true <-> s = t.
Proof. apply String.eqb_eq. Qed.

Lemma cell_tabulate_const n p :
  In p (all_cells n) -> cell_of (tabulate n (fun _ _ => empty)) p = empty.
Proof.
  intros H. apply In_all_cells in H. unfold cell_of. now rewrite cell_tabulate.
Qed.

Lemma fresh_partitioned n : partitioned n (fresh_board n).
Proof.
  constructor; simpl.
  - repeat split; apply square_tabulate.
  - apply NoDup_map_zpos, NoDup_all_cells.
  - intros p. rewrite in_range_zpos. split.
    + intros H. apply in_map_iff in H. destruct H as [q [<- Hq]]. eauto.
    + intros [q [-> Hq]]. now apply in_map.
  - now rewrite length_map, length_all_cells.
Qed.

Lemma fresh_marked n : marked n (fresh_board n).
Proof.
  intros p Hp. simpl. split.
  - intros _. now apply in_map.
  - intros _. now apply cell_tabulate_const.
Qed.

Lemma rectified_partitioned n g : square n g -> partitioned n (rectified n g).
Proof.
  intros H. constructor; simpl.
  - now apply rectified_wf.
  - rewrite <- map_app. apply NoDup_map_zpos.
    apply (NoDup_filter_split (is_empty_cell g)), NoDup_all_cells.
  - intros p. rewrite <- map_app, in_range_zpos. split.
    + intros Hin. apply in_map_iff in Hin. destruct Hin as [q [<- Hq]].
      apply (proj1 (In_filter_split (is_empty_cell g) (all_cells n) q)) in Hq.
      exists q. now split.
    + intros [q [-> Hq]]. apply in_map.
      now apply (proj2 (In_filter_split (is_empty_cell g) (all_cells n) q)).
  - rewrite !length_map. unfold is_played_cell.
    rewrite Nat.add_comm, filter_length. apply length_all_cells.
Qed.

Lemma rectified_marked n g : marked n (rectified n g).
Proof.
  intros p Hp. simpl. split.
  - intros E. apply in_map. apply filter_In. split; [exact Hp|].
    unfold is_empty_cell. now apply token_eqb_eq.
  - intros Hin. apply in_map_iff in Hin. destruct Hin as [q [E Hq]].
    apply zpos_inj in E. subst q. apply filter_In in Hq.
    now apply token_eqb_eq.
Qed.

(** What a successful [play] does to a partitioned board. *)
Lemma play_partitioned n b row col tok :
  partitioned n b -> in_range n (row, col) ->
  ~ In (row, col) (played_positions b) ->
  exists l1 l2,
    empty_cells b = l1 ++ (row, col) :: l2 /\
    play b row col tok
    = (mkBoard (num_rows b) (num_cols b) (num_cells b)
         (set_cell (board b) (Z.to_nat row) (Z.to_nat col) tok)
         (played_positions b ++ [(row, col)])
         (played_tokens b ++ [tok])
         (l1 ++ l2),
       Ok tt).
Proof.
  intros Hp Hr Hn. destruct Hp as [(Hnr & Hnc & Hs) Hnd Hcov Hcnt].
  assert (Hin : In (row, col) (empty_cells b)).
  { apply Hcov in Hr. apply in_app_iff in Hr. tauto. }
  destruct (list_remove_split _ _ Hin) as (l1 & l2 & E & R).
  exists l1, l2. split; [exact E|].
  unfold play.
  replace (contains pos_eqb (row, col) (played_positions b)) with false.
  2:{ symmetry. apply not_true_is_false. now rewrite contains_pos_In. }
  destruct (play_grid tok Hs Hr) as (r & G1 & G2 & G3).
  rewrite G1, G2, G3, R. reflexivity.
Qed.

Lemma play_keeps_partitioned n b row col tok b' :
  partitioned n b -> in_range n (row, col) ->
  play b row col tok = (b', Ok tt) -> partitioned n b'.
Proof.
  intros Hp Hr Hplay.
  assert (Hn : ~ In (row, col) (played_positions b)).
  { intros Hin. apply contains_pos_In in Hin. unfold play in Hplay.
    rewrite Hin in Hplay. discriminate. }
  destruct (play_partitioned tok Hp Hr Hn) as (l1 & l2 & E & P).
  rewrite P in Hplay. inversion Hplay; subst b'; clear Hplay.
  destruct Hp as [(Hnr & Hnc & Hs) Hnd Hcov Hcnt].
  assert (Hperm : Permutation
                    (played_positions b ++ empty_cells b)
                    ((played_positions b ++ [(row, col)]) ++ l1 ++ l2)).
  { rewrite E, <- app_assoc. apply Permutation_app_head. simpl.
    apply Permutation_sym, Permutation_middle. }
  constructor; simpl.
  - destruct Hr as [Hr1 Hr2]. simpl in Hr1, Hr2. unfold wf_board. simpl.
    split; [exact Hnr | split; [exact Hnc|]].
    apply square_set_cell; auto; lia.
  - eapply Permutation_NoDup; eauto.
  - intros p. rewrite <- Hcov. split; intros H.
    + eapply Permutation_in; [apply Permutation_sym|]; eauto.
    + eapply Permutation_in; eauto.
  - apply Permutation_length in Hperm.
    rewrite !length_app in Hperm. rewrite !length_app. simpl in *. lia.
Qed.

Lemma play_keeps_marked n b row col tok b' :
  partitioned n b -> marked n b -> in_range n (row, col) -> tok <> empty ->
  play b row col tok = (b', Ok tt) -> marked n b'.
Proof.
  intros Hp Hm Hr Htok Hplay.
  assert (Hn : ~ In (row, col) (played_positions b)).
  { intros Hin. apply contains_pos_In in Hin. unfold play in Hplay.
    rewrite Hin in Hplay. discriminate. }
  destruct (play_partitioned tok Hp Hr Hn) as (l1 & l2 & E & P).
  rewrite P in Hplay. inversion Hplay; subst b'; clear Hplay.
  destruct Hp as [(Hnr & Hnc & Hs) Hnd Hcov Hcnt].
  destruct Hr as [Hr1 Hr2]. simpl in Hr1, Hr2.
  assert (Hnd2 : NoDup (l1 ++ (row, col) :: l2)).
  { rewrite <- E. eapply NoDup_app_remove_l; eauto. }
  intros p Hpc. simpl. unfold cell_of.
  rewrite (cell_set_cell (n := n)) by (auto; lia).
  specialize (Hm p Hpc). rewrite E in Hm. unfold cell_of in Hm.
  destruct (Nat.eqb (fst p) (Z.to_nat row) && Nat.eqb (snd p) (Z.to_nat col)) eqn:Eq.
  - apply andb_true_iff in Eq. destruct Eq as [E1 E2].
    apply Nat.eqb_eq in E1, E2.
    assert (Ez : zpos p = (row, col)).
    { unfold zpos. rewrite E1, E2. f_equal; lia. }
    rewrite Ez. split; [intros; contradiction|].
    intros Hin. exfalso. apply NoDup_remove_2 in Hnd2. contradiction.
  - rewrite Hm. rewrite !in_app_iff. simpl.
    assert (Hne : (row, col) <> zpos p).
    { intros Ez. unfold zpos in Ez. inversion Ez; subst.
      rewrite !Nat2Z.id, !Nat.eqb_refl in Eq. discriminate. }
    tauto.
Qed.

Lemma reachable_partitioned (allowed : token -> Prop) b :
  reachable allowed b -> exists n, partitioned n b.
Proof.
  induction 1 as [n b Hb | b row col tok b' Hb [n IH] Hr Hc Htok Hplay
                 | b b' Hb [n IH] Hcopy | b d b' Hb [n IH] Hrot
                 | b a b' Hb [n IH] Hrefl].
  - rewrite Board_init_square in Hb. inversion Hb; subst.
    exists n. apply fresh_partitioned.
  - exists n. eapply play_keeps_partitioned; eauto.
    destruct IH as [(Hnr & Hnc & _) _ _ _]. split; simpl; lia.
  - exists n. rewrite (copy_wf (part_wf IH)) in Hcopy. inversion Hcopy; subst.
    destruct IH as [(Hnr & Hnc & Hs) Hnd Hcov Hcnt].
    constructor; simpl; auto. unfold wf_board. simpl. auto.
  - exists n. destruct (valid_degrees d) eqn:Ed.
    + rewrite (rotate_wf d (part_wf IH) Ed) in Hrot. inversion Hrot; subst.
      apply rectified_partitioned, square_tabulate.
    + unfold rotate in Hrot. fold (valid_degrees d) in Hrot.
      rewrite Ed in Hrot. discriminate.
  - exists n. destruct (valid_axis a) eqn:Ea.
    + rewrite (reflect_wf a (part_wf IH) Ea) in Hrefl. inversion Hrefl; subst.
      apply rectified_partitioned, square_tabulate.
    + unfold reflect in Hrefl. fold (valid_axis a) in Hrefl.
      rewrite Ea in Hrefl. discriminate.
Qed.

Lemma reachable_wf (allowed : token -> Prop) (n : nat) (b : Board) :
  reachable allowed b -> num_rows b = Z.of_nat n -> wf_board n b.
Proof.
  intros H Hn. destruct (reachable_partitioned H) as [m Hp].
  pose proof (part_wf Hp) as Hw. destruct Hw as (Hnr & _).
  assert (m = n) by lia. subst m. exact (part_wf Hp).
Qed.

Lemma reachable_marked b :
  reachable player_token b -> exists n, partitioned n b /\ marked n b.
Proof.
  induction 1 as [n b Hb | b row col tok b' Hb [n [IH IM]] Hr Hc Htok Hplay
                 | b b' Hb [n [IH IM]] Hcopy | b d b' Hb [n [IH IM]] Hrot
                 | b a b' Hb [n [IH IM]] Hrefl].
  - rewrite Board_init_square in Hb. inversion Hb; subst.
    exists n. split; [apply fresh_partitioned | apply fresh_marked].
  - assert (Hin : in_range n (row, col)).
    { destruct IH as [(Hnr & Hnc & _) _ _ _]. split; simpl; lia. }
    exists n. split.
    + eapply play_keeps_partitioned; eauto.
    + eapply play_keeps_marked; eauto.
  - exists n. rewrite (copy_wf (part_wf IH)) in Hcopy. inversion Hcopy; subst.
    split; [|exact IM].
    destruct IH as [(Hnr & Hnc & Hs) Hnd Hcov Hcnt].
    constructor; simpl; auto. unfold wf_board. simpl. auto.
  - exists n. destruct (valid_degrees d) eqn:Ed.
    + rewrite (rotate_wf d (part_wf IH) Ed) in Hrot. inversion Hrot; subst.
      split; [apply rectified_partitioned, square_tabulate | apply rectified_marked].
    + unfold rotate in Hrot. fold (valid_degrees d) in Hrot.
      rewrite Ed in Hrot. discriminate.
  - exists n. destruct (valid_axis a) eqn:Ea.
    + rewrite (reflect_wf a (part_wf IH) Ea) in Hrefl. inversion Hrefl; subst.
      split; [apply rectified_partitioned, square_tabulate | apply rectified_marked].
    + unfold reflect in Hrefl. fold (valid_axis a) in Hrefl.
      rewrite Ea in Hrefl. discriminate.
Qed.


(** * Properties of [Board] *)

Lemma cell_at_in_range n g row col :
  square n g -> in_range n (row, col) ->
  cell_at g row col = Ok (cell g (Z.to_nat row) (Z.to_nat col)).
Proof.
  intros H [Hr Hc]. simpl in Hr, Hc.
  rewrite <- (Z2Nat.id row) at 1 by lia. rewrite <- (Z2Nat.id col) at 1 by lia.
  apply cell_at_nat with (n := n); auto; lia.
Qed.

Lemma demo_board_reachable (allowed : token -> Prop) :
  allowed "X"%string -> reachable allowed demo_board.
Proof.
  intros HX.
  apply reach_play with (b := fresh_board 3) (row := 0%Z) (col := 0%Z)
                        (tok := "X"%string).
  - apply reach_init with (n := 3). reflexivity.
  - simpl. lia.
  - simpl. lia.
  - exact HX.
  - reflexivity.
Defined.

(** C5, as the code has it.  On every board obtained from a freshly
    constructed board of a size [n >= 0] by successful plays, at in-range
    coordinates, of tokens that differ from the empty marker, and on every
    copy, rotation or reflection of such a board: [played_positions]
    and [empty_cells] have no element in common and no repetition, together
    they hold exactly the coordinates of the board, their lengths add up to
    [num_rows * num_cols], and a cell holds the empty marker exactly when
    its coordinate is in [empty_cells]. *)
Theorem histories_partition_the_board (b : Board) :
  reachable player_token b ->
  NoDup (played_positions b ++ empty_cells b)
  /\ (forall p, In p (played_positions b) -> ~ In p (empty_cells b))
  /\ (forall row col,
         In (row, col) (played_positions b ++ empty_cells b)
         <-> (0 <= row < num_rows b)%Z /\ (0 <= col < num_cols b)%Z)
  /\ Z.of_nat (length (played_positions b) + length (empty_cells b))
     = (num_rows b * num_cols b)%Z
  /\ (forall row col,
         (0 <= row < num_rows b)%Z -> (0 <= col < num_cols b)%Z ->
         exists v, cell_at (board b) row col = Ok v
                   /\ (v = empty <-> In (row, col) (empty_cells b))).
Proof.
  intros H. destruct (reachable_marked H) as [n [Hp Hm]].
  destruct Hp as [(Hnr & Hnc & Hs) Hnd Hcov Hcnt].
  split; [exact Hnd|]. split; [|split; [|split]].
  - intros p H1 H2. clear -Hnd H1 H2.
    induction (played_positions b) as [|q l IH]; [contradiction|].
    simpl in Hnd. inversion Hnd; subst. destruct H1 as [-> | H1].
    + apply H3. apply in_app_iff. now right.
    + now apply IH.
  - intros row col. rewrite Hcov, Hnr, Hnc. unfold in_range. simpl. tauto.
  - rewrite Hcnt, Hnr, Hnc. lia.
  - intros row col Hr Hc.
    assert (Hin : in_range n (row, col)) by (split; simpl; lia).
    exists (cell (board b) (Z.to_nat row) (Z.to_nat col)).
    split; [now apply cell_at_in_range with (n := n)|].
    specialize (Hm (Z.to_nat row, Z.to_nat col)).
    unfold cell_of, zpos in Hm. simpl in Hm.
    rewrite !Z2Nat.id in Hm by lia. apply Hm.
    apply In_all_cells. simpl. lia.
Qed.

Lemma histories_partition_the_board_witness :
  NoDup (played_positions demo_board ++ empty_cells demo_board)
  /\ (forall p, In p (played_positions demo_board) -> ~ In p (empty_cells demo_board))
  /\ (forall row col,
         In (row, col) (played_positions demo_board ++ empty_cells demo_board)
         <-> (0 <= row < num_rows demo_board)%Z /\ (0 <= col < num_cols demo_board)%Z)
  /\ Z.of_nat (length (played_positions demo_board) + length (empty_cells demo_board))
     = (num_rows demo_board * num_cols demo_board)%Z
  /\ (forall row col,
         (0 <= row < num_rows demo_board)%Z -> (0 <= col < num_cols demo_board)%Z ->
         exists v, cell_at (board demo_board) row col = Ok v
                   /\ (v = empty <-> In (row, col) (empty_cells demo_board))).
Proof.
  apply (histories_partition_the_board (b := demo_board)).
  apply demo_board_reachable. unfold player_token, empty. discriminate.
Defined.

(** C5, as stated, fails on the freshly constructed board [Board(-2, -2)]:
    the constructor accepts the negative size, the board has no cell and
    both lists are empty, while [num_rows * num_cols] is 4. *)
Lemma negative_size_breaks_the_count :
  exists b,
    Board_init (-2) (-2) = Ok b
    /\ played_positions b = [] /\ empty_cells b = []
    /\ Z.of_nat (length (played_positions b) + length (empty_cells b)) = 0%Z
    /\ (num_rows b * num_cols b)%Z = 4%Z
    /\ Z.of_nat (length (played_positions b) + length (empty_cells b))
       <> (num_rows b * num_cols b)%Z.
Proof.
  eexists. split; [reflexivity|]. cbn. repeat split. discriminate.
Qed.

(** C6.  On a board reached through the interface, [play] at in-range
    0-indexed coordinates raises the "already played" [IndexError], whose
    message shows [row + 1] and [col + 1], exactly when the coordinate is in
    [played_positions], and then leaves the board as it was; otherwise it
    succeeds, stores the token in that cell and in no other, appends the
    coordinate and the token to the two histories and takes the coordinate
    out of [empty_cells]; after a success, a second [play] on the same cell
    fails with that error whatever the token. *)
Theorem play_rejects_played_cells (b : Board) (row col : Z) (tok : token) :
  reachable any_token b ->
  (0 <= row < num_rows b)%Z -> (0 <= col < num_cols b)%Z ->
  let failure :=
    IndexError ("Invalid Positon - (" ++ str_of_Z (row + 1) ++ ","
                  ++ str_of_Z (col + 1) ++ ") has already been played!") in
  (snd (play b row col tok) = Raise failure <-> In (row, col) (played_positions b))
  /\ (In (row, col) (played_positions b) -> play b row col tok = (b, Raise failure))
  /\ (~ In (row, col) (played_positions b) ->
      exists b',
        play b row col tok = (b', Ok tt)
        /\ cell_at (board b') row col = Ok tok
        /\ (forall r c, (0 <= r < num_rows b)%Z -> (0 <= c < num_cols b)%Z ->
                        (r, c) <> (row, col) ->
                        cell_at (board b') r c = cell_at (board b) r c)
        /\ played_positions b' = played_positions b ++ [(row, col)]
        /\ played_tokens b' = played_tokens b ++ [tok]
        /\ (exists l1 l2, empty_cells b = l1 ++ (row, col) :: l2
                          /\ empty_cells b' = l1 ++ l2)
        /\ ~ In (row, col) (empty_cells b')
        /\ (forall tok2, play b' row col tok2 = (b', Raise failure))).
Proof.
  intros H Hr Hc failure. destruct (reachable_partitioned H) as [n Hp].
  assert (Hin : in_range n (row, col)).
  { destruct Hp as [(Hnr & Hnc & _) _ _ _]. split; simpl; lia. }
  assert (Hfail : forall b0 t, In (row, col) (played_positions b0) ->
                               play b0 row col t = (b0, Raise failure)).
  { intros b0 t Hb0. apply contains_pos_In in Hb0. unfold play.
    rewrite Hb0. reflexivity. }
  assert (Hok : ~ In (row, col) (played_positions b) ->
                exists l1 l2,
                  empty_cells b = l1 ++ (row, col) :: l2 /\
                  play b row col tok
                  = (mkBoard (num_rows b) (num_cols b) (num_cells b)
                       (set_cell (board b) (Z.to_nat row) (Z.to_nat col) tok)
                       (played_positions b ++ [(row, col)])
                       (played_tokens b ++ [tok]) (l1 ++ l2), Ok tt)).
  { intros Hn. now apply play_partitioned with (n := n). }
  split; [|split].
  - split.
    + intros E.
      destruct (contains pos_eqb (row, col) (played_positions b)) eqn:Ec.
      * now apply contains_pos_In.
      * assert (Hn : ~ In (row, col) (played_positions b)).
        { intros Hi. apply contains_pos_In in Hi. congruence. }
        destruct (Hok Hn) as (l1 & l2 & _ & P). rewrite P in E. discriminate.
    + intros Hi. now rewrite Hfail.
  - apply Hfail.
  - intros Hn. destruct (Hok Hn) as (l1 & l2 & E & P).
    destruct Hp as [(Hnr & Hnc & Hs) Hnd Hcov Hcnt].
    destruct Hin as [Hi1 Hi2]. simpl in Hi1, Hi2.
    eexists. split; [exact P|]. simpl.
    assert (Hs' : square n (set_cell (board b) (Z.to_nat row) (Z.to_nat col) tok))
      by (apply square_set_cell; auto; lia).
    split; [|split; [|split; [|split; [|split; [|split]]]]].
    + rewrite (cell_at_in_range Hs') by (split; simpl; lia).
      rewrite (cell_set_cell (n := n)) by (auto; lia).
      now rewrite !Nat.eqb_refl.
    + intros r c Hr' Hc' Hne.
      assert (Hrc : in_range n (r, c)) by (split; simpl; lia).
      rewrite (cell_at_in_range Hs' Hrc), (cell_at_in_range Hs Hrc).
      rewrite (cell_set_cell (n := n)) by (auto; lia).
      destruct (Nat.eqb (Z.to_nat r) (Z.to_nat row)
                && Nat.eqb (Z.to_nat c) (Z.to_nat col)) eqn:Eq; [|reflexivity].
      apply andb_true_iff in Eq. destruct Eq as [E1 E2].
      apply Nat.eqb_eq in E1, E2. exfalso. apply Hne. f_equal; lia.
    + reflexivity.
    + reflexivity.
    + now exists l1, l2.
    + assert (Hnd2 : NoDup (l1 ++ (row, col) :: l2)).
      { rewrite <- E. eapply NoDup_app_remove_l; eauto. }
      now apply NoDup_remove_2 in Hnd2.
    + intros tok2. apply Hfail. simpl. apply in_app_iff. right. now left.
Qed.

Lemma play_rejects_played_cells_witness :
  let failure := IndexError "Invalid Positon - (1,1) has already been played!" in
  (snd (play demo_board 0 0 "O") = Raise failure
   <-> In (0%Z, 0%Z) (played_positions demo_board))
  /\ (In (0%Z, 0%Z) (played_positions demo_board) ->
      play demo_board 0 0 "O" = (demo_board, Raise failure))
  /\ (~ In (0%Z, 0%Z) (played_positions demo_board) ->
      exists b',
        play demo_board 0 0 "O" = (b', Ok tt)
        /\ cell_at (board b') 0 0 = Ok "O"%string
        /\ (forall r c, (0 <= r < num_rows demo_board)%Z ->
                        (0 <= c < num_cols demo_board)%Z ->
                        (r, c) <> (0%Z, 0%Z) ->
                        cell_at (board b') r c = cell_at (board demo_board) r c)
        /\ played_positions b' = played_positions demo_board ++ [(0%Z, 0%Z)]
        /\ played_tokens b' = played_tokens demo_board ++ ["O"%string]
        /\ (exists l1 l2, empty_cells demo_board = l1 ++ (0%Z, 0%Z) :: l2
                          /\ empty_cells b' = l1 ++ l2)
        /\ ~ In (0%Z, 0%Z) (empty_cells b')
        /\ (forall tok2, play b' 0 0 tok2 = (b', Raise failure))).
Proof.
  apply (play_rejects_played_cells (b := demo_board) (row := 0) (col := 0) "O").
  - apply demo_board_reachable. exact I.
  - simpl. lia.
  - simpl. lia.
Defined.

(** * The symmetries of a board *)

Lemma list_eqb_eq {A} (eqb : A -> A -> bool) :
  (forall x y, eqb x y = true <-> x = y) ->
  forall l1 l2, list_eqb eqb l1 l2 = true <-> l1 = l2.
Proof.
  intros Heq. induction l1 as [|x l1 IH]; intros [|y l2]; simpl;
    try (split; [discriminate | intros E; discriminate E]); [tauto|].
  rewrite andb_true_iff, Heq, IH. split.
  - intros [-> ->]. reflexivity.
  - intros E. inversion E. auto.
Qed.

Lemma grid_eqb_eq (g1 g2 : grid) : grid_eqb g1 g2 = true <-> g1 = g2.
Proof. apply list_eqb_eq. apply list_eqb_eq. apply token_eqb_eq. Qed.

Lemma board_eqb_eq (b1 b2 : Board) : board_eqb b1 b2 = true <-> board b1 = board b2.
Proof. apply grid_eqb_eq. Qed.

Lemma contains_board (a : Board) (l : list Board) :
  contains board_eqb a l = true <-> exists x, In x l /\ board x = board a.
Proof.
  unfold contains. rewrite existsb_exists.
  split; intros [x [Hx E]]; exists x; split; auto; now apply board_eqb_eq.
Qed.

(** Dropping the boards that repeat an earlier grid does not change which
    grids occur. *)
Lemma isomorphisms_grids (b r1 r2 r3 f1 f2 f3 f4 a : Board) :
  let rotations := b :: filter (fun x => negb (board_eqb x b)) [r1; r2; r3] in
  let reflections :=
    filter (fun x => negb (contains board_eqb x rotations)) [f1; f2; f3; f4] in
  contains board_eqb a (rotations ++ reflections) = true
  <-> In (board a) (map board [b; r1; r2; r3; f1; f2; f3; f4]).
Proof.
  intros rotations reflections.
  assert (Hrot : forall x, In x [b; r1; r2; r3] ->
                           exists y, In y rotations /\ board y = board x).
  { intros x Hx. destruct (board_eqb x b) eqn:E.
    - exists b. split; [now left | symmetry; now apply board_eqb_eq].
    - exists x. split; [|reflexivity]. destruct Hx as [<- | Hx]; [now left|].
      right. apply filter_In. split; [exact Hx | now rewrite E]. }
  assert (Hall : forall x, In x [b; r1; r2; r3; f1; f2; f3; f4] ->
                           exists y, In y (rotations ++ reflections)
                                     /\ board y = board x).
  { intros x Hx.
    assert (Hx' : In x [b; r1; r2; r3] \/ In x [f1; f2; f3; f4])
      by (simpl in *; tauto).
    destruct Hx' as [Hx' | Hx'].
    - destruct (Hrot x Hx') as [y [Hy E]]. exists y. split; [|exact E].
      apply in_app_iff. now left.
    - destruct (contains board_eqb x rotations) eqn:E.
      + apply contains_board in E. destruct E as [y [Hy E]]. exists y.
        split; [|exact E]. apply in_app_iff. now left.
      + exists x. split; [|reflexivity]. apply in_app_iff. right.
        apply filter_In. split; [exact Hx' | now rewrite E]. }
  rewrite contains_board. split.
  - intros [x [Hx E]]. rewrite <- E. apply in_map.
    apply in_app_iff in Hx. destruct Hx as [Hx | Hx].
    + destruct Hx as [<- | Hx]; [now left|].
      apply filter_In in Hx. simpl in *. tauto.
    + apply filter_In in Hx. simpl in *. tauto.
  - intros Hin. apply in_map_iff in Hin. destruct Hin as [x [E Hx]].
    destruct (Hall x Hx) as [y [Hy E']]. exists y. split; [exact Hy | congruence].
Qed.

Lemma isomorphisms_wf n b :
  wf_board n b ->
  isomorphisms b
  = Ok (let rotations :=
          b :: filter (fun x => negb (board_eqb x b))
                 [rectified n (rotated n 90 (board b));
                  rectified n (rotated n 180 (board b));
                  rectified n (rotated n 270 (board b))] in
        rotations ++
        filter (fun x => negb (contains board_eqb x rotations))
          [rectified n (reflected n "h" (board b));
           rectified n (reflected n "v" (board b));
           rectified n (reflected n "md" (board b));
           rectified n (reflected n "ad" (board b))]).
Proof.
  intros H. unfold isomorphisms. cbn [mapM].
  rewrite !(rotate_wf _ H) by reflexivity.
  rewrite !(reflect_wf _ H) by reflexivity.
  reflexivity.
Qed.

Lemma isomorphic_to_orbit n a b :
  wf_board n b ->
  exists r, isomorphic_to a b = Ok r
            /\ (r = true <-> In (board a) (orbit n (board b))).
Proof.
  intros H. unfold isomorphic_to. rewrite (isomorphisms_wf H). cbn [bind].
  eexists. split; [reflexivity|].
  rewrite isomorphisms_grids. reflexivity.
Qed.

(** Every symmetry is undone by one of the eight. *)
Ltac undo_symmetry H :=
  apply square_ext with (n := ltac:(match type of H with square ?n _ => exact n end));
  [apply square_tabulate | exact H |];
  let i := fresh "i" in let j := fresh "j" in
  intros i j ? ?;
  unfold rotated, reflected;
  rewrite cell_tabulate by assumption;
  unfold rotate_cell, reflect_cell; simpl;
  rewrite cell_tabulate by lia;
  unfold rotate_cell, reflect_cell; simpl;
  f_equal; lia.

Lemma rotated_90_270 n g : square n g -> rotated n 270 (rotated n 90 g) = g.
Proof. intros H. undo_symmetry H. Qed.

Lemma rotated_270_90 n g : square n g -> rotated n 90 (rotated n 270 g) = g.
Proof. intros H. undo_symmetry H. Qed.

Lemma rotated_180_180 n g : square n g -> rotated n 180 (rotated n 180 g) = g.
Proof. intros H. undo_symmetry H. Qed.

Lemma reflected_h_h n g : square n g -> reflected n "h" (reflected n "h" g) = g.
Proof. intros H. undo_symmetry H. Qed.

Lemma reflected_v_v n g : square n g -> reflected n "v" (reflected n "v" g) = g.
Proof. intros H. undo_symmetry H. Qed.

Lemma reflected_md_md n g : square n g -> reflected n "md" (reflected n "md" g) = g.
Proof. intros H. undo_symmetry H. Qed.

Lemma reflected_ad_ad n g : square n g -> reflected n "ad" (reflected n "ad" g) = g.
Proof. intros H. undo_symmetry H. Qed.

Lemma orbit_symmetric n g g' :
  square n g -> In g' (orbit n g) -> In g (orbit n g').
Proof.
  intros H Hin. unfold orbit in Hin. simpl in Hin.
  destruct Hin as [<- | [<- | [<- | [<- | [<- | [<- | [<- | [<- | []]]]]]]]];
    unfold orbit.
  - now left.
  - right; right; right; left. now apply rotated_90_270.
  - right; right; left. now apply rotated_180_180.
  - right; left. now apply rotated_270_90.
  - do 4 right; left. now apply reflected_h_h.
  - do 5 right; left. now apply reflected_v_v.
  - do 6 right; left. now apply reflected_md_md.
  - do 7 right; left. now apply reflected_ad_ad.
Qed.

(** C7.  [isomorphic_to] is reflexive, and symmetric on boards of the same
    size: both calls return, and return the same truth value. *)
Theorem isomorphic_to_reflexive_symmetric (n : nat) (a b : Board) :
  wf_board n a -> wf_board n b ->
  isomorphic_to a a = Ok true
  /\ exists r, isomorphic_to a b = Ok r /\ isomorphic_to b a = Ok r.
Proof.
  intros Ha Hb. split.
  - destruct (isomorphic_to_orbit a Ha) as [r [E Hr]]. rewrite E. f_equal.
    apply Hr. now left.
  - destruct (isomorphic_to_orbit a Hb) as [r [E Hr]].
    destruct (isomorphic_to_orbit b Ha) as [r' [E' Hr']].
    exists r. split; [exact E|]. rewrite E'. f_equal.
    destruct Ha as (_ & _ & Hsa), Hb as (_ & _ & Hsb).
    destruct r, r'; try reflexivity.
    + assert (F : false = true)
        by (apply Hr'; apply (orbit_symmetric Hsb); now apply Hr).
      discriminate F.
    + assert (F : false = true)
        by (apply Hr; apply (orbit_symmetric Hsa); now apply Hr').
      discriminate F.
Qed.

Lemma demo_board_wf : wf_board 3 demo_board.
Proof. unfold wf_board, square. simpl. repeat constructor. Defined.

Lemma edge_board_wf : wf_board 3 edge_board.
Proof. unfold wf_board, square. simpl. repeat constructor. Defined.

Lemma isomorphic_to_reflexive_symmetric_witness :
  isomorphic_to demo_board demo_board = Ok true
  /\ exists r, isomorphic_to demo_board edge_board = Ok r
               /\ isomorphic_to edge_board demo_board = Ok r.
Proof.
  exact (isomorphic_to_reflexive_symmetric demo_board_wf edge_board_wf).
Defined.

(** ** The symmetries, cell by cell *)

(** What each transform puts in cell [(i, j)] of the board it returns:
    the rotations turn the grid clockwise; ['h'] mirrors top to bottom and
    ['v'] left to right; ['md'] mirrors in the anti-diagonal and ['ad'] in
    the main diagonal (it is the transpose). *)
Lemma transforms_cell_by_cell n b i j :
  wf_board n b -> i < n -> j < n ->
  let at_ (g : outcome Board) (r c : nat) :=
    x <- g ;; cell_at (board x) (Z.of_nat r) (Z.of_nat c) in
  let orig (r c : nat) := cell_at (board b) (Z.of_nat r) (Z.of_nat c) in
  at_ (rotate b 90) i j = orig (n - 1 - j) i
  /\ at_ (rotate b 180) i j = orig (n - 1 - i) (n - 1 - j)
  /\ at_ (rotate b 270) i j = orig j (n - 1 - i)
  /\ at_ (reflect b "h") i j = orig (n - 1 - i) j
  /\ at_ (reflect b "v") i j = orig i (n - 1 - j)
  /\ at_ (reflect b "md") i j = orig (n - 1 - j) (n - 1 - i)
  /\ at_ (reflect b "ad") i j = orig j i.
Proof.
  intros H Hi Hj at_ orig. unfold at_, orig.
  pose proof H as (_ & _ & Hs).
  rewrite !(rotate_wf _ H) by reflexivity.
  rewrite !(reflect_wf _ H) by reflexivity.
  cbn [bind rectified board].
  rewrite !(cell_at_nat (n := n)) by (auto using square_tabulate; lia).
  rewrite !cell_tabulate by assumption.
  repeat split.
Qed.

(** C2.  On the 3 by 3 board whose only token is ["X"] in cell (0, 1),
    [reflect('md')] leaves cell (1, 0) empty and puts the token in cell
    (1, 2), the cell opposite across the anti-diagonal; the transpose, which
    mirrors in the main diagonal, is what [reflect('ad')] returns. *)
Theorem reflect_diagonal_axes_swapped :
  exists md ad,
    reflect edge_board "md" = Ok md
    /\ reflect edge_board "ad" = Ok ad
    /\ cell_at (board edge_board) 0 1 = Ok "X"%string
    /\ cell_at (board md) 1 0 = Ok " "%string
    /\ cell_at (board md) 1 2 = Ok "X"%string
    /\ cell_at (board ad) 1 0 = Ok "X"%string.
Proof.
  eexists. eexists.
  split; [vm_compute; reflexivity|].
  split; [vm_compute; reflexivity|].
  repeat split.
Qed.

(** C1.  After O (0,0), X (1,1), O (2,2) the quarter turns to the right and
    to the left give the same grid, different from the board's own;
    [isomorphisms] keeps both. *)
Theorem isomorphisms_keeps_equal_rotations :
  exists r90 r270,
    rotate diag_board 90 = Ok r90
    /\ rotate diag_board 270 = Ok r270
    /\ isomorphisms diag_board = Ok [diag_board; r90; r270]
    /\ board r90 = board r270
    /\ board_eqb r90 r270 = true.
Proof.
  eexists. eexists.
  split; [vm_compute; reflexivity|].
  split; [vm_compute; reflexivity|].
  repeat split.
Qed.

(** ** [winner] *)

Lemma check_line_nonempty (line : list token) :
  line <> [] ->
  check_line line = Ok (if winning_line line then Some (hd empty line) else None).
Proof.
  destruct line as [|t rest]; [congruence|]. intros _.
  unfold check_line, winning_line, all_equal_first.
  destruct (forallb (fun cell => token_eqb t cell) (t :: rest)); [|reflexivity].
  simpl. now destruct (token_eqb t empty).
Qed.

Lemma check_lines_first_winner (lines : list (list token)) :
  Forall (fun line => line <> []) lines ->
  check_lines lines = Ok (first_winner lines).
Proof.
  unfold first_winner. induction 1 as [|line lines Hl Hls IH]; [reflexivity|].
  simpl. rewrite (check_line_nonempty Hl).
  destruct (winning_line line); simpl; [reflexivity | exact IH].
Qed.

Lemma first_winner_app (l1 l2 : list (list token)) :
  first_winner (l1 ++ l2)
  = match first_winner l1 with Some t => Some t | None => first_winner l2 end.
Proof.
  unfold first_winner. induction l1 as [|line l1 IH]; [reflexivity|].
  simpl. destruct (winning_line line); [reflexivity | exact IH].
Qed.

Lemma nonempty_rows n g : square n g -> 0 < n -> Forall (fun line => line <> []) g.
Proof.
  intros [_ Hr] Hn. eapply Forall_impl; [|exact Hr].
  intros row Hrow E. subst row. simpl in Hrow. lia.
Qed.

Lemma map_seq_nonempty {A} (f : nat -> A) n : 0 < n -> map f (seq 0 n) <> [].
Proof. destruct n; [lia|]. discriminate. Qed.

Lemma winner_wf n b :
  wf_board n b -> 0 < n ->
  winner b = Ok (first_winner (lines_in_order n (board b))).
Proof.
  intros H Hn. pose proof H as (_ & _ & Hs).
  unfold winner, lines_in_order, rows.
  rewrite !first_winner_app.
  rewrite (check_lines_first_winner (nonempty_rows Hs Hn)). cbn [bind].
  destruct (first_winner (board b)); [reflexivity|].
  rewrite (columns_wf H). cbn [bind].
  rewrite (check_lines_first_winner
             (nonempty_rows (square_tabulate n _) Hn)). cbn [bind].
  destruct (first_winner (tabulate n _)); [reflexivity|].
  rewrite (main_diagonal_wf H), (anti_diagonal_wf H). cbn [bind].
  rewrite !check_line_nonempty by now apply map_seq_nonempty.
  unfold first_winner. cbn [find bind].
  destruct (winning_line (map (fun i => cell (board b) i i) (seq 0 n)));
    [reflexivity|].
  now destruct (winning_line (map (fun i => cell (board b) i (n - 1 - i)) (seq 0 n))).
Qed.

(** The scan of [winner] on a grid with at least one row. *)
Lemma winner_scans_lines (n : nat) (b : Board) :
  wf_board n b -> 0 < n ->
  winner b = Ok (match find winning_line (lines_in_order n (board b)) with
                 | Some line => Some (hd empty line)
                 | None => None
                 end)
  /\ (forall t, winner b = Ok (Some t) ->
        exists before line after,
          lines_in_order n (board b) = before ++ line :: after
          /\ Forall (fun l => winning_line l = false) before
          /\ Forall (fun cell => cell = t) line /\ line <> [] /\ t <> empty)
  /\ (winner b = Ok None ->
        Forall (fun l => winning_line l = false) (lines_in_order n (board b))).
Proof.
  intros H Hn. rewrite (winner_wf H Hn). fold (first_winner (lines_in_order n (board b))).
  split; [reflexivity|].
  unfold first_winner.
  generalize (lines_in_order n (board b)). intros lines. split.
  - intros t E. induction lines as [|l lines IH]; [discriminate|].
    simpl in E. destruct (winning_line l) eqn:W.
    + exists [], l, lines. split; [reflexivity|]. split; [constructor|].
      destruct l as [|t0 rest]; [discriminate|]. simpl in E. inversion E; subst t0.
      unfold winning_line in W. apply andb_true_iff in W. destruct W as [W1 W2].
      split; [|split; [discriminate|]].
      * rewrite forallb_forall in W1. apply Forall_forall. intros c Hc.
        symmetry. apply token_eqb_eq. now apply W1.
      * intros Et. subst t. vm_compute in W2. discriminate.
    + destruct (IH E) as (before & line & after & E1 & E2 & E3).
      exists (l :: before), line, after. split; [now rewrite E1|].
      split; [now constructor | exact E3].
  - intros E. induction lines as [|l lines IH]; [constructor|].
    simpl in E. destruct (winning_line l) eqn:W; [discriminate|].
    constructor; [exact W | now apply IH].
Qed.

(** C4, as the code has it.  On a board with at least one row that was
    built through the interface with tokens that differ from the empty
    marker (the constructor, successful plays of such tokens, [copy],
    [rotate], [reflect]), [winner] returns the token of the first line,
    among the rows from the top, the columns from the left, the main
    diagonal and the anti-diagonal, whose cells all hold one token other
    than the empty marker, and [None] when there is no such line. *)
Theorem winner_is_first_uniform_line (n : nat) (b : Board) :
  reachable player_token b -> num_rows b = Z.of_nat n -> 0 < n ->
  winner b = Ok (match find winning_line (lines_in_order n (board b)) with
                 | Some line => Some (hd empty line)
                 | None => None
                 end)
  /\ (forall t, winner b = Ok (Some t) ->
        exists before line after,
          lines_in_order n (board b) = before ++ line :: after
          /\ Forall (fun l => winning_line l = false) before
          /\ Forall (fun cell => cell = t) line /\ line <> [] /\ t <> empty)
  /\ (winner b = Ok None ->
        Forall (fun l => winning_line l = false) (lines_in_order n (board b))).
Proof.
  intros Hr Hn. apply winner_scans_lines. exact (@reachable_wf _ n b Hr Hn).
Qed.

Lemma two_winners_board_reachable : reachable player_token two_winners_board.
Proof.
  unfold two_winners_board.
  repeat (eapply reach_play;
          [ | | | | apply surjective_pairing ]);
    try (apply reach_init with (n := 3); reflexivity);
    try (simpl; lia); try discriminate; reflexivity.
Qed.

Lemma winner_is_first_uniform_line_witness :
  winner two_winners_board
  = Ok (match find winning_line (lines_in_order 3 (board two_winners_board)) with
        | Some line => Some (hd empty line)
        | None => None
        end)
  /\ (forall t, winner two_winners_board = Ok (Some t) ->
        exists before line after,
          lines_in_order 3 (board two_winners_board) = before ++ line :: after
          /\ Forall (fun l => winning_line l = false) before
          /\ Forall (fun cell => cell = t) line /\ line <> [] /\ t <> empty)
  /\ (winner two_winners_board = Ok None ->
        Forall (fun l => winning_line l = false)
               (lines_in_order 3 (board two_winners_board))).
Proof.
  apply (@winner_is_first_uniform_line 3 two_winners_board).
  - exact two_winners_board_reachable.
  - reflexivity.
  - lia.
Defined.

(** With several winning lines of different tokens the first one checked
    decides. *)
Example winner_two_winners : winner two_winners_board = Ok (Some "X"%string).
Proof. reflexivity. Qed.

(** C4, as stated, fails on the board [Board(0, 0)]: it has no row and no
    column and its two diagonals are empty, so no line wins and the claim
    asks for [None]; [winner] raises [IndexError] when it reads
    [self.main_diagonal[0]]. *)
Lemma winner_raises_on_the_empty_board :
  Board_init 0 0 = Ok (fresh_board 0)
  /\ find winning_line (lines_in_order 0 (board (fresh_board 0))) = None
  /\ winner (fresh_board 0) = Raise (IndexError "list index out of range")
  /\ winner (fresh_board 0) <> Ok None.
Proof.
  repeat split. discriminate.
Qed.

(** * Boards that share lists *)

(** C9.  On the heap: a new board [b], its horizontal reflection [r], then
    a move on [r].  Before the move [b] is the empty board; after it the
    grid of [b] holds the token in cell (2, 0), while its histories and
    [empty_cells] are as before: the rows of [r] are the rows of [b]. *)
Theorem reflect_horizontal_shares_rows :
  exists h0 b h1 r h2,
    Heap.Board_init 3 3 [] = (h0, Ok b)
    /\ Heap.reflect b "h" h0 = (h1, Ok r)
    /\ Heap.view h1 b = Ok (fresh_board 3)
    /\ Heap.play r 0 0 "X" h1 = (h2, Ok tt)
    /\ Heap.view h2 b
       = Ok (mkBoard 3 3 9
               [[" "; " "; " "]; [" "; " "; " "]; ["X"; " "; " "]]%string
               [] [] (empty_cells (fresh_board 3))).
Proof.
  do 5 eexists.
  split; [vm_compute; reflexivity|].
  split; [vm_compute; reflexivity|].
  split; [vm_compute; reflexivity|].
  split; [vm_compute; reflexivity|].
  vm_compute. reflexivity.
Qed.

(** [copy], the rotations and the other three reflections build new rows:
    on the board with O in the centre, a move on their result leaves the
    original as it was. *)
Lemma other_transforms_build_new_rows :
  Forall (fun derive => exists s, original_around derive = Ok (s, s))
         [Heap.copy;
          (fun b => Heap.rotate b 90); (fun b => Heap.rotate b 180);
          (fun b => Heap.rotate b 270);
          (fun b => Heap.reflect b "v"); (fun b => Heap.reflect b "md");
          (fun b => Heap.reflect b "ad")].
Proof. repeat constructor; eexists; vm_compute; reflexivity. Qed.

(** * The permutation search *)

(** ** [itertools.permutations] *)

Lemma map_fst_selects {A} (l : list A) : map fst (selects l) = l.
Proof.
  induction l as [|x l IH]; simpl; [reflexivity|].
  f_equal. rewrite map_map. rewrite <- IH at 2. now apply map_ext.
Qed.

Lemma selects_rest {A} (l : list A) (xr : A * list A) :
  In xr (selects l) ->
  S (length (snd xr)) = length l
  /\ (forall y, In y (snd xr) -> In y l)
  /\ (NoDup l -> NoDup (snd xr)).
Proof.
  revert xr. induction l as [|x l IH]; intros xr H; [contradiction|].
  simpl in H. destruct H as [<- | H].
  - simpl. split; [reflexivity|]. split; [auto|]. intros Hn. now inversion Hn.
  - apply in_map_iff in H. destruct H as [yr [<- Hyr]].
    destruct (IH yr Hyr) as (Hlen & Hin & Hnd). simpl.
    split; [now rewrite Hlen|]. split.
    + intros y [-> | Hy]; [now left | right; auto].
    + intros Hn. inversion Hn; subst. constructor; auto.
Qed.

Lemma NoDup_by_heads {A} (g : list A -> list (list A)) (sel : list (A * list A)) :
  NoDup (map fst sel) ->
  (forall xr, In xr sel -> NoDup (g (snd xr))) ->
  NoDup (flat_map (fun xr => map (cons (fst xr)) (g (snd xr))) sel).
Proof.
  induction sel as [|xr sel IH]; intros Hh Hg; simpl; [constructor|].
  inversion Hh; subst. apply NoDup_app.
  - assert (Hn : NoDup (g (snd xr))) by (apply Hg; now left).
    clear -Hn. induction Hn as [|p l Hp Hl IHl]; simpl; constructor; [|exact IHl].
    intros Hin. apply in_map_iff in Hin. destruct Hin as [q [E Hq]].
    inversion E. now subst.
  - apply IH; [assumption|]. intros yr Hyr. apply Hg. now right.
  - intros p Hp Hq. apply in_map_iff in Hp. destruct Hp as [p' [<- _]].
    apply in_flat_map in Hq. destruct Hq as [yr [Hyr Hq]].
    apply in_map_iff in Hq. destruct Hq as [q' [E _]]. inversion E.
    apply H1. rewrite <- H0. now apply in_map.
Qed.

Lemma perms_of_length_spec {A} (n : nat) : forall (l : list A),
  length l = n ->
  (forall p, In p (perms_of_length n l) -> length p = n)
  /\ (NoDup l -> NoDup (perms_of_length n l)).
Proof.
  induction n as [|n IH]; intros l Hl.
  - simpl. split.
    + intros p [<- | []]. reflexivity.
    + intros _. repeat constructor. intros [].
  - split.
    + intros p Hp. simpl in Hp. apply in_flat_map in Hp.
      destruct Hp as [xr [Hxr Hp]]. apply in_map_iff in Hp.
      destruct Hp as [q [<- Hq]]. simpl. f_equal.
      destruct (selects_rest _ _ Hxr) as (Hlen & _ & _).
      apply (IH (snd xr)); [lia | exact Hq].
    + intros Hn. simpl.
      apply (NoDup_by_heads (perms_of_length n)).
      * now rewrite map_fst_selects.
      * intros xr Hxr. destruct (selects_rest _ _ Hxr) as (Hlen & _ & Hnd).
        apply (IH (snd xr)); [lia | auto].
Qed.

Lemma permutations_length {A} (l p : list A) :
  In p (permutations l) -> length p = length l.
Proof. intros H. now apply (perms_of_length_spec (n := length l) l eq_refl). Qed.

Lemma permutations_NoDup {A} (l : list A) : NoDup l -> NoDup (permutations l).
Proof. intros H. now apply (perms_of_length_spec (n := length l) l eq_refl). Qed.

(** ** Dictionaries *)

Lemma perm_eqb_eq (p q : perm) : perm_eqb p q = true <-> p = q.
Proof. apply list_eqb_eq. apply pos_eqb_eq. Qed.

Section Dict.
Context {K V : Type} (eqb : K -> K -> bool).
Hypothesis eqb_eq : forall x y, eqb x y = true <-> x = y.

Lemma eqb_refl_true (x : K) : eqb x x = true.
Proof. now apply eqb_eq. Qed.

Lemma eqb_neq_false (x y : K) : x <> y -> eqb x y = false.
Proof. intros H. apply not_true_is_false. now rewrite eqb_eq. Qed.

Lemma dict_set_fresh (k : K) (v : V) (d : dict K V) :
  ~ In k (map fst d) -> dict_set eqb k v d = d ++ [(k, v)].
Proof.
  induction d as [|[k' v'] d IH]; intros H; simpl; [reflexivity|].
  simpl in H. rewrite eqb_neq_false by tauto. rewrite IH by tauto. reflexivity.
Qed.

Lemma dict_get_In (k : K) (v : V) (d : dict K V) :
  NoDup (map fst d) -> In (k, v) d -> dict_get eqb k d = Ok v.
Proof.
  induction d as [|[k' v'] d IH]; intros Hn H; [contradiction|].
  simpl in *. inversion Hn; subst. destruct H as [E | H].
  - inversion E; subst. now rewrite eqb_refl_true.
  - rewrite eqb_neq_false; [now apply IH|].
    intros ->. apply H2. now apply (in_map fst) in H.
Qed.
End Dict.

(** ** The outcome table *)

Lemma record_outcomes_keys board tokens : forall perms acc w,
  record_outcomes board tokens perms acc = Ok w ->
  NoDup (map fst acc ++ perms) ->
  map fst w = map fst acc ++ perms.
Proof.
  induction perms as [|p perms IH]; intros acc w H Hn; simpl in H.
  - inversion H. now rewrite app_nil_r.
  - apply bind_Ok in H. destruct H as [bc [_ H]].
    apply bind_Ok in H. destruct H as [o [_ H]].
    assert (Hp : ~ In p (map fst acc)).
    { apply NoDup_remove_2 in Hn. intros Hin. apply Hn. apply in_app_iff. now left. }
    rewrite (dict_set_fresh perm_eqb perm_eqb_eq) in H by exact Hp.
    apply IH in H.
    + rewrite H, map_app, <- app_assoc. reflexivity.
    + rewrite map_app, <- app_assoc. exact Hn.
Qed.

(** The table has exactly one entry per enumerated permutation, in the
    order of the enumeration. *)
Lemma winners_keys init tokens cl :
  NoDup (empty_cells init) ->
  full_tree_search init tokens = Ok cl ->
  move_permuations cl = permutations (empty_cells init)
  /\ map fst (winners cl) = move_permuations cl
  /\ NoDup (move_permuations cl).
Proof.
  intros Hn H. unfold full_tree_search in H.
  apply bind_Ok in H. destruct H as [w [Hw H]]. inversion H; subst cl; simpl.
  split; [reflexivity|].
  pose proof (permutations_NoDup Hn) as Hp.
  split; [|exact Hp]. now apply record_outcomes_keys in Hw.
Qed.

Lemma restrict_filter (w : dict perm token) (f : perm -> bool) :
  NoDup (map fst w) ->
  forall w' acc,
    (forall e, In e w' -> In e w) ->
    NoDup (map fst acc ++ map fst w') ->
    restrict w (filter f (map fst w')) acc
    = Ok (acc ++ filter (fun e => f (fst e)) w').
Proof.
  intros Hw. induction w' as [|[p o] w' IH]; intros acc Hsub Hn; simpl.
  - now rewrite app_nil_r.
  - simpl in Hn. destruct (f p) eqn:E.
    + simpl. rewrite (dict_get_In perm_eqb perm_eqb_eq p o w Hw) by (apply Hsub; now left).
      cbn [bind].
      assert (Hp : ~ In p (map fst acc)).
      { apply NoDup_remove_2 in Hn. intros Hin. apply Hn. apply in_app_iff. now left. }
      rewrite (dict_set_fresh perm_eqb perm_eqb_eq) by exact Hp.
      rewrite IH.
      * now rewrite <- app_assoc.
      * intros e He. apply Hsub. now right.
      * rewrite map_app, <- app_assoc. exact Hn.
    + apply IH.
      * intros e He. apply Hsub. now right.
      * now apply NoDup_remove_1 in Hn.
Qed.

Lemma filter_all {A} (f : A -> bool) (l : list A) :
  (forall x, In x l -> f x = true) -> filter f l = l.
Proof.
  induction l as [|x l IH]; intros H; simpl; [reflexivity|].
  rewrite (H x) by now left. f_equal. apply IH. intros y Hy. apply H. now right.
Qed.

(** In both branches of [get_move] the table it goes on with is the table
    restricted to the permutations that start with the moves played. *)
Lemma winners_subset_surviving (cl : closure) (played : perm) :
  map fst (winners cl) = move_permuations cl ->
  NoDup (move_permuations cl) ->
  match played with
  | [] => Ok (winners cl)
  | _ =>
      restrict (winners cl)
        (filter (fun p => perm_eqb (firstn (Z.to_nat (Z.of_nat (length played))) p)
                                   played)
                (move_permuations cl)) []
  end = Ok (surviving cl played).
Proof.
  intros Hk Hn. unfold surviving. destruct played as [|m played].
  - f_equal. symmetry. apply filter_all. intros e _. reflexivity.
  - assert (Hw : NoDup (map fst (winners cl))) by (rewrite Hk; exact Hn).
    rewrite Nat2Z.id, <- Hk.
    apply (@restrict_filter (winners cl)
             (fun p => perm_eqb (firstn (length (m :: played)) p) (m :: played))
             Hw (winners cl) []); auto.
Qed.

(** ** Grouping the values by next move *)

Section GroupingFacts.
Context {E : Type} (key : E -> position) (val : E -> Z).

Lemma values_of_snoc m done e :
  values_of key val m (done ++ [e])
  = values_of key val m done ++ (if pos_eqb (key e) m then [val e] else []).
Proof.
  unfold values_of. rewrite filter_app, map_app. simpl.
  now destruct (pos_eqb (key e) m).
Qed.

Lemma pos_eqb_refl p : pos_eqb p p = true.
Proof. now apply pos_eqb_eq. Qed.

Lemma pos_eqb_neq p q : p <> q -> pos_eqb p q = false.
Proof. intros H. apply not_true_is_false. now rewrite pos_eqb_eq. Qed.

Lemma grouped_step d done e :
  grouped key val d done -> grouped key val ((group_step key val) d e) (done ++ [e]).
Proof.
  unfold group_step. revert done.
  induction d as [|[k vs] d IH]; intros done (Hn & Hv & Hk).
  - assert (Hd : done = []).
    { destruct done as [|e0 done]; [reflexivity|].
      exfalso. apply (Hk e0). now left. }
    subst done. simpl. repeat split.
    + repeat constructor. intros [].
    + destruct H as [H | []]. inversion H; subst.
      unfold values_of. simpl. now rewrite pos_eqb_refl.
    + destruct H as [H | []]. inversion H. discriminate.
    + intros e' [<- | []]. now left.
  - simpl in Hn. inversion Hn as [|? ? Hk1 Hn1]; subst.
    simpl. destruct (pos_eqb k (key e)) eqn:Ek.
    + apply pos_eqb_eq in Ek. subst k. repeat split.
      * exact Hn.
      * destruct H as [H | H].
        -- inversion H; subst. rewrite values_of_snoc, pos_eqb_refl.
           f_equal. apply (Hv (key e) vs). now left.
        -- rewrite values_of_snoc.
           destruct (pos_eqb (key e) m) eqn:Em.
           ++ apply pos_eqb_eq in Em. subst m. exfalso. apply Hk1.
              now apply (in_map fst) in H.
           ++ rewrite app_nil_r. apply (Hv m vs0). now right.
      * destruct H as [H | H].
        -- inversion H; subst. intros Ee. now apply app_eq_nil in Ee as [_ Ee].
        -- apply (Hv m vs0). now right.
      * intros e' He'. apply in_app_iff in He'. destruct He' as [He' | [<- | []]].
        -- now apply Hk.
        -- now left.
    + assert (Hne : k <> key e).
      { intros ->. rewrite pos_eqb_refl in Ek. discriminate. }
      (* the entries after the first one group the elements whose key is
         not [k] *)
      set (done' := filter (fun e0 => negb (pos_eqb (key e0) k)) done).
      assert (Hg : grouped key val d done').
      { repeat split.
        - exact Hn1.
        - destruct (Hv m vs0) as [Hv1 _]; [now right|]. rewrite Hv1.
          unfold values_of, done'. f_equal.
          assert (Hmk : m <> k).
          { intros ->. apply Hk1. now apply (in_map fst) in H. }
          clear -Hmk. induction done as [|e0 done IHd]; simpl; [reflexivity|].
          destruct (pos_eqb (key e0) m) eqn:E1; simpl.
          + apply pos_eqb_eq in E1.
            rewrite (pos_eqb_neq (p := key e0) (q := k)) by congruence.
            simpl. rewrite <- E1, pos_eqb_refl. f_equal. rewrite E1. exact IHd.
          + destruct (pos_eqb (key e0) k); simpl; [exact IHd|].
            rewrite E1. exact IHd.
        - apply (Hv m vs0). now right.
        - intros e0 He0. unfold done' in He0. apply filter_In in He0.
          destruct He0 as [He0 Hk0]. apply negb_true_iff in Hk0.
          destruct (Hk e0 He0) as [Hd | Hd]; [|exact Hd].
          simpl in Hd. subst k. now rewrite pos_eqb_refl in Hk0. }
      specialize (IH done' Hg). destruct IH as (IHn & IHv & IHk).
      assert (Hkeys : forall m, In m (map fst (dict_append pos_eqb (key e) (val e) d))
                                -> m <> k).
      { intros m Hm ->. clear -Hm Hk1 Hne.
        induction d as [|[k' vs'] d IHd]; simpl in *.
        - destruct Hm as [Hm | []]. congruence.
        - destruct (pos_eqb k' (key e)); simpl in *.
          + tauto.
          + destruct Hm as [Hm | Hm]; [tauto|]. apply IHd; tauto. }
      repeat split.
      * simpl. constructor; [|exact IHn]. intros Hin. now apply (Hkeys k).
      * destruct H as [H | H].
        -- inversion H; subst. rewrite values_of_snoc.
           rewrite (pos_eqb_neq (p := key e) (q := m)) by congruence.
           rewrite app_nil_r. apply (Hv m vs0). now left.
        -- destruct (IHv m vs0 H) as [IHv1 _]. rewrite IHv1.
           assert (Hmk : m <> k).
           { apply Hkeys. now apply (in_map fst) in H. }
           unfold values_of, done'. f_equal. rewrite !filter_app. simpl.
           f_equal. clear -Hmk.
           induction done as [|e0 done IHd]; simpl; [reflexivity|].
           destruct (pos_eqb (key e0) k) eqn:E1; simpl.
           ++ apply pos_eqb_eq in E1.
              rewrite (pos_eqb_neq (p := key e0) (q := m)) by congruence.
              exact IHd.
           ++ destruct (pos_eqb (key e0) m); [f_equal|]; exact IHd.
      * destruct H as [H | H].
        -- inversion H; subst. apply (Hv m vs0). now left.
        -- apply (IHv m vs0 H).
      * intros e' He'. apply in_app_iff in He'.
        destruct (pos_eqb (key e') k) eqn:E1.
        -- apply pos_eqb_eq in E1. left. now symmetry.
        -- right. apply IHk. apply in_app_iff.
           destruct He' as [He' | [<- | []]].
           ++ left. apply filter_In. split; [exact He' | now rewrite E1].
           ++ right. now left.
Qed.

Lemma grouped_fold items : forall d done,
  grouped key val d done -> grouped key val (fold_left (group_step key val) items d) (done ++ items).
Proof.
  induction items as [|e items IH]; intros d done H; simpl.
  - now rewrite app_nil_r.
  - replace (done ++ e :: items) with ((done ++ [e]) ++ items)
      by (rewrite <- app_assoc; reflexivity).
    apply IH. now apply grouped_step.
Qed.

Lemma grouped_all items : grouped key val (fold_left (group_step key val) items []) items.
Proof.
  apply (grouped_fold items (d := []) (done := [])).
  repeat split; try constructor; intros; contradiction.
Qed.
End GroupingFacts.

(** ** Means and maxima *)

(** The three values are scores, and so is their mean: the division does
    not overflow. *)
Lemma value_of_score (w tok : token) : score (value_of w tok).
Proof.
  unfold score, value_of, WIN, DRAW, LOSS.
  destruct (token_eqb w tok); [lia|]. destruct (token_eqb w "Draw"); lia.
Qed.

Lemma sum_of_scores (values : list Z) :
  Forall score values ->
  (Z.abs (fold_right Z.add 0 values) <= 100 * Z.of_nat (length values))%Z.
Proof.
  induction 1 as [|v l Hv _ IH]; [simpl; lia|].
  unfold score in Hv. cbn [fold_right length]. lia.
Qed.

Lemma floor_log2_of_score (p q : Z) :
  (0 < p)%Z -> (0 < q)%Z -> (p <= 100 * q)%Z -> (floor_log2 p q <= 7)%Z.
Proof.
  intros Hp Hq Hpq.
  assert (Hd : (Z.log2 p - Z.log2 q <= 7)%Z).
  { assert (H : (Z.log2 p <= Z.log2 (q * 2 ^ 7))%Z)
      by (apply Z.log2_le_mono; lia).
    rewrite Z.log2_mul_pow2 in H by lia. lia. }
  unfold floor_log2. cbv zeta. destruct (at_least_pow2 p q _); lia.
Qed.

Lemma true_divide_of_score (a b : Z) :
  (0 < b)%Z -> (Z.abs a <= 100 * b)%Z -> exists s, true_divide a b = Ok s.
Proof.
  intros Hb Hab. unfold true_divide.
  destruct (b =? 0)%Z eqn:Eb; [apply Z.eqb_eq in Eb; lia|].
  destruct (a =? 0)%Z eqn:Ea; [eexists; reflexivity|].
  apply Z.eqb_neq in Ea. cbv zeta.
  assert (He : (floor_log2 (Z.abs a) (Z.abs b) <= 7)%Z)
    by (apply floor_log2_of_score; lia).
  replace (0 <=? Z.max (floor_log2 (Z.abs a) (Z.abs b) - 52) (-1074))%Z
    with false by (symmetry; apply Z.leb_gt; lia).
  eexists. reflexivity.
Qed.

Lemma mean_of_scores (values : list Z) :
  values <> [] -> Forall score values -> mean values = Ok (mean_of values).
Proof.
  intros Hne Hs.
  assert (H : exists s, mean values = Ok s).
  { unfold mean. destruct values as [|v l]; [congruence|]. cbv beta iota zeta.
    destruct (_ =? 0)%Z; [eexists; reflexivity|].
    apply true_divide_of_score.
    - cbn [length]. lia.
    - exact (sum_of_scores Hs). }
  destruct H as [s Hm]. unfold mean_of. now rewrite Hm.
Qed.

Lemma max_fold (l : list Q) : forall x,
  let r := fold_left (fun m y => if Qle_bool y m then m else y) l x in
  In r (x :: l) /\ Qle x r /\ (forall y, In y l -> Qle y r).
Proof.
  induction l as [|y l IH]; intros x; simpl.
  - split; [now left|]. split; [apply Qle_refl | intros y []].
  - destruct (Qle_bool y x) eqn:E.
    + destruct (IH x) as (H1 & H2 & H3). split; [|split].
      * simpl in H1. tauto.
      * exact H2.
      * intros z [<- | Hz]; [|now apply H3].
        apply Qle_bool_iff in E. eapply Qle_trans; eauto.
    + destruct (IH y) as (H1 & H2 & H3).
      assert (Hxy : Qle x y).
      { apply Qlt_le_weak, Qnot_le_lt. intros Hle.
        apply Qle_bool_iff in Hle. congruence. }
      split; [|split].
      * simpl in H1. tauto.
      * eapply Qle_trans; eauto.
      * intros z [<- | Hz]; [exact H2 | now apply H3].
Qed.

Lemma py_max_spec (l : list Q) :
  l <> [] ->
  exists top, py_max l = Ok top /\ In top l /\ (forall y, In y l -> Qle y top).
Proof.
  destruct l as [|x l]; [congruence|]. intros _.
  destruct (max_fold l x) as (H1 & H2 & H3).
  eexists. split; [reflexivity|]. split; [exact H1|].
  intros y [<- | Hy]; [exact H2 | now apply H3].
Qed.

Lemma random_sample_one_In {A} (rnd : nat) (l : list A) :
  l <> [] -> exists x, random_sample_one rnd l = Ok x /\ In x l.
Proof.
  destruct l as [|x l]; [congruence|]. intros _.
  eexists. split; [reflexivity|]. apply nth_In.
  apply Nat.mod_upper_bound. discriminate.
Qed.

Lemma collect_values_fold (k : nat) (tok : token) (items : dict perm token) :
  (forall e, In e items -> k < length (fst e)) ->
  forall acc,
    collect_values (Z.of_nat k) tok items acc
    = Ok (fold_left (group_step (fun e => nth k (fst e) (0%Z, 0%Z))
                                (fun e => value_of (snd e) tok))
                    items acc).
Proof.
  induction items as [|[p w] items IH]; intros Hlen acc; simpl; [reflexivity|].
  unfold tuple_getitem.
  rewrite (getitem_nth p (0%Z, 0%Z)) by (apply (Hlen (p, w)); now left).
  cbn [bind]. apply IH. intros e He. apply Hlen. now right.
Qed.

(** The selection made by [get_move] when two or more cells are empty and
    some entry of the table goes on after the moves played. *)
Lemma get_move_selects (cl : closure) (board : Board) (tok : token) (rnd : nat) :
  2 <= length (empty_cells board) ->
  map fst (winners cl) = move_permuations cl ->
  NoDup (move_permuations cl) ->
  (forall e, In e (surviving cl (played_positions board)) ->
             length (played_positions board) < length (fst e)) ->
  surviving cl (played_positions board) <> [] ->
  exists m,
    get_move cl board tok rnd = Ok (Some m)
    /\ In m (candidates cl (played_positions board))
    /\ forall m', In m' (candidates cl (played_positions board)) ->
                  Qle (mean_score cl (played_positions board) tok m')
                      (mean_score cl (played_positions board) tok m).
Proof.
  intros H2 Hk Hn Hlen Hne.
  set (played := played_positions board) in *.
  set (key := fun e : perm * token => next_of played (fst e)).
  set (val := fun e : perm * token => value_of (snd e) tok).
  destruct (grouped_all key val (surviving cl played)) as (Gn & Gv & Gk).
  set (nm := fold_left (group_step key val) (surviving cl played) []) in *.
  set (agg := map (fun mv : position * list Z => (fst mv, mean_of (snd mv))) nm).
  assert (Hagg : mapM (fun mv : position * list Z =>
                         s <- mean (snd mv) ;; Ok (fst mv, s)) nm = Ok agg).
  { apply mapM_Ok_map. intros [m vs] Hm. simpl.
    destruct (Gv m vs Hm) as [Evs Hvs].
    rewrite mean_of_scores; [reflexivity | exact Hvs |].
    rewrite Evs. unfold values_of. apply Forall_forall. intros v Hv.
    apply in_map_iff in Hv. destruct Hv as [e [<- _]]. apply value_of_score. }
  assert (Hnm : nm <> []).
  { destruct (surviving cl played) as [|e s] eqn:Es; [congruence|].
    intros E. specialize (Gk e (or_introl eq_refl)). rewrite E in Gk. exact Gk. }
  assert (Hscores : map snd agg <> []).
  { unfold agg. destruct nm; [congruence | discriminate]. }
  destruct (py_max_spec Hscores) as (top & Htop & Hin & Hmax).
  set (marked_ := map (fun mv : position * Q => (mv, Qeq_bool (snd mv) top)) agg).
  assert (Hbest : mapM (fun mv : position * Q =>
                          t <- py_max (map snd agg) ;;
                          Ok (mv, Qeq_bool (snd mv) t)) agg = Ok marked_).
  { apply mapM_Ok_map. intros mv _. now rewrite Htop. }
  set (best := map (fun x : position * Q * bool => fst (fst x)) (filter snd marked_)).
  assert (Hbest_ne : best <> []).
  { apply in_map_iff in Hin. destruct Hin as [mv [E Hmv]].
    assert (Hb : In (fst mv) best).
    { unfold best. apply in_map_iff. exists (mv, Qeq_bool (snd mv) top).
      split; [reflexivity|]. apply filter_In. split.
      - unfold marked_.
        now apply (in_map (fun mv : position * Q => (mv, Qeq_bool (snd mv) top))).
      - simpl. rewrite E. apply Qeq_bool_refl. }
    intros Eb. rewrite Eb in Hb. exact Hb. }
  destruct (random_sample_one_In rnd Hbest_ne) as (m & Hm & Hmin).
  exists m. split; [|split].
  - unfold get_move.
    destruct (empty_cells board) as [|c1 [|c2 rest]]; simpl in H2; try lia.
    assert (Hnum : match played with
                   | [] => 0%Z
                   | _ :: _ => Z.of_nat (length played)
                   end = Z.of_nat (length played))
      by (destruct played; reflexivity).
    cbv zeta. fold played. rewrite Hnum.
    rewrite (winners_subset_surviving cl played Hk Hn). cbn [bind].
    rewrite (collect_values_fold (k := length played) tok) by exact Hlen.
    cbn [bind].
    change (fold_left _ (surviving cl played) []) with nm.
    rewrite Hagg. cbn [bind]. rewrite Hbest. cbn [bind].
    fold best. rewrite Hm. reflexivity.
  - unfold best in Hmin. apply in_map_iff in Hmin.
    destruct Hmin as [[[m0 s] flag] [E Hf]]. simpl in E. subst m0.
    apply filter_In in Hf. destruct Hf as [Hf _].
    unfold marked_ in Hf. apply in_map_iff in Hf. destruct Hf as [mv [E Hmv]].
    inversion E; subst mv. unfold agg in Hmv. apply in_map_iff in Hmv.
    destruct Hmv as [[m1 vs] [E1 Hvs]]. simpl in E1. inversion E1; subst m1.
    destruct (Gv m vs Hvs) as [Ev Hv].
    assert (Hex : exists e, In e (surviving cl played) /\ key e = m).
    { rewrite Ev in Hv. unfold values_of in Hv.
      destruct (filter (fun e => pos_eqb (key e) m) (surviving cl played))
        as [|e l] eqn:Ef; [now elim Hv|].
      assert (Hin' : In e (filter (fun e => pos_eqb (key e) m) (surviving cl played)))
        by (rewrite Ef; now left).
      apply filter_In in Hin'. destruct Hin' as [He Hke].
      exists e. split; [exact He | now apply pos_eqb_eq]. }
    destruct Hex as [e [He <-]]. unfold candidates. now apply (in_map key).
  - intros m' Hm'.
    unfold candidates in Hm'. apply in_map_iff in Hm'.
    destruct Hm' as [e' [<- He']].
    specialize (Gk e' He'). apply in_map_iff in Gk.
    destruct Gk as [[k' vs'] [Ek' Hvs']]. simpl in Ek'. subst k'.
    destruct (Gv _ vs' Hvs') as [Ev' _].
    assert (Hle : Qle (mean_of vs') top).
    { apply Hmax. apply in_map_iff. exists (key e', mean_of vs').
      split; [reflexivity|]. unfold agg. apply in_map_iff.
      exists (key e', vs'). now split. }
    unfold best in Hmin. apply in_map_iff in Hmin.
    destruct Hmin as [[[m0 s] flag] [E Hf]]. simpl in E. subst m0.
    apply filter_In in Hf. destruct Hf as [Hf Hflag]. simpl in Hflag. subst flag.
    unfold marked_ in Hf. apply in_map_iff in Hf. destruct Hf as [mv [E Hmv]].
    inversion E as [[E1 E2]]; subst mv. simpl in E2.
    unfold agg in Hmv. apply in_map_iff in Hmv.
    destruct Hmv as [[m1 vs] [E3 Hvs]]. simpl in E3. inversion E3; subst m1 s.
    destruct (Gv m vs Hvs) as [Ev _].
    apply Qeq_bool_iff in E2.
    assert (Hm1 : mean_score cl played tok m = mean_of vs)
      by (rewrite Ev; reflexivity).
    assert (Hm2 : mean_score cl played tok (key e') = mean_of vs')
      by (rewrite Ev'; reflexivity).
    apply Qle_trans with top.
    + change (Qle (mean_score cl played tok (key e')) top).
      rewrite Hm2. exact Hle.
    + rewrite Hm1. apply Qle_lteq. right. symmetry. exact E2.
Qed.

(** ** [get_move] *)

(** Where the moves played are the start of an enumerated permutation,
    [get_move] does what the specification says.  It returns [None] when
    the board has no empty cell and the only empty cell when there is
    exactly one.  With two or more, and when the moves played are the
    start of at least one enumerated permutation that goes on after them,
    it returns one of the candidate next moves (the entry right after the
    moves played in a permutation of the table that starts with them, in
    play order) whose mean score over those permutations (+100 for an
    outcome equal to the token, 0 for ["Draw"], -100 otherwise; the mean
    is the number [statistics.mean] returns) is largest, whatever the
    random draw.  The table has one entry per enumerated permutation. *)
Lemma get_move_picks_best_mean (init : Board) (tokens : list token)
    (cl : closure) (board : Board) (tok : token) (rnd : nat) :
  NoDup (empty_cells init) ->
  full_tree_search init tokens = Ok cl ->
  map fst (winners cl) = permutations (empty_cells init)
  /\ (empty_cells board = [] -> get_move cl board tok rnd = Ok None)
  /\ (forall c, empty_cells board = [c] ->
                get_move cl board tok rnd = Ok (Some c))
  /\ (2 <= length (empty_cells board) ->
      (exists p, In p (move_permuations cl)
                 /\ extends (played_positions board) p) ->
      exists m,
        get_move cl board tok rnd = Ok (Some m)
        /\ In m (candidates cl (played_positions board))
        /\ forall m', In m' (candidates cl (played_positions board)) ->
                      Qle (mean_score cl (played_positions board) tok m')
                          (mean_score cl (played_positions board) tok m)).
Proof.
  intros Hn Hcl. destruct (@winners_keys init tokens cl Hn Hcl) as (Hperms & Hk & Hnd).
  split; [now rewrite Hk, Hperms|]. split; [|split].
  - intros E. unfold get_move. now rewrite E.
  - intros c E. unfold get_move. now rewrite E.
  - intros H2 [p [Hp [Hs Hl]]].
    apply get_move_selects; auto.
    + intros e He. unfold surviving in He. apply filter_In in He.
      destruct He as [He _]. apply (in_map fst) in He. rewrite Hk, Hperms in He.
      rewrite Hperms in Hp.
      rewrite (permutations_length _ _ He), <- (permutations_length _ _ Hp).
      exact Hl.
    + rewrite <- Hk in Hp. apply in_map_iff in Hp. destruct Hp as [e [E He]].
      intros Hnil.
      assert (Hin : In e (surviving cl (played_positions board))).
      { unfold surviving. apply filter_In. split; [exact He | now rewrite E]. }
      rewrite Hnil in Hin. exact Hin.
Qed.

Lemma small_search_built :
  full_tree_search (fresh_board 2) ["O"; "X"]%string = Ok small_search.
Proof. vm_compute. reflexivity. Defined.

Example get_move_picks_best_mean_on_the_small_board :
  (2 <= length (empty_cells small_query)
   /\ exists p, In p (move_permuations small_search)
                /\ extends (played_positions small_query) p)
  /\ map fst (winners small_search) = permutations (empty_cells (fresh_board 2))
  /\ (empty_cells small_query = [] ->
      get_move small_search small_query "X" 0 = Ok None)
  /\ (forall c, empty_cells small_query = [c] ->
                get_move small_search small_query "X" 0 = Ok (Some c))
  /\ (2 <= length (empty_cells small_query) ->
      (exists p, In p (move_permuations small_search)
                 /\ extends (played_positions small_query) p) ->
      exists m,
        get_move small_search small_query "X" 0 = Ok (Some m)
        /\ In m (candidates small_search (played_positions small_query))
        /\ forall m', In m' (candidates small_search (played_positions small_query)) ->
                      Qle (mean_score small_search (played_positions small_query) "X" m')
                          (mean_score small_search (played_positions small_query) "X" m)).
Proof.
  split.
  - split; [simpl; lia|].
    exists [(0, 0); (0, 1); (1, 0); (1, 1)]%Z. split.
    + vm_compute. now left.
    + split; [reflexivity | simpl; lia].
  - apply (@get_move_picks_best_mean (fresh_board 2) ["O"; "X"]%string
             small_search small_query "X"%string 0).
    + apply (NoDup_map_zpos (NoDup_all_cells 2)).
    + exact small_search_built.
Defined.

Lemma midgame_search_built :
  full_tree_search midgame_board ["O"; "X"]%string = Ok midgame_search.
Proof. vm_compute. reflexivity. Qed.

Lemma midgame_board_reachable : reachable player_token midgame_board.
Proof.
  unfold midgame_board.
  repeat (eapply reach_play;
          [ | | | | apply surjective_pairing ]);
    try (apply reach_init with (n := 3); reflexivity);
    try (simpl; lia); try discriminate; reflexivity.
Qed.

Lemma midgame_query_raises (rnd : nat) :
  get_move midgame_search midgame_board "O" rnd = Raise no_sample.
Proof. vm_compute. reflexivity. Qed.

(** The selection at work on scores that differ: the mean scores are the
    floats nearest to 100/3 and 200/3, and 0; the move with the largest
    one is returned whatever the draw. *)
Example get_move_takes_the_largest_mean (rnd : nat) :
  get_move sample_table (fresh_board 2) "O" rnd = Ok (Some (0, 1)%Z)
  /\ map (mean_score sample_table [] "O") [(0, 0); (0, 1); (1, 0)]%Z
     = [(4691249611844267 # 140737488355328)%Q;
        (4691249611844267 # 70368744177664)%Q; 0%Q].
Proof.
  split; [|vm_compute; reflexivity].
  destruct (@get_move_selects sample_table (fresh_board 2) "O"%string rnd)
    as (m & Hm & Hc & Hmax).
  - simpl. lia.
  - reflexivity.
  - repeat constructor; cbn [In]; intuition discriminate.
  - intros e He. cbn in He. intuition (subst; simpl; lia).
  - discriminate.
  - rewrite Hm. do 2 f_equal.
    cbn in Hc.
    assert (Hb : In (0, 1)%Z (candidates sample_table (played_positions (fresh_board 2))))
      by (cbn; tauto).
    specialize (Hmax _ Hb).
    repeat (destruct Hc as [Hc | Hc]; [subst m; try reflexivity;
                                       vm_compute in Hmax; now elim Hmax|]).
    contradiction.
Qed.

(** C8.  The search is set up on the board reached by O (0,0), X (1,1),
    O (0,1), X (0,2) and queried on that board, which has five empty
    cells: the claim asks for a candidate move with the largest mean
    score.  No entry of the table starts with the four moves played, so
    there is no candidate; [get_move] returns no move and raises
    [ValueError] from [random.sample], whatever the random draw. *)
Theorem get_move_fails_without_survivors :
  reachable player_token midgame_board
  /\ full_tree_search midgame_board ["O"; "X"]%string = Ok midgame_search
  /\ 2 <= length (empty_cells midgame_board)
  /\ length (move_permuations midgame_search) = 120
  /\ surviving midgame_search (played_positions midgame_board) = []
  /\ candidates midgame_search (played_positions midgame_board) = []
  /\ forall rnd,
       get_move midgame_search midgame_board "O" rnd = Raise no_sample
       /\ ~ exists m, get_move midgame_search midgame_board "O" rnd = Ok (Some m).
Proof.
  split; [exact midgame_board_reachable|].
  split; [exact midgame_search_built|].
  split; [simpl; lia|]. split; [vm_compute; reflexivity|].
  split; [vm_compute; reflexivity|]. split; [vm_compute; reflexivity|].
  intros rnd. rewrite midgame_query_raises. split; [reflexivity|].
  intros [m Hm]. discriminate.
Qed.

(** C10.  The search is set up on the board reached by O (0,0), X (1,1),
    O (0,1), X (0,2), which has five empty cells.  On that board itself
    (the empty prefix of every permutation), and on the board after the
    first move of the first permutation, [get_move] raises [ValueError]:
    [played_positions] holds the four earlier moves, no permutation of the
    five remaining cells starts with them, and [random.sample] is called on
    an empty list. *)
Theorem get_move_raises_when_search_starts_midgame :
  reachable player_token midgame_board
  /\ played_positions midgame_board = [(0, 0); (1, 1); (0, 1); (0, 2)]%Z
  /\ full_tree_search midgame_board ["O"; "X"]%string = Ok midgame_search
  /\ hd [] (move_permuations midgame_search)
     = [(1, 0); (1, 2); (2, 0); (2, 1); (2, 2)]%Z
  /\ (forall rnd,
        get_move midgame_search midgame_board "O" rnd = Raise no_sample)
  /\ (forall rnd,
        get_move midgame_search (fst (play midgame_board 1 0 "O")) "X" rnd
        = Raise no_sample).
Proof.
  split; [exact midgame_board_reachable|].
  split; [reflexivity|].
  split; [exact midgame_search_built|].
  split; [vm_compute; reflexivity|].
  split; [exact midgame_query_raises|].
  intros rnd. vm_compute. reflexivity.
Qed.

(** ** Queries on the boards of the search *)

Lemma selects_head {A} (l : list A) (xr : A * list A) :
  In xr (selects l) ->
  In (fst xr) l /\ (NoDup l -> ~ In (fst xr) (snd xr)).
Proof.
  revert xr. induction l as [|x l IH]; intros xr H; [contradiction|].
  simpl in H. destruct H as [<- | H].
  - simpl. split; [now left|]. intros Hn. now inversion Hn.
  - apply in_map_iff in H. destruct H as [yr [<- Hyr]].
    destruct (IH yr Hyr) as (Hin & Hnd). simpl. split; [now right|].
    intros Hn. inversion Hn as [|? ? Hx Hl]; subst.
    intros [E | Hy]; [subst; contradiction | now apply Hnd].
Qed.

(** A permutation lists cells of the list, each at most once. *)
Lemma perms_of_length_members {A} (n : nat) : forall (l p : list A),
  In p (perms_of_length n l) ->
  (forall x, In x p -> In x l) /\ (NoDup l -> NoDup p).
Proof.
  induction n as [|n IH]; intros l p Hp.
  - destruct Hp as [<- | []]. split; [intros x [] | intros _; constructor].
  - simpl in Hp. apply in_flat_map in Hp. destruct Hp as [xr [Hxr Hp]].
    apply in_map_iff in Hp. destruct Hp as [q [<- Hq]].
    destruct (selects_rest _ _ Hxr) as (_ & Hin & Hnd).
    destruct (selects_head _ _ Hxr) as (Hh & Hnh).
    destruct (IH (snd xr) q Hq) as (IHin & IHnd).
    split.
    + intros x [<- | Hx]; [exact Hh | auto].
    + intros Hn. constructor; [|auto].
      intros Hf. apply (Hnh Hn). auto.
Qed.

(** Playing distinct empty cells one after the other succeeds; the cells
    join [played_positions] in order and leave [empty_cells]. *)
Lemma play_all_empty_cells n : forall q toks b,
  partitioned n b -> length toks = length q -> NoDup q ->
  (forall m, In m q -> In m (empty_cells b)) ->
  exists b',
    play_all b q toks = (b', Ok tt)
    /\ partitioned n b'
    /\ played_positions b' = played_positions b ++ q
    /\ (forall m, In m (empty_cells b') <-> In m (empty_cells b) /\ ~ In m q)
    /\ length (empty_cells b') + length q = length (empty_cells b).
Proof.
  induction q as [|[row col] q IH]; intros toks b Hp Hl Hn Hin.
  - exists b. destruct toks; [|discriminate]. simpl.
    rewrite app_nil_r.
    split; [reflexivity|]. split; [exact Hp|]. split; [reflexivity|].
    split; [intros m; tauto | lia].
  - destruct toks as [|t toks]; [discriminate|].
    inversion Hn as [|? ? Hnq Hnd]; subst.
    assert (Hm : In (row, col) (empty_cells b)) by (apply Hin; now left).
    assert (Hr : in_range n (row, col)).
    { apply (part_cover Hp). apply in_app_iff. now right. }
    assert (Hnp : ~ In (row, col) (played_positions b)).
    { intros Hpl. pose proof (part_nodup Hp) as Hd.
      apply in_split in Hpl. destruct Hpl as (l1 & l2 & E).
      rewrite E, <- app_assoc in Hd. apply NoDup_remove_2 in Hd.
      apply Hd. rewrite !in_app_iff. right. now right. }
    destruct (play_partitioned t Hp Hr Hnp) as (l1 & l2 & E & P).
    pose proof (@play_keeps_partitioned n b row col t _ Hp Hr P) as Hp1.
    assert (Hd : NoDup (l1 ++ (row, col) :: l2)).
    { rewrite <- E. pose proof (part_nodup Hp) as Hd.
      now apply NoDup_app_remove_l in Hd. }
    assert (Hmem : forall m, In m (l1 ++ l2)
                             <-> In m (empty_cells b) /\ m <> (row, col)).
    { intros m. rewrite E. split.
      - intros H. split.
        + apply in_app_iff in H. apply in_app_iff.
          destruct H; [now left | right; now right].
        + intros ->. now apply NoDup_remove_2 in Hd.
      - intros [H Hne]. apply in_app_iff in H. apply in_app_iff.
        destruct H as [H | [H | H]]; [now left | congruence | now right]. }
    edestruct (IH toks _ Hp1) as (b' & Hplay & Hp' & Hpl' & He' & Hlen').
    + simpl in Hl. lia.
    + exact Hnd.
    + intros m Hmq. cbn [empty_cells]. apply Hmem. split; [apply Hin; now right|].
      intros ->. contradiction.
    + exists b'. cbn [play_all fst snd]. rewrite P. split; [exact Hplay|].
      split; [exact Hp'|]. cbn [played_positions empty_cells] in *.
      split; [now rewrite Hpl', <- app_assoc|]. split.
      * intros m. rewrite He', Hmem. simpl. split.
        -- intros [[H1 H2] H3]. split; [exact H1|]. intros [H | H]; [congruence | auto].
        -- intros [H1 H2]. split; [split; [exact H1|]|]; intros H; apply H2;
             [left; congruence | now right].
      * rewrite E, length_app. simpl. rewrite length_app in Hlen'. lia.
Qed.

Lemma firstn_starts {A} (q p : list A) :
  firstn (length q) p = q -> p = q ++ skipn (length q) p.
Proof. intros H. rewrite <- H at 1. symmetry. apply firstn_skipn. Qed.

(** When the search starts from a board without earlier moves, a query on a
    board reached by playing the first moves of an enumerated permutation
    does not raise: it returns [None] or an empty cell of the board. *)
Lemma get_move_safe_without_earlier_moves n init tokens cl q rest toks tok rnd :
  partitioned n init -> played_positions init = [] ->
  full_tree_search init tokens = Ok cl ->
  In (q ++ rest) (move_permuations cl) ->
  length toks = length q ->
  snd (play_all init q toks) = Ok tt
  /\ (get_move cl (fst (play_all init q toks)) tok rnd = Ok None
      \/ exists m,
           get_move cl (fst (play_all init q toks)) tok rnd = Ok (Some m)
           /\ In m (empty_cells (fst (play_all init q toks)))).
Proof.
  intros Hp Hpl Hcl Hperm Hl.
  assert (Hn : NoDup (empty_cells init)).
  { pose proof (part_nodup Hp) as H. now rewrite Hpl in H. }
  destruct (@winners_keys init tokens cl Hn Hcl) as (Hperms & Hk & Hnd).
  rewrite Hperms in Hperm.
  destruct (perms_of_length_members _ _ _ Hperm) as (Hin & Hdist).
  specialize (Hdist Hn).
  assert (Hq : NoDup q) by (now apply NoDup_app_remove_r in Hdist).
  destruct (@play_all_empty_cells n q toks init Hp Hl Hq)
    as (b' & Hplay & Hp' & Hpl' & He' & Hlen').
  { intros m Hm. apply Hin. apply in_app_iff. now left. }
  rewrite Hplay. cbn [fst snd]. split; [reflexivity|].
  rewrite Hpl in Hpl'. simpl in Hpl'.
  destruct (empty_cells b') as [|c [|c' cs]] eqn:Ee.
  - left. unfold get_move. now rewrite Ee.
  - right. exists c. unfold get_move. rewrite Ee. split; [reflexivity | now left].
  - right. rewrite <- Ee in He', Hlen' |- *.
    assert (H2 : 2 <= length (empty_cells b')) by (rewrite Ee; simpl; lia).
    pose proof (permutations_length _ _ Hperm) as Hlp.
    assert (Hsurv : forall e, In e (surviving cl (played_positions b')) ->
                              In (fst e) (permutations (empty_cells init))
                              /\ firstn (length q) (fst e) = q).
    { intros e He. unfold surviving in He. apply filter_In in He.
      destruct He as [He Hs]. split.
      - rewrite <- Hperms, <- Hk. now apply in_map.
      - rewrite Hpl' in Hs. unfold starts_with in Hs.
        now apply perm_eqb_eq in Hs. }
    destruct (@get_move_selects cl b' tok rnd H2 Hk Hnd) as (m & Hm & Hc & _).
    + intros e He. destruct (Hsurv e He) as [Hpe _].
      rewrite (permutations_length _ _ Hpe), Hpl'. lia.
    + assert (Hw : In (q ++ rest) (map fst (winners cl)))
        by (now rewrite Hk, Hperms).
      apply in_map_iff in Hw. destruct Hw as [e [E He]]. intros Hnil.
      assert (Hs : In e (surviving cl (played_positions b'))).
      { unfold surviving. apply filter_In. split; [exact He|].
        rewrite E, Hpl'. unfold starts_with. apply perm_eqb_eq.
        rewrite firstn_app, Nat.sub_diag, firstn_all. simpl. apply app_nil_r. }
      rewrite Hnil in Hs. exact Hs.
    + exists m. split; [exact Hm|].
      unfold candidates in Hc. apply in_map_iff in Hc.
      destruct Hc as [e [<- He]]. destruct (Hsurv e He) as [Hpe Hf].
      destruct (perms_of_length_members _ _ _ Hpe) as (Hine & Hde).
      specialize (Hde Hn).
      pose proof (permutations_length _ _ Hpe) as Hle.
      rewrite Hpl'. unfold next_of.
      rewrite (@firstn_starts _ q (fst e) Hf) in Hde, Hine.
      rewrite (@firstn_starts _ q (fst e) Hf) at 1.
      rewrite app_nth2, Nat.sub_diag by lia.
      assert (Hlong : length (skipn (length q) (fst e)) <> 0).
      { rewrite length_skipn, Hle. lia. }
      destruct (skipn (length q) (fst e)) as [|x tl]; [simpl in Hlong; lia|].
      simpl. apply He'. split.
      * apply Hine. apply in_app_iff. right. now left.
      * intros Hxq. apply NoDup_remove_2 in Hde. apply Hde.
        apply in_app_iff. now left.
Qed.

(** Without a permutation that starts with the moves played there is no
    candidate, and with two or more empty cells [get_move] raises
    [ValueError] from [random.sample]. *)
Lemma get_move_without_survivors (cl : closure) (board : Board) (tok : token)
    (rnd : nat) :
  2 <= length (empty_cells board) ->
  map fst (winners cl) = move_permuations cl ->
  NoDup (move_permuations cl) ->
  surviving cl (played_positions board) = [] ->
  get_move cl board tok rnd = Raise no_sample.
Proof.
  intros H2 Hk Hn Hs. unfold get_move.
  destruct (empty_cells board) as [|c1 [|c2 rest]]; simpl in H2; try lia.
  set (played := played_positions board) in *.
  assert (Hnum : match played with
                 | [] => 0%Z
                 | _ :: _ => Z.of_nat (length played)
                 end = Z.of_nat (length played))
    by (destruct played; reflexivity).
  cbv zeta. rewrite Hnum.
  rewrite (winners_subset_surviving cl played Hk Hn), Hs. reflexivity.
Qed.

(** The search set up on a board with earlier moves never answers: on
    every board whose history starts with the moves of the initial board
    and that has two or more empty cells, [get_move] raises
    [ValueError]. *)
Lemma get_move_raises_after_earlier_moves (init : Board) (tokens : list token)
    (cl : closure) (board : Board) (tok : token) (rnd : nat) :
  reachable any_token init -> played_positions init <> [] ->
  full_tree_search init tokens = Ok cl ->
  firstn (length (played_positions init)) (played_positions board)
  = played_positions init ->
  2 <= length (empty_cells board) ->
  get_move cl board tok rnd = Raise no_sample.
Proof.
  intros Hr Hne Hcl Hpre H2.
  destruct (reachable_partitioned Hr) as [n Hp].
  assert (Hnd : NoDup (empty_cells init)).
  { pose proof (part_nodup Hp) as H. now apply NoDup_app_remove_l in H. }
  destruct (@winners_keys init tokens cl Hnd Hcl) as (Hperms & Hk & Hn).
  apply get_move_without_survivors; auto.
  unfold surviving.
  destruct (played_positions init) as [|p0 ps] eqn:Ei; [congruence|].
  destruct (played_positions board) as [|q0 qs] eqn:Eb; [discriminate|].
  cbn [length firstn] in Hpre. inversion Hpre; subst q0.
  assert (Hp0 : ~ In p0 (empty_cells init)).
  { pose proof (part_nodup Hp) as H. rewrite Ei in H. cbn [app] in H.
    inversion H as [|? ? Hnotin _]; subst. intros Hin. apply Hnotin.
    apply in_app_iff. now right. }
  assert (Hall : forall e, In e (winners cl) ->
                 starts_with (p0 :: qs) (fst e) = false).
  { intros e He. destruct (starts_with (p0 :: qs) (fst e)) eqn:Es; [|reflexivity].
    exfalso. apply Hp0.
    assert (Hpe : In (fst e) (permutations (empty_cells init))).
    { rewrite <- Hperms, <- Hk. now apply in_map. }
    destruct (perms_of_length_members _ _ _ Hpe) as (Hin & _).
    apply Hin. unfold starts_with in Es. apply perm_eqb_eq in Es.
    destruct (fst e) as [|x p]; [discriminate|].
    cbn [length firstn] in Es. inversion Es; subst. now left. }
  clear -Hall. induction (winners cl) as [|e w IH]; [reflexivity|].
  cbn [filter]. rewrite (Hall e (or_introl eq_refl)).
  apply IH. intros e' He'. apply Hall. now right.
Qed.

(** * The tree iterator *)

(** ** The iterator on a tree given by its properties *)

Lemma ascend_eq (v : list Node) (n : Node) :
  ascend v n
  = (cs <- children n ;;
     match get_unvisited_items v cs with
     | Some _ => Ok n
     | None => match parent n with
               | None => Ok n
               | Some p => ascend v p
               end
     end).
Proof. destruct n. reflexivity. Qed.

Lemma get_unvisited_kids (v : list Node) (x : Node) cs :
  children x = Ok cs ->
  get_unvisited_items v cs
  = match unvisited v (kids x) with [] => None | u => Some u end.
Proof.
  intros H. unfold kids. rewrite H. unfold get_unvisited_items, unvisited.
  destruct cs as [[|c l]|]; reflexivity.
Qed.

Lemma contains_app (x : Node) (l1 l2 : list Node) :
  contains node_eqb x (l1 ++ l2)
  = contains node_eqb x l1 || contains node_eqb x l2.
Proof. unfold contains. apply existsb_app. Qed.

Lemma unvisited_In (v : list Node) (l : list Node) (c : Node) :
  In c (unvisited v l) <-> In c l /\ contains node_eqb c v = false.
Proof.
  unfold unvisited. rewrite filter_In, negb_true_iff. reflexivity.
Qed.

Lemma unvisited_app (v l1 l2 : list Node) :
  unvisited v (l1 ++ l2) = unvisited v l1 ++ unvisited v l2.
Proof. apply filter_app. Qed.

Lemma unvisited_all_seen (v l : list Node) :
  (forall c, In c l -> contains node_eqb c v = true) -> unvisited v l = [].
Proof.
  induction l as [|c l IH]; intros H; [reflexivity|].
  unfold unvisited in *. simpl. rewrite (H c) by now left. simpl.
  apply IH. intros c' Hc'. apply H. now right.
Qed.

Lemma drain_app (a b : nat) (it it1 it2 : NodeIterator) (l1 l2 : list Node) :
  drain a it = Ok (l1, it1) -> drain b it1 = Ok (l2, it2) ->
  drain (a + b) it = Ok (l1 ++ l2, it2).
Proof.
  revert it l1. induction a as [|a IH]; intros it l1 H1 H2; simpl in *.
  - inversion H1; subst. exact H2.
  - apply bind_Ok in H1. destruct H1 as [[n it'] [Hn H1]].
    apply bind_Ok in H1. destruct H1 as [[l it''] [Hd H1]].
    simpl in *. inversion H1; subst. rewrite Hn. simpl.
    rewrite (IH _ _ Hd H2). reflexivity.
Qed.

Lemma iterate_drain (k : nat) : forall (it it' : NodeIterator) (l : list Node),
  drain k it = Ok (l, it') ->
  NodeIterator_next it' = Raise StopIteration ->
  forall fuel, k < fuel -> iterate fuel it = Ok l.
Proof.
  induction k as [|k IH]; intros it it' l Hd Hstop fuel Hf.
  - simpl in Hd. inversion Hd; subst. destruct fuel; [lia|].
    simpl. now rewrite Hstop.
  - simpl in Hd. apply bind_Ok in Hd. destruct Hd as [[n it1] [Hn Hd]].
    apply bind_Ok in Hd. destruct Hd as [[l1 it2] [Hd E]].
    simpl in *. inversion E; subst. destruct fuel; [lia|].
    simpl. rewrite Hn. rewrite (IH _ _ _ Hd Hstop) by lia. reflexivity.
Qed.

Section Traversal.
(** [T] holds of the nodes of the tree. *)
Variable T : Node -> Prop.

Hypothesis T_children : forall x, T x -> exists cs, children x = Ok cs.
Hypothesis T_kid :
  forall x c, T x -> In c (kids x) ->
              T c /\ parent c = Some x /\ height c < height x
              /\ node_eqb c x = false.
Hypothesis node_eqb_refl : forall x, node_eqb x x = true.
Hypothesis node_eqb_sym : forall x y, node_eqb x y = node_eqb y x.

Lemma finished_intro v x :
  T x -> contains node_eqb x v = true -> unvisited v (kids x) = [] ->
  finished v x.
Proof. intros Hx Hc Hu. split; [now apply T_children | now split]. Qed.

Lemma contains_self x v : contains node_eqb x (v ++ [x]) = true.
Proof.
  rewrite contains_app. simpl. rewrite node_eqb_refl. simpl.
  apply orb_true_r.
Qed.

(** An unvisited node is returned at once. *)
Lemma dfs_fresh fuel v c :
  T c -> contains node_eqb c v = false ->
  depth_first_search (S fuel) v c = visit c v.
Proof.
  intros Hc Hv. destruct (@T_children c Hc) as [cs Hcs].
  cbn [depth_first_search]. rewrite Hcs. cbn [bind].
  rewrite (get_unvisited_kids v c Hcs). unfold visit.
  destruct (unvisited v (kids c)) as [|c' u]; rewrite ?Hv; cbn [bind negb];
    rewrite ?Hv; reflexivity.
Qed.

Lemma exhausted_top v x y : exhausted v x y -> finished v x.
Proof. induction 1; auto. Qed.

Lemma exhausted_extend v c y x :
  exhausted v c y -> parent c = Some x -> finished v x -> exhausted v x y.
Proof.
  induction 1 as [Hf | y p Hf Hp He IH]; intros Hpar Hx.
  - eapply ex_up; eauto. now apply ex_here.
  - eapply ex_up; eauto.
Qed.

Lemma ascend_finished v z :
  finished v z ->
  ascend v z = match parent z with None => Ok z | Some p => ascend v p end.
Proof.
  intros ([cs Hcs] & _ & Hu). rewrite ascend_eq, Hcs. cbn [bind].
  rewrite (get_unvisited_kids v z Hcs), Hu. reflexivity.
Qed.

Lemma ascend_open v A c u :
  T A -> unvisited v (kids A) = c :: u -> ascend v A = Ok A.
Proof.
  intros HA Hu. destruct (@T_children A HA) as [cs Hcs].
  rewrite ascend_eq, Hcs. cbn [bind].
  now rewrite (get_unvisited_kids v A Hcs), Hu.
Qed.

Lemma ascend_to_open v x y A c u :
  exhausted v x y -> parent x = Some A -> T A ->
  unvisited v (kids A) = c :: u -> ascend v y = Ok A.
Proof.
  induction 1 as [Hf | y p Hf Hp He IH]; intros Hpar HA Hu.
  - rewrite (ascend_finished Hf), Hpar. eapply ascend_open; eauto.
  - rewrite (ascend_finished Hf), Hp. now apply IH.
Qed.

Lemma ascend_to_root v x y :
  exhausted v x y -> parent x = None -> ascend v y = Ok x.
Proof.
  induction 1 as [Hf | y p Hf Hp He IH]; intros Hpar.
  - now rewrite (ascend_finished Hf), Hpar.
  - rewrite (ascend_finished Hf), Hp. now apply IH.
Qed.

(** From a finished node the search climbs to the first ancestor with an
    unvisited child and returns that child. *)
Lemma next_after_exhausted v x y A c u :
  exhausted v x y -> parent x = Some A -> T A ->
  contains node_eqb A v = true ->
  unvisited v (kids A) = c :: u ->
  depth_first_search search_depth v y = visit c v.
Proof.
  intros He Hpar HA HAv Hu.
  assert (Hc : In c (kids A) /\ contains node_eqb c v = false).
  { apply unvisited_In. rewrite Hu. now left. }
  destruct Hc as [Hc Hcv].
  assert (HTc : T c) by (now apply (@T_kid A c HA Hc)).
  pose proof (ascend_to_open He Hpar HA Hu) as Hasc.
  assert (Hy : finished v y) by (inversion He; auto).
  destruct Hy as ([cs Hcs] & Hyv & Hyu).
  assert (Hpy : exists q, parent y = Some q).
  { inversion He; subst; eauto. }
  destruct Hpy as [q Hq].
  unfold search_depth. cbn [depth_first_search].
  rewrite Hcs. cbn [bind]. rewrite (get_unvisited_kids v y Hcs), Hyu.
  rewrite Hyv, Hq, Hasc. cbn [bind]. rewrite HAv. cbn [negb].
  destruct (@T_children A HA) as [csA HcsA].
  rewrite HcsA. cbn [bind]. rewrite (get_unvisited_kids v A HcsA), Hu.
  cbn [bind hd]. rewrite HAv. cbn [negb].
  change (depth_first_search 1 v c = visit c v).
  now apply dfs_fresh.
Qed.

(** From a finished node below a finished root the search stops. *)
Lemma stop_after_exhausted v x y :
  exhausted v x y -> parent x = None ->
  depth_first_search search_depth v y = Raise StopIteration.
Proof.
  intros He Hpar.
  pose proof (exhausted_top He) as ([csx Hcsx] & Hxv & Hxu).
  assert (Hy : finished v y) by (inversion He; auto).
  destruct Hy as ([cs Hcs] & Hyv & Hyu).
  unfold search_depth. cbn [depth_first_search].
  rewrite Hcs. cbn [bind]. rewrite (get_unvisited_kids v y Hcs), Hyu, Hyv.
  inversion He as [Hf | y' p Hf Hp He']; subst.
  - rewrite Hpar. reflexivity.
  - rewrite Hp, (ascend_to_root He Hpar). cbn [bind]. rewrite Hxv. cbn [negb].
    rewrite Hcsx. cbn [bind]. rewrite (get_unvisited_kids v x Hcsx), Hxu.
    rewrite ?Hxv. rewrite Hpar. reflexivity.
Qed.

Lemma unvisited_after_parent v x :
  T x -> unvisited (v ++ [x]) (kids x) = unvisited v (kids x).
Proof.
  intros Hx. unfold unvisited. apply filter_ext_in. intros c Hc.
  rewrite contains_app. simpl.
  destruct (@T_kid x c Hx Hc) as (_ & _ & _ & Hne).
  rewrite node_eqb_sym, Hne. now rewrite !orb_false_r.
Qed.

(** The loop over the children of [x], given that the subtrees of the
    children are traversed as [pre] says. *)
Lemma kids_loop (pre : Node -> list Node -> list Node) (h' : nat) (x : Node) :
  T x -> height x <= S h' ->
  (forall c v it,
      T c -> height c <= h' -> contains node_eqb c v = false ->
      NodeIterator_next it = visit c v ->
      exists y,
        drain (length (pre c v)) it
        = Ok (pre c v, mkNodeIterator y (v ++ pre c v))
        /\ exhausted (v ++ pre c v) c y
        /\ contains node_eqb c (v ++ pre c v) = true) ->
  forall todo done_kids v it,
    kids x = done_kids ++ todo ->
    (forall k, In k done_kids -> contains node_eqb k v = true) ->
    contains node_eqb x v = true ->
    match unvisited v todo with
    | c :: _ => NodeIterator_next it = visit c v
    | [] => exists y, it = mkNodeIterator y v /\ exhausted v x y
    end ->
    exists y,
      drain (length (preorder_kids pre todo v)) it
      = Ok (preorder_kids pre todo v,
            mkNodeIterator y (v ++ preorder_kids pre todo v))
      /\ exhausted (v ++ preorder_kids pre todo v) x y.
Proof.
  intros Hx Hh IHpre.
  induction todo as [|c rest IH]; intros done_kids v it Hk Hdone Hxv Hnext.
  - simpl in *. destruct Hnext as [y [-> He]]. exists y.
    rewrite app_nil_r. now split.
  - cbn [preorder_kids]. destruct (contains node_eqb c v) eqn:Hcv.
    + apply (IH (done_kids ++ [c])).
      * now rewrite <- app_assoc.
      * intros k Hin. apply in_app_iff in Hin.
        destruct Hin as [Hin | [<- | []]]; auto.
      * exact Hxv.
      * unfold unvisited in *. simpl in Hnext. rewrite Hcv in Hnext. exact Hnext.
    + assert (Hc : In c (kids x)).
      { rewrite Hk. apply in_app_iff. right. now left. }
      destruct (@T_kid x c Hx Hc) as (HTc & Hpar & Hlt & _).
      assert (Hn : NodeIterator_next it = visit c v).
      { unfold unvisited in Hnext. simpl in Hnext. rewrite Hcv in Hnext.
        exact Hnext. }
      destruct (IHpre c v it HTc ltac:(lia) Hcv Hn) as (y1 & Hd1 & He1 & Hc1).
      set (v1 := v ++ pre c v) in *.
      assert (Hxv1 : contains node_eqb x v1 = true).
      { unfold v1. rewrite contains_app, Hxv. reflexivity. }
      assert (Hseen : forall k, In k (done_kids ++ [c]) ->
                                contains node_eqb k v1 = true).
      { intros k Hin. apply in_app_iff in Hin.
        destruct Hin as [Hin | [<- | []]]; [|exact Hc1].
        unfold v1. rewrite contains_app, (Hdone k Hin). reflexivity. }
      assert (Hrest : unvisited v1 (kids x) = unvisited v1 rest).
      { rewrite Hk.
        replace (done_kids ++ c :: rest) with ((done_kids ++ [c]) ++ rest)
          by (rewrite <- app_assoc; reflexivity).
        rewrite unvisited_app, (unvisited_all_seen v1 _ Hseen). reflexivity. }
      destruct (IH (done_kids ++ [c]) v1 (mkNodeIterator y1 v1))
        as (y2 & Hd2 & He2).
      * now rewrite <- app_assoc.
      * exact Hseen.
      * exact Hxv1.
      * destruct (unvisited v1 rest) as [|c' u] eqn:Hu.
        -- exists y1. split; [reflexivity|].
           apply (exhausted_extend He1 Hpar).
           apply finished_intro; [exact Hx | exact Hxv1 | exact Hrest].
        -- unfold NodeIterator_next. cbn [visited_nodes node].
           apply (next_after_exhausted He1 Hpar Hx Hxv1 Hrest).
      * exists y2. rewrite length_app.
        rewrite (@drain_app _ _ _ _ _ _ _ Hd1 Hd2).
        unfold v1 in *. rewrite (app_assoc v). now split.
Qed.

(** [__next__], called again and again from the moment it returns the
    unvisited node [x], returns the traversal of [x] and leaves the
    iterator on a finished node below [x]. *)
Lemma subtree_traversed (h : nat) : forall x v it,
  T x -> height x <= h -> contains node_eqb x v = false ->
  NodeIterator_next it = visit x v ->
  exists y,
    drain (length (preorder h x v)) it
    = Ok (preorder h x v, mkNodeIterator y (v ++ preorder h x v))
    /\ exhausted (v ++ preorder h x v) x y
    /\ contains node_eqb x (v ++ preorder h x v) = true.
Proof.
  induction h as [|h IH]; intros x v it Hx Hh Hxv Hn.
  - assert (Hk : kids x = []).
    { destruct (kids x) as [|c l] eqn:E; [reflexivity|].
      assert (Hc : In c (kids x)) by (rewrite E; now left).
      destruct (@T_kid x c Hx Hc) as (_ & _ & Hlt & _). lia. }
    exists x. cbn [preorder length drain]. rewrite Hn. unfold visit.
    rewrite Hk. cbn. split; [reflexivity|]. split.
    + apply ex_here. apply finished_intro; auto.
      * apply contains_self.
      * now rewrite Hk.
    + apply contains_self.
  - cbn [preorder length drain]. rewrite Hn. unfold visit. cbn [bind snd fst].
    set (v1 := v ++ [x]).
    assert (Hxv1 : contains node_eqb x v1 = true) by apply contains_self.
    destruct (@kids_loop (preorder h) h x Hx Hh IH
                         (kids x) [] v1
                         (mkNodeIterator (hd x (unvisited v (kids x))) v1))
      as (y & Hd & He).
    + reflexivity.
    + intros k [].
    + exact Hxv1.
    + unfold v1. rewrite (unvisited_after_parent v Hx).
      destruct (unvisited v (kids x)) as [|c u] eqn:Hu.
      * exists x. split; [reflexivity|]. apply ex_here.
        apply finished_intro; auto.
        fold v1. unfold v1. now rewrite (unvisited_after_parent v Hx).
      * cbn [hd]. unfold NodeIterator_next. cbn [visited_nodes node].
        assert (Hc : In c (kids x) /\ contains node_eqb c v = false).
        { apply unvisited_In. rewrite Hu. now left. }
        destruct Hc as [Hc Hcv].
        destruct (@T_kid x c Hx Hc) as (HTc & _ & _ & Hne).
        apply dfs_fresh; auto.
        rewrite contains_app, Hcv. simpl. rewrite node_eqb_sym, Hne. reflexivity.
    + exists y. rewrite Hd. cbn [bind fst snd].
      replace (v ++ x :: preorder_kids (preorder h) (kids x) v1)
        with (v1 ++ preorder_kids (preorder h) (kids x) v1)
        by (unfold v1; rewrite <- app_assoc; reflexivity).
      split; [reflexivity|]. split; [exact He|].
      rewrite contains_app, Hxv1. reflexivity.
Qed.

(** Iterating the root returns the traversal and then stops. *)
Lemma iterate_root (root : Node) :
  T root -> parent root = None ->
  forall fuel, length (traversal root) < fuel ->
               iterate fuel (Node_iter root) = Ok (traversal root).
Proof.
  intros Hr Hpar fuel Hf.
  destruct (@subtree_traversed (height root) root [] (Node_iter root)
                               Hr (le_n _) eq_refl)
    as (y & Hd & He & _).
  - unfold NodeIterator_next, Node_iter. cbn [visited_nodes node].
    now apply dfs_fresh.
  - apply (@iterate_drain _ _ _ _ Hd); [|exact Hf].
    unfold NodeIterator_next. cbn [visited_nodes node].
    now apply (stop_after_exhausted He).
Qed.

(** *** What the traversal lists *)

Hypothesis node_eqb_trans :
  forall x y z, node_eqb x y = true -> node_eqb y z = true ->
                node_eqb x z = true.
Hypothesis kids_equal :
  forall x y, T x -> T y -> node_eqb x y = true ->
              Forall2 (fun a b => node_eqb a b = true) (kids x) (kids y).

Lemma contains_true x l :
  contains node_eqb x l = true <-> exists y, In y l /\ node_eqb y x = true.
Proof. unfold contains. apply existsb_exists. Qed.

Lemma contains_false x l :
  contains node_eqb x l = false <-> forall y, In y l -> node_eqb y x = false.
Proof.
  split.
  - intros H y Hy. destruct (node_eqb y x) eqn:E; [|reflexivity].
    assert (Ht : contains node_eqb x l = true) by (apply contains_true; eauto).
    congruence.
  - intros H. destruct (contains node_eqb x l) eqn:E; [|reflexivity].
    apply contains_true in E. destruct E as [y [Hy E]].
    rewrite (H y Hy) in E. discriminate.
Qed.

Lemma contains_eq x y l :
  node_eqb x y = true -> contains node_eqb x l = contains node_eqb y l.
Proof.
  intros E.
  destruct (contains node_eqb x l) eqn:Ex, (contains node_eqb y l) eqn:Ey;
    try reflexivity.
  - apply contains_true in Ex. destruct Ex as [z [Hz Ez]].
    assert (Ht : contains node_eqb y l = true).
    { apply contains_true. exists z. split; [exact Hz|].
      now apply node_eqb_trans with x. }
    congruence.
  - apply contains_true in Ey. destruct Ey as [z [Hz Ez]].
    assert (Ht : contains node_eqb x l = true).
    { apply contains_true. exists z. split; [exact Hz|].
      apply node_eqb_trans with y; [exact Ez|]. now rewrite node_eqb_sym. }
    congruence.
Qed.

Lemma distinct_app l1 l2 :
  distinct (l1 ++ l2)
  <-> distinct l1 /\ distinct l2
      /\ (forall a, In a l2 -> contains node_eqb a l1 = false).
Proof.
  induction l1 as [|x l1 IH]; simpl.
  - intuition.
  - rewrite IH, contains_app, orb_false_iff. split.
    + intros ((H1 & H2) & H3 & H4 & H5). repeat split; auto.
      intros a Ha. simpl. apply orb_false_iff. split; [|now apply H5].
      rewrite node_eqb_sym. apply (proj1 (contains_false x l2) H2 a Ha).
    + intros ((H1 & H2) & H3 & H4). repeat split; auto.
      * apply contains_false. intros y Hy. specialize (H4 y Hy). simpl in H4.
        apply orb_false_iff in H4. rewrite node_eqb_sym. tauto.
      * intros a Ha. specialize (H4 a Ha). simpl in H4.
        apply orb_false_iff in H4. tauto.
Qed.

(** The nodes listed are nodes of the subtree, and no two of them, or
    one of them and a node seen before, are equal. *)
Lemma preorder_sound (h : nat) : forall x v,
  T x -> height x <= h -> contains node_eqb x v = false -> distinct v ->
  distinct (v ++ preorder h x v)
  /\ (forall n, In n (preorder h x v) -> T n /\ below x n)
  /\ In x (preorder h x v).
Proof.
  induction h as [|h IH]; intros x v Hx Hh Hxv Hv.
  - simpl. split; [|split].
    + apply distinct_app. repeat split; auto.
      * intros a [<- | []]. exact Hxv.
    + intros n [<- | []]. split; [exact Hx | constructor].
    + now left.
  - cbn [preorder].
    assert (Hloop : forall cs v',
               (forall c, In c cs -> In c (kids x)) ->
               distinct v' ->
               distinct (v' ++ preorder_kids (preorder h) cs v')
               /\ (forall n, In n (preorder_kids (preorder h) cs v') ->
                              T n /\ below x n)).
    { induction cs as [|c cs IHcs]; intros v' Hcs Hv'.
      - simpl. rewrite app_nil_r. split; [exact Hv' | intros n []].
      - cbn [preorder_kids]. destruct (contains node_eqb c v') eqn:Hc.
        + apply IHcs; auto. intros c' Hc'. apply Hcs. now right.
        + assert (Hck : In c (kids x)) by (apply Hcs; now left).
          destruct (@T_kid x c Hx Hck) as (HTc & _ & Hlt & _).
          destruct (IH c v' HTc ltac:(lia) Hc Hv') as (Hd & Hm & _).
          destruct (IHcs (v' ++ preorder h c v')) as (Hd' & Hm').
          * intros c' Hc'. apply Hcs. now right.
          * exact Hd.
          * split.
            -- now rewrite app_assoc.
            -- intros n Hn. apply in_app_iff in Hn. destruct Hn as [Hn | Hn].
               ++ destruct (Hm n Hn) as [HTn Hb]. split; [exact HTn|].
                  clear -Hb Hck. induction Hb.
                  ** eapply below_kid; [constructor | exact Hck].
                  ** eapply below_kid; eauto.
               ++ now apply Hm'. }
    destruct (Hloop (kids x) (v ++ [x])) as (Hd & Hm).
    + auto.
    + apply distinct_app. repeat split; auto. intros a [<- | []]. exact Hxv.
    + split; [|split].
      * replace (v ++ x :: preorder_kids (preorder h) (kids x) (v ++ [x]))
          with ((v ++ [x]) ++ preorder_kids (preorder h) (kids x) (v ++ [x]))
          by (rewrite <- app_assoc; reflexivity).
        exact Hd.
      * intros n [<- | Hn]; [split; [exact Hx | constructor] | now apply Hm].
      * now left.
Qed.

(** After the traversal of [x], every child of a node it lists is equal
    to a node seen. *)
Lemma preorder_closed (h : nat) : forall x v,
  T x -> height x <= h -> contains node_eqb x v = false ->
  forall m, In m (preorder h x v) ->
    forall c, In c (kids m) ->
      contains node_eqb c (v ++ preorder h x v) = true.
Proof.
  induction h as [|h IH]; intros x v Hx Hh Hxv m Hm c Hc.
  - simpl in Hm. destruct Hm as [<- | []].
    destruct (@T_kid x c Hx Hc) as (_ & _ & Hlt & _). lia.
  - cbn [preorder] in *.
    assert (Hloop : forall cs v',
               (forall c, In c cs -> In c (kids x)) ->
               (forall c, In c cs ->
                  contains node_eqb c (v' ++ preorder_kids (preorder h) cs v')
                  = true)
               /\ (forall m, In m (preorder_kids (preorder h) cs v') ->
                     forall c, In c (kids m) ->
                       contains node_eqb c
                         (v' ++ preorder_kids (preorder h) cs v') = true)).
    { induction cs as [|c0 cs IHcs]; intros v' Hcs.
      - split; [intros c' [] | intros m' []].
      - cbn [preorder_kids]. destruct (contains node_eqb c0 v') eqn:Hc0.
        + destruct (IHcs v') as (H1 & H2).
          { intros c' Hc'. apply Hcs. now right. }
          split; [|exact H2].
          intros c' [<- | Hc']; [|now apply H1].
          rewrite contains_app, Hc0. reflexivity.
        + assert (Hck : In c0 (kids x)) by (apply Hcs; now left).
          destruct (@T_kid x c0 Hx Hck) as (HTc & _ & Hlt & _).
          pose proof (IH c0 v' HTc ltac:(lia) Hc0) as Hsub.
          destruct (IHcs (v' ++ preorder h c0 v')) as (H1 & H2).
          { intros c' Hc'. apply Hcs. now right. }
          rewrite !app_assoc. split.
          * intros c' [<- | Hc'].
            -- rewrite contains_app.
               assert (Hin : contains node_eqb c0 (v' ++ preorder h c0 v') = true).
               { destruct h as [|h0]; cbn [preorder];
                   rewrite contains_app; simpl; rewrite node_eqb_refl;
                   simpl; apply orb_true_r. }
               rewrite Hin. reflexivity.
            -- now apply H1.
          * intros m' Hm' c' Hc'. apply in_app_iff in Hm'.
            destruct Hm' as [Hm' | Hm'].
            -- rewrite contains_app, (Hsub m' Hm' c' Hc'). reflexivity.
            -- now apply (H2 m'). }
    destruct (Hloop (kids x) (v ++ [x])) as (H1 & H2); [auto|].
    replace (v ++ x :: preorder_kids (preorder h) (kids x) (v ++ [x]))
      with ((v ++ [x]) ++ preorder_kids (preorder h) (kids x) (v ++ [x]))
      by (rewrite <- app_assoc; reflexivity).
    destruct Hm as [<- | Hm]; [now apply H1 | now apply (H2 m)].
Qed.

(** Every node of the tree is equal to a node of the traversal. *)
Lemma traversal_covers (root : Node) :
  T root ->
  forall n, below root n -> contains node_eqb n (traversal root) = true.
Proof.
  intros Hr n Hb. unfold traversal.
  pose proof (@preorder_sound (height root) root [] Hr (le_n _) eq_refl I)
    as (_ & Hm & Hin).
  pose proof (@preorder_closed (height root) root [] Hr (le_n _) eq_refl)
    as Hcl.
  simpl in Hcl.
  induction Hb as [|p c Hb IH Hc].
  - apply contains_true. exists root. split; [exact Hin | apply node_eqb_refl].
  - apply contains_true in IH. destruct IH as [p' [Hp' Ep]].
    assert (HTp : T p).
    { clear -Hb Hr T_kid. induction Hb; [exact Hr|].
      now apply (@T_kid p c IHHb H). }
    destruct (Hm p' Hp') as [HTp' _].
    pose proof (kids_equal HTp' HTp Ep) as Hk.
    assert (Hex : exists c', In c' (kids p') /\ node_eqb c' c = true).
    { clear -Hk Hc. induction Hk as [|a b la lb Hab Hk IHk];
        [contradiction|].
      destruct Hc as [<- | Hc].
      - exists a. split; [now left | exact Hab].
      - destruct (IHk Hc) as [c' [Hc' E]]. exists c'. split; [now right | exact E]. }
    destruct Hex as [c' [Hc' Ec]].
    rewrite <- (@contains_eq c' c _ Ec). now apply (Hcl p' Hp' c' Hc').
Qed.
End Traversal.

(** ** Equality of nodes *)

Lemma option_eqb_eq {A} (eqb : A -> A -> bool) :
  (forall x y, eqb x y = true <-> x = y) ->
  forall x y, option_eqb eqb x y = true <-> x = y.
Proof.
  intros H [a|] [b|]; simpl; try (split; [discriminate | intros E; discriminate E]).
  - rewrite H. split; [now intros -> | intros E; now inversion E].
  - tauto.
Qed.

Lemma node_eqb_eq (x y : Node) :
  node_eqb x y = true
  <-> move x = move y /\ token_played x = token_played y
      /\ board (nboard x) = board (nboard y).
Proof.
  unfold node_eqb. rewrite !andb_true_iff.
  rewrite (option_eqb_eq pos_eqb pos_eqb_eq), (option_eqb_eq token_eqb token_eqb_eq).
  rewrite board_eqb_eq. tauto.
Qed.

Lemma node_eqb_refl (x : Node) : node_eqb x x = true.
Proof. apply node_eqb_eq. auto. Qed.

Lemma node_eqb_sym (x y : Node) : node_eqb x y = node_eqb y x.
Proof.
  destruct (node_eqb x y) eqn:E1, (node_eqb y x) eqn:E2; try reflexivity.
  - apply node_eqb_eq in E1. assert (node_eqb y x = true)
      by (apply node_eqb_eq; intuition congruence). congruence.
  - apply node_eqb_eq in E2. assert (node_eqb x y = true)
      by (apply node_eqb_eq; intuition congruence). congruence.
Qed.

Lemma node_eqb_trans (x y z : Node) :
  node_eqb x y = true -> node_eqb y z = true -> node_eqb x z = true.
Proof.
  rewrite !node_eqb_eq. intuition congruence.
Qed.

(** ** [empty_cells] follows the grid *)

Lemma filter_map_commute {A B} (f : A -> B) (P : B -> bool) (l : list A) :
  filter P (map f l) = map f (filter (fun x => P (f x)) l).
Proof.
  induction l as [|x l IH]; simpl; [reflexivity|].
  destruct (P (f x)); simpl; now rewrite IH.
Qed.

Lemma filter_out_one (p : position) (l1 l2 : list position) :
  NoDup (l1 ++ p :: l2) ->
  filter (fun q => negb (pos_eqb q p)) (l1 ++ p :: l2) = l1 ++ l2.
Proof.
  intros Hn. rewrite filter_app. simpl. rewrite pos_eqb_refl. simpl.
  apply NoDup_remove_2 in Hn.
  rewrite !filter_all; [reflexivity| |].
  - intros q Hq. apply negb_true_iff, pos_eqb_neq. intros ->.
    apply Hn. apply in_app_iff. now right.
  - intros q Hq. apply negb_true_iff, pos_eqb_neq. intros ->.
    apply Hn. apply in_app_iff. now left.
Qed.

Lemma fresh_canonical n : canonical n (fresh_board n).
Proof.
  unfold canonical. simpl. f_equal. symmetry. apply filter_all.
  intros p Hp. unfold is_empty_cell. rewrite (@cell_tabulate_const n p Hp).
  reflexivity.
Qed.

Lemma rectified_canonical n g : canonical n (rectified n g).
Proof. reflexivity. Qed.

Lemma filter_twice {A} (P Q : A -> bool) (l : list A) :
  filter Q (filter P l) = filter (fun x => P x && Q x) l.
Proof.
  induction l as [|x l IH]; simpl; [reflexivity|].
  destruct (P x); simpl; [|exact IH].
  destruct (Q x); now rewrite IH.
Qed.

Lemma play_keeps_canonical n b row col tok b' :
  partitioned n b -> canonical n b -> in_range n (row, col) -> tok <> empty ->
  play b row col tok = (b', Ok tt) -> canonical n b'.
Proof.
  intros Hp Hcan Hr Htok Hplay.
  assert (Hn : ~ In (row, col) (played_positions b)).
  { intros Hin. apply contains_pos_In in Hin. unfold play in Hplay.
    rewrite Hin in Hplay. discriminate. }
  destruct (play_partitioned tok Hp Hr Hn) as (l1 & l2 & E & P).
  rewrite P in Hplay. inversion Hplay; subst b'; clear Hplay.
  destruct Hp as [(Hnr & Hnc & Hs) Hnd Hcov Hcnt].
  destruct Hr as [Hr1 Hr2]. simpl in Hr1, Hr2.
  assert (Hnd2 : NoDup (l1 ++ (row, col) :: l2)).
  { rewrite <- E. eapply NoDup_app_remove_l; eauto. }
  unfold canonical in *. simpl.
  transitivity (filter (fun q => negb (pos_eqb q (row, col))) (empty_cells b)).
  { rewrite E. symmetry. apply filter_out_one. exact Hnd2. }
  rewrite Hcan, filter_map_commute.
  f_equal. rewrite filter_twice. apply filter_ext_in. intros q Hq.
  apply In_all_cells in Hq. unfold is_empty_cell, cell_of.
  rewrite (cell_set_cell (n := n)) by (auto; lia).
  destruct (Nat.eqb (fst q) (Z.to_nat row) && Nat.eqb (snd q) (Z.to_nat col)) eqn:Eq.
  - apply andb_true_iff in Eq. destruct Eq as [E1 E2].
    apply Nat.eqb_eq in E1, E2.
    assert (Ez : zpos q = (row, col)).
    { unfold zpos. rewrite E1, E2. f_equal; lia. }
    rewrite Ez, pos_eqb_refl. simpl. rewrite andb_false_r.
    symmetry. apply not_true_is_false. now rewrite token_eqb_eq.
  - assert (Hne : zpos q <> (row, col)).
    { intros Ez. unfold zpos in Ez. inversion Ez; subst.
      rewrite !Nat2Z.id, !Nat.eqb_refl in Eq. discriminate. }
    rewrite (@pos_eqb_neq _ _ Hne). simpl. now rewrite andb_true_r.
Qed.

Lemma reachable_canonical b :
  reachable player_token b ->
  exists n, partitioned n b /\ marked n b /\ canonical n b.
Proof.
  induction 1 as [n b Hb | b row col tok b' Hb [n (IH & IM & IC)] Hr Hc Htok Hplay
                 | b b' Hb [n (IH & IM & IC)] Hcopy
                 | b d b' Hb [n (IH & IM & IC)] Hrot
                 | b a b' Hb [n (IH & IM & IC)] Hrefl].
  - rewrite Board_init_square in Hb. inversion Hb; subst.
    exists n. split; [apply fresh_partitioned|].
    split; [apply fresh_marked | apply fresh_canonical].
  - assert (Hin : in_range n (row, col)).
    { destruct IH as [(Hnr & Hnc & _) _ _ _]. split; simpl; lia. }
    exists n. split; [eapply play_keeps_partitioned; eauto|].
    split; [eapply play_keeps_marked; eauto | eapply play_keeps_canonical; eauto].
  - exists n. rewrite (copy_wf (part_wf IH)) in Hcopy. inversion Hcopy; subst.
    split; [|split; [exact IM | exact IC]].
    destruct IH as [(Hnr & Hnc & Hs) Hnd Hcov Hcnt].
    constructor; simpl; auto. unfold wf_board. simpl. auto.
  - exists n. destruct (valid_degrees d) eqn:Ed.
    + rewrite (rotate_wf d (part_wf IH) Ed) in Hrot. inversion Hrot; subst.
      split; [apply rectified_partitioned, square_tabulate|].
      split; [apply rectified_marked | apply rectified_canonical].
    + unfold rotate in Hrot. fold (valid_degrees d) in Hrot.
      rewrite Ed in Hrot. discriminate.
  - exists n. destruct (valid_axis a) eqn:Ea.
    + rewrite (reflect_wf a (part_wf IH) Ea) in Hrefl. inversion Hrefl; subst.
      split; [apply rectified_partitioned, square_tabulate|].
      split; [apply rectified_marked | apply rectified_canonical].
    + unfold reflect in Hrefl. fold (valid_axis a) in Hrefl.
      rewrite Ea in Hrefl. discriminate.
Qed.

(** ** Boards of the tree *)

Lemma reachable_num_cells (allowed : token -> Prop) b :
  reachable allowed b -> num_cells b = (num_rows b * num_cols b)%Z.
Proof.
  induction 1 as [n b Hb | b row col tok b' Hb IH Hr Hc Htok Hplay
                 | b b' Hb IH Hcopy | b d b' Hb IH Hrot
                 | b a b' Hb IH Hrefl].
  - rewrite Board_init_square in Hb. inversion Hb; subst. reflexivity.
  - destruct (reachable_partitioned Hb) as [n Hp].
    assert (Hin : in_range n (row, col)).
    { destruct Hp as [(Hnr & Hnc & _) _ _ _]. split; simpl; lia. }
    assert (Hn : ~ In (row, col) (played_positions b)).
    { intros Hi. apply contains_pos_In in Hi. unfold play in Hplay.
      rewrite Hi in Hplay. discriminate. }
    destruct (play_partitioned tok Hp Hin Hn) as (l1 & l2 & E & Hpl).
    rewrite Hpl in Hplay. inversion Hplay; subst b'. simpl. exact IH.
  - destruct (reachable_partitioned Hb) as [n Hp].
    rewrite (copy_wf (part_wf Hp)) in Hcopy. inversion Hcopy; subst. reflexivity.
  - destruct (reachable_partitioned Hb) as [n Hp].
    destruct (valid_degrees d) eqn:Ed.
    + rewrite (rotate_wf d (part_wf Hp) Ed) in Hrot. inversion Hrot; subst.
      reflexivity.
    + unfold rotate in Hrot. fold (valid_degrees d) in Hrot.
      rewrite Ed in Hrot. discriminate.
  - destruct (reachable_partitioned Hb) as [n Hp].
    destruct (valid_axis a) eqn:Ea.
    + rewrite (reflect_wf a (part_wf Hp) Ea) in Hrefl. inversion Hrefl; subst.
      reflexivity.
    + unfold reflect in Hrefl. fold (valid_axis a) in Hrefl.
      rewrite Ea in Hrefl. discriminate.
Qed.

(** A copy of a board of the tree has the attribute values of the board. *)
Lemma reachable_copy (allowed : token -> Prop) b :
  reachable allowed b -> copy b = Ok b.
Proof.
  intros H. destruct (reachable_partitioned H) as [n Hp].
  pose proof (reachable_num_cells H) as Hc.
  rewrite (copy_wf (part_wf Hp)).
  destruct Hp as [(Hnr & Hnc & _) _ _ _].
  destruct b; simpl in *. subst. reflexivity.
Qed.

Lemma list_remove_Ok_In (p : position) (l l' : list position) :
  list_remove pos_eqb p l = Ok l' -> In p l.
Proof.
  revert l'. induction l as [|q l IH]; intros l' H; simpl in H; [discriminate|].
  destruct (pos_eqb q p) eqn:E.
  - apply pos_eqb_eq in E. now left.
  - apply bind_Ok in H. destruct H as [r [Hr _]]. right. eauto.
Qed.

Lemma play_Ok_empty b row col tok b' :
  play b row col tok = (b', Ok tt) -> In (row, col) (empty_cells b).
Proof.
  unfold play. intros H.
  destruct (contains pos_eqb (row, col) (played_positions b)); [discriminate|].
  destruct (getitem (board b) row); try discriminate.
  destruct (setitem a col tok); try discriminate.
  destruct (setitem (board b) row a0); try discriminate.
  destruct (list_remove pos_eqb (row, col) (empty_cells b)) eqn:E;
    try discriminate.
  eapply list_remove_Ok_In; eauto.
Qed.

Lemma winner_no_rows b : wf_board 0 b -> winner b = Raise index_error.
Proof.
  intros (Hr & Hc & Hl & _). unfold winner, rows, columns, main_diagonal.
  rewrite Hr, Hc. destruct (board b); [|discriminate]. reflexivity.
Qed.

Lemma winner_Ok_size n b w :
  wf_board n b -> winner b = Ok w -> 0 < n.
Proof.
  intros H Hw. destruct n; [|lia].
  rewrite (winner_no_rows H) in Hw. discriminate.
Qed.

Lemma classify_winner n b :
  wf_board n b -> 0 < n ->
  exists w, winner b = Ok w
            /\ classify b = match w with
                            | None => if full b then Some "Draw"%string else None
                            | Some t => Some t
                            end.
Proof.
  intros H Hn. unfold classify. rewrite (winner_wf H Hn).
  eexists. split; [reflexivity|]. now destruct (first_winner _).
Qed.

(** A successful move on a board of the tree. *)
Lemma play_empty_cell n b mv tok :
  partitioned n b -> In mv (empty_cells b) ->
  in_range n mv
  /\ exists b', play b (fst mv) (snd mv) tok = (b', Ok tt)
                /\ S (length (empty_cells b')) = length (empty_cells b)
                /\ length (played_positions b') = S (length (played_positions b))
                /\ board b' = set_cell (board b) (Z.to_nat (fst mv))
                                       (Z.to_nat (snd mv)) tok
                /\ num_rows b' = num_rows b.
Proof.
  intros Hp Hin.
  assert (Hr : in_range n mv).
  { apply (part_cover Hp). apply in_app_iff. now right. }
  split; [exact Hr|].
  assert (Hn : ~ In mv (played_positions b)).
  { intros Hpl. pose proof (part_nodup Hp) as Hnd. clear -Hnd Hpl Hin.
    induction (played_positions b) as [|q l IH]; [contradiction|].
    simpl in Hnd. inversion Hnd; subst. destruct Hpl as [-> | Hpl].
    - apply H1. apply in_app_iff. now right.
    - now apply IH. }
  destruct mv as [row col].
  destruct (play_partitioned tok Hp Hr Hn) as (l1 & l2 & E & P).
  eexists. split; [exact P|]. simpl. rewrite E, !length_app. simpl.
  repeat split; lia.
Qed.

(** ** Nodes *)

Lemma getitem_head (toks : list token) :
  toks <> [] -> getitem toks 0%Z = Ok (hd empty toks).
Proof.
  destruct toks as [|t toks]; [congruence|]. intros _. reflexivity.
Qed.

Lemma reachable_size (allowed : token -> Prop) b n :
  reachable allowed b -> partitioned n b -> (0 < num_rows b)%Z -> 0 < n.
Proof.
  intros _ Hp Hs. destruct (part_wf Hp) as (Hnr & _). lia.
Qed.

(** [Node.__init__] with a move into an empty cell. *)
Lemma Node_init_played b toks m par :
  reachable player_token b -> (0 < num_rows b)%Z -> toks <> [] ->
  In m (empty_cells b) ->
  Node_init b toks (Some m) par
  = Ok (node_of (fst (play b (fst m) (snd m) (hd empty toks)))
                toks (Some m) par (Some (hd empty toks))).
Proof.
  intros Hb Hs Ht Hm. destruct (reachable_partitioned Hb) as [n Hp].
  pose proof (@reachable_size _ b n Hb Hp Hs) as Hn.
  destruct (@play_empty_cell n b m (hd empty toks) Hp Hm)
    as (Hr & b' & Hplay & _ & _ & _ & _).
  assert (Hp' : partitioned n b').
  { destruct m as [row col]. eapply play_keeps_partitioned; eauto. }
  destruct (@classify_winner n b' (part_wf Hp') Hn) as (w & Hw & Hc).
  unfold Node_init. rewrite (@reachable_copy _ b Hb). cbn [bind].
  assert (Htp : match par with
                | Some _ => t <- getitem toks 0%Z ;; Ok (Some t)
                | None => t <- getitem toks 0%Z ;; Ok (Some t)
                end = Ok (Some (hd empty toks))).
  { rewrite (@getitem_head toks Ht). now destruct par. }
  rewrite Htp. cbn [bind]. rewrite Hplay. cbn [bind fst].
  rewrite Hw. cbn [bind]. unfold node_of. rewrite Hc. reflexivity.
Qed.

(** What a successful [Node.__init__] of a node without parent gives. *)
Lemma Node_init_root b toks mv root :
  reachable player_token b -> toks <> [] -> Forall player_token toks ->
  Node_init b toks mv None = Ok root ->
  node_inv root root /\ parent root = None /\ tokens root = toks.
Proof.
  intros Hb Ht Hpt H. destruct (reachable_partitioned Hb) as [n Hp].
  unfold Node_init in H. rewrite (@reachable_copy _ b Hb) in H. cbn [bind] in H.
  assert (Hfinish : forall b1 tp,
             reachable player_token b1 -> partitioned n b1 ->
             (w <- winner b1 ;;
              Ok (mkNode b1 toks mv None tp
                    match w with
                    | Some t => Some t
                    | None => if full b1 then Some "Draw"%string else None
                    end
                    (full b1)
                    match match w with
                          | Some t => Some t
                          | None => if full b1 then Some "Draw"%string else None
                          end with
                    | Some _ => None
                    | None => Some (empty_cells b1)
                    end)) = Ok root ->
             node_inv root root /\ parent root = None /\ tokens root = toks).
  { intros b1 tp Hb1 Hp1 Hw. apply bind_Ok in Hw. destruct Hw as [w [Hw E]].
    pose proof (@winner_Ok_size n b1 w (part_wf Hp1) Hw) as Hn.
    destruct (@classify_winner n b1 (part_wf Hp1) Hn) as (w' & Hw' & Hc).
    rewrite Hw in Hw'. inversion Hw'; subst w'.
    inversion E; subst root; clear E. cbn.
    unfold node_inv, played. cbn. rewrite Nat.sub_diag. cbn.
    repeat split; auto.
    - destruct (part_wf Hp1) as (Hnr & _). lia.
    - unfold node_of. rewrite Hc. reflexivity. }
  destruct mv as [m|].
  - rewrite (@getitem_head toks Ht) in H. cbn [bind] in H.
    destruct (play b (fst m) (snd m) (hd empty toks)) as [b' r] eqn:Hplay.
    destruct r as [[]|e|]; cbn [bind] in H; try discriminate.
    assert (Hin : in_range n m).
    { apply (part_cover Hp). apply in_app_iff. right.
      destruct m as [row col]. eapply play_Ok_empty; eauto. }
    assert (Htok : player_token (hd empty toks)).
    { destruct toks as [|t toks]; [congruence|]. now inversion Hpt. }
    apply (Hfinish b' (Some (hd empty toks))); auto.
    + destruct Hin as [H1 H2]. destruct (part_wf Hp) as (Hnr & Hnc & _).
      eapply reach_play; eauto; lia.
    + destruct m as [row col]. eapply play_keeps_partitioned; eauto.
  - cbn [bind] in H. apply (Hfinish b None); auto.
Qed.

(** ** The token lists *)

Lemma rot_cons t l : rot (t :: l) = l ++ [t].
Proof. reflexivity. Qed.

Lemma rot_nonempty l : l <> [] -> rot l <> [].
Proof.
  destruct l as [|t l]; [congruence|]. intros _. rewrite rot_cons.
  destruct l; discriminate.
Qed.

Lemma rot_player l : Forall player_token l -> Forall player_token (rot l).
Proof.
  destruct l as [|t l]; [auto|]. intros H. rewrite rot_cons.
  inversion H; subst. apply Forall_app. split; auto.
Qed.

Section GameTree.
Variable root : Node.
Hypothesis root_tokens : tokens root <> [].
Hypothesis root_player : Forall player_token (tokens root).

Lemma tokens_rotate_ok x :
  tokens x <> [] -> Forall player_token (tokens x) ->
  tokens_rotate x <> [] /\ Forall player_token (tokens_rotate x).
Proof.
  intros H1 H2. unfold tokens_rotate.
  destruct (parent x), (move x); auto using rot_nonempty, rot_player.
Qed.

Lemma sched_ok d :
  sched root d <> [] /\ Forall player_token (sched root d).
Proof.
  induction d as [|d IH]; [now split|].
  cbn [sched]. destruct d as [|d].
  - now apply tokens_rotate_ok.
  - destruct IH as [H1 H2]. split; [now apply rot_nonempty | now apply rot_player].
Qed.

Lemma node_inv_tokens x :
  node_inv root x -> tokens x <> [] /\ Forall player_token (tokens x).
Proof.
  intros (_ & _ & _ & Ht & _). rewrite Ht. apply sched_ok.
Qed.

Lemma hd_player l :
  l <> [] -> Forall player_token l -> player_token (hd empty l).
Proof. destruct l; [congruence|]. intros _ H. now inversion H. Qed.

(** The board of a candidate child. *)
Lemma child_board x mv :
  node_inv root x -> In mv (empty_cells (nboard x)) ->
  exists n,
    partitioned n (nboard x) /\ 0 < n /\ in_range n mv
    /\ play (nboard x) (fst mv) (snd mv) (hd empty (tokens_rotate x))
       = (nboard (child_of x mv), Ok tt)
    /\ reachable player_token (nboard (child_of x mv))
    /\ partitioned n (nboard (child_of x mv))
    /\ S (height (child_of x mv)) = height x
    /\ played (child_of x mv) = S (played x)
    /\ board (nboard (child_of x mv))
       = set_cell (board (nboard x)) (Z.to_nat (fst mv)) (Z.to_nat (snd mv))
                  (hd empty (tokens_rotate x))
    /\ num_rows (nboard (child_of x mv)) = num_rows (nboard x).
Proof.
  intros Hx Hm. pose proof Hx as (Hb & Hs & _).
  destruct (reachable_partitioned Hb) as [n Hp].
  pose proof (@reachable_size _ _ n Hb Hp Hs) as Hn.
  destruct (@node_inv_tokens x Hx) as [Ht1 Ht2].
  destruct (@tokens_rotate_ok x Ht1 Ht2) as [Hr1 Hr2].
  pose proof (@hd_player _ Hr1 Hr2) as Htok.
  destruct (@play_empty_cell n (nboard x) mv (hd empty (tokens_rotate x)) Hp Hm)
    as (Hr & b' & Hplay & He & Hpl & Hg & Hnr).
  assert (Eb : nboard (child_of x mv) = b').
  { cbn. now rewrite Hplay. }
  exists n. rewrite Eb. unfold height, played. rewrite Eb.
  split; [exact Hp|]. split; [exact Hn|]. split; [exact Hr|].
  split; [exact Hplay|].
  destruct (part_wf Hp) as (Hnr' & Hnc' & _). destruct Hr as [Hr1' Hr2'].
  split; [eapply reach_play; eauto; lia|].
  split.
  { destruct mv as [row col]. eapply play_keeps_partitioned; eauto.
    now split. }
  repeat split; auto.
Qed.

Lemma child_inv x mv :
  node_inv root x -> In mv (empty_cells (nboard x)) ->
  node_inv root (child_of x mv).
Proof.
  intros Hx Hm.
  destruct (@child_board x mv Hx Hm)
    as (n & Hp & Hn & Hr & Hplay & Hb' & Hp' & Hh & Hpl & Hg & Hnr).
  pose proof Hx as (Hb & Hs & Hnode & Ht & Hle & Hpos).
  unfold node_inv. rewrite Hpl, Hnr.
  split; [exact Hb'|]. split; [exact Hs|]. split; [reflexivity|].
  split; [|split].
  - change (tokens (child_of x mv)) with (tokens_rotate x).
    replace (S (played x) - played root) with (S (played x - played root))
      by lia.
    cbn [sched]. destruct Hpos as [-> | (q & m' & Hq & Hm' & Hlt)].
    + now rewrite Nat.sub_diag.
    + destruct (played x - played root) as [|d] eqn:Ed; [lia|].
      rewrite <- Ht. unfold tokens_rotate. now rewrite Hq.
  - lia.
  - right. exists x, mv. repeat split. lia.
Qed.

Lemma child_differs x mv :
  node_inv root x -> In mv (empty_cells (nboard x)) ->
  node_eqb (child_of x mv) x = false.
Proof.
  intros Hx Hm.
  destruct (@child_board x mv Hx Hm)
    as (n & Hp & Hn & Hr & Hplay & Hb' & Hp' & Hh & Hpl & Hg & Hnr).
  pose proof Hx as (Hb & _).
  destruct (reachable_canonical Hb) as (n' & Hp2 & Hmk & _).
  assert (n' = n).
  { destruct (part_wf Hp) as (H1 & _), (part_wf Hp2) as (H2 & _). lia. }
  subst n'.
  destruct (@node_inv_tokens x Hx) as [Ht1 Ht2].
  destruct (@tokens_rotate_ok x Ht1 Ht2) as [Hr1 Hr2].
  pose proof (@hd_player _ Hr1 Hr2) as Htok.
  apply not_true_is_false. intros E. apply node_eqb_eq in E.
  destruct E as (_ & _ & E). rewrite Hg in E.
  destruct Hr as [Hr1' Hr2'].
  set (p := (Z.to_nat (fst mv), Z.to_nat (snd mv))).
  assert (Hpc : In p (all_cells n)).
  { apply In_all_cells. unfold p. simpl. lia. }
  assert (Hz : zpos p = mv).
  { unfold zpos, p. simpl. destruct mv. simpl in *. f_equal; lia. }
  assert (Hemp : cell_of (board (nboard x)) p = empty).
  { apply (Hmk p Hpc). now rewrite Hz. }
  unfold cell_of in Hemp. rewrite <- E in Hemp. unfold p in Hemp. simpl in Hemp.
  destruct (part_wf Hp) as (_ & _ & Hsq).
  rewrite (@cell_set_cell n _ _ _ _ _ _ Hsq) in Hemp by lia.
  rewrite !Nat.eqb_refl in Hemp. simpl in Hemp. now apply Htok.
Qed.

(** *** The children of a node *)

Lemma partitioned_size n n' b : partitioned n b -> partitioned n' b -> n = n'.
Proof.
  intros H H'. destruct (part_wf H) as (H1 & _), (part_wf H') as (H2 & _). lia.
Qed.

Lemma iso_b_spec n c o :
  wf_board n (nboard o) ->
  isomorphic_to (nboard c) (nboard o) = Ok (iso_b c o)
  /\ (iso_b c o = true <-> In (board (nboard c)) (orbit n (board (nboard o)))).
Proof.
  intros H. destruct (@isomorphic_to_orbit n (nboard c) (nboard o) H) as [r [E Hr]].
  unfold iso_b. rewrite E. now split.
Qed.

Lemma isomorphic_to_none_ok n c kept :
  (forall o, In o kept -> wf_board n (nboard o)) ->
  isomorphic_to_none c kept = Ok (forallb (fun o => negb (iso_b c o)) kept).
Proof.
  induction kept as [|o kept IH]; intros H; [reflexivity|].
  cbn [isomorphic_to_none forallb]. unfold node_isomorphic_to.
  destruct (@iso_b_spec n c o (H o (or_introl eq_refl))) as [E _].
  rewrite E. cbn [bind]. destruct (iso_b c o); [reflexivity|].
  apply IH. intros o' Ho'. apply H. now right.
Qed.

Lemma add_children_ok n x :
  node_inv root x -> partitioned n (nboard x) ->
  forall moves kept,
    (forall m, In m moves -> In m (empty_cells (nboard x))) ->
    (forall o, In o kept -> wf_board n (nboard o)) ->
    add_children x (tokens_rotate x) moves kept
    = Ok (keep_new (map (child_of x) moves) kept).
Proof.
  intros Hx Hp. pose proof Hx as (Hb & Hs & _).
  destruct (@node_inv_tokens x Hx) as [Ht1 Ht2].
  destruct (@tokens_rotate_ok x Ht1 Ht2) as [Hr1 Hr2].
  induction moves as [|mv moves IH]; intros kept Hm Hk; [reflexivity|].
  cbn [add_children map keep_new].
  rewrite (@Node_init_played (nboard x) (tokens_rotate x) mv (Some x)
             Hb Hs Hr1 (Hm mv (or_introl eq_refl))).
  cbn [bind]. fold (child_of x mv).
  assert (Hwf : wf_board n (nboard (child_of x mv))).
  { destruct (@child_board x mv Hx (Hm mv (or_introl eq_refl)))
      as (n' & Hp1 & _ & _ & _ & _ & Hp' & _).
    rewrite (partitioned_size Hp Hp1). exact (part_wf Hp'). }
  assert (Hrest : forall m, In m moves -> In m (empty_cells (nboard x)))
    by (intros m Hin; apply Hm; now right).
  destruct kept as [|k kept].
  - cbn [forallb app]. apply IH; [exact Hrest|].
    intros o [<- | []]. exact Hwf.
  - rewrite (@isomorphic_to_none_ok n (child_of x mv) (k :: kept) Hk).
    cbn [bind].
    destruct (forallb (fun o => negb (iso_b (child_of x mv) o)) (k :: kept)).
    + apply IH; [exact Hrest|]. intros o Ho. apply in_app_iff in Ho.
      destruct Ho as [Ho | [<- | []]]; [now apply Hk | exact Hwf].
    + now apply IH.
Qed.

Lemma node_fields x :
  node_inv root x ->
  nwinner x = classify (nboard x)
  /\ next_moves x = match classify (nboard x) with
                    | None => Some (empty_cells (nboard x))
                    | Some _ => None
                    end.
Proof.
  intros (_ & _ & Hnode & _).
  split; [exact (f_equal nwinner Hnode) | exact (f_equal next_moves Hnode)].
Qed.

Lemma children_ok x :
  node_inv root x ->
  children x
  = Ok (match classify (nboard x) with
        | Some _ => None
        | None => Some (keep_new (map (child_of x) (empty_cells (nboard x))) [])
        end).
Proof.
  intros Hx. destruct (@node_fields x Hx) as [Hw Hm].
  pose proof Hx as (Hb & _). destruct (reachable_partitioned Hb) as [n Hp].
  unfold children. rewrite Hw, Hm.
  destruct (classify (nboard x)); [reflexivity|].
  change (match parent x with
          | Some _ => skipn 1 (tokens x) ++ firstn 1 (tokens x)
          | None => match move x with
                    | Some _ => skipn 1 (tokens x) ++ firstn 1 (tokens x)
                    | None => tokens x
                    end
          end) with (tokens_rotate x).
  rewrite (@add_children_ok n x Hx Hp (empty_cells (nboard x)) []); auto.
  intros o [].
Qed.

Lemma kids_ok x :
  node_inv root x ->
  kids x = match classify (nboard x) with
           | Some _ => []
           | None => keep_new (map (child_of x) (empty_cells (nboard x))) []
           end.
Proof.
  intros Hx. unfold kids. rewrite (@children_ok x Hx).
  now destruct (classify (nboard x)).
Qed.

Lemma In_keep_new c cands : forall kept,
  In c (keep_new cands kept) -> In c cands \/ In c kept.
Proof.
  induction cands as [|d cands IH]; intros kept H; [now right|].
  cbn [keep_new] in H.
  destruct (forallb (fun o => negb (iso_b d o)) kept).
  - apply IH in H. destruct H as [H | H]; [left; now right|].
    apply in_app_iff in H. destruct H as [H | [<- | []]]; [now right|].
    left. now left.
  - apply IH in H. destruct H as [H | H]; [left; now right | now right].
Qed.

Lemma kid_is_child x c :
  node_inv root x -> In c (kids x) ->
  exists mv, In mv (empty_cells (nboard x)) /\ c = child_of x mv.
Proof.
  intros Hx Hc. rewrite (@kids_ok x Hx) in Hc.
  destruct (classify (nboard x)); [contradiction|].
  apply In_keep_new in Hc. destruct Hc as [Hc | []].
  apply in_map_iff in Hc. destruct Hc as [mv [<- Hmv]]. eauto.
Qed.

(** The nodes of the tree have children, and the children are nodes of
    the tree, one level down and different from their parent. *)
Lemma tree_children x :
  node_inv root x -> exists cs, children x = Ok cs.
Proof. intros Hx. rewrite (@children_ok x Hx). eauto. Qed.

Lemma tree_kid x c :
  node_inv root x -> In c (kids x) ->
  node_inv root c /\ parent c = Some x /\ height c < height x
  /\ node_eqb c x = false.
Proof.
  intros Hx Hc. destruct (@kid_is_child x c Hx Hc) as [mv [Hmv ->]].
  split; [now apply child_inv|]. split; [reflexivity|]. split.
  - destruct (@child_board x mv Hx Hmv)
      as (n & _ & _ & _ & _ & _ & _ & Hh & _). lia.
  - now apply child_differs.
Qed.

(** *** Equal nodes have equal children *)

(** Two legal boards with the same grid agree on everything the tree
    reads. *)
Lemma same_grid b b' :
  reachable player_token b -> reachable player_token b' ->
  board b = board b' ->
  exists n, partitioned n b /\ partitioned n b'
            /\ empty_cells b = empty_cells b'
            /\ length (played_positions b) = length (played_positions b').
Proof.
  intros Hb Hb' Hg.
  destruct (reachable_canonical Hb) as (n & Hp & _ & Hc).
  destruct (reachable_canonical Hb') as (n' & Hp' & _ & Hc').
  assert (En : n = n').
  { destruct (part_wf Hp) as (_ & _ & Hl & _).
    destruct (part_wf Hp') as (_ & _ & Hl' & _). congruence. }
  subst n'. exists n. split; [exact Hp|]. split; [exact Hp'|].
  assert (He : empty_cells b = empty_cells b').
  { unfold canonical in Hc, Hc'. now rewrite Hc, Hc', Hg. }
  split; [exact He|].
  pose proof (part_count Hp) as H1. pose proof (part_count Hp') as H2.
  rewrite He in H1. lia.
Qed.

Lemma same_grid_classify n b b' :
  partitioned n b -> partitioned n b' -> 0 < n ->
  board b = board b' -> empty_cells b = empty_cells b' ->
  classify b = classify b'.
Proof.
  intros Hp Hp' Hn Hg He. unfold classify, full.
  rewrite (@winner_wf n b (part_wf Hp) Hn), (@winner_wf n b' (part_wf Hp') Hn).
  now rewrite Hg, He.
Qed.

Lemma same_tokens_rotate x y :
  node_inv root x -> node_inv root y -> played x = played y ->
  tokens_rotate x = tokens_rotate y.
Proof.
  intros (_ & _ & _ & Htx & _ & Hx) (_ & _ & _ & Hty & _ & Hy) Hpl.
  assert (Ht : tokens x = tokens y) by (now rewrite Htx, Hty, Hpl).
  destruct Hx as [-> | (q & mv & Hq & Hmv & Hlt)];
    destruct Hy as [-> | (q' & mv' & Hq' & Hmv' & Hlt')]; try reflexivity; try lia.
  unfold tokens_rotate. now rewrite Hq, Hq', Ht.
Qed.

Lemma iso_b_alike n c c' o o' :
  alike n c c' -> alike n o o' -> iso_b c o = iso_b c' o'.
Proof.
  intros (Ec & _ & _) (Eo & Ho & Ho').
  apply node_eqb_eq in Ec. destruct Ec as (_ & _ & Ec).
  apply node_eqb_eq in Eo. destruct Eo as (_ & _ & Eo).
  destruct (@iso_b_spec n c o Ho) as [_ H].
  destruct (@iso_b_spec n c' o' Ho') as [_ H'].
  rewrite Ec, Eo in H.
  destruct (iso_b c o), (iso_b c' o'); try reflexivity.
  - symmetry. apply H'. now apply H.
  - apply H. now apply H'.
Qed.

Lemma forallb_alike n c c' kept kept' :
  alike n c c' -> Forall2 (alike n) kept kept' ->
  forallb (fun o => negb (iso_b c o)) kept
  = forallb (fun o => negb (iso_b c' o)) kept'.
Proof.
  intros Hc. induction 1 as [|o o' kept kept' Ho _ IH]; [reflexivity|].
  cbn [forallb]. now rewrite IH, (iso_b_alike Hc Ho).
Qed.

Lemma keep_new_alike n cands cands' :
  Forall2 (alike n) cands cands' ->
  forall kept kept', Forall2 (alike n) kept kept' ->
  Forall2 (alike n) (keep_new cands kept) (keep_new cands' kept').
Proof.
  induction 1 as [|c c' cands cands' Hc _ IH]; intros kept kept' Hk;
    [exact Hk|].
  cbn [keep_new]. rewrite (forallb_alike Hc Hk).
  destruct (forallb (fun o => negb (iso_b c' o)) kept').
  - apply IH. apply Forall2_app; [exact Hk|]. now constructor.
  - now apply IH.
Qed.

Lemma tree_kids_equal x y :
  node_inv root x -> node_inv root y -> node_eqb x y = true ->
  Forall2 (fun a b => node_eqb a b = true) (kids x) (kids y).
Proof.
  intros Hx Hy E. apply node_eqb_eq in E. destruct E as (_ & _ & Eg).
  pose proof Hx as (Hbx & Hsx & _). pose proof Hy as (Hby & _).
  destruct (same_grid Hbx Hby Eg) as (n & Hp & Hp' & He & Hpl).
  pose proof (@reachable_size _ _ n Hbx Hp Hsx) as Hn.
  rewrite (@kids_ok x Hx), (@kids_ok y Hy).
  rewrite <- (same_grid_classify Hp Hp' Hn Eg He).
  destruct (classify (nboard x)); [constructor|].
  apply Forall2_impl with (R1 := alike n); [now intros a b (H & _)|].
  apply keep_new_alike; [|constructor].
  rewrite <- He.
  assert (Hall : forall l, (forall m, In m l -> In m (empty_cells (nboard x))) ->
                           Forall2 (alike n) (map (child_of x) l) (map (child_of y) l)).
  { induction l as [|mv l IH]; intros Hl; [constructor|].
    cbn [map]. constructor; [|apply IH; intros m Hm; apply Hl; now right].
    assert (Hmx : In mv (empty_cells (nboard x))) by (apply Hl; now left).
    assert (Hmy : In mv (empty_cells (nboard y))) by (now rewrite <- He).
    destruct (@child_board x mv Hx Hmx)
      as (n1 & Hp1 & _ & _ & _ & _ & Hc1 & _ & _ & Hg1 & _).
    destruct (@child_board y mv Hy Hmy)
      as (n2 & Hp2 & _ & _ & _ & _ & Hc2 & _ & _ & Hg2 & _).
    rewrite <- (partitioned_size Hp Hp1) in Hc1.
    rewrite <- (partitioned_size Hp' Hp2) in Hc2.
    split; [|split; [exact (part_wf Hc1) | exact (part_wf Hc2)]].
    apply node_eqb_eq. split; [reflexivity|]. split.
    - cbn. now rewrite (@same_tokens_rotate x y Hx Hy Hpl).
    - rewrite Hg1, Hg2, Eg. now rewrite (@same_tokens_rotate x y Hx Hy Hpl). }
  apply Hall. auto.
Qed.
End GameTree.

(** ** Iterating the game tree *)

Lemma small_root_built :
  Node_init (fresh_board 2) ["O"; "X"]%string None None = Ok small_root.
Proof. vm_compute. reflexivity. Defined.

(** C3 (as amended): iterating the root node of a game tree (a node built
    without a parent, on a legal board, with a non-empty list of player
    tokens) returns the nodes of the depth-first pre-order traversal of
    the tree and then stops; no two of the nodes returned are equal as
    nodes (same move, token played and grid), every one of them is a node
    of the tree, and every node of the tree is equal to one of them. *)
Theorem root_iteration_is_preorder_traversal b toks mv root :
  reachable player_token b -> toks <> [] -> Forall player_token toks ->
  Node_init b toks mv None = Ok root ->
  (forall fuel, length (traversal root) < fuel ->
                iterate fuel (Node_iter root) = Ok (traversal root))
  /\ distinct (traversal root)
  /\ (forall n, In n (traversal root) -> below root n)
  /\ (forall n, below root n -> contains node_eqb n (traversal root) = true).
Proof.
  intros Hb Ht Hpt Hinit.
  destruct (@Node_init_root b toks mv root Hb Ht Hpt Hinit) as (Hr & Hpar & Htoks).
  assert (Ht' : tokens root <> []) by (now rewrite Htoks).
  assert (Hpt' : Forall player_token (tokens root)) by (now rewrite Htoks).
  pose (T := node_inv root).
  assert (HT1 : forall x, T x -> exists cs, children x = Ok cs)
    by (intros x Hx; exact (@tree_children root Ht' Hpt' x Hx)).
  assert (HT2 : forall x c, T x -> In c (kids x) ->
                            T c /\ parent c = Some x /\ height c < height x
                            /\ node_eqb c x = false)
    by (intros x c Hx Hc; exact (@tree_kid root Ht' Hpt' x c Hx Hc)).
  assert (HT3 : forall x y, T x -> T y -> node_eqb x y = true ->
                            Forall2 (fun a b => node_eqb a b = true) (kids x) (kids y))
    by (intros x y Hx Hy E; exact (@tree_kids_equal root Ht' Hpt' x y Hx Hy E)).
  split; [|split; [|split]].
  - exact (@iterate_root T HT1 HT2 node_eqb_refl node_eqb_sym root Hr Hpar).
  - exact (proj1 (@preorder_sound T HT2 node_eqb_sym
                    (height root) root [] Hr (le_n _) eq_refl I)).
  - intros n Hn.
    exact (proj2 (proj1 (proj2 (@preorder_sound T HT2 node_eqb_sym
                    (height root) root [] Hr (le_n _) eq_refl I)) n Hn)).
  - exact (@traversal_covers T HT2 node_eqb_refl node_eqb_sym
             node_eqb_trans HT3 root Hr).
Qed.

Lemma root_iteration_is_preorder_traversal_witness :
  (forall fuel, length (traversal small_root) < fuel ->
                iterate fuel (Node_iter small_root) = Ok (traversal small_root))
  /\ distinct (traversal small_root)
  /\ (forall n, In n (traversal small_root) -> below small_root n)
  /\ (forall n, below small_root n ->
                contains node_eqb n (traversal small_root) = true).
Proof.
  apply (@root_iteration_is_preorder_traversal
           (fresh_board 2) ["O"; "X"]%string None small_root).
  - apply (reach_init player_token 2). reflexivity.
  - discriminate.
  - repeat constructor; discriminate.
  - exact small_root_built.
Defined.

(** Iterating the first child of the root returns the nodes under that
    child and then the root, its parent. *)
Lemma iterating_a_child_returns_its_parent :
  parent (first_child small_root) = Some small_root
  /\ length (traversal (first_child small_root)) = 6
  /\ iterate 8 (Node_iter (first_child small_root))
     = Ok (traversal (first_child small_root) ++ [small_root]).
Proof. vm_compute. repeat split. Qed.

(** * More of [board.py] *)

(** ** The constructor *)

Lemma range_negative (n : Z) : (n <= 0)%Z -> range n = [].
Proof.
  intros H. unfold range. replace (Z.to_nat n) with 0 by lia. reflexivity.
Qed.

(** X1.  [Board(num_rows, num_cols)] raises [AssertionError] exactly when
    the two sizes differ.  For a size [n >= 0] it returns the [n] by [n]
    board of empty cells, with no history and [empty_cells] listing the
    coordinates row by row; a negative size is accepted too, and gives a
    board without cells whose [num_cells] is the (positive) product. *)
Theorem Board_init_cases (nr nc : Z) :
  (Board_init nr nc
   = Raise (AssertionError "Boards must be square (i.e. num rows = num columns)")
   <-> nr <> nc)
  /\ (nr = nc -> (0 <= nr)%Z ->
      Board_init nr nc = Ok (fresh_board (Z.to_nat nr)))
  /\ (nr = nc -> (nr < 0)%Z ->
      Board_init nr nc = Ok (mkBoard nr nr (nr * nr) [] [] [] [])).
Proof.
  split; [|split].
  - unfold Board_init. destruct (nr =? nc)%Z eqn:E; simpl.
    + apply Z.eqb_eq in E. split; [discriminate | contradiction].
    + apply Z.eqb_neq in E. split; [auto | reflexivity].
  - intros <- H. rewrite <- (Z2Nat.id nr H) at 1 2. apply Board_init_square.
  - intros <- H. unfold Board_init. rewrite Z.eqb_refl. simpl.
    now rewrite (range_negative (n := nr)) by lia.
Qed.

(** ** [play] outside the board *)

Lemma norm_index_outside (len : nat) (i : Z) :
  ~ (- Z.of_nat len <= i < Z.of_nat len)%Z -> norm_index len i = None.
Proof.
  intros H. unfold norm_index.
  destruct ((0 <=? i) && (i <? Z.of_nat len))%Z eqn:E1.
  - apply andb_true_iff in E1. destruct E1 as [E1 E2].
    apply Z.leb_le in E1. apply Z.ltb_lt in E2. lia.
  - destruct ((- Z.of_nat len <=? i) && (i <? 0))%Z eqn:E2; [|reflexivity].
    apply andb_true_iff in E2. destruct E2 as [E2 E3].
    apply Z.leb_le in E2. apply Z.ltb_lt in E3. lia.
Qed.

Lemma norm_index_wraps (len : nat) (i : Z) :
  (- Z.of_nat len <= i < Z.of_nat len)%Z ->
  norm_index len i = Some (Z.to_nat (i mod Z.of_nat len))
  /\ Z.to_nat (i mod Z.of_nat len) < len.
Proof.
  intros H. unfold norm_index.
  destruct ((0 <=? i) && (i <? Z.of_nat len))%Z eqn:E1.
  - apply andb_true_iff in E1. destruct E1 as [E1 E2].
    apply Z.leb_le in E1. apply Z.ltb_lt in E2.
    rewrite Z.mod_small by lia. split; [reflexivity | lia].
  - assert (Hneg : (i < 0)%Z).
    { apply andb_false_iff in E1. destruct E1 as [E1 | E1].
      - apply Z.leb_gt in E1. lia.
      - apply Z.ltb_ge in E1. lia. }
    replace ((- Z.of_nat len <=? i) && (i <? 0))%Z with true
      by (symmetry; apply andb_true_iff; split;
          [apply Z.leb_le | apply Z.ltb_lt]; lia).
    assert (E : (i mod Z.of_nat len = Z.of_nat len + i)%Z).
    { symmetry. apply (Z.mod_unique i (Z.of_nat len) (-1)); lia. }
    rewrite E. split; [reflexivity | lia].
Qed.

Lemma getitem_wraps {A} (l : list A) (i : Z) (d : A) :
  (- Z.of_nat (length l) <= i < Z.of_nat (length l))%Z ->
  getitem l i = Ok (nth (Z.to_nat (i mod Z.of_nat (length l))) l d).
Proof.
  intros H. unfold getitem.
  destruct (norm_index_wraps (length l) H) as [-> Hk].
  destruct (nth_error l _) eqn:E.
  - f_equal. symmetry. now apply nth_error_nth.
  - apply nth_error_None in E. lia.
Qed.

(** A move outside the board. *)
Lemma play_outside (n : nat) (b : Board) (row col : Z) (tok : token) :
  wf_board n b ->
  ~ ((- Z.of_nat n <= row < Z.of_nat n)%Z /\ (- Z.of_nat n <= col < Z.of_nat n)%Z) ->
  exists msg, play b row col tok = (b, Raise (IndexError msg)).
Proof.
  intros (_ & _ & Hl & Hrows) Hout. unfold play.
  destruct (contains pos_eqb (row, col) (played_positions b)); [eauto|].
  destruct (Z_le_dec (- Z.of_nat n) row) as [H1 | H1];
    [destruct (Z_lt_dec row (Z.of_nat n)) as [H2 | H2]|].
  - rewrite (@getitem_wraps _ (board b) row []) by lia.
    assert (Hk : Z.to_nat (row mod Z.of_nat (length (board b))) < length (board b)).
    { apply norm_index_wraps. lia. }
    set (r := nth _ (board b) []).
    assert (Hr : length r = n).
    { rewrite Forall_forall in Hrows. apply Hrows. apply nth_In. exact Hk. }
    unfold setitem. rewrite norm_index_outside by (rewrite Hr; lia). eauto.
  - unfold getitem. rewrite norm_index_outside by lia. unfold index_error. eauto.
  - unfold getitem. rewrite norm_index_outside by lia. unfold index_error. eauto.
Qed.

(** X2.  A coordinate outside [-n .. n-1] makes [play] raise [IndexError]
    and leaves the board as it was: neither the grid nor the histories
    change. *)
Theorem play_outside_the_board (n : nat) (b : Board) (row col : Z) (tok : token) :
  wf_board n b ->
  ~ ((- Z.of_nat n <= row < Z.of_nat n)%Z /\ (- Z.of_nat n <= col < Z.of_nat n)%Z) ->
  exists msg, play b row col tok = (b, Raise (IndexError msg)).
Proof. apply play_outside. Qed.

Lemma play_outside_the_board_witness :
  exists msg, play demo_board 3 0 "O" = (demo_board, Raise (IndexError msg)).
Proof.
  apply (@play_outside_the_board 3 demo_board 3 0 "O"%string).
  - exact demo_board_wf.
  - lia.
Defined.

(** ** [play] with a negative coordinate *)

(** A move with a subscript from the end. *)
Lemma play_negative (n : nat) (b : Board) (row col : Z) (tok : token) :
  partitioned n b ->
  (- Z.of_nat n <= row < Z.of_nat n)%Z -> (- Z.of_nat n <= col < Z.of_nat n)%Z ->
  (row < 0 \/ col < 0)%Z ->
  play b row col tok
  = (mkBoard (num_rows b) (num_cols b) (num_cells b)
       (set_cell (board b) (Z.to_nat (row mod Z.of_nat n))
                 (Z.to_nat (col mod Z.of_nat n)) tok)
       (played_positions b ++ [(row, col)])
       (played_tokens b ++ [tok])
       (empty_cells b),
     Raise (ValueError "list.remove(x): x not in list")).
Proof.
  intros Hp Hr Hc Hneg.
  assert (Hout : ~ In (row, col) (played_positions b ++ empty_cells b)).
  { intros Hin. apply (part_cover Hp) in Hin. destruct Hin as [H1 H2].
    simpl in H1, H2. lia. }
  destruct (part_wf Hp) as (_ & _ & Hl & Hrows).
  unfold play.
  replace (contains pos_eqb (row, col) (played_positions b)) with false.
  2:{ symmetry. apply not_true_is_false. intros H. apply contains_pos_In in H.
      apply Hout. apply in_app_iff. now left. }
  rewrite (@getitem_wraps _ (board b) row []) by lia.
  rewrite Hl.
  assert (Hk : Z.to_nat (row mod Z.of_nat n) < n) by (apply norm_index_wraps; lia).
  set (i := Z.to_nat (row mod Z.of_nat n)) in *.
  assert (Hlen : length (nth i (board b) []) = n).
  { rewrite Forall_forall in Hrows. apply Hrows. apply nth_In. lia. }
  unfold setitem.
  destruct (norm_index_wraps (length (nth i (board b) [])) (i := col)) as [-> _];
    [rewrite Hlen; lia|].
  destruct (norm_index_wraps (length (board b)) (i := row)) as [-> _];
    [rewrite Hl; lia|].
  rewrite Hlen, Hl. fold i.
  rewrite list_remove_absent.
  2:{ intros H. apply Hout. apply in_app_iff. now right. }
  reflexivity.
Qed.

(** X3.  A coordinate in [-n .. -1] is a Python subscript from the end:
    [play] writes the token into the cell it denotes, whatever that cell
    holds, records the move with the negative coordinates, and then
    raises [ValueError], because [empty_cells.remove] does not find them;
    [empty_cells] stays as it was. *)
Theorem play_negative_coordinate (n : nat) (b : Board) (row col : Z) (tok : token) :
  partitioned n b ->
  (- Z.of_nat n <= row < Z.of_nat n)%Z -> (- Z.of_nat n <= col < Z.of_nat n)%Z ->
  (row < 0 \/ col < 0)%Z ->
  play b row col tok
  = (mkBoard (num_rows b) (num_cols b) (num_cells b)
       (set_cell (board b) (Z.to_nat (row mod Z.of_nat n))
                 (Z.to_nat (col mod Z.of_nat n)) tok)
       (played_positions b ++ [(row, col)])
       (played_tokens b ++ [tok])
       (empty_cells b),
     Raise (ValueError "list.remove(x): x not in list")).
Proof. apply play_negative. Qed.

Lemma demo_board_partitioned : partitioned 3 demo_board.
Proof.
  apply (@play_keeps_partitioned 3 (fresh_board 3) 0%Z 0%Z "X"%string).
  - apply fresh_partitioned.
  - split; simpl; lia.
  - reflexivity.
Qed.

Lemma play_negative_coordinate_witness :
  negative_play
  = (mkBoard 3 3 9
       [["O"; " "; " "]; [" "; " "; " "]; [" "; " "; " "]]%string
       [(0, 0); (-3, -3)]%Z ["X"; "O"]%string (empty_cells demo_board),
     Raise (ValueError "list.remove(x): x not in list")).
Proof.
  unfold negative_play.
  rewrite (@play_negative_coordinate 3 demo_board (-3) (-3) "O"%string
             demo_board_partitioned); [reflexivity | lia | lia | lia].
Defined.

(** ** Invariants of the boards of a game *)

(** Induction over the boards of a game: a new board, a board after a
    move on a cell not played before, a board rebuilt from a grid by
    [rotate] or [reflect]. *)
Lemma reachable_cases (allowed : token -> Prop) (P : Board -> Prop) :
  (forall n, P (fresh_board n)) ->
  (forall n b row col tok l1 l2,
      reachable allowed b -> P b -> partitioned n b ->
      in_range n (row, col) -> ~ In (row, col) (played_positions b) ->
      allowed tok -> empty_cells b = l1 ++ (row, col) :: l2 ->
      P (mkBoard (num_rows b) (num_cols b) (num_cells b)
           (set_cell (board b) (Z.to_nat row) (Z.to_nat col) tok)
           (played_positions b ++ [(row, col)]) (played_tokens b ++ [tok])
           (l1 ++ l2))) ->
  (forall n g, square n g -> P (rectified n g)) ->
  forall b, reachable allowed b -> P b.
Proof.
  intros Hinit Hplay Hrect.
  induction 1 as [n b Hb | b row col tok b' Hb IH Hr Hc Htok Hpl
                 | b b' Hb IH Hcopy | b d b' Hb IH Hrot
                 | b a b' Hb IH Hrefl].
  - rewrite Board_init_square in Hb. inversion Hb; subst. apply Hinit.
  - destruct (reachable_partitioned Hb) as [n Hp].
    assert (Hin : in_range n (row, col)).
    { destruct Hp as [(Hnr & Hnc & _) _ _ _]. split; simpl; lia. }
    assert (Hn : ~ In (row, col) (played_positions b)).
    { intros Hi. apply contains_pos_In in Hi. unfold play in Hpl.
      rewrite Hi in Hpl. discriminate. }
    destruct (play_partitioned tok Hp Hin Hn) as (l1 & l2 & E & Hpl').
    rewrite Hpl' in Hpl. inversion Hpl; subst b'.
    now apply (Hplay n).
  - rewrite (reachable_copy Hb) in Hcopy. inversion Hcopy; subst. exact IH.
  - destruct (reachable_partitioned Hb) as [n Hp].
    destruct (valid_degrees d) eqn:Ed.
    + rewrite (rotate_wf d (part_wf Hp) Ed) in Hrot. inversion Hrot; subst.
      apply Hrect, square_tabulate.
    + unfold rotate in Hrot. fold (valid_degrees d) in Hrot.
      rewrite Ed in Hrot. discriminate.
  - destruct (reachable_partitioned Hb) as [n Hp].
    destruct (valid_axis a) eqn:Ea.
    + rewrite (reflect_wf a (part_wf Hp) Ea) in Hrefl. inversion Hrefl; subst.
      apply Hrect, square_tabulate.
    + unfold reflect in Hrefl. fold (valid_axis a) in Hrefl.
      rewrite Ea in Hrefl. discriminate.
Qed.

Lemma token_at_zpos b p : token_at b (zpos p) = cell_of (board b) p.
Proof. unfold token_at, zpos, cell_of. simpl. now rewrite !Nat2Z.id. Qed.

Lemma played_tokens_map (b : Board) :
  reachable any_token b ->
  map (token_at b) (played_positions b) = played_tokens b.
Proof.
  revert b.
  apply (@reachable_cases any_token
           (fun b => map (token_at b) (played_positions b) = played_tokens b)).
  - reflexivity.
  - intros n b row col tok l1 l2 _ IH Hp Hin Hn _ _.
    cbn [played_positions played_tokens]. rewrite map_app. cbn [map]. f_equal.
    + rewrite <- IH. apply map_ext_in. intros p Hpl.
      unfold token_at. cbn [board].
      destruct (part_wf Hp) as (_ & _ & Hs). destruct Hin as [H1 H2].
      simpl in H1, H2.
      rewrite (cell_set_cell (n := n)) by (auto; lia).
      assert (Hr : in_range n p).
      { apply (part_cover Hp). apply in_app_iff. now left. }
      destruct Hr as [H3 H4].
      destruct (Nat.eqb_spec (Z.to_nat (fst p)) (Z.to_nat row));
        destruct (Nat.eqb_spec (Z.to_nat (snd p)) (Z.to_nat col));
        try reflexivity.
      exfalso. apply Hn. replace (row, col) with p; [exact Hpl|].
      destruct p as [r c]. simpl in *. f_equal; lia.
    + unfold token_at. cbn [board fst snd].
      destruct (part_wf Hp) as (_ & _ & Hs). destruct Hin as [H1 H2].
      simpl in H1, H2.
      rewrite (cell_set_cell (n := n)) by (auto; lia).
      now rewrite !Nat.eqb_refl.
  - intros n g _. unfold rectified. cbn [played_positions played_tokens].
    rewrite map_map. apply map_ext. intros p. apply token_at_zpos.
Qed.

(** X4.  On every board of a game (whatever the tokens), the two histories
    have the same length and the [k]-th token recorded is the token in
    the grid at the [k]-th position recorded. *)
Theorem histories_match_the_grid (b : Board) :
  reachable any_token b ->
  Forall2 (fun p t => cell_at (board b) (fst p) (snd p) = Ok t)
          (played_positions b) (played_tokens b).
Proof.
  intros H. destruct (reachable_partitioned H) as [n Hp].
  rewrite <- (played_tokens_map H).
  assert (Hall : forall l, (forall p, In p l -> in_range n p) ->
                           Forall2 (fun p t => cell_at (board b) (fst p) (snd p) = Ok t)
                                   l (map (token_at b) l)).
  { induction l as [|p l IH]; intros Hl; [constructor|].
    cbn [map]. constructor; [|apply IH; intros q Hq; apply Hl; now right].
    destruct (part_wf Hp) as (_ & _ & Hs).
    assert (Hr : in_range n p) by (apply Hl; now left).
    destruct p as [r c]. exact (cell_at_in_range Hs Hr). }
  apply Hall. intros p Hpl. apply (part_cover Hp). apply in_app_iff. now left.
Qed.

Lemma histories_match_the_grid_witness :
  Forall2 (fun p t => cell_at (board demo_board) (fst p) (snd p) = Ok t)
          (played_positions demo_board) (played_tokens demo_board).
Proof.
  apply (@histories_match_the_grid demo_board).
  apply demo_board_reachable. exact I.
Defined.

Lemma full_empty_cells (b : Board) : full b = true <-> empty_cells b = [].
Proof. unfold full. destruct (empty_cells b); split; congruence. Qed.

(** X5.  On a board of a game, [full()] is true exactly when no cell of
    the grid holds the empty marker, and exactly when [num_cells] moves
    are recorded. *)
Theorem full_means_every_cell_played (b : Board) :
  reachable player_token b ->
  (full b = true <->
   forall row col, (0 <= row < num_rows b)%Z -> (0 <= col < num_cols b)%Z ->
                   cell_at (board b) row col <> Ok empty)
  /\ (full b = true <-> Z.of_nat (length (played_positions b)) = num_cells b).
Proof.
  intros H. destruct (reachable_marked H) as (n & Hp & Hm).
  pose proof (reachable_num_cells H) as Hc.
  destruct (part_wf Hp) as (Hnr & Hnc & Hs).
  rewrite full_empty_cells. split.
  - split.
    + intros He row col Hr Hcol Hcell.
      assert (Hin : in_range n (row, col)) by (split; simpl; lia).
      rewrite (cell_at_in_range Hs Hin) in Hcell. inversion Hcell as [Hcell'].
      assert (Hq : In (Z.to_nat row, Z.to_nat col) (all_cells n)).
      { apply In_all_cells. simpl. lia. }
      apply (Hm _ Hq) in Hcell'. rewrite He in Hcell'. exact Hcell'.
    + intros Hall. destruct (empty_cells b) as [|c ec] eqn:Ee; [reflexivity|].
      exfalso.
      assert (Hr : in_range n c).
      { apply (part_cover Hp). apply in_app_iff. right. rewrite Ee. now left. }
      destruct (proj1 (in_range_zpos n c) Hr) as (q & -> & Hq).
      apply (Hall (fst (zpos q)) (snd (zpos q))).
      * destruct Hr. lia.
      * destruct Hr. lia.
      * unfold zpos at 1 2. cbn [fst snd].
        rewrite (@cell_at_in_range n (board b) (Z.of_nat (fst q)) (Z.of_nat (snd q)) Hs Hr).
        f_equal.
        change (token_at b (zpos q) = empty). rewrite token_at_zpos.
        apply (Hm _ Hq). rewrite Ee. now left.
  - pose proof (part_count Hp) as Hcnt. rewrite Hc, Hnr, Hnc. split.
    + intros He. rewrite He in Hcnt. simpl in Hcnt. lia.
    + intros Hl. destruct (empty_cells b); [reflexivity|]. simpl in Hcnt. nia.
Qed.

Lemma won_board_reachable : reachable player_token won_board.
Proof.
  unfold won_board.
  repeat (eapply reach_play;
          [ | | | | apply surjective_pairing ]);
    try (apply reach_init with (n := 2); reflexivity);
    try (simpl; lia); try discriminate; reflexivity.
Qed.

Lemma full_means_every_cell_played_witness :
  (full won_board = true <->
   forall row col, (0 <= row < num_rows won_board)%Z ->
                   (0 <= col < num_cols won_board)%Z ->
                   cell_at (board won_board) row col <> Ok empty)
  /\ (full won_board = true
      <-> Z.of_nat (length (played_positions won_board)) = num_cells won_board).
Proof. apply (@full_means_every_cell_played won_board won_board_reachable). Defined.

(** ** A winner holds a whole line *)

Lemma lines_as_cells n g :
  square n g -> lines_in_order n g = map (map (cell_of g)) (line_cells n).
Proof.
  intros H. unfold lines_in_order, line_cells, tabulate.
  rewrite !map_app, !map_map. cbn [map]. rewrite !map_map.
  rewrite (square_as_tabulate H) at 1. unfold tabulate.
  f_equal; [apply map_ext; intros i; now rewrite map_map|].
  f_equal. apply map_ext. intros i. now rewrite map_map.
Qed.

Lemma NoDup_map_injective {A B} (f : A -> B) (l : list A) :
  (forall x y, f x = f y -> x = y) -> NoDup l -> NoDup (map f l).
Proof.
  intros Hf. induction 1 as [|x l Hx Hl IH]; simpl; constructor; [|exact IH].
  intros Hin. apply in_map_iff in Hin. destruct Hin as [y [E Hy]].
  apply Hf in E. now subst.
Qed.

Lemma line_cells_spec n L :
  In L (line_cells n) ->
  NoDup L /\ length L = n /\ forall p, In p L -> In p (all_cells n).
Proof.
  unfold line_cells. rewrite !in_app_iff. intros [H | [H | [H | [H | []]]]].
  - apply in_map_iff in H. destruct H as [i [<- Hi]]. apply in_seq in Hi.
    split; [|split].
    + apply NoDup_map_injective; [congruence | apply seq_NoDup].
    + now rewrite length_map, length_seq.
    + intros p Hp. apply in_map_iff in Hp. destruct Hp as [j [<- Hj]].
      apply in_seq in Hj. apply In_all_cells. simpl. lia.
  - apply in_map_iff in H. destruct H as [i [<- Hi]]. apply in_seq in Hi.
    split; [|split].
    + apply NoDup_map_injective; [congruence | apply seq_NoDup].
    + now rewrite length_map, length_seq.
    + intros p Hp. apply in_map_iff in Hp. destruct Hp as [j [<- Hj]].
      apply in_seq in Hj. apply In_all_cells. simpl. lia.
  - subst L. split; [|split].
    + apply NoDup_map_injective; [congruence | apply seq_NoDup].
    + now rewrite length_map, length_seq.
    + intros p Hp. apply in_map_iff in Hp. destruct Hp as [j [<- Hj]].
      apply in_seq in Hj. apply In_all_cells. simpl. lia.
  - subst L. split; [|split].
    + apply NoDup_map_injective; [congruence | apply seq_NoDup].
    + now rewrite length_map, length_seq.
    + intros p Hp. apply in_map_iff in Hp. destruct Hp as [j [<- Hj]].
      apply in_seq in Hj. apply In_all_cells. simpl. lia.
Qed.

Lemma winning_line_uniform (line : list token) :
  winning_line line = true ->
  hd empty line <> empty /\ forall x, In x line -> x = hd empty line.
Proof.
  destruct line as [|t line]; [discriminate|]. cbn [winning_line hd].
  intros H. apply andb_true_iff in H. destruct H as [H1 H2]. split.
  - intros E. apply negb_true_iff in H2.
    apply (proj2 (token_eqb_eq t empty)) in E. congruence.
  - intros x Hx. rewrite forallb_forall in H1. specialize (H1 x Hx).
    apply token_eqb_eq in H1. now subst.
Qed.

(** The cells of the line that [winner] reports. *)
Lemma winner_line n b t :
  wf_board n b -> 0 < n -> winner b = Ok (Some t) ->
  t <> empty
  /\ exists L, In L (line_cells n)
               /\ forall p, In p L -> cell_of (board b) p = t.
Proof.
  intros Hwf Hn Hw. rewrite (winner_wf Hwf Hn) in Hw.
  destruct Hwf as (_ & _ & Hs). rewrite (lines_as_cells Hs) in Hw.
  unfold first_winner in Hw.
  destruct (find winning_line _) as [line|] eqn:Ef; [|discriminate].
  inversion Hw as [Ht]. apply find_some in Ef. destruct Ef as [Hin Hwin].
  apply winning_line_uniform in Hwin. destruct Hwin as [Hne Hall].
  rewrite Ht in *. split; [exact Hne|].
  apply in_map_iff in Hin. destruct Hin as [L [<- HL]].
  exists L. split; [exact HL|]. intros p Hp.
  apply Hall. now apply in_map.
Qed.

Lemma count_occ_map_filter {A} (f : A -> token) (t : token) (l : list A) :
  count_occ string_dec (map f l) t
  = length (filter (fun x => token_eqb (f x) t) l).
Proof.
  induction l as [|x l IH]; simpl; [reflexivity|].
  destruct (string_dec (f x) t) as [E | E].
  - rewrite (proj2 (token_eqb_eq _ _) E). simpl. now rewrite IH.
  - replace (token_eqb (f x) t) with false; [exact IH|].
    symmetry. apply not_true_is_false. now rewrite token_eqb_eq.
Qed.

(** The winner's tokens on the board. *)
Lemma winner_token_count (b : Board) (t : token) :
  reachable player_token b -> winner b = Ok (Some t) ->
  t <> empty
  /\ (num_rows b <= Z.of_nat (count_occ string_dec (played_tokens b) t))%Z.
Proof.
  intros H Hw. destruct (reachable_marked H) as (n & Hp & Hm).
  pose proof (winner_Ok_size (part_wf Hp) Hw) as Hn.
  destruct (winner_line (part_wf Hp) Hn Hw) as (Hne & L & HL & Hall).
  split; [exact Hne|].
  destruct (line_cells_spec _ _ HL) as (Hnd & Hlen & Hcells).
  rewrite <- (@played_tokens_map b) by (eapply reachable_mono; [|exact H]; now intros).
  rewrite count_occ_map_filter.
  destruct (part_wf Hp) as (Hnr & _). rewrite Hnr. apply inj_le.
  rewrite <- Hlen, <- (length_map zpos L).
  apply NoDup_incl_length; [now apply NoDup_map_zpos|].
  intros s Hs. apply in_map_iff in Hs. destruct Hs as [p [<- Hp']].
  apply filter_In. split.
  - assert (Hr : In (zpos p) (played_positions b ++ empty_cells b)).
    { apply (part_cover Hp). apply in_range_zpos. exists p. auto. }
    apply in_app_iff in Hr. destruct Hr as [Hr | Hr]; [exact Hr|].
    exfalso. apply Hne. rewrite <- (Hall p Hp').
    apply (Hm p (Hcells p Hp')). exact Hr.
  - rewrite token_at_zpos. apply token_eqb_eq. now apply Hall.
Qed.

(** X6.  When [winner()] reports a token on a board of a game, the token
    is not the empty marker and that player has made at least [num_rows]
    of the recorded moves. *)
Theorem winner_has_played_a_line (b : Board) (t : token) :
  reachable player_token b -> winner b = Ok (Some t) ->
  t <> empty
  /\ (num_rows b <= Z.of_nat (count_occ string_dec (played_tokens b) t))%Z.
Proof. apply winner_token_count. Qed.

Lemma winner_has_played_a_line_witness :
  "O"%string <> empty
  /\ (num_rows won_board
      <= Z.of_nat (count_occ string_dec (played_tokens won_board) "O"%string))%Z.
Proof.
  apply (@winner_has_played_a_line won_board "O"%string won_board_reachable).
  reflexivity.
Defined.

(** ** Iterating over a board *)

Lemma iter_row_col n g N i j ni nj :
  square n g -> i < n -> j < n -> N = Z.of_nat n ->
  iter_row (mkIter g N ni nj (Z.of_nat i) (Z.of_nat j)) = Ok (row_of n g i)
  /\ iter_col (mkIter g N ni nj (Z.of_nat i) (Z.of_nat j)) = Ok (column_of n g j).
Proof.
  intros H Hi Hj ->. pose proof H as [Hl Hrows]. split.
  - unfold iter_row. cbn [it_board row_id].
    rewrite (@getitem_nth _ g i []) by lia. f_equal.
    unfold row_of, cell.
    rewrite (list_as_map_seq (nth i g []) empty) at 1.
    now rewrite (square_row_length H Hi).
  - unfold iter_col. cbn [it_board col_id it_num_rows].
    apply mapM_range. intros k Hk. exact (@cell_at_nat g n k j H Hk Hj).
Qed.

Lemma iterate_cells_row n g i N :
  square n g -> i < n -> N = Z.of_nat n ->
  forall k j ri ci fuel,
    j + S k = n ->
    iterate_cells (S k + fuel) (mkIter g N (Z.of_nat i) (Z.of_nat j) ri ci)
    = (rest <- iterate_cells fuel
                 (mkIter g N (Z.of_nat (S i)) 0%Z (Z.of_nat i) (Z.of_nat (n - 1))) ;;
       Ok (map (seen_at n g) (map (fun j => (i, j)) (seq j (S k))) ++ rest)).
Proof.
  intros H Hi HN. induction k as [|k IH]; intros j ri ci fuel Hj.
  - cbn [Nat.add iterate_cells]. rewrite (iter_next_inside _ _ _ H Hi) by lia.
    replace (S j <? n) with false by (symmetry; apply Nat.ltb_ge; lia).
    destruct (@iter_row_col n g N i j (Z.of_nat (S i)) 0%Z H Hi) as [-> ->];
      [lia | exact HN|].
    cbn [bind row_id col_id]. replace (n - 1) with j by lia.
    destruct (iterate_cells fuel _); reflexivity.
  - change (S (S k) + fuel) with (S (S k + fuel)).
    cbn [iterate_cells]. rewrite (iter_next_inside _ _ _ H Hi) by lia.
    replace (S j <? n) with true by (symmetry; apply Nat.ltb_lt; lia).
    destruct (@iter_row_col n g N i j (Z.of_nat i) (Z.of_nat (S j)) H Hi) as [-> ->];
      [lia | exact HN|].
    cbn [bind row_id col_id]. rewrite IH by lia.
    destruct (iterate_cells fuel _); reflexivity.
Qed.

Lemma iterate_cells_rows n g N :
  square n g -> N = Z.of_nat n ->
  forall m i ri ci extra,
    i + m = n ->
    iterate_cells (S (m * n) + extra) (mkIter g N (Z.of_nat i) 0%Z ri ci)
    = Ok (map (seen_at n g)
            (flat_map (fun i => map (fun j => (i, j)) (seq 0 n)) (seq i m))).
Proof.
  intros H HN. induction m as [|m IH]; intros i ri ci extra Hi.
  - simpl. replace i with n by lia. now rewrite (iter_next_end _ _ _ H).
  - destruct n as [|n']; [lia|].
    replace (S (S m * S n') + extra) with (S n' + (S (m * S n') + extra)) by lia.
    rewrite (@iterate_cells_row (S n') g i N H) with (j := 0) by (auto; lia).
    rewrite IH by lia. cbn [bind seq flat_map]. now rewrite map_app.
Qed.

(** X7.  A loop over the iterator of an [n] by [n] board sees the [n * n]
    cells row by row and then stops; at each cell [row_id] and [col_id]
    are the cell's coordinates, and [row] and [col] are the row and the
    column of the grid the cell lies in.  On a board without rows the loop
    ends at once. *)
Theorem iterator_visits_cells_row_by_row (n : nat) (b : Board) (fuel : nat) :
  wf_board n b -> n * n < fuel ->
  iterate_cells fuel (Board_iter b)
  = Ok (map (seen_at n (board b)) (all_cells n)).
Proof.
  intros (_ & _ & Hs) Hf. unfold Board_iter, BoardIterator_init.
  destruct Hs as [Hl Hrows]. rewrite Hl.
  replace fuel with (S (n * n) + (fuel - S (n * n))) by lia.
  apply (@iterate_cells_rows n (board b) (Z.of_nat n) (conj Hl Hrows) eq_refl
           n 0 0%Z 0%Z). lia.
Qed.

Lemma iterator_visits_cells_row_by_row_witness :
  iterate_cells 10 (Board_iter demo_board)
  = Ok (map (seen_at 3 (board demo_board)) (all_cells 3)).
Proof.
  apply (@iterator_visits_cells_row_by_row 3 demo_board 10).
  - exact demo_board_wf.
  - simpl. lia.
Defined.

(** * More on the symmetries of a board *)

(** ** Composing rotations and reflections *)

(** Two symmetries one after the other, cell by cell. *)
Ltac compose_symmetry :=
  unfold rotated, reflected;
  apply tabulate_ext;
  let i := fresh "i" in let j := fresh "j" in
  intros i j ? ?;
  unfold rotate_cell, reflect_cell; simpl;
  rewrite cell_tabulate by lia;
  unfold rotate_cell, reflect_cell; simpl;
  f_equal; lia.

Lemma board_rectified n g : board (rectified n g) = g.
Proof. reflexivity. Qed.

Lemma valid_degrees_cases d :
  valid_degrees d = true -> d = 90%Z \/ d = 180%Z \/ d = 270%Z.
Proof.
  unfold valid_degrees. rewrite !orb_true_iff, !Z.eqb_eq. tauto.
Qed.

Lemma rotations_compose (n : nat) (b : Board) (d1 d2 : Z) :
  wf_board n b -> valid_degrees d1 = true -> valid_degrees d2 = true ->
  (x <- rotate b d1 ;; rotate x d2)
  = if (d1 + d2 =? 360)%Z then Ok (rectified n (board b))
    else rotate b ((d1 + d2) mod 360).
Proof.
  intros H H1 H2. pose proof H as (_ & _ & Hs).
  rewrite (rotate_wf d1 H H1). cbn [bind].
  rewrite (@rotate_wf n _ d2 (rectified_wf (square_tabulate n _)) H2).
  rewrite board_rectified. fold (rotated n d1 (board b)).
  fold (rotated n d2 (rotated n d1 (board b))).
  apply valid_degrees_cases in H1, H2.
  destruct H1 as [-> | [-> | ->]]; destruct H2 as [-> | [-> | ->]];
    match goal with
    | |- context [(?a + ?c =? 360)%Z] =>
        let v := eval compute in (a + c =? 360)%Z in
        change (a + c =? 360)%Z with v;
        let m := eval compute in ((a + c) mod 360)%Z in
        change ((a + c) mod 360)%Z with m
    end; cbv iota;
    try (rewrite (@rotate_wf n b _ H) by reflexivity;
         do 2 f_equal;
         match goal with
         | |- _ = tabulate n (rotate_cell ?d n ?g) => fold (rotated n d g)
         end;
         compose_symmetry).
  - do 2 f_equal. now apply rotated_90_270.
  - do 2 f_equal. now apply rotated_180_180.
  - do 2 f_equal. now apply rotated_270_90.
Qed.

(** X8.  On a board built through the interface with tokens that differ
    from the empty marker, rotations add up: a rotation by [d1] followed
    by one by [d2] is the rotation by [d1 + d2] modulo 360, and when the
    two make a full turn the grid is the original one (with the histories
    rebuilt from it). *)
Theorem rotations_add_up (n : nat) (b : Board) (d1 d2 : Z) :
  reachable player_token b -> num_rows b = Z.of_nat n ->
  valid_degrees d1 = true -> valid_degrees d2 = true ->
  (x <- rotate b d1 ;; rotate x d2)
  = if (d1 + d2 =? 360)%Z then Ok (rectified n (board b))
    else rotate b ((d1 + d2) mod 360).
Proof.
  intros Hr Hn. apply rotations_compose. exact (@reachable_wf _ n b Hr Hn).
Qed.

Lemma rotations_add_up_witness :
  (x <- rotate demo_board 90 ;; rotate x 180)
  = if (90 + 180 =? 360)%Z then Ok (rectified 3 (board demo_board))
    else rotate demo_board ((90 + 180) mod 360).
Proof.
  apply (@rotations_add_up 3 demo_board 90 180); try reflexivity.
  apply demo_board_reachable. discriminate.
Defined.

Lemma valid_axis_cases axis :
  valid_axis axis = true ->
  In (lower axis) ["horizontal"; "h"; "vertical"; "v";
                   "main diagonal"; "md"; "anti-diagonal"; "ad"]%string.
Proof.
  unfold valid_axis, str_in. intros H. apply existsb_exists in H.
  destruct H as [x [Hx E]]. apply String.eqb_eq in E. now subst.
Qed.

Lemma reflected_twice n g axis :
  square n g -> valid_axis axis = true ->
  reflected n (lower axis) (reflected n (lower axis) g) = g.
Proof.
  intros H Ha. apply valid_axis_cases in Ha. cbn [In] in Ha.
  destruct Ha as [<- | [<- | [<- | [<- | [<- | [<- | [<- | [<- | []]]]]]]]];
    undo_symmetry H.
Qed.

Lemma reflections_compose (n : nat) (b : Board) (axis : string) :
  wf_board n b -> valid_axis axis = true ->
  (x <- reflect b axis ;; reflect x axis) = Ok (rectified n (board b))
  /\ (x <- reflect b "h" ;; reflect x "v") = rotate b 180.
Proof.
  intros H Ha. pose proof H as (_ & _ & Hs). split.
  - rewrite (reflect_wf axis H Ha). cbn [bind].
    rewrite (@reflect_wf n _ axis (rectified_wf (square_tabulate n _)) Ha).
    rewrite board_rectified. do 2 f_equal.
    exact (@reflected_twice n (board b) axis Hs Ha).
  - rewrite (@reflect_wf n b "h" H eq_refl). cbn [bind].
    rewrite (@reflect_wf n _ "v" (rectified_wf (square_tabulate n _)) eq_refl).
    rewrite (@rotate_wf n b 180 H eq_refl).
    rewrite board_rectified. do 2 f_equal.
    change (reflected n "v" (reflected n "h" (board b)) = rotated n 180 (board b)).
    compose_symmetry.
Qed.

(** X9.  On a board built through the interface with tokens that differ
    from the empty marker, every reflection undoes itself: reflecting
    twice in the same axis gives back the grid (with the histories rebuilt
    from it).  Reflecting in the horizontal and then in the vertical axis
    is the half turn. *)
Theorem reflections_undo_themselves (n : nat) (b : Board) (axis : string) :
  reachable player_token b -> num_rows b = Z.of_nat n ->
  valid_axis axis = true ->
  (x <- reflect b axis ;; reflect x axis) = Ok (rectified n (board b))
  /\ (x <- reflect b "h" ;; reflect x "v") = rotate b 180.
Proof.
  intros Hr Hn. apply reflections_compose. exact (@reachable_wf _ n b Hr Hn).
Qed.

Lemma reflections_undo_themselves_witness :
  (x <- reflect demo_board "MD" ;; reflect x "MD")
  = Ok (rectified 3 (board demo_board))
  /\ (x <- reflect demo_board "h" ;; reflect x "v") = rotate demo_board 180.
Proof.
  apply (@reflections_undo_themselves 3 demo_board "MD"); try reflexivity.
  apply demo_board_reachable. discriminate.
Defined.

(** ** Isomorphism is transitive *)

(** The eight symmetries are closed under composition. *)
Lemma orbit_closed n g1 g2 g3 :
  square n g3 -> In g1 (orbit n g2) -> In g2 (orbit n g3) -> In g1 (orbit n g3).
Proof.
  intros H H12 H23. unfold orbit in H12, H23. cbn [In] in H12, H23.
  destruct H23 as [<- | [<- | [<- | [<- | [<- | [<- | [<- | [<- | []]]]]]]]];
    destruct H12 as [<- | [<- | [<- | [<- | [<- | [<- | [<- | [<- | []]]]]]]]];
    unfold orbit; cbn [In];
    first
      [ left; first [reflexivity | symmetry; undo_symmetry H]
      | right; left; first [reflexivity | symmetry; compose_symmetry]
      | do 2 right; left; first [reflexivity | symmetry; compose_symmetry]
      | do 3 right; left; first [reflexivity | symmetry; compose_symmetry]
      | do 4 right; left; first [reflexivity | symmetry; compose_symmetry]
      | do 5 right; left; first [reflexivity | symmetry; compose_symmetry]
      | do 6 right; left; first [reflexivity | symmetry; compose_symmetry]
      | do 7 right; left; first [reflexivity | symmetry; compose_symmetry] ].
Qed.

(** X10.  On boards of one size [isomorphic_to] is transitive; with C7 it
    is an equivalence relation. *)
Theorem isomorphic_to_transitive (n : nat) (a b c : Board) :
  wf_board n b -> wf_board n c ->
  isomorphic_to a b = Ok true -> isomorphic_to b c = Ok true ->
  isomorphic_to a c = Ok true.
Proof.
  intros Hb Hc Hab Hbc.
  destruct (@isomorphic_to_orbit n a b Hb) as (r1 & E1 & I1).
  destruct (@isomorphic_to_orbit n b c Hc) as (r2 & E2 & I2).
  destruct (@isomorphic_to_orbit n a c Hc) as (r3 & E3 & I3).
  rewrite E1 in Hab. rewrite E2 in Hbc. inversion Hab. inversion Hbc. subst.
  rewrite E3. f_equal. apply I3.
  destruct Hc as (_ & _ & Hs).
  apply (@orbit_closed n (board a) (board b) (board c) Hs);
    [now apply I1 | now apply I2].
Qed.

Lemma isomorphic_to_transitive_witness :
  isomorphic_to (rectified 3 (rotated 3 90 (board edge_board)))
                (rectified 3 (rotated 3 180 (board edge_board))) = Ok true.
Proof.
  apply (@isomorphic_to_transitive 3 _ edge_board _ edge_board_wf).
  - apply rectified_wf, square_tabulate.
  - vm_compute. reflexivity.
  - vm_compute. reflexivity.
Defined.

(** ** Symmetric boards have their winners together *)

(** A line of a transformed grid is a line of the original, read in one
    direction or the other. *)
Ltac read_line Hl :=
  let k := fresh "k" in let Hk := fresh "Hk" in let E := fresh "E" in
  intros k Hk;
  (pose proof (Hl k Hk) as E
   + (match type of Hk with
      | _ < ?n => pose proof (Hl (n - 1 - k) ltac:(lia)) as E
      end));
  unfold rotated, reflected in E;
  rewrite cell_tabulate in E by lia;
  unfold rotate_cell, reflect_cell in E; simpl in E;
  rewrite <- E; f_equal; lia.

Ltac line_through i Hl :=
  match goal with
  | Hi : i < ?n |- _ =>
      first
        [ solve [left; exists i; split; [lia | read_line Hl]]
        | solve [left; exists (n - 1 - i); split; [lia | read_line Hl]]
        | solve [right; left; exists i; split; [lia | read_line Hl]]
        | solve [right; left; exists (n - 1 - i); split; [lia | read_line Hl]] ]
  end.

Ltac diagonal_through Hl :=
  first
    [ solve [right; right; left; read_line Hl]
    | solve [right; right; right; read_line Hl] ].

Lemma holds_line_orbit n g g' t :
  In g' (orbit n g) -> holds_line n g' t -> holds_line n g t.
Proof.
  intros Hin [Hne Hl]. split; [exact Hne|].
  unfold orbit in Hin. cbn [In] in Hin.
  destruct Hin as [<- | [<- | [<- | [<- | [<- | [<- | [<- | [<- | []]]]]]]]];
    [exact Hl| | | | | | |];
    destruct Hl as [(i & Hi & Hl) | [(i & Hi & Hl) | [Hl | Hl]]];
    first [line_through i Hl | diagonal_through Hl].
Qed.

Lemma line_cells_shapes n L :
  In L (line_cells n) ->
  (exists i, i < n /\ L = map (fun j => (i, j)) (seq 0 n))
  \/ (exists j, j < n /\ L = map (fun i => (i, j)) (seq 0 n))
  \/ L = map (fun i => (i, i)) (seq 0 n)
  \/ L = map (fun i => (i, n - 1 - i)) (seq 0 n).
Proof.
  unfold line_cells. rewrite !in_app_iff. intros [H | [H | [H | [H | []]]]].
  - apply in_map_iff in H. destruct H as [i [<- Hi]]. apply in_seq in Hi.
    left. exists i. split; [lia | reflexivity].
  - apply in_map_iff in H. destruct H as [i [<- Hi]]. apply in_seq in Hi.
    right. left. exists i. split; [lia | reflexivity].
  - right. right. left. now subst.
  - right. right. right. now subst.
Qed.

Lemma holds_line_cells n g t :
  0 < n ->
  (holds_line n g t
   <-> t <> empty
       /\ exists L, In L (line_cells n) /\ forall p, In p L -> cell_of g p = t).
Proof.
  intros Hn. unfold holds_line. split; intros [Hne H]; (split; [exact Hne|]).
  - destruct H as [(i & Hi & H) | [(j & Hj & H) | [H | H]]].
    + exists (map (fun j => (i, j)) (seq 0 n)). split.
      * unfold line_cells. apply in_app_iff. left. apply in_map_iff.
        exists i. split; [reflexivity | apply in_seq; lia].
      * intros p Hp. apply in_map_iff in Hp. destruct Hp as [j [<- Hj]].
        apply in_seq in Hj. unfold cell_of. cbn [fst snd]. apply H. lia.
    + exists (map (fun i => (i, j)) (seq 0 n)). split.
      * unfold line_cells. apply in_app_iff. right. apply in_app_iff. left.
        apply in_map_iff. exists j. split; [reflexivity | apply in_seq; lia].
      * intros p Hp. apply in_map_iff in Hp. destruct Hp as [i [<- Hi]].
        apply in_seq in Hi. unfold cell_of. cbn [fst snd]. apply H. lia.
    + exists (map (fun i => (i, i)) (seq 0 n)). split.
      * unfold line_cells. rewrite !in_app_iff. right. right. now left.
      * intros p Hp. apply in_map_iff in Hp. destruct Hp as [i [<- Hi]].
        apply in_seq in Hi. unfold cell_of. cbn [fst snd]. apply H. lia.
    + exists (map (fun i => (i, n - 1 - i)) (seq 0 n)). split.
      * unfold line_cells. rewrite !in_app_iff. right. right. right. now left.
      * intros p Hp. apply in_map_iff in Hp. destruct Hp as [i [<- Hi]].
        apply in_seq in Hi. unfold cell_of. cbn [fst snd]. apply H. lia.
  - destruct H as (L & HL & Hall).
    apply line_cells_shapes in HL.
    destruct HL as [(i & Hi & ->) | [(j & Hj & ->) | [-> | ->]]].
    + left. exists i. split; [exact Hi|]. intros j Hj.
      apply (Hall (i, j)). apply in_map_iff. exists j.
      split; [reflexivity | apply in_seq; lia].
    + right. left. exists j. split; [exact Hj|]. intros i Hi.
      apply (Hall (i, j)). apply in_map_iff. exists i.
      split; [reflexivity | apply in_seq; lia].
    + right. right. left. intros i Hi.
      apply (Hall (i, i)). apply in_map_iff. exists i.
      split; [reflexivity | apply in_seq; lia].
    + right. right. right. intros i Hi.
      apply (Hall (i, n - 1 - i)). apply in_map_iff. exists i.
      split; [reflexivity | apply in_seq; lia].
Qed.

(** [winner] reports a token exactly when some token fills a line. *)
Lemma winner_some_holds_line n b t :
  wf_board n b -> 0 < n -> winner b = Ok (Some t) -> holds_line n (board b) t.
Proof.
  intros H Hn Hw. apply (holds_line_cells _ _ Hn).
  exact (winner_line H Hn Hw).
Qed.

Lemma winner_none_no_line n b :
  wf_board n b -> 0 < n ->
  (winner b = Ok None <-> forall t, ~ holds_line n (board b) t).
Proof.
  intros H Hn. split.
  - intros Hw t Ht. apply (holds_line_cells _ _ Hn) in Ht.
    destruct Ht as (Hne & L & HL & Hall).
    rewrite (winner_wf H Hn) in Hw. destruct H as (_ & _ & Hs).
    rewrite (lines_as_cells Hs) in Hw. unfold first_winner in Hw.
    destruct (find winning_line _) eqn:Ef; [discriminate|].
    pose proof (find_none _ _ Ef (map (cell_of (board b)) L)
                  (in_map _ _ _ HL)) as Hf.
    destruct (line_cells_spec _ _ HL) as (_ & Hlen & _).
    destruct L as [|p L]; [simpl in Hlen; lia|].
    cbn [map winning_line] in Hf. apply andb_false_iff in Hf.
    rewrite (Hall p (or_introl eq_refl)) in Hf. destruct Hf as [Hf | Hf].
    + assert (Ht : forallb (fun c => token_eqb t c)
                           (t :: map (cell_of (board b)) L) = true).
      { apply forallb_forall. intros x [<- | Hx]; [now apply token_eqb_eq|].
        apply in_map_iff in Hx. destruct Hx as [q [<- Hq]].
        apply token_eqb_eq. symmetry. apply Hall. now right. }
      congruence.
    + apply negb_false_iff in Hf. apply token_eqb_eq in Hf. contradiction.
  - intros Hno. rewrite (winner_wf H Hn).
    destruct (first_winner _) as [t|] eqn:E; [|reflexivity].
    exfalso. apply (Hno t). apply (@winner_some_holds_line n b t H Hn).
    now rewrite (winner_wf H Hn), E.
Qed.

Lemma symmetric_grids_win_together (n : nat) (a b : Board) :
  wf_board n a -> wf_board n b -> 0 < n ->
  isomorphic_to a b = Ok true ->
  (winner a = Ok None <-> winner b = Ok None)
  /\ (forall t, winner a = Ok (Some t) -> holds_line n (board b) t)
  /\ (forall t, winner b = Ok (Some t) -> holds_line n (board a) t).
Proof.
  intros Ha Hb Hn Hiso.
  destruct (@isomorphic_to_orbit n a b Hb) as (r & E & I).
  rewrite E in Hiso. inversion Hiso; subst r.
  assert (Hab : In (board a) (orbit n (board b))) by now apply I.
  assert (Hba : In (board b) (orbit n (board a))).
  { destruct Hb as (_ & _ & Hs). now apply orbit_symmetric. }
  split; [|split].
  - rewrite (winner_none_no_line Ha Hn), (winner_none_no_line Hb Hn).
    split; intros Hno t Ht; apply (Hno t).
    + exact (holds_line_orbit Hba Ht).
    + exact (holds_line_orbit Hab Ht).
  - intros t Hw. apply (holds_line_orbit Hab).
    exact (winner_some_holds_line Ha Hn Hw).
  - intros t Hw. apply (holds_line_orbit Hba).
    exact (winner_some_holds_line Hb Hn Hw).
Qed.

(** X11.  Two boards with at least one row, both built through the
    interface with tokens that differ from the empty marker, that
    [isomorphic_to] relates have their winners together: [winner()] is
    [None] on the one exactly when it is on the other, and a token that
    [winner()] reports on the one fills a row, a column or a diagonal of
    the other. *)
Theorem isomorphic_boards_win_together (n : nat) (a b : Board) :
  reachable player_token a -> reachable player_token b ->
  num_rows a = Z.of_nat n -> num_rows b = Z.of_nat n -> 0 < n ->
  isomorphic_to a b = Ok true ->
  (winner a = Ok None <-> winner b = Ok None)
  /\ (forall t, winner a = Ok (Some t) -> holds_line n (board b) t)
  /\ (forall t, winner b = Ok (Some t) -> holds_line n (board a) t).
Proof.
  intros Ha Hb Hna Hnb. apply symmetric_grids_win_together.
  - exact (@reachable_wf _ n a Ha Hna).
  - exact (@reachable_wf _ n b Hb Hnb).
Qed.

Lemma isomorphic_boards_win_together_witness :
  (winner (rectified 2 (rotated 2 90 (board won_board))) = Ok None
   <-> winner won_board = Ok None)
  /\ (forall t, winner (rectified 2 (rotated 2 90 (board won_board))) = Ok (Some t) ->
                holds_line 2 (board won_board) t)
  /\ (forall t, winner won_board = Ok (Some t) ->
                holds_line 2 (board (rectified 2 (rotated 2 90 (board won_board)))) t).
Proof.
  apply (@isomorphic_boards_win_together 2).
  - apply reach_rotate with (b := won_board) (degrees := 90%Z).
    + exact won_board_reachable.
    + vm_compute. reflexivity.
  - exact won_board_reachable.
  - reflexivity.
  - reflexivity.
  - lia.
  - vm_compute. reflexivity.
Defined.

(** ** What [isomorphisms] lists *)

Lemma length_filter_le {A} (f : A -> bool) (l : list A) :
  length (filter f l) <= length l.
Proof.
  induction l as [|x l IH]; simpl; [lia|]. destruct (f x); simpl; lia.
Qed.

Lemma isomorphisms_kept (n : nat) (b : Board) :
  wf_board n b ->
  exists rest,
    isomorphisms b = Ok (b :: rest)
    /\ length rest <= 7
    /\ (forall x, In x rest ->
          board x <> board b /\ x = rectified n (board x)
          /\ In (board x) (orbit n (board b)))
    /\ (forall g, In g (orbit n (board b)) ->
          exists x, In x (b :: rest) /\ board x = g).
Proof.
  intros H. rewrite (isomorphisms_wf H). cbv zeta.
  set (rots := [rectified n (rotated n 90 (board b));
                rectified n (rotated n 180 (board b));
                rectified n (rotated n 270 (board b))]).
  set (refs := [rectified n (reflected n "h" (board b));
                rectified n (reflected n "v" (board b));
                rectified n (reflected n "md" (board b));
                rectified n (reflected n "ad" (board b))]).
  set (kept := b :: filter (fun x => negb (board_eqb x b)) rots).
  eexists. split; [reflexivity|]. split; [|split].
  - rewrite length_app.
    pose proof (length_filter_le (fun x => negb (board_eqb x b)) rots).
    pose proof (length_filter_le (fun x => negb (contains board_eqb x kept)) refs).
    simpl in *. lia.
  - intros x Hx. apply in_app_iff in Hx. destruct Hx as [Hx | Hx];
      apply filter_In in Hx; destruct Hx as [Hx Hf]; apply negb_true_iff in Hf.
    + split.
      * intros E. apply board_eqb_eq in E. congruence.
      * unfold rots in Hx. cbn [In] in Hx.
        destruct Hx as [<- | [<- | [<- | []]]];
          (split; [reflexivity | unfold orbit; cbn [In board rectified]; tauto]).
    + split.
      * intros E.
        assert (Hc : contains board_eqb x kept = true).
        { apply contains_board. exists b. split; [now left | now symmetry]. }
        congruence.
      * unfold refs in Hx. cbn [In] in Hx.
        destruct Hx as [<- | [<- | [<- | [<- | []]]]];
          (split; [reflexivity | unfold orbit; cbn [In board rectified]; tauto]).
  - intros g Hg.
    pose proof (@isomorphisms_grids b
                  (rectified n (rotated n 90 (board b)))
                  (rectified n (rotated n 180 (board b)))
                  (rectified n (rotated n 270 (board b)))
                  (rectified n (reflected n "h" (board b)))
                  (rectified n (reflected n "v" (board b)))
                  (rectified n (reflected n "md" (board b)))
                  (rectified n (reflected n "ad" (board b)))
                  (rectified n g)) as Hgrids.
    cbv zeta in Hgrids. apply proj2 in Hgrids.
    apply contains_board in Hgrids; [|exact Hg].
    destruct Hgrids as [x [Hx E]]. exists x. split; [exact Hx | exact E].
Qed.

(** X12.  On a board built through the interface with tokens that differ
    from the empty marker, [isomorphisms] starts with the board itself
    and lists at most seven more boards.  Each of those has a grid
    different from the board's, is one of the seven rotations and
    reflections of the grid, and carries the histories that
    [recitfy_game_history] computes from its grid; and every rotation and
    reflection of the grid is the grid of a board of the list. *)
Theorem isomorphisms_lists_the_symmetries (n : nat) (b : Board) :
  reachable player_token b -> num_rows b = Z.of_nat n ->
  exists rest,
    isomorphisms b = Ok (b :: rest)
    /\ length rest <= 7
    /\ (forall x, In x rest ->
          board x <> board b /\ x = rectified n (board x)
          /\ In (board x) (orbit n (board b)))
    /\ (forall g, In g (orbit n (board b)) ->
          exists x, In x (b :: rest) /\ board x = g).
Proof.
  intros Hr Hn. apply isomorphisms_kept. exact (@reachable_wf _ n b Hr Hn).
Qed.

Lemma isomorphisms_lists_the_symmetries_witness :
  exists rest,
    isomorphisms demo_board = Ok (demo_board :: rest)
    /\ length rest <= 7
    /\ (forall x, In x rest ->
          board x <> board demo_board /\ x = rectified 3 (board x)
          /\ In (board x) (orbit 3 (board demo_board)))
    /\ (forall g, In g (orbit 3 (board demo_board)) ->
          exists x, In x (demo_board :: rest) /\ board x = g).
Proof.
  apply (@isomorphisms_lists_the_symmetries 3 demo_board).
  - apply demo_board_reachable. discriminate.
  - reflexivity.
Defined.

(** * More of [game_tree.py] *)

(** ** The nodes of a tree *)

Lemma game_root_inv root :
  game_root root ->
  node_inv root root /\ parent root = None
  /\ tokens root <> [] /\ Forall player_token (tokens root).
Proof.
  intros (b & toks & mv & Hb & Ht & Hpt & Hinit).
  destruct (@Node_init_root b toks mv root Hb Ht Hpt Hinit) as (Hr & Hpar & Htoks).
  rewrite Htoks. auto.
Qed.

Lemma below_inv root x :
  game_root root -> below root x -> node_inv root x.
Proof.
  intros Hroot. destruct (game_root_inv Hroot) as (Hr & _ & Ht & Hpt).
  induction 1 as [|p c Hb IH Hc]; [exact Hr|].
  exact (proj1 (@tree_kid root Ht Hpt p c IH Hc)).
Qed.

Lemma small_root_is_root : game_root small_root.
Proof.
  exists (fresh_board 2), ["O"; "X"]%string, None. split; [|split; [|split]].
  - apply (reach_init player_token 2). reflexivity.
  - discriminate.
  - repeat constructor; discriminate.
  - exact small_root_built.
Qed.

(** ** Leaves *)

Lemma keep_new_kept cands : forall kept,
  exists more, keep_new cands kept = kept ++ more.
Proof.
  induction cands as [|c cands IH]; intros kept.
  - exists []. simpl. now rewrite app_nil_r.
  - cbn [keep_new]. destruct (forallb _ kept).
    + destruct (IH (kept ++ [c])) as [more E]. exists (c :: more).
      rewrite E, <- app_assoc. reflexivity.
    + apply IH.
Qed.

(** X13.  In a game tree [children] always returns: [None] exactly at the
    nodes whose board has a winner or is full, and a list with at least
    one node everywhere else. *)
Theorem children_end_at_finished_boards (root x : Node) :
  game_root root -> below root x ->
  (exists r, children x = Ok r)
  /\ (children x = Ok None
      <-> (exists t, winner (nboard x) = Ok (Some t)) \/ full (nboard x) = true)
  /\ (forall cs, children x = Ok (Some cs) -> cs <> []).
Proof.
  intros Hroot Hx. destruct (game_root_inv Hroot) as (_ & _ & Ht & Hpt).
  pose proof (below_inv Hroot Hx) as Hinv.
  pose proof Hinv as (Hb & Hs & _).
  destruct (reachable_partitioned Hb) as [n Hp].
  pose proof (@reachable_size _ _ n Hb Hp Hs) as Hn.
  destruct (@classify_winner n (nboard x) (part_wf Hp) Hn) as (w & Hw & Hc).
  rewrite (@children_ok root Ht Hpt x Hinv), Hc, Hw.
  split; [eauto|]. split.
  - destruct w as [t|]; [split; [eauto | reflexivity]|].
    destruct (full (nboard x)) eqn:Ef.
    + split; [auto | reflexivity].
    + split; [discriminate|]. intros [[t E] | E]; discriminate.
  - intros cs E. destruct w as [t|]; [discriminate|].
    destruct (full (nboard x)) eqn:Ef; [discriminate|].
    inversion E as [E']. unfold full in Ef.
    destruct (empty_cells (nboard x)) as [|m ms]; [discriminate|].
    cbn [map keep_new forallb app].
    destruct (keep_new_kept (map (child_of x) ms) [child_of x m]) as [more ->].
    discriminate.
Qed.

Lemma children_end_at_finished_boards_witness :
  (exists r, children small_root = Ok r)
  /\ (children small_root = Ok None
      <-> (exists t, winner (nboard small_root) = Ok (Some t))
          \/ full (nboard small_root) = true)
  /\ (forall cs, children small_root = Ok (Some cs) -> cs <> []).
Proof.
  apply (@children_end_at_finished_boards small_root small_root small_root_is_root).
  constructor.
Defined.

(** ** The children stand for all the moves, each once *)

Lemma iso_b_sym n c o :
  wf_board n (nboard c) -> wf_board n (nboard o) -> iso_b c o = iso_b o c.
Proof.
  intros Hc Ho.
  destruct (@iso_b_spec n c o Ho) as [_ H1].
  destruct (@iso_b_spec n o c Hc) as [_ H2].
  destruct Hc as (_ & _ & Hsc). destruct Ho as (_ & _ & Hso).
  destruct (iso_b c o), (iso_b o c); try reflexivity.
  - symmetry. apply H2. apply (orbit_symmetric Hso). now apply H1.
  - apply H1. apply (orbit_symmetric Hsc). now apply H2.
Qed.

Lemma iso_b_refl n c : wf_board n (nboard c) -> iso_b c c = true.
Proof.
  intros Hc. destruct (@iso_b_spec n c c Hc) as [_ H]. apply H. now left.
Qed.

Lemma node_isomorphic_to_iso_b n c o :
  wf_board n (nboard o) -> node_isomorphic_to c o = Ok (iso_b c o).
Proof. intros Ho. exact (proj1 (@iso_b_spec n c o Ho)). Qed.

Lemma non_isomorphic_snoc l c :
  non_isomorphic l ->
  (forall d, In d l -> node_isomorphic_to c d = Ok false
                       /\ node_isomorphic_to d c = Ok false) ->
  non_isomorphic (l ++ [c]).
Proof.
  induction l as [|a l IH]; intros Hl Hc; cbn [app non_isomorphic].
  - split; [intros d [] | exact I].
  - destruct Hl as [Ha Hl]. split.
    + intros d Hd. apply in_app_iff in Hd. destruct Hd as [Hd | [<- | []]].
      * now apply Ha.
      * apply Hc. now left.
    + apply IH; [exact Hl|]. intros d Hd. apply Hc. now right.
Qed.

Lemma forallb_false {A} (f : A -> bool) (l : list A) :
  forallb f l = false -> exists x, In x l /\ f x = false.
Proof.
  induction l as [|x l IH]; [discriminate|]. cbn [forallb]. intros H.
  apply andb_false_iff in H. destruct H as [H | H].
  - exists x. split; [now left | exact H].
  - destruct (IH H) as [y [Hy Hf]]. exists y. split; [now right | exact Hf].
Qed.

Lemma keep_new_non_isomorphic n cands : forall kept,
  (forall c, In c cands -> wf_board n (nboard c)) ->
  (forall c, In c kept -> wf_board n (nboard c)) ->
  non_isomorphic kept -> non_isomorphic (keep_new cands kept).
Proof.
  induction cands as [|c cands IH]; intros kept Hc Hk Hn; [exact Hn|].
  cbn [keep_new].
  assert (Hwc : wf_board n (nboard c)) by (apply Hc; now left).
  assert (Hrest : forall d, In d cands -> wf_board n (nboard d))
    by (intros d Hd; apply Hc; now right).
  destruct (forallb _ kept) eqn:Ef.
  - apply IH; [exact Hrest| |].
    + intros d Hd. apply in_app_iff in Hd.
      destruct Hd as [Hd | [<- | []]]; auto.
    + apply non_isomorphic_snoc; [exact Hn|]. intros d Hd.
      rewrite forallb_forall in Ef. specialize (Ef d Hd).
      apply negb_true_iff in Ef.
      rewrite (@node_isomorphic_to_iso_b n c d (Hk d Hd)).
      rewrite (@node_isomorphic_to_iso_b n d c Hwc).
      rewrite <- (@iso_b_sym n c d Hwc (Hk d Hd)), Ef. now split.
  - now apply IH.
Qed.

Lemma keep_new_represents n cands : forall kept,
  (forall c, In c cands -> wf_board n (nboard c)) ->
  (forall c, In c kept -> wf_board n (nboard c)) ->
  forall c, In c cands ->
            exists k, In k (keep_new cands kept) /\ iso_b c k = true.
Proof.
  induction cands as [|a cands IH]; intros kept Hc Hk c Hin; [contradiction|].
  assert (Hwa : wf_board n (nboard a)) by (apply Hc; now left).
  assert (Hrest : forall d, In d cands -> wf_board n (nboard d))
    by (intros d Hd; apply Hc; now right).
  cbn [keep_new]. destruct Hin as [<- | Hin].
  - destruct (forallb _ kept) eqn:Ef.
    + destruct (keep_new_kept cands (kept ++ [a])) as [more ->].
      exists a. split; [|exact (@iso_b_refl n a Hwa)].
      rewrite !in_app_iff. left. right. now left.
    + apply forallb_false in Ef. destruct Ef as [o [Ho Hf]].
      apply negb_false_iff in Hf.
      destruct (keep_new_kept cands kept) as [more ->].
      exists o. split; [apply in_app_iff; now left | exact Hf].
  - destruct (forallb _ kept).
    + apply IH; auto. intros d Hd. apply in_app_iff in Hd.
      destruct Hd as [Hd | [<- | []]]; auto.
    + apply IH; auto.
Qed.

(** The candidate children of a node of the tree. *)
Lemma candidates_wf root x :
  game_root root -> below root x ->
  exists n,
    wf_board n (nboard x)
    /\ forall c, In c (map (child_of x) (empty_cells (nboard x))) ->
                 wf_board n (nboard c).
Proof.
  intros Hroot Hx. destruct (game_root_inv Hroot) as (_ & _ & Ht & Hpt).
  pose proof (below_inv Hroot Hx) as Hinv. pose proof Hinv as (Hb & _).
  destruct (reachable_partitioned Hb) as [n Hp]. exists n.
  split; [exact (part_wf Hp)|]. intros c Hc.
  apply in_map_iff in Hc. destruct Hc as [m [<- Hm]].
  destruct (@child_board root Ht Hpt x m Hinv Hm)
    as (n' & Hp1 & _ & _ & _ & _ & Hp' & _).
  rewrite (partitioned_size Hp Hp1). exact (part_wf Hp').
Qed.

Lemma children_as_kept root x cs :
  game_root root -> below root x -> children x = Ok (Some cs) ->
  cs = keep_new (map (child_of x) (empty_cells (nboard x))) [].
Proof.
  intros Hroot Hx E. destruct (game_root_inv Hroot) as (_ & _ & Ht & Hpt).
  rewrite (@children_ok root Ht Hpt x (below_inv Hroot Hx)) in E.
  destruct (classify (nboard x)); [discriminate|]. now inversion E.
Qed.

(** X14.  No two children of a node of a game tree have isomorphic
    boards. *)
Theorem children_are_not_isomorphic (root x : Node) (cs : list Node) :
  game_root root -> below root x -> children x = Ok (Some cs) ->
  non_isomorphic cs.
Proof.
  intros Hroot Hx E. rewrite (children_as_kept Hroot Hx E).
  destruct (candidates_wf Hroot Hx) as (n & _ & Hc).
  apply (@keep_new_non_isomorphic n); [exact Hc | intros c [] | exact I].
Qed.

Lemma small_root_children :
  children small_root = Ok (Some [first_child small_root]).
Proof. vm_compute. reflexivity. Qed.

Lemma children_are_not_isomorphic_witness :
  non_isomorphic (kids (first_child small_root)).
Proof.
  apply (@children_are_not_isomorphic small_root (first_child small_root)
           (kids (first_child small_root)) small_root_is_root).
  - apply below_kid with (p := small_root); [constructor|].
    unfold kids. rewrite small_root_children. now left.
  - vm_compute. reflexivity.
Defined.

(** X15.  The children of a node of a game tree stand for all its moves:
    every child is the node made for one of the empty cells of the
    board, and the node made for any empty cell has a board isomorphic to
    the board of one of the children. *)
Theorem children_stand_for_all_moves (root x : Node) (cs : list Node) :
  game_root root -> below root x -> children x = Ok (Some cs) ->
  (forall k, In k cs ->
     exists m, In m (empty_cells (nboard x))
               /\ Node_init (nboard x) (tokens_rotate x) (Some m) (Some x) = Ok k)
  /\ (forall m, In m (empty_cells (nboard x)) ->
        exists c k, Node_init (nboard x) (tokens_rotate x) (Some m) (Some x) = Ok c
                    /\ In k cs /\ node_isomorphic_to c k = Ok true).
Proof.
  intros Hroot Hx E. destruct (game_root_inv Hroot) as (_ & _ & Ht & Hpt).
  pose proof (below_inv Hroot Hx) as Hinv. pose proof Hinv as (Hb & Hs & _).
  destruct (@node_inv_tokens root Ht Hpt x Hinv) as [Ht1 Ht2].
  destruct (@tokens_rotate_ok x Ht1 Ht2) as [Hr1 _].
  assert (Hmade : forall m, In m (empty_cells (nboard x)) ->
            Node_init (nboard x) (tokens_rotate x) (Some m) (Some x)
            = Ok (child_of x m)).
  { intros m Hm. exact (@Node_init_played (nboard x) (tokens_rotate x) m (Some x)
                          Hb Hs Hr1 Hm). }
  pose proof (children_as_kept Hroot Hx E) as Ecs.
  destruct (candidates_wf Hroot Hx) as (n & _ & Hc).
  split.
  - intros k Hk. rewrite Ecs in Hk. apply In_keep_new in Hk.
    destruct Hk as [Hk | []]. apply in_map_iff in Hk.
    destruct Hk as [m [<- Hm]]. exists m. split; [exact Hm | now apply Hmade].
  - intros m Hm. exists (child_of x m).
    destruct (@keep_new_represents n (map (child_of x) (empty_cells (nboard x)))
                [] Hc (fun c (H : In c []) => match H with end)
                (child_of x m) (in_map _ _ _ Hm)) as (k & Hk & Hiso).
    exists k. split; [now apply Hmade|]. rewrite Ecs. split; [exact Hk|].
    rewrite (@node_isomorphic_to_iso_b n (child_of x m) k), Hiso; [reflexivity|].
    apply In_keep_new in Hk. destruct Hk as [Hk | []]. now apply Hc.
Qed.

Lemma children_stand_for_all_moves_witness :
  (forall k, In k [first_child small_root] ->
     exists m, In m (empty_cells (nboard small_root))
               /\ Node_init (nboard small_root) (tokens_rotate small_root)
                    (Some m) (Some small_root) = Ok k)
  /\ (forall m, In m (empty_cells (nboard small_root)) ->
        exists c k, Node_init (nboard small_root) (tokens_rotate small_root)
                      (Some m) (Some small_root) = Ok c
                    /\ In k [first_child small_root]
                    /\ node_isomorphic_to c k = Ok true).
Proof.
  apply (@children_stand_for_all_moves small_root small_root
           [first_child small_root] small_root_is_root).
  - constructor.
  - exact small_root_children.
Defined.

(** ** Turn numbers and the order of play *)

Lemma skipn_nth {A} (d : A) : forall m (l : list A),
  m < length l -> skipn m l = nth m l d :: skipn (S m) l.
Proof.
  induction m as [|m IH]; intros [|a l] H; simpl in H; try lia.
  - reflexivity.
  - cbn [skipn nth]. rewrite (IH l) by lia. reflexivity.
Qed.

Lemma firstn_S_nth {A} (d : A) : forall m (l : list A),
  m < length l -> firstn (S m) l = firstn m l ++ [nth m l d].
Proof.
  induction m as [|m IH]; intros [|a l] H; simpl in H; try lia.
  - reflexivity.
  - cbn [firstn nth app]. f_equal. apply IH. lia.
Qed.

(** Rotating the list of tokens [k] times. *)
Lemma iter_rot (l : list token) (k : nat) :
  l <> [] ->
  Nat.iter k rot l = skipn (k mod length l) l ++ firstn (k mod length l) l.
Proof.
  intros Hl. assert (Hlen : length l <> 0) by (destruct l; simpl; congruence).
  induction k as [|k IH].
  - rewrite Nat.Div0.mod_0_l. simpl. now rewrite app_nil_r.
  - rewrite Nat.iter_succ, IH.
    pose proof (Nat.mod_upper_bound k (length l) Hlen) as Hm.
    set (m := k mod length l) in *.
    rewrite (@skipn_nth _ empty m l Hm). rewrite <- app_comm_cons, rot_cons.
    destruct (Nat.eq_dec (S m) (length l)) as [E | E].
    + assert (E' : S k mod length l = 0).
      { pose proof (Nat.div_mod_eq k (length l)) as Hk. fold m in Hk.
        symmetry. apply (Nat.mod_unique (S k) (length l) (S (k / length l)) 0); lia. }
      rewrite E', E, skipn_all. cbn [skipn firstn app].
      rewrite app_nil_r.
      rewrite <- (@firstn_S_nth _ empty m l Hm), E. apply firstn_all.
    + assert (E' : S k mod length l = S m).
      { pose proof (Nat.div_mod_eq k (length l)) as Hk. fold m in Hk.
        symmetry. apply (Nat.mod_unique (S k) (length l) (k / length l) (S m)); lia. }
      rewrite E', <- app_assoc, (@firstn_S_nth _ empty m l Hm). reflexivity.
Qed.

Lemma hd_iter_rot (l : list token) (k : nat) :
  l <> [] -> hd empty (Nat.iter k rot l) = nth (k mod length l) l empty.
Proof.
  intros Hl. rewrite (@iter_rot l k Hl).
  assert (Hlen : length l <> 0) by (destruct l; simpl; congruence).
  pose proof (Nat.mod_upper_bound k (length l) Hlen) as Hm.
  now rewrite (@skipn_nth _ empty _ l Hm).
Qed.

Lemma turn_number_eq (x : Node) :
  turn_number x
  = match parent x with
    | None => match move x with None => 0%Z | Some _ => 1%Z end
    | Some p => (turn_number p + 1)%Z
    end.
Proof. now destruct x. Qed.

(** What [Node.__init__] stores. *)
Lemma Node_init_fields b toks mv par x :
  Node_init b toks mv par = Ok x ->
  tokens x = toks /\ move x = mv /\ parent x = par
  /\ token_played x = match par, mv with
                      | None, None => None
                      | _, _ => Some (hd empty toks)
                      end.
Proof.
  unfold Node_init. intros H.
  apply bind_Ok in H. destruct H as (b0 & _ & H).
  apply bind_Ok in H. destruct H as (tp & Htp & H).
  apply bind_Ok in H. destruct H as (b1 & _ & H).
  apply bind_Ok in H. destruct H as (w & _ & H).
  inversion H; subst x; clear H. cbn [tokens move parent token_played].
  repeat split.
  destruct par, mv; try (now inversion Htp);
    apply bind_Ok in Htp; destruct Htp as (t & Ht & Htp); inversion Htp;
    destruct toks; try discriminate; now inversion Ht.
Qed.

Lemma sched_iter root d :
  parent root = None ->
  sched root (S d)
  = Nat.iter (d + match move root with None => 0 | Some _ => 1 end) rot
             (tokens root).
Proof.
  intros Hpar. induction d as [|d IH].
  - cbn [sched]. unfold tokens_rotate. rewrite Hpar. now destruct (move root).
  - change (sched root (S (S d))) with (rot (sched root (S d))).
    now rewrite IH.
Qed.

(** X16.  In a game tree [turn_number] counts the moves: it is the turn
    number of the root (0, or 1 for a root made with a move) plus the
    number of moves played on the node's board since the root.  The
    players take turns in the order of the token list: the token played at
    turn [k >= 1] is [tokens[(k - 1) % len(tokens)]] of the root's list,
    and no token is played at turn 0. *)
Theorem turns_follow_the_token_list (root x : Node) :
  game_root root -> below root x ->
  turn_number x = (turn_number root + Z.of_nat (played x - played root))%Z
  /\ (turn_number root = 0%Z \/ turn_number root = 1%Z)
  /\ token_played x
     = if (turn_number x =? 0)%Z then None
       else Some (nth (Z.to_nat ((turn_number x - 1)
                                 mod Z.of_nat (length (tokens root))))
                      (tokens root) empty).
Proof.
  intros Hroot Hx. destruct (game_root_inv Hroot) as (Hr & Hpar & Ht & Hpt).
  destruct Hroot as (b & toks & mv & Hb & Ht0 & Hpt0 & Hinit).
  destruct (Node_init_fields _ _ _ _ Hinit) as (Etoks & Emv & _ & Etp).
  set (shift := match move root with None => 0 | Some _ => 1 end).
  assert (Hturn0 : turn_number root = Z.of_nat shift).
  { rewrite turn_number_eq, Hpar. unfold shift. now destruct (move root). }
  assert (Hgame : game_root root) by (exists b, toks, mv; auto).
  assert (Hall : turn_number x = (turn_number root + Z.of_nat (played x - played root))%Z
                 /\ played root <= played x
                 /\ (x = root
                     \/ (played root < played x
                         /\ token_played x = Some (hd empty (tokens x))))).
  { induction Hx as [|p c Hp IH Hc].
    - rewrite Nat.sub_diag. split; [lia|]. split; [lia | now left].
    - pose proof (below_inv Hgame Hp) as Hinv.
      destruct IH as (IH1 & IH2 & _).
      destruct (@kid_is_child root Ht Hpt p c Hinv Hc) as (m & Hm & ->).
      destruct (@child_board root Ht Hpt p m Hinv Hm)
        as (n & _ & _ & _ & _ & _ & _ & _ & Hpl & _).
      rewrite turn_number_eq. cbn [parent child_of node_of].
      rewrite IH1, Hpl. split; [lia|]. split; [lia|]. right. split; [lia|].
      reflexivity. }
  destruct Hall as (H1 & H2 & H3).
  split; [exact H1|]. split; [rewrite Hturn0; unfold shift; destruct (move root); auto|].
  destruct H3 as [-> | [Hlt Htok]].
  - rewrite Hturn0, Etp. unfold shift. rewrite Emv.
    destruct mv as [m|]; [|reflexivity].
    change (Z.of_nat 1 =? 0)%Z with false. cbv iota.
    change (Z.of_nat 1 - 1)%Z with 0%Z. rewrite Zmod_0_l, Etoks.
    destruct toks as [|t toks]; [congruence | reflexivity].
  - rewrite Htok.
    pose proof (below_inv Hgame Hx) as (_ & _ & _ & Hsched & _).
    destruct (played x - played root) as [|d] eqn:Ed; [lia|].
    rewrite Hsched, (@sched_iter root d Hpar). fold shift.
    rewrite (@hd_iter_rot (tokens root) (d + shift) Ht).
    rewrite H1, Hturn0.
    replace (Z.of_nat shift + Z.of_nat (S d) =? 0)%Z with false
      by (symmetry; apply Z.eqb_neq; lia).
    replace (Z.of_nat shift + Z.of_nat (S d) - 1)%Z with (Z.of_nat (d + shift))
      by lia.
    assert (Hlen : length (tokens root) <> 0)
      by (destruct (tokens root); simpl; congruence).
    rewrite <- Nat2Z.inj_mod, Nat2Z.id. reflexivity.
Qed.

Lemma turns_follow_the_token_list_witness :
  turn_number (first_child small_root)
  = (turn_number small_root
     + Z.of_nat (played (first_child small_root) - played small_root))%Z
  /\ (turn_number small_root = 0%Z \/ turn_number small_root = 1%Z)
  /\ token_played (first_child small_root)
     = if (turn_number (first_child small_root) =? 0)%Z then None
       else Some (nth (Z.to_nat ((turn_number (first_child small_root) - 1)
                                 mod Z.of_nat (length (tokens small_root))))
                      (tokens small_root) empty).
Proof.
  apply (@turns_follow_the_token_list small_root (first_child small_root)
           small_root_is_root).
  apply below_kid with (p := small_root); [constructor|].
  unfold kids. rewrite small_root_children. now left.
Defined.

(** ** Siblings *)

Lemma keep_new_moves cands : forall kept,
  NoDup (map move (kept ++ cands)) -> NoDup (map move (keep_new cands kept)).
Proof.
  induction cands as [|c cands IH]; intros kept H.
  - now rewrite app_nil_r in H.
  - cbn [keep_new]. destruct (forallb _ kept).
    + apply IH. now rewrite <- app_assoc.
    + apply IH. rewrite map_app in *. cbn [map] in H.
      now apply NoDup_remove_1 in H.
Qed.

Lemma filter_out_the_equal (l : list Node) (c : Node) :
  NoDup (map move l) -> In c l ->
  let rest := filter (fun s => negb (node_eqb s c)) l in
  S (length rest) = length l /\ ~ In c rest
  /\ forall s, In s l -> s = c \/ In s rest.
Proof.
  intros Hnd Hc rest.
  assert (Heq : forall s, In s l -> node_eqb s c = true -> s = c).
  { intros s Hs E. apply node_eqb_eq in E. destruct E as (Em & _).
    clear rest. induction l as [|a l IH]; [contradiction|].
    cbn [map] in Hnd. inversion Hnd as [|? ? Ha Hl]; subst.
    destruct Hs as [-> | Hs], Hc as [-> | Hc]; auto.
    - exfalso. apply Ha. rewrite Em. now apply in_map.
    - exfalso. apply Ha. rewrite <- Em. now apply in_map. }
  split; [|split].
  - subst rest. clear Heq. induction l as [|a l IH]; [contradiction|].
    cbn [map] in Hnd. inversion Hnd as [|? ? Ha Hl]; subst.
    cbn [filter]. destruct Hc as [-> | Hc].
    + rewrite node_eqb_refl. cbn [negb length]. f_equal.
      assert (E : filter (fun s => negb (node_eqb s c)) l = l).
      { apply filter_all. intros s Hs. apply negb_true_iff.
        apply not_true_is_false. intros E. apply node_eqb_eq in E.
        destruct E as (Em & _). apply Ha. rewrite <- Em. now apply in_map. }
      now rewrite E.
    + destruct (node_eqb a c) eqn:E.
      * exfalso. apply node_eqb_eq in E. destruct E as (Em & _).
        apply Ha. rewrite Em. now apply in_map.
      * cbn [negb length]. f_equal. now apply IH.
  - intros Hin. apply filter_In in Hin. destruct Hin as [_ Hf].
    rewrite node_eqb_refl in Hf. discriminate.
  - intros s Hs. destruct (node_eqb s c) eqn:E.
    + left. now apply Heq.
    + right. apply filter_In. split; [exact Hs | now rewrite E].
Qed.

(** X17.  [siblings] is [None] at the root of a game tree.  At a child it
    returns the children of the parent without the node itself: one node
    less, the node not among them, every other child among them. *)
Theorem siblings_are_the_other_children (root p c : Node) :
  game_root root -> below root p -> In c (kids p) ->
  siblings root = Ok None
  /\ exists rest,
       siblings c = Ok (Some rest)
       /\ S (length rest) = length (kids p)
       /\ ~ In c rest
       /\ forall s, In s (kids p) -> s = c \/ In s rest.
Proof.
  intros Hroot Hp Hc. destruct (game_root_inv Hroot) as (_ & Hpar & Ht & Hpt).
  pose proof (below_inv Hroot Hp) as Hinv.
  split; [unfold siblings; now rewrite Hpar|].
  destruct (@tree_kid root Ht Hpt p c Hinv Hc) as (_ & Hparent & _).
  unfold siblings. rewrite Hparent.
  pose proof (@kids_ok root Ht Hpt p Hinv) as Hk.
  rewrite (@children_ok root Ht Hpt p Hinv).
  rewrite Hk in Hc |- *.
  destruct (classify (nboard p)); [contradiction|]. cbn [bind].
  eexists. split; [reflexivity|].
  apply filter_out_the_equal; [|exact Hc].
  apply keep_new_moves. cbn [app]. rewrite map_map. cbn [move child_of node_of].
  pose proof Hinv as (Hb & _). destruct (reachable_partitioned Hb) as [n Hpn].
  pose proof (part_nodup Hpn) as Hnd. apply NoDup_app_remove_l in Hnd.
  apply NoDup_map_injective; [congruence | exact Hnd].
Qed.

Lemma siblings_are_the_other_children_witness :
  siblings small_root = Ok None
  /\ exists rest,
       siblings (first_child small_root) = Ok (Some rest)
       /\ S (length rest) = length (kids small_root)
       /\ ~ In (first_child small_root) rest
       /\ forall s, In s (kids small_root) ->
                    s = first_child small_root \/ In s rest.
Proof.
  apply (@siblings_are_the_other_children small_root small_root
           (first_child small_root) small_root_is_root).
  - constructor.
  - unfold kids. rewrite small_root_children. now left.
Defined.

(** ** A tree without tokens *)

(** X18.  With an empty token list a node that plays a move or has a
    parent cannot be made: [tokens[0]] raises [IndexError].  On a board
    of a game with at least one row a root without a move is made, on a
    copy of the board; asking for its children returns [None] when the
    board has a winner or is full, and raises that [IndexError]
    otherwise.  On the board without rows no node is made at all:
    [winner()] raises [IndexError] in the constructor. *)
Theorem no_tokens_no_children (b : Board) :
  reachable player_token b ->
  (forall mv par, mv <> None \/ par <> None ->
                  Node_init b [] mv par = Raise index_error)
  /\ ((0 < num_rows b)%Z ->
      exists root,
        Node_init b [] None None = Ok root
        /\ nboard root = b
        /\ children root
           = match winner b with
             | Ok (Some _) => Ok None
             | _ => if full b then Ok None else Raise index_error
             end)
  /\ (num_rows b = 0%Z -> Node_init b [] None None = Raise index_error).
Proof.
  intros Hb. pose proof (reachable_copy Hb) as Hcopy.
  destruct (reachable_partitioned Hb) as [n Hp].
  pose proof (part_wf Hp) as Hwf. split; [|split].
  - intros mv par Hor. unfold Node_init. rewrite Hcopy. cbn [bind].
    destruct par, mv; try reflexivity. destruct Hor; congruence.
  - intros Hrows.
    assert (Hn : 0 < n) by (destruct Hwf as (Hnr & _); lia).
    pose proof (@winner_wf n b Hwf Hn) as Hw.
    unfold Node_init. rewrite Hcopy. cbn [bind]. rewrite Hw. cbn [bind].
    eexists. split; [reflexivity|]. split; [reflexivity|].
    unfold children. cbn [nwinner parent move tokens next_moves nboard].
    destruct (first_winner (lines_in_order n (board b))) as [t|]; [reflexivity|].
    unfold full. destruct (empty_cells b) as [|m ms] eqn:Ee; [reflexivity|].
    cbn [negb add_children]. unfold Node_init. cbn [nboard].
    rewrite Hcopy. reflexivity.
  - intros Hrows.
    assert (n = 0) by (destruct Hwf as (Hnr & _); lia). subst n.
    unfold Node_init. rewrite Hcopy. cbn [bind].
    now rewrite (@winner_no_rows b Hwf).
Qed.

Lemma no_tokens_no_children_witness :
  (forall mv par, mv <> None \/ par <> None ->
                  Node_init (fresh_board 2) [] mv par = Raise index_error)
  /\ ((0 < num_rows (fresh_board 2))%Z ->
      exists root,
        Node_init (fresh_board 2) [] None None = Ok root
        /\ nboard root = fresh_board 2
        /\ children root
           = match winner (fresh_board 2) with
             | Ok (Some _) => Ok None
             | _ => if full (fresh_board 2) then Ok None else Raise index_error
             end)
  /\ (num_rows (fresh_board 2) = 0%Z ->
      Node_init (fresh_board 2) [] None None = Raise index_error).
Proof.
  apply (@no_tokens_no_children (fresh_board 2)).
  apply (reach_init player_token 2). reflexivity.
Defined.

(** * More of [full_tree_search.py] and [algorithms.py] *)

(** ** The size of the outcome table *)

Lemma length_selects {A} (l : list A) : length (selects l) = length l.
Proof.
  transitivity (length (map fst (selects l)));
    [symmetry; apply length_map | now rewrite map_fst_selects].
Qed.

Lemma length_flat_map_const {A B} (f : A -> list B) (k : nat) (l : list A) :
  (forall x, In x l -> length (f x) = k) ->
  length (flat_map f l) = length l * k.
Proof.
  induction l as [|x l IH]; intros H; [reflexivity|].
  cbn [flat_map length]. rewrite length_app, (H x (or_introl eq_refl)).
  rewrite IH by (intros y Hy; apply H; now right). reflexivity.
Qed.

Lemma length_perms_of_length {A} (n : nat) : forall (l : list A),
  length l = n -> length (perms_of_length n l) = fact n.
Proof.
  induction n as [|n IH]; intros l Hl; [reflexivity|].
  cbn [perms_of_length]. rewrite (@length_flat_map_const _ _ _ (fact n)).
  - now rewrite length_selects, Hl.
  - intros xr Hxr. rewrite length_map. apply IH.
    destruct (selects_rest _ _ Hxr) as (Hlen & _). lia.
Qed.

(** Every way of taking one element out of the list is enumerated. *)
Lemma selects_complete {A} (l : list A) (x : A) :
  In x l ->
  exists r, In (x, r) (selects l) /\ forall y, In y l -> y <> x -> In y r.
Proof.
  induction l as [|a l IH]; intros H; [contradiction|].
  cbn [selects]. destruct H as [-> | H].
  - exists l. split; [now left|]. intros y [-> | Hy] Hne; [congruence | exact Hy].
  - destruct (IH H) as (r & Hr & Hall). exists (a :: r). split.
    + right. apply in_map_iff. exists (x, r). split; [reflexivity | exact Hr].
    + intros y [-> | Hy] Hne; [now left | right; now apply Hall].
Qed.

Lemma perms_of_length_complete {A} (n : nat) : forall (l p : list A),
  length l = n -> length p = n -> NoDup p -> incl p l ->
  In p (perms_of_length n l).
Proof.
  induction n as [|n IH]; intros l p Hl Hp Hnd Hincl.
  - destruct p; [now left | discriminate].
  - destruct p as [|x q]; [discriminate|].
    inversion Hnd as [|? ? Hx Hq]; subst.
    destruct (@selects_complete _ l x (Hincl x (or_introl eq_refl)))
      as (r & Hr & Hall).
    cbn [perms_of_length]. apply in_flat_map. exists (x, r).
    split; [exact Hr|]. apply in_map. apply IH.
    + destruct (selects_rest _ _ Hr) as (Hlen & _). simpl in *. lia.
    + simpl in Hp. lia.
    + exact Hq.
    + intros y Hy. apply Hall; [apply Hincl; now right|].
      intros ->. contradiction.
Qed.

Lemma permutations_spec {A} (l p : list A) :
  NoDup l -> (In p (permutations l) <-> Permutation p l).
Proof.
  intros Hn. split.
  - intros H. pose proof (permutations_length _ _ H) as Hlen.
    destruct (perms_of_length_members _ _ _ H) as (Hin & Hnd).
    apply NoDup_Permutation_bis; [now apply Hnd | lia | exact Hin].
  - intros H. apply perms_of_length_complete.
    + reflexivity.
    + now apply Permutation_length.
    + now apply (Permutation_NoDup (Permutation_sym H)).
    + intros x Hx. now apply (Permutation_in _ H).
Qed.

(** X19.  The outcome table that [full_tree_search] builds has one entry
    for every ordering of the empty cells of the board, and no other:
    [n!] entries for [n] empty cells. *)
Theorem outcome_table_has_every_ordering (init : Board) (tokens : list token)
    (cl : closure) :
  NoDup (empty_cells init) ->
  full_tree_search init tokens = Ok cl ->
  length (winners cl) = fact (length (empty_cells init))
  /\ NoDup (map fst (winners cl))
  /\ forall p, In p (map fst (winners cl)) <-> Permutation p (empty_cells init).
Proof.
  intros Hn Hcl. destruct (@winners_keys init tokens cl Hn Hcl) as (Hperms & Hk & Hnd).
  split; [|split].
  - rewrite <- (length_map fst), Hk, Hperms. now apply length_perms_of_length.
  - now rewrite Hk.
  - intros p. rewrite Hk, Hperms. now apply permutations_spec.
Qed.

Lemma outcome_table_has_every_ordering_witness :
  length (winners small_search) = fact (length (empty_cells (fresh_board 2)))
  /\ NoDup (map fst (winners small_search))
  /\ forall p, In p (map fst (winners small_search))
               <-> Permutation p (empty_cells (fresh_board 2)).
Proof.
  apply (@outcome_table_has_every_ordering (fresh_board 2) ["O"; "X"]%string).
  - apply NoDup_map_zpos, NoDup_all_cells.
  - exact small_search_built.
Defined.

(** ** The search returns *)

Lemma winner_token_played (b : Board) (t : token) :
  reachable player_token b -> (0 < num_rows b)%Z -> winner b = Ok (Some t) ->
  In t (played_tokens b).
Proof.
  intros H Hs Hw. destruct (winner_token_count H Hw) as [_ Hc].
  apply (count_occ_In string_dec). lia.
Qed.

Lemma getitem_in_range {A} (l : list A) (i : Z) (d : A) :
  (0 <= i < Z.of_nat (length l))%Z ->
  getitem l i = Ok (nth (Z.to_nat i) l d) /\ In (nth (Z.to_nat i) l d) l.
Proof.
  intros H. rewrite <- (Z2Nat.id i) at 1 by lia.
  rewrite (@getitem_nth _ l (Z.to_nat i) d) by lia.
  split; [reflexivity | apply nth_In; lia].
Qed.

(** An outcome the search may record: a draw, or a token of the list, or
    a token that was on the board before. *)
Lemma replay_returns (n : nat) (tokens : list token) :
  tokens <> [] -> Forall player_token tokens -> 0 < n ->
  forall moves b pid,
    reachable player_token b -> partitioned n b ->
    NoDup moves -> incl moves (empty_cells b) ->
    (0 <= pid < Z.of_nat (length tokens))%Z ->
    exists w, replay tokens b pid moves = Ok w
              /\ (w = "Draw"%string \/ In w tokens \/ In w (played_tokens b)).
Proof.
  intros Ht Hpt Hn.
  assert (Hlen : length tokens <> 0) by (destruct tokens; simpl; congruence).
  induction moves as [|m moves IH]; intros b pid Hb Hp Hnd Hincl Hpid.
  - exists "Draw"%string. split; [reflexivity | now left].
  - cbn [replay].
    destruct (@getitem_in_range _ tokens pid empty Hpid) as [-> Htok].
    set (tok := nth (Z.to_nat pid) tokens empty) in *. cbn [bind].
    assert (Hm : In m (empty_cells b)) by (apply Hincl; now left).
    assert (Hr : in_range n m).
    { apply (part_cover Hp). apply in_app_iff. now right. }
    assert (Hnp : ~ In m (played_positions b)).
    { intros Hpl. pose proof (part_nodup Hp) as Hd.
      apply in_split in Hpl. destruct Hpl as (l1 & l2 & E).
      rewrite E, <- app_assoc in Hd. apply NoDup_remove_2 in Hd.
      apply Hd. rewrite !in_app_iff. right. now right. }
    destruct m as [row col].
    destruct (play_partitioned tok Hp Hr Hnp) as (l1 & l2 & E & P).
    cbn [fst snd]. rewrite P. cbn [bind].
    set (b' := mkBoard _ _ _ _ _ _ _) in *.
    pose proof (@play_keeps_partitioned n b row col tok b' Hp Hr P) as Hp'.
    assert (Hb' : reachable player_token b').
    { destruct (part_wf Hp) as (Hnr & Hnc & _). destruct Hr as [H1 H2].
      simpl in H1, H2.
      apply (@reach_play player_token b row col tok b' Hb); try lia; [|exact P].
      rewrite Forall_forall in Hpt. now apply Hpt. }
    rewrite (winner_wf (part_wf Hp') Hn). cbn [bind].
    destruct (first_winner _) as [t|] eqn:Ew.
    + exists t. split; [reflexivity|].
      assert (Hin : In t (played_tokens b')).
      { apply (winner_token_played Hb').
        - destruct (part_wf Hp') as (Hnr & _). lia.
        - now rewrite (winner_wf (part_wf Hp') Hn), Ew. }
      unfold b' in Hin. cbn [played_tokens] in Hin. apply in_app_iff in Hin.
      destruct Hin as [Hin | [<- | []]]; auto.
    + replace (Z.of_nat (length tokens) =? 0)%Z with false
        by (symmetry; apply Z.eqb_neq; lia).
      inversion Hnd as [|? ? Hx Hrest]; subst.
      destruct (IH b' ((pid + 1) mod Z.of_nat (length tokens))%Z Hb' Hp' Hrest)
        as (w & Hw & Hgood).
      * intros p Hp0. unfold b'. cbn [empty_cells].
        assert (Hpe : In p (empty_cells b)) by (apply Hincl; now right).
        rewrite E in Hpe. apply in_app_iff in Hpe. apply in_app_iff.
        destruct Hpe as [Hpe | [Hpe | Hpe]]; [now left | | now right].
        subst p. contradiction.
      * apply Z.mod_pos_bound. lia.
      * exists w. split; [exact Hw|].
        destruct Hgood as [Hg | [Hg | Hg]]; auto.
        unfold b' in Hg. cbn [played_tokens] in Hg. apply in_app_iff in Hg.
        destruct Hg as [Hg | [<- | []]]; auto.
Qed.

Lemma In_dict_set {K V} (eqb : K -> K -> bool) (k : K) (v : V) (d : dict K V)
    (e : K * V) :
  In e (dict_set eqb k v d) -> snd e = v \/ In e d.
Proof.
  induction d as [|[k' v'] d IH]; cbn [dict_set].
  - intros [<- | []]. now left.
  - destruct (eqb k' k).
    + intros [<- | H]; [now left | right; now right].
    + intros [<- | H]; [right; now left|].
      destruct (IH H) as [E | H']; [now left | right; now right].
Qed.

Lemma record_outcomes_returns (n : nat) (init : Board) (tokens : list token) :
  tokens <> [] -> Forall player_token tokens -> 0 < n ->
  reachable player_token init -> partitioned n init ->
  forall perms acc,
    (forall p, In p perms -> NoDup p /\ incl p (empty_cells init)) ->
    (forall e, In e acc ->
       snd e = "Draw"%string \/ In (snd e) tokens \/ In (snd e) (played_tokens init)) ->
    exists d, record_outcomes init tokens perms acc = Ok d
              /\ forall e, In e d ->
                   snd e = "Draw"%string \/ In (snd e) tokens
                   \/ In (snd e) (played_tokens init).
Proof.
  intros Ht Hpt Hn Hb Hp.
  assert (Hlen : length tokens <> 0) by (destruct tokens; simpl; congruence).
  induction perms as [|p perms IH]; intros acc Hperms Hacc.
  - exists acc. split; [reflexivity | exact Hacc].
  - cbn [record_outcomes]. rewrite (reachable_copy Hb). cbn [bind].
    destruct (Hperms p (or_introl eq_refl)) as [Hnd Hincl].
    destruct (@replay_returns n tokens Ht Hpt Hn p init 0%Z Hb Hp Hnd Hincl)
      as (w & -> & Hw); [lia|].
    cbn [bind]. apply IH.
    + intros q Hq. apply Hperms. now right.
    + intros e He. apply In_dict_set in He. destruct He as [-> | He]; auto.
Qed.

(** X20.  On a board of a game with at least one row, and with a
    non-empty list of player tokens, [full_tree_search] builds its table
    without raising, and every outcome in the table is ['Draw'], a token
    of the list or a token that was on the board already. *)
Theorem full_tree_search_returns (init : Board) (tokens : list token) :
  reachable player_token init -> (0 < num_rows init)%Z ->
  tokens <> [] -> Forall player_token tokens ->
  exists cl,
    full_tree_search init tokens = Ok cl
    /\ forall p w, In (p, w) (winners cl) ->
          w = "Draw"%string \/ In w tokens \/ In w (played_tokens init).
Proof.
  intros Hb Hs Ht Hpt. destruct (reachable_partitioned Hb) as [n Hp].
  pose proof (@reachable_size _ _ n Hb Hp Hs) as Hn.
  assert (Hnd : NoDup (empty_cells init)).
  { pose proof (part_nodup Hp) as H. now apply NoDup_app_remove_l in H. }
  destruct (@record_outcomes_returns n init tokens Ht Hpt Hn Hb Hp
              (permutations (empty_cells init)) [])
    as (d & Hd & Hgood).
  - intros p Hperm. destruct (perms_of_length_members _ _ _ Hperm) as (Hin & Hdist).
    split; [now apply Hdist | exact Hin].
  - intros e [].
  - exists (mkClosure (permutations (empty_cells init)) d). split.
    + unfold full_tree_search. cbv zeta.
      match goal with
      | |- bind ?c _ = _ => replace c with (@Ok (dict perm token) d)
                              by (symmetry; exact Hd)
      end.
      reflexivity.
    + intros p w Hin. exact (Hgood (p, w) Hin).
Qed.

Lemma full_tree_search_returns_witness :
  exists cl,
    full_tree_search midgame_board ["O"; "X"]%string = Ok cl
    /\ forall p w, In (p, w) (winners cl) ->
          w = "Draw"%string \/ In w ["O"; "X"]%string
          \/ In w (played_tokens midgame_board).
Proof.
  apply (@full_tree_search_returns midgame_board ["O"; "X"]%string
           midgame_board_reachable).
  - reflexivity.
  - discriminate.
  - repeat constructor; discriminate.
Defined.

(** ** A search without tokens *)

Lemma perms_of_length_nonempty {A} (n : nat) (l : list A) :
  length l = n -> perms_of_length n l <> [].
Proof.
  intros Hl E. pose proof (length_perms_of_length l Hl) as Hf.
  rewrite E in Hf. simpl in Hf. pose proof (lt_O_fact n). lia.
Qed.

(** X21.  With an empty token list [full_tree_search] raises [IndexError]
    ([tokens[0]]) as soon as the board has an empty cell; on a board
    without empty cells it returns the table with the one entry for the
    empty ordering, a draw. *)
Theorem full_tree_search_without_tokens (b : Board) :
  reachable player_token b ->
  full_tree_search b []
  = match empty_cells b with
    | [] => Ok (mkClosure [[]] [([], "Draw"%string)])
    | _ :: _ => Raise index_error
    end.
Proof.
  intros Hb. unfold full_tree_search. cbv zeta.
  destruct (empty_cells b) as [|c l] eqn:Ee.
  - cbn [permutations length perms_of_length record_outcomes].
    rewrite (reachable_copy Hb). reflexivity.
  - unfold permutations. cbn [length perms_of_length selects flat_map fst snd].
    destruct (perms_of_length (length l) l) as [|q qs] eqn:Eq.
    + exfalso. exact (@perms_of_length_nonempty _ (length l) l eq_refl Eq).
    + cbn [map app record_outcomes]. rewrite (reachable_copy Hb). reflexivity.
Qed.

Lemma full_tree_search_without_tokens_witness :
  full_tree_search demo_board []
  = match empty_cells demo_board with
    | [] => Ok (mkClosure [[]] [([], "Draw"%string)])
    | _ :: _ => Raise index_error
    end.
Proof.
  apply (@full_tree_search_without_tokens demo_board).
  apply demo_board_reachable. discriminate.
Defined.

(** ** The two simple algorithms *)

Lemma find_filter {A} (f : A -> bool) (l : list A) :
  find f l = match filter f l with [] => None | x :: _ => Some x end.
Proof.
  induction l as [|x l IH]; [reflexivity|]. cbn [find filter].
  now destruct (f x).
Qed.

(** X22.  On a board of a game [sequential] and [random_search] return
    [None] exactly when the board is full.  Otherwise [sequential]
    returns the first cell, row by row, that holds the empty marker, and
    [random_search] one of the empty cells, whatever number is drawn; a
    move on the cell returned succeeds. *)
Theorem algorithms_return_empty_cells (b : Board) (rnd : nat) (tok : token) :
  reachable player_token b ->
  (sequential b = None <-> full b = true)
  /\ (random_search rnd b = Ok None <-> full b = true)
  /\ (exists r, random_search rnd b = Ok r)
  /\ sequential b
     = option_map zpos (find (is_empty_cell (board b))
                             (all_cells (Z.to_nat (num_rows b))))
  /\ (forall m, sequential b = Some m \/ random_search rnd b = Ok (Some m) ->
                In m (empty_cells b)
                /\ snd (play b (fst m) (snd m) tok) = Ok tt).
Proof.
  intros Hb. destruct (reachable_canonical Hb) as (n & Hp & _ & Hc).
  destruct (part_wf Hp) as (Hnr & _).
  assert (Hplay : forall m, In m (empty_cells b) ->
                            snd (play b (fst m) (snd m) tok) = Ok tt).
  { intros m Hm. destruct (@play_empty_cell n b m tok Hp Hm) as (_ & b' & -> & _).
    reflexivity. }
  unfold sequential, random_search, full.
  split; [|split; [|split; [|split]]].
  - destruct (empty_cells b); split; congruence.
  - destruct (empty_cells b) as [|c l] eqn:Ee; [split; reflexivity|].
    destruct (@random_sample_one_In _ rnd (c :: l)) as (x & -> & _); [discriminate|].
    split; discriminate.
  - destruct (empty_cells b) as [|c l] eqn:Ee; [eauto|].
    destruct (@random_sample_one_In _ rnd (c :: l)) as (x & -> & _); [discriminate|].
    cbn [bind]. eauto.
  - rewrite Hnr, Nat2Z.id, find_filter. unfold canonical in Hc. rewrite Hc.
    now destruct (filter _ _).
  - intros m [H | H].
    + destruct (empty_cells b) as [|c l] eqn:Ee; [discriminate|].
      inversion H; subst. rewrite <- Ee in *. split; [|apply Hplay]; rewrite Ee; now left.
    + destruct (empty_cells b) as [|c l] eqn:Ee; [discriminate|].
      destruct (@random_sample_one_In _ rnd (c :: l)) as (x & E & Hx); [discriminate|].
      rewrite E in H. inversion H; subst. rewrite <- Ee in *.
      split; [exact Hx | now apply Hplay].
Qed.

Lemma algorithms_return_empty_cells_witness :
  (sequential demo_board = None <-> full demo_board = true)
  /\ (random_search 7 demo_board = Ok None <-> full demo_board = true)
  /\ (exists r, random_search 7 demo_board = Ok r)
  /\ sequential demo_board
     = option_map zpos (find (is_empty_cell (board demo_board))
                             (all_cells (Z.to_nat (num_rows demo_board))))
  /\ (forall m, sequential demo_board = Some m
                \/ random_search 7 demo_board = Ok (Some m) ->
                In m (empty_cells demo_board)
                /\ snd (play demo_board (fst m) (snd m) "O") = Ok tt).
Proof.
  apply (@algorithms_return_empty_cells demo_board 7 "O"%string).
  apply demo_board_reachable. discriminate.
Defined.

(** ** Mean scores and arithmetic means *)

(** The float that [statistics.mean] returns is near the arithmetic mean:
    the scores are at most 100 in size, so the last place of the float
    is at most [2^-45]. *)
Lemma round_half_even_error (num den : Z) :
  (0 <= num)%Z -> (0 < den)%Z ->
  (2 * Z.abs (round_half_even num den * den - num) <= den)%Z.
Proof.
  intros Hn Hd. unfold round_half_even. cbv zeta.
  pose proof (Z.div_mod num den ltac:(lia)) as E.
  pose proof (Z.mod_pos_bound num den Hd) as Hm.
  set (qt := (num / den)%Z) in *. set (r := (num mod den)%Z) in *.
  destruct (Z.compare_spec (2 * r) den) as [Hc | Hc | Hc].
  - destruct (Z.even qt); nia.
  - nia.
  - nia.
Qed.

Lemma true_divide_near (a b : Z) (s : Q) :
  (0 < b)%Z -> (Z.abs a <= 100 * b)%Z -> true_divide a b = Ok s -> near s a b.
Proof.
  intros Hb Hab. unfold true_divide.
  destruct (b =? 0)%Z eqn:Eb; [apply Z.eqb_eq in Eb; lia|].
  destruct (a =? 0)%Z eqn:Ea.
  { apply Z.eqb_eq in Ea. intros H. inversion H; subst. unfold near. simpl. lia. }
  apply Z.eqb_neq in Ea. cbv zeta.
  assert (He : (floor_log2 (Z.abs a) (Z.abs b) <= 7)%Z)
    by (apply floor_log2_of_score; lia).
  set (k := Z.max (floor_log2 (Z.abs a) (Z.abs b) - 52) (-1074)) in *.
  assert (Hk : (-1074 <= k <= -45)%Z) by (unfold k; lia).
  replace (0 <=? k)%Z with false by (symmetry; apply Z.leb_gt; lia).
  cbn [andb]. intros H. inversion H; subst s; clear H.
  unfold near. cbn [Qnum Qden].
  set (P := (2 ^ (- k))%Z).
  assert (HP : (2 ^ 45 <= P)%Z) by (apply Z.pow_le_mono_r; lia).
  rewrite Z2Pos.id by lia.
  pose proof (@round_half_even_error (Z.abs a * P) (Z.abs b)
                ltac:(nia) ltac:(lia)) as Herr.
  set (m := round_half_even (Z.abs a * P) (Z.abs b)) in *.
  replace (Z.abs b) with b in * by lia.
  assert (Hs : (Z.abs (Z.sgn a * Z.sgn b * m * b - a * P)
                = Z.abs (m * b - Z.abs a * P))%Z).
  { replace (Z.sgn b) with 1%Z by lia.
    destruct (Z.lt_trichotomy a 0) as [Ha | [Ha | Ha]]; [|lia|].
    - rewrite (Z.sgn_neg a Ha), (Z.abs_neq a) by lia.
      replace (-1 * 1 * m * b - a * P)%Z with (- (m * b - - a * P))%Z by ring.
      apply Z.abs_opp.
    - rewrite (Z.sgn_pos a Ha), (Z.abs_eq a) by lia. f_equal. ring. }
  rewrite Hs. nia.
Qed.

Lemma mean_near (values : list Z) :
  values <> [] -> Forall score values ->
  near (mean_of values) (fold_right Z.add 0%Z values) (Z.of_nat (length values)).
Proof.
  intros Hne Hs. pose proof (mean_of_scores Hne Hs) as Hm.
  unfold mean in Hm. destruct values as [|v l]; [congruence|].
  cbv beta iota zeta in Hm.
  set (total := fold_right Z.add 0%Z (v :: l)) in *.
  set (n := Z.of_nat (length (v :: l))) in *.
  assert (Hn : (0 < n)%Z) by (unfold n; cbn [length]; lia).
  destruct (total mod n =? 0)%Z eqn:E.
  - apply Z.eqb_eq in E. inversion Hm as [Hq]. unfold near.
    cbn [Qnum Qden inject_Z].
    pose proof (Z.div_mod total n ltac:(lia)) as Hd. rewrite E in Hd.
    replace (total / n * n - total * Z.pos 1)%Z with 0%Z by lia.
    simpl. lia.
  - apply true_divide_near; [exact Hn | | exact Hm].
    exact (sum_of_scores Hs).
Qed.

Lemma near_order (s1 s2 : Q) (a1 n1 a2 n2 : Z) :
  near s1 a1 n1 -> near s2 a2 n2 ->
  (0 < n1)%Z -> (0 < n2)%Z -> (n1 * n2 < 2 ^ 45)%Z ->
  (a1 * n2 < a2 * n1)%Z -> Qlt s1 s2.
Proof.
  unfold near, Qlt. destruct s1 as [N1 D1], s2 as [N2 D2]. cbn [Qnum Qden].
  set (d1 := Z.pos D1). set (d2 := Z.pos D2).
  assert (Hd1 : (0 < d1)%Z) by (unfold d1; lia).
  assert (Hd2 : (0 < d2)%Z) by (unfold d2; lia).
  change (2 ^ 46)%Z with (2 * 2 ^ 45)%Z.
  assert (HE0 : (0 < 2 ^ 45)%Z) by lia. revert HE0.
  generalize (2 ^ 45)%Z. intros E HE0 H1 H2 Hn1 Hn2 HE Hlt.
  assert (L : (N1 * n1 * (2 * E) <= a1 * d1 * (2 * E) + n1 * d1)%Z).
  { assert (L0 : ((N1 * n1 - a1 * d1) * (2 * E) <= n1 * d1)%Z).
    { eapply Z.le_trans; [|exact H1].
      apply Z.mul_le_mono_nonneg_r; lia. }
    lia. }
  assert (R : (a2 * d2 * (2 * E) - n2 * d2 <= N2 * n2 * (2 * E))%Z).
  { assert (R0 : ((a2 * d2 - N2 * n2) * (2 * E) <= n2 * d2)%Z).
    { eapply Z.le_trans; [|exact H2].
      apply Z.mul_le_mono_nonneg_r; lia. }
    lia. }
  assert (L' : (N1 * n1 * (2 * E) * (d2 * n2)
                <= (a1 * d1 * (2 * E) + n1 * d1) * (d2 * n2))%Z)
    by (apply Z.mul_le_mono_nonneg_r; [nia | exact L]).
  assert (R' : ((a2 * d2 * (2 * E) - n2 * d2) * (d1 * n1)
                <= N2 * n2 * (2 * E) * (d1 * n1))%Z)
    by (apply Z.mul_le_mono_nonneg_r; [nia | exact R]).
  assert (M : ((a1 * d1 * (2 * E) + n1 * d1) * (d2 * n2)
               < (a2 * d2 * (2 * E) - n2 * d2) * (d1 * n1))%Z).
  { replace ((a1 * d1 * (2 * E) + n1 * d1) * (d2 * n2))%Z
      with (d1 * d2 * (a1 * n2 * (2 * E) + n1 * n2))%Z by ring.
    replace ((a2 * d2 * (2 * E) - n2 * d2) * (d1 * n1))%Z
      with (d1 * d2 * (a2 * n1 * (2 * E) - n1 * n2))%Z by ring.
    apply Z.mul_lt_mono_pos_l; [nia|].
    assert (Hgap : (1 <= a2 * n1 - a1 * n2)%Z) by lia.
    assert (Hg : (2 * E <= (a2 * n1 - a1 * n2) * (2 * E))%Z) by nia.
    lia. }
  assert (T : (N1 * d2 * (n1 * n2 * (2 * E)) < N2 * d1 * (n1 * n2 * (2 * E)))%Z).
  { replace (N1 * d2 * (n1 * n2 * (2 * E)))%Z
      with (N1 * n1 * (2 * E) * (d2 * n2))%Z by ring.
    replace (N2 * d1 * (n1 * n2 * (2 * E)))%Z
      with (N2 * n2 * (2 * E) * (d1 * n1))%Z by ring.
    lia. }
  apply Z.mul_lt_mono_pos_r in T; [exact T | nia].
Qed.

Lemma exact_mean_lt (A n B n' : Z) :
  (0 < n)%Z -> (0 < n')%Z ->
  Qlt (inject_Z A / inject_Z n) (inject_Z B / inject_Z n') ->
  (A * n' < B * n)%Z.
Proof.
  intros Hn Hn'. destruct n as [|p|p]; try lia. destruct n' as [|p'|p']; try lia.
  unfold Qlt, Qdiv, Qmult, Qinv, inject_Z. cbn [Qnum Qden].
  rewrite !Pos.mul_1_l. lia.
Qed.

Lemma exact_means_agree (vs vs' : list Z) :
  vs <> [] -> vs' <> [] -> Forall score vs -> Forall score vs' ->
  (Z.of_nat (length vs) * Z.of_nat (length vs') < 2 ^ 45)%Z ->
  Qle (mean_of vs') (mean_of vs) -> Qle (exact_mean vs') (exact_mean vs).
Proof.
  intros Hne Hne' Hs Hs' Hsize Hle.
  apply Qnot_lt_le. intros Hlt. unfold exact_mean in Hlt.
  assert (Hn : (0 < Z.of_nat (length vs))%Z)
    by (destruct vs; [congruence | cbn [length]; lia]).
  assert (Hn' : (0 < Z.of_nat (length vs'))%Z)
    by (destruct vs'; [congruence | cbn [length]; lia]).
  apply exact_mean_lt in Hlt; [|exact Hn | exact Hn'].
  pose proof (@near_order _ _ _ _ _ _ (mean_near Hne Hs) (mean_near Hne' Hs')
                Hn Hn' Hsize Hlt) as Hcontra.
  apply Qle_not_lt in Hle. contradiction.
Qed.

Lemma Zfact (n : nat) :
  Z.of_nat (fact (S n)) = (Z.of_nat (S n) * Z.of_nat (fact n))%Z.
Proof. change (fact (S n)) with (S n * fact n). apply Nat2Z.inj_mul. Qed.

Lemma fact_up_to_ten (n : nat) : n <= 10 -> (Z.of_nat (fact n) <= 3628800)%Z.
Proof.
  intros H. apply fact_le in H. apply Nat2Z.inj_le in H.
  eapply Z.le_trans; [exact H|]. rewrite !Zfact. change (fact 0) with 1. lia.
Qed.

Lemma values_for_bounds (cl : closure) (played : perm) (tok : token)
    (m : position) :
  In m (candidates cl played) ->
  values_for cl played tok m <> []
  /\ Forall score (values_for cl played tok m)
  /\ length (values_for cl played tok m) <= length (winners cl).
Proof.
  intros Hm. unfold candidates in Hm. apply in_map_iff in Hm.
  destruct Hm as [e [E He]]. unfold values_for. split; [|split].
  - assert (Hin : In e (filter (fun e0 => pos_eqb (next_of played (fst e0)) m)
                               (surviving cl played))).
    { apply filter_In. split; [exact He | now apply pos_eqb_eq]. }
    intros Hnil. apply (in_map (fun e0 => value_of (snd e0) tok)) in Hin.
    rewrite Hnil in Hin. exact Hin.
  - apply Forall_forall. intros v Hv. apply in_map_iff in Hv.
    destruct Hv as [e0 [<- _]]. apply value_of_score.
  - rewrite length_map. unfold surviving.
    eapply Nat.le_trans; apply length_filter_le.
Qed.

(** On a search over at most ten empty cells (every board up to 3 by 3)
    the floats order the candidates as their arithmetic means do: the move
    returned has the largest arithmetic mean. *)
Lemma get_move_picks_best_exact_mean (init : Board) (tokens : list token)
    (cl : closure) (board : Board) (tok : token) (rnd : nat) :
  NoDup (empty_cells init) -> length (empty_cells init) <= 10 ->
  full_tree_search init tokens = Ok cl ->
  2 <= length (empty_cells board) ->
  (exists p, In p (move_permuations cl)
             /\ extends (played_positions board) p) ->
  exists m,
    get_move cl board tok rnd = Ok (Some m)
    /\ In m (candidates cl (played_positions board))
    /\ forall m', In m' (candidates cl (played_positions board)) ->
                  Qle (exact_score cl (played_positions board) tok m')
                      (exact_score cl (played_positions board) tok m).
Proof.
  intros Hn Hten Hcl H2 Hex.
  destruct (@get_move_picks_best_mean init tokens cl board tok rnd Hn Hcl)
    as (Hkeys & _ & _ & Hsel).
  destruct (Hsel H2 Hex) as (m & Hm & Hc & Hmax).
  exists m. split; [exact Hm|]. split; [exact Hc|].
  intros m' Hc'.
  destruct (@values_for_bounds cl (played_positions board) tok m Hc)
    as (Hne & Hs & Hlen).
  destruct (@values_for_bounds cl (played_positions board) tok m' Hc')
    as (Hne' & Hs' & Hlen').
  assert (Hsize : (Z.of_nat (length (winners cl)) <= 3628800)%Z).
  { assert (E : length (winners cl) = fact (length (empty_cells init))).
    { rewrite <- (length_map fst (winners cl)), Hkeys.
      apply length_perms_of_length. reflexivity. }
    rewrite E. now apply fact_up_to_ten. }
  unfold exact_score. apply exact_means_agree; auto.
  - assert (H1 : (Z.of_nat (length (values_for cl (played_positions board) tok m))
                  <= 3628800)%Z) by lia.
    assert (H1' : (Z.of_nat (length (values_for cl (played_positions board) tok m'))
                   <= 3628800)%Z) by lia.
    assert (H0 : (0 <= Z.of_nat (length (values_for cl (played_positions board) tok m)))%Z)
      by lia.
    assert (H0' : (0 <= Z.of_nat (length (values_for cl (played_positions board) tok m')))%Z)
      by lia.
    change (2 ^ 45)%Z with 35184372088832%Z. nia.
  - apply Hmax. exact Hc'.
Qed.

(** * [game.py] *)

(** ** Dictionaries whose keys are compared by [__eq__] *)

Section Keys.
Context {K V : Type} (eqb : K -> K -> bool).
Hypothesis eqb_refl : forall k, eqb k k = true.

Lemma dict_mem_set_same (k : K) (v : V) (d : dict K V) :
  dict_mem eqb k (dict_set eqb k v d) = true.
Proof.
  induction d as [|[k' v'] d IH]; cbn [dict_set].
  - unfold dict_mem. simpl. now rewrite eqb_refl.
  - destruct (eqb k' k) eqn:E.
    + unfold dict_mem. cbn [existsb fst]. now rewrite E.
    + unfold dict_mem in *. cbn [existsb fst]. now rewrite E, IH.
Qed.

Lemma dict_mem_set_other (k q : K) (v : V) (d : dict K V) :
  dict_mem eqb q d = true -> dict_mem eqb q (dict_set eqb k v d) = true.
Proof.
  induction d as [|[k' v'] d IH]; cbn [dict_set]; [discriminate|].
  unfold dict_mem in *. cbn [existsb fst]. intros H.
  apply orb_true_iff in H. destruct (eqb k' k); cbn [existsb fst];
    apply orb_true_iff; destruct H as [H1 | H1]; auto.
Qed.

Lemma dict_mem_get (q : K) (d : dict K V) :
  dict_mem eqb q d = true -> exists v, dict_get eqb q d = Ok v.
Proof.
  induction d as [|[k' v'] d IH]; [discriminate|].
  unfold dict_mem in *. cbn [existsb fst dict_get]. intros H.
  destruct (eqb k' q); [eauto|]. now apply IH.
Qed.

Lemma dict_get_set_same (k : K) (v : V) (d : dict K V) :
  dict_get eqb k (dict_set eqb k v d) = Ok v.
Proof.
  induction d as [|[k' v'] d IH]; cbn [dict_set].
  - cbn [dict_get]. now rewrite eqb_refl.
  - destruct (eqb k' k) eqn:E; cbn [dict_get]; now rewrite E.
Qed.

Lemma dict_mem_false_get (q : K) (d : dict K V) :
  dict_mem eqb q d = false -> dict_get eqb q d = Raise KeyError.
Proof.
  induction d as [|[k' v'] d IH]; [reflexivity|].
  unfold dict_mem in *. cbn [existsb fst dict_get]. intros H.
  apply orb_false_iff in H. destruct H as [-> H]. now apply IH.
Qed.
End Keys.

Lemma length_nodup_le (l : list token) :
  length (nodup string_dec l) <= length l.
Proof.
  induction l as [|x l IH]; [reflexivity|]. cbn [nodup].
  destruct (in_dec string_dec x l); simpl; lia.
Qed.

Lemma length_nodup_NoDup (l : list token) :
  length (nodup string_dec l) = length l <-> NoDup l.
Proof.
  split.
  - induction l as [|x l IH]; [constructor|]. cbn [nodup].
    pose proof (length_nodup_le l) as Hle.
    destruct (in_dec string_dec x l) as [Hin | Hin]; simpl; intros H; [lia|].
    constructor; [exact Hin | apply IH; lia].
  - intros H. now rewrite (nodup_fixed_point string_dec H).
Qed.

Lemma contains_token_In (t : token) (l : list token) :
  contains token_eqb t l = true <-> In t l.
Proof.
  unfold contains. rewrite existsb_exists. split.
  - intros [x [Hx E]]. apply token_eqb_eq in E. now subst.
  - intros H. exists t. split; [exact H | now apply token_eqb_eq].
Qed.

Lemma token_lookup_built (ps : list Player) : forall acc,
  NoDup (map fst acc ++ map ptoken ps) ->
  fold_left (fun d player => dict_set token_eqb (ptoken player) player d) ps acc
  = acc ++ map (fun p => (ptoken p, p)) ps.
Proof.
  induction ps as [|p ps IH]; intros acc H; cbn [fold_left map].
  - now rewrite app_nil_r.
  - cbn [map] in H.
    rewrite (dict_set_fresh token_eqb token_eqb_eq).
    + rewrite IH.
      * now rewrite <- app_assoc.
      * rewrite map_app. cbn [map fst]. now rewrite <- app_assoc.
    + apply NoDup_remove_2 in H. intros Hin. apply H. apply in_app_iff. now left.
Qed.

Section GameFacts.
Variable render : Player -> string.
Variable is_blank : token -> bool.

Lemma player_eqb_refl (p : Player) : player_eqb render p p = true.
Proof. unfold player_eqb. apply String.eqb_refl. Qed.

Lemma player_counter_built (ps : list Player) : forall (zs : list Z) acc p,
  length zs = length ps ->
  dict_mem (player_eqb render) p acc = true \/ In p ps ->
  dict_mem (player_eqb render) p
    (fold_left (fun d ip => dict_set (player_eqb render) (snd ip) (fst ip + 1)%Z d)
               (combine zs ps) acc) = true.
Proof.
  induction ps as [|q ps IH]; intros zs acc p Hl H.
  - destruct zs; [|discriminate]. destruct H as [H | []]. exact H.
  - destruct zs as [|z zs]; [discriminate|]. cbn [combine fold_left fst snd].
    apply IH; [simpl in Hl; lia|].
    destruct H as [H | [-> | H]].
    + left. now apply dict_mem_set_other.
    + left. apply dict_mem_set_same. apply player_eqb_refl.
    + now right.
Qed.

Lemma Game_init_players b ps :
  NoDup (map ptoken ps) -> ~ In empty (map ptoken ps) ->
  exists counter,
    Game_init render b (Some ps)
    = Ok (mkGame b ps (map (fun p => (ptoken p, p)) ps) counter 1 false 0)
    /\ forall p, In p ps -> dict_mem (player_eqb render) p counter = true.
Proof.
  intros Hn He. unfold Game_init. cbv zeta.
  rewrite (proj2 (length_nodup_NoDup _) Hn), length_map, Nat.eqb_refl.
  cbn [negb].
  replace (contains token_eqb empty (map ptoken ps)) with false.
  2:{ symmetry. apply not_true_is_false. now rewrite contains_token_In. }
  rewrite (token_lookup_built ps []) by exact Hn. cbn [app].
  eexists. split; [reflexivity|]. intros p Hp.
  apply player_counter_built; [|now right].
  unfold range. now rewrite length_map, length_seq, Nat2Z.id.
Qed.

End GameFacts.

(** X23.  [Game(board, players)] raises [AssertionError] exactly when two
    players have the same token or a player's token is the empty marker.
    Otherwise the game starts in round 1 with the board and the players
    given, [token_lookup] finds every player by its token, and [welcome]
    finds a number for every player. *)
Theorem Game_init_checks_the_tokens (render : Player -> string) (b : Board)
    (ps : list Player) :
  ((exists msg, Game_init render b (Some ps) = Raise (AssertionError msg))
   <-> ~ NoDup (map ptoken ps) \/ In empty (map ptoken ps))
  /\ (NoDup (map ptoken ps) -> ~ In empty (map ptoken ps) ->
      exists g,
        Game_init render b (Some ps) = Ok g
        /\ gboard g = b /\ players g = ps
        /\ round_num g = 1%Z /\ exit_flag g = false
        /\ (forall p, In p ps ->
              dict_get token_eqb (ptoken p) (token_lookup g) = Ok p)
        /\ welcome render g = Ok tt).
Proof.
  split.
  - unfold Game_init. cbv zeta.
    destruct (length (nodup string_dec (map ptoken ps)) =? length ps) eqn:E1;
      cbn [negb].
    + apply Nat.eqb_eq in E1. rewrite <- (length_map ptoken ps) in E1.
      apply length_nodup_NoDup in E1.
      destruct (contains token_eqb empty (map ptoken ps)) eqn:E2.
      * apply contains_token_In in E2. split; [auto | eauto].
      * split; [intros [msg H]; discriminate|].
        intros [H | H]; [contradiction|].
        apply contains_token_In in H. congruence.
    + split; [|eauto]. intros _. left. intros Hn.
      apply length_nodup_NoDup in Hn. rewrite length_map in Hn.
      apply Nat.eqb_neq in E1. contradiction.
  - intros Hn He.
    destruct (@Game_init_players render b ps Hn He) as (counter & -> & Hc).
    eexists. split; [reflexivity|]. cbn [gboard players round_num exit_flag token_lookup].
    repeat split.
    + intros p Hp. apply (dict_get_In token_eqb token_eqb_eq).
      * rewrite map_map. cbn [fst]. exact Hn.
      * apply in_map_iff. exists p. auto.
    + unfold welcome. cbn [players player_counter].
      assert (Hall : forall l, (forall p, In p l -> In p ps) ->
                exists vs, mapM (fun player => dict_get (player_eqb render) player counter) l
                           = Ok vs).
      { induction l as [|p l IH]; intros Hl; [now exists []|].
        cbn [mapM].
        destruct (@dict_mem_get _ _ (player_eqb render) p counter
                    (Hc p (Hl p (or_introl eq_refl)))) as [v ->].
        destruct IH as [vs ->]; [intros q Hq; apply Hl; now right|].
        cbn [bind]. eauto. }
      destruct (Hall ps (fun p H => H)) as [vs ->]. reflexivity.
Qed.

(** ** [add_player] *)

Lemma max_fold_ge (l : list Z) : forall x,
  (x <= fold_left Z.max l x)%Z
  /\ Forall (fun y => (y <= fold_left Z.max l x)%Z) l.
Proof.
  induction l as [|y l IH]; intros x; cbn [fold_left]; [split; [lia | constructor]|].
  destruct (IH (Z.max x y)) as [H1 H2]. split; [lia|].
  constructor; [lia | exact H2].
Qed.

Lemma max_fold_In (l : list Z) : forall x, In (fold_left Z.max l x) (x :: l).
Proof.
  induction l as [|y l IH]; intros x; cbn [fold_left]; [now left|].
  destruct (IH (Z.max x y)) as [H | H].
  - rewrite <- H. destruct (Z.max_spec x y) as [[_ ->] | [_ ->]];
      [right; now left | now left].
  - right. now right.
Qed.

(** X24.  In a game made without players ([Game(board)]) [add_player]
    never succeeds: [player_counter] is empty and stays empty.  A player
    with a new, valid token is appended to [players] and entered in
    [token_lookup], and then [max] of the empty [player_counter] raises
    [ValueError]. *)
Theorem add_player_fails_without_players (render : Player -> string)
    (is_blank : token -> bool) (g : Game) (p : Player) :
  player_counter g = [] ->
  exists g' f,
    add_player render is_blank g p = (g', Failed f)
    /\ player_counter g' = []
    /\ (dict_mem token_eqb (ptoken p) (token_lookup g) = false ->
        is_blank (ptoken p) = false -> ptoken p <> empty ->
        (exists msg, f = Builtin (ValueError msg))
        /\ players g' = players g ++ [p]
        /\ dict_get token_eqb (ptoken p) (token_lookup g') = Ok p
        /\ gboard g' = gboard g).
Proof.
  intros Hc. unfold add_player.
  destruct (dict_mem token_eqb (ptoken p) (token_lookup g)) eqn:E1.
  { do 2 eexists. split; [reflexivity|]. split; [exact Hc | discriminate]. }
  destruct (is_blank (ptoken p)) eqn:E2; cbn [orb].
  { do 2 eexists. split; [reflexivity|]. split; [exact Hc | discriminate]. }
  destruct (token_eqb (ptoken p) empty) eqn:E3.
  { do 2 eexists. split; [reflexivity|]. split; [exact Hc|].
    intros _ _ H. apply token_eqb_eq in E3. contradiction. }
  cbv zeta. rewrite Hc. cbn [map].
  do 2 eexists. split; [reflexivity|]. split; [reflexivity|].
  intros _ _ _. cbn [players token_lookup gboard].
  split; [eexists; reflexivity|]. repeat split.
  apply dict_get_set_same. intros k. now apply token_eqb_eq.
Qed.

Lemma add_player_fails_without_players_witness :
  exists g' f,
    add_player show (fun _ => false) empty_game carol = (g', Failed f)
    /\ player_counter g' = []
    /\ (dict_mem token_eqb (ptoken carol) (token_lookup empty_game) = false ->
        (fun _ : token => false) (ptoken carol) = false -> ptoken carol <> empty ->
        (exists msg, f = Builtin (ValueError msg))
        /\ players g' = players empty_game ++ [carol]
        /\ dict_get token_eqb (ptoken carol) (token_lookup g') = Ok carol
        /\ gboard g' = gboard empty_game).
Proof.
  apply (@add_player_fails_without_players show (fun _ => false) empty_game carol).
  reflexivity.
Defined.

(** X25.  In a game with players [add_player] refuses, with
    [AttributeError] and without changing the game, a token that is
    already playing, a blank token and the empty marker.  Any other
    player joins: it is appended to [players], [token_lookup] finds it by
    its token, and its number is one more than the largest number in
    use. *)
Theorem add_player_joins_or_refuses (render : Player -> string)
    (is_blank : token -> bool) (g : Game) (p : Player) :
  player_counter g <> [] ->
  let taken := dict_mem token_eqb (ptoken p) (token_lookup g) in
  let invalid := is_blank (ptoken p) || token_eqb (ptoken p) empty in
  (taken = true \/ invalid = true ->
   exists msg, add_player render is_blank g p = (g, Failed (AttributeError msg)))
  /\ (taken = false -> invalid = false ->
      exists g' n,
        add_player render is_blank g p = (g', Done tt)
        /\ gboard g' = gboard g
        /\ players g' = players g ++ [p]
        /\ dict_get token_eqb (ptoken p) (token_lookup g') = Ok p
        /\ dict_get (player_eqb render) p (player_counter g') = Ok n
        /\ In (n - 1)%Z (map snd (player_counter g))
        /\ Forall (fun e => (snd e < n)%Z) (player_counter g)).
Proof.
  intros Hc taken invalid. subst taken invalid. unfold add_player. split.
  - intros [H | H].
    + rewrite H. eauto.
    + destruct (dict_mem token_eqb (ptoken p) (token_lookup g)); [eauto|].
      rewrite H. eauto.
  - intros -> ->. cbv zeta.
    destruct (player_counter g) as [|[q0 z0] cs] eqn:Ecs; [congruence|].
    cbn [map snd].
    do 2 eexists. split; [reflexivity|].
    cbn [players token_lookup gboard player_counter]. repeat split.
    + apply dict_get_set_same. intros k. now apply token_eqb_eq.
    + apply dict_get_set_same. apply player_eqb_refl.
    + replace (fold_left Z.max (map snd cs) z0 + 1 - 1)%Z
        with (fold_left Z.max (map snd cs) z0) by lia.
      apply max_fold_In.
    + destruct (max_fold_ge (map snd cs) z0) as [H1 H2].
      constructor; [cbn [snd]; lia|].
      rewrite Forall_forall in H2 |- *. intros e He.
      specialize (H2 (snd e) (in_map snd _ _ He)). lia.
Qed.

Lemma add_player_joins_or_refuses_witness :
  let taken := dict_mem token_eqb (ptoken carol) (token_lookup two_player_game) in
  let invalid := (fun _ : token => false) (ptoken carol)
                 || token_eqb (ptoken carol) empty in
  (taken = true \/ invalid = true ->
   exists msg, add_player show (fun _ => false) two_player_game carol
               = (two_player_game, Failed (AttributeError msg)))
  /\ (taken = false -> invalid = false ->
      exists g' n,
        add_player show (fun _ => false) two_player_game carol = (g', Done tt)
        /\ gboard g' = gboard two_player_game
        /\ players g' = players two_player_game ++ [carol]
        /\ dict_get token_eqb (ptoken carol) (token_lookup g') = Ok carol
        /\ dict_get (player_eqb show) carol (player_counter g') = Ok n
        /\ In (n - 1)%Z (map snd (player_counter two_player_game))
        /\ Forall (fun e => (snd e < n)%Z) (player_counter two_player_game)).
Proof.
  apply (@add_player_joins_or_refuses show (fun _ => false) two_player_game carol).
  discriminate.
Defined.

(** ** A game of computer players *)

(** A move on an empty cell of a board of a game. *)
Lemma play_on_empty_cell n b m tok :
  reachable player_token b -> partitioned n b ->
  In m (empty_cells b) -> tok <> empty ->
  exists b',
    play b (fst m) (snd m) tok = (b', Ok tt)
    /\ reachable player_token b' /\ partitioned n b'
    /\ played_positions b' = played_positions b ++ [m]
    /\ played_tokens b' = played_tokens b ++ [tok]
    /\ S (length (empty_cells b')) = length (empty_cells b)
    /\ num_rows b' = num_rows b.
Proof.
  intros Hb Hp Hm Htok.
  assert (Hr : in_range n m).
  { apply (part_cover Hp). apply in_app_iff. now right. }
  assert (Hnp : ~ In m (played_positions b)).
  { intros Hpl. pose proof (part_nodup Hp) as Hd.
    apply in_split in Hpl. destruct Hpl as (l1 & l2 & E).
    rewrite E, <- app_assoc in Hd. apply NoDup_remove_2 in Hd.
    apply Hd. rewrite !in_app_iff. right. now right. }
  destruct m as [row col]. cbn [fst snd].
  destruct (play_partitioned tok Hp Hr Hnp) as (l1 & l2 & E & P).
  eexists. split; [exact P|].
  pose proof (@play_keeps_partitioned n b row col tok _ Hp Hr P) as Hp'.
  split; [|split; [exact Hp'|]].
  - destruct (part_wf Hp) as (Hnr & Hnc & _). destruct Hr as [H1 H2].
    simpl in H1, H2.
    apply (@reach_play player_token b row col tok _ Hb); try lia; [exact Htok | exact P].
  - cbn [played_positions played_tokens empty_cells num_rows].
    repeat split. rewrite E, !length_app. simpl. lia.
Qed.

Section ComputerGame.
Variable console : nat -> string.
Variable parse : string -> command.
Variable ps : list Player.
Hypothesis ps_ok : computer_players ps.

Lemma lookup_player t :
  In t (map ptoken ps) ->
  exists p, In p ps
            /\ dict_get token_eqb t (map (fun p => (ptoken p, p)) ps) = Ok p.
Proof.
  intros H. apply in_map_iff in H. destruct H as [p [<- Hp]].
  exists p. split; [exact Hp|].
  apply (dict_get_In token_eqb token_eqb_eq).
  - rewrite map_map. cbn [fst]. exact (proj1 ps_ok).
  - apply in_map_iff. exists p. auto.
Qed.

Lemma Game_winner_in_play g :
  in_play ps g ->
  exists w, Game_winner g = Ok w
            /\ (w = None <-> winner (gboard g) = Ok None)
            /\ (forall p, w = Some p -> In p ps).
Proof.
  intros (Hb & Hs & _ & Hl & _ & Htoks).
  destruct (reachable_partitioned Hb) as [n Hp].
  pose proof (@reachable_size _ _ n Hb Hp Hs) as Hn.
  unfold Game_winner. pose proof (winner_wf (part_wf Hp) Hn) as Hw.
  rewrite Hw. cbn [bind].
  destruct (first_winner _) as [t|] eqn:E.
  - assert (Hin : In t (map ptoken ps)).
    { rewrite Forall_forall in Htoks. apply Htoks.
      apply (winner_token_played Hb Hs). exact Hw. }
    destruct (@lookup_player t Hin) as (p & Hp' & Hget).
    rewrite Hl, Hget. cbn [bind]. exists (Some p).
    split; [reflexivity|]. split; [split; discriminate|].
    intros q Hq. inversion Hq. subst. exact Hp'.
  - exists None. split; [reflexivity|]. split; [tauto | discriminate].
Qed.

Lemma play_turn_in_play fuel g p :
  in_play ps g -> In p ps -> full (gboard g) = false ->
  exists g1,
    play_turn console parse fuel g p = (g1, Ok tt)
    /\ in_play ps g1
    /\ S (length (empty_cells (gboard g1))) = length (empty_cells (gboard g))
    /\ played_tokens (gboard g1) = played_tokens (gboard g) ++ [ptoken p].
Proof.
  intros (Hb & Hs & Hps & Hl & He & Htoks) Hp Hfull.
  destruct ps_ok as [_ Hall]. rewrite Forall_forall in Hall.
  destruct (Hall p Hp) as (Htok & alg & Halg & Hfind).
  destruct (Hfind (S (ticks g)) (gboard g) Hb Hfull) as (m & Hm & Hin).
  destruct (reachable_partitioned Hb) as [n Hpn].
  destruct (@play_on_empty_cell n (gboard g) m (ptoken p) Hb Hpn Hin Htok)
    as (b' & Hplay & Hb' & _ & _ & Hpt & Hlen & Hnr).
  unfold play_turn. cbv zeta. rewrite Halg. cbn [tick gboard ticks].
  rewrite Hm. destruct m as [row col]. cbn [fst snd] in Hplay.
  rewrite Hplay. eexists. split; [reflexivity|].
  unfold in_play, set_gboard. cbn [gboard players token_lookup exit_flag].
  split; [|split; [exact Hlen | exact Hpt]].
  split; [exact Hb'|]. split; [lia|]. split; [exact Hps|].
  split; [exact Hl|]. split; [exact He|].
  rewrite Hpt. apply Forall_app. split; [exact Htoks|].
  constructor; [now apply in_map | constructor].
Qed.

Lemma round_turns_in_play fuel : forall rest g,
  (forall p, In p rest -> In p ps) ->
  in_play ps g -> full (gboard g) = false ->
  exists g1 early,
    round_turns console parse fuel g rest = (g1, Ok early)
    /\ in_play ps g1
    /\ length (empty_cells (gboard g1)) <= length (empty_cells (gboard g))
    /\ (rest <> [] ->
        length (empty_cells (gboard g1)) < length (empty_cells (gboard g))).
Proof.
  induction rest as [|p rest IH]; intros g Hrest Hg Hfull.
  - exists g, false. split; [reflexivity|]. split; [exact Hg|].
    split; [lia | congruence].
  - cbn [round_turns].
    destruct (@play_turn_in_play fuel g p Hg (Hrest p (or_introl eq_refl)) Hfull)
      as (g1 & -> & Hg1 & Hlen & _).
    pose proof Hg1 as (_ & _ & _ & _ & He1 & _). rewrite He1.
    destruct (@Game_winner_in_play g1 Hg1) as (w & -> & _ & _).
    destruct w as [q|].
    + exists g1, true. split; [reflexivity|]. split; [exact Hg1|].
      split; [lia | intros _; lia].
    + destruct (full (gboard g1)) eqn:Ef.
      * exists g1, true. split; [reflexivity|]. split; [exact Hg1|].
        split; [lia | intros _; lia].
      * destruct (IH g1 (fun q Hq => Hrest q (or_intror Hq)) Hg1 Ef)
          as (g2 & early & -> & Hg2 & Hle & _).
        exists g2, early. split; [reflexivity|]. split; [exact Hg2|].
        split; [lia | intros _; lia].
Qed.

Lemma play_round_in_play fuel g :
  ps <> [] -> in_play ps g -> full (gboard g) = false ->
  exists g1,
    play_round console parse fuel g = (g1, Ok tt)
    /\ in_play ps g1
    /\ length (empty_cells (gboard g1)) < length (empty_cells (gboard g)).
Proof.
  intros Hne Hg Hfull. unfold play_round.
  pose proof Hg as (_ & _ & Hps & _). rewrite Hps.
  destruct (@round_turns_in_play fuel ps g (fun p H => H) Hg Hfull)
    as (g1 & early & -> & Hg1 & _ & Hlt).
  specialize (Hlt Hne). destruct early.
  - exists g1. auto.
  - eexists. split; [reflexivity|]. split; [|exact Hlt].
    destruct Hg1 as (H1 & H2 & H3 & H4 & H5 & H6). unfold in_play.
    cbn [gboard players token_lookup exit_flag]. auto 10.
Qed.

Lemma game_loop_in_play : forall fuel g,
  ps <> [] -> in_play ps g ->
  length (empty_cells (gboard g)) < fuel ->
  exists g',
    game_loop console parse fuel g = (g', Ok tt)
    /\ in_play ps g'
    /\ ((exists p, Game_winner g' = Ok (Some p) /\ In p ps)
        \/ (Game_winner g' = Ok None /\ full (gboard g') = true)).
Proof.
  induction fuel as [|fuel IH]; intros g Hne Hg Hf; [lia|].
  cbn [game_loop].
  destruct (@Game_winner_in_play g Hg) as (w & Hw & _ & Hin). rewrite Hw.
  destruct w as [p|].
  - exists g. split; [reflexivity|]. split; [exact Hg|]. left. eauto.
  - pose proof Hg as (_ & _ & _ & _ & He & _). rewrite He.
    destruct (full (gboard g)) eqn:Ef.
    + exists g. split; [reflexivity|]. split; [exact Hg|]. right. auto.
    + destruct (@play_round_in_play fuel g Hne Hg Ef) as (g1 & -> & Hg1 & Hlt).
      apply IH; [exact Hne | exact Hg1 | lia].
Qed.

End ComputerGame.

(** X26.  A game of computer players ends.  The board is a board of a
    game with at least one row on which only tokens of the players have
    been played; there is at least one player, the players have different
    tokens, none the empty marker, and their algorithms always return an
    empty cell.  Then [Game(board, players)] followed by [play_game]
    returns without raising after at most as many rounds as the board has
    empty cells, whatever the console says; at the end a player has won
    or nobody has and the board is full.  (On a board without rows
    [winner()] raises [IndexError], and a winning line of a token that no
    player has makes [token_lookup] raise [KeyError].) *)
Theorem computer_game_ends (render : Player -> string) (console : nat -> string)
    (parse : string -> command) (b : Board) (ps : list Player) (fuel : nat) :
  reachable player_token b -> (0 < num_rows b)%Z ->
  ps <> [] -> computer_players ps ->
  Forall (fun t => In t (map ptoken ps)) (played_tokens b) ->
  length (empty_cells b) < fuel ->
  exists g g',
    Game_init render b (Some ps) = Ok g
    /\ play_game render console parse fuel g = (g', Ok tt)
    /\ reachable player_token (gboard g')
    /\ exit_flag g' = false
    /\ Forall (fun t => In t (map ptoken ps)) (played_tokens (gboard g'))
    /\ ((exists p, Game_winner g' = Ok (Some p) /\ In p ps)
        \/ (Game_winner g' = Ok None /\ full (gboard g') = true)).
Proof.
  intros Hb Hs Hne Hps Htoks Hf.
  assert (Hempty : ~ In empty (map ptoken ps)).
  { intros H. apply in_map_iff in H. destruct H as [p [E Hp]].
    destruct Hps as [_ Hall]. rewrite Forall_forall in Hall.
    now destruct (Hall p Hp) as [Hne' _]. }
  destruct (@Game_init_players render b ps (proj1 Hps) Hempty)
    as (counter & Hinit & Hc).
  set (g := mkGame b ps (map (fun p => (ptoken p, p)) ps) counter 1 false 0) in *.
  assert (Hg : in_play ps g).
  { unfold in_play, g. cbn [gboard players token_lookup exit_flag]. auto 10. }
  destruct (@game_loop_in_play console parse ps Hps fuel g Hne Hg Hf)
    as (g' & Hloop & Hg' & Hend).
  exists g, g'. split; [exact Hinit|].
  pose proof Hg' as (Hb' & _ & _ & _ & He' & Ht').
  split; [|auto].
  unfold play_game.
  assert (Hw : welcome render g = Ok tt).
  { unfold welcome, g. cbn [players player_counter].
    assert (Hall : forall l, (forall p, In p l -> In p ps) ->
              exists vs, mapM (fun player => dict_get (player_eqb render) player counter) l
                         = Ok vs).
    { induction l as [|p l IH]; intros Hl; [now exists []|].
      cbn [mapM].
      destruct (@dict_mem_get _ _ (player_eqb render) p counter
                  (Hc p (Hl p (or_introl eq_refl)))) as [v ->].
      destruct IH as [vs ->]; [intros q Hq; apply Hl; now right|].
      cbn [bind]. eauto. }
    destruct (Hall ps (fun p H => H)) as [vs ->]. reflexivity. }
  rewrite Hw, Hloop. unfold exit_game.
  destruct Hend as [(p & -> & _) | [-> _]]; reflexivity.
Qed.

Lemma sequential_finds_empty_cell :
  finds_empty_cell (fun _ b => Ok (sequential b)).
Proof.
  intros rnd b _ Hf. unfold sequential, full in *.
  destruct (empty_cells b) as [|c l]; [discriminate|].
  exists c. split; [reflexivity | now left].
Qed.

Lemma alice_and_bob : computer_players [alice; bob].
Proof.
  split.
  - cbn. repeat constructor; cbn; intuition discriminate.
  - repeat constructor; try discriminate;
      eexists; (split; [reflexivity | exact sequential_finds_empty_cell]).
Qed.

Lemma computer_game_ends_witness :
  exists g g',
    Game_init show (fresh_board 2) (Some [alice; bob]) = Ok g
    /\ play_game show (fun _ => EmptyString) (fun _ => Skip) 5 g = (g', Ok tt)
    /\ reachable player_token (gboard g')
    /\ exit_flag g' = false
    /\ Forall (fun t => In t (map ptoken [alice; bob])) (played_tokens (gboard g'))
    /\ ((exists p, Game_winner g' = Ok (Some p) /\ In p [alice; bob])
        \/ (Game_winner g' = Ok None /\ full (gboard g') = true)).
Proof.
  apply (@computer_game_ends show (fun _ => EmptyString) (fun _ => Skip)
           (fresh_board 2) [alice; bob] 5).
  - apply (reach_init player_token 2). reflexivity.
  - reflexivity.
  - discriminate.
  - exact alice_and_bob.
  - constructor.
  - simpl. lia.
Defined.

(** ** A game without players *)

(** X27.  [play_game] on a game without players never returns when the
    board has an empty cell and no winner: every round plays no turn and
    the loop goes on; however many rounds are allowed, the loop is still
    running, with the board as it was. *)
Theorem game_without_players_never_ends (render : Player -> string)
    (console : nat -> string) (parse : string -> command) (b : Board)
    (fuel : nat) :
  winner b = Ok None -> full b = false ->
  Game_init render b None = Ok (mkGame b [] [] [] 1 false 0)
  /\ Game_init render b (Some []) = Ok (mkGame b [] [] [] 1 false 0)
  /\ play_game render console parse fuel (mkGame b [] [] [] 1 false 0)
     = (mkGame b [] [] [] (1 + Z.of_nat fuel) false 0, OutOfFuel).
Proof.
  intros Hw Hf. split; [reflexivity|]. split; [reflexivity|].
  unfold play_game. cbn [welcome players mapM bind].
  assert (Hloop : forall fuel r,
            game_loop console parse fuel (mkGame b [] [] [] r false 0)
            = (mkGame b [] [] [] (r + Z.of_nat fuel) false 0, OutOfFuel)).
  { induction fuel0 as [|fuel0 IH]; intros r.
    - cbn [game_loop]. now rewrite Z.add_0_r.
    - cbn [game_loop]. unfold Game_winner. cbn [gboard exit_flag].
      rewrite Hw, Hf. cbn [bind].
      unfold play_round. cbn [players round_turns gboard token_lookup
                                player_counter round_num exit_flag ticks].
      rewrite IH. f_equal. f_equal. lia. }
  now rewrite Hloop.
Qed.

Lemma game_without_players_never_ends_witness :
  Game_init show (fresh_board 3) None
  = Ok (mkGame (fresh_board 3) [] [] [] 1 false 0)
  /\ Game_init show (fresh_board 3) (Some [])
     = Ok (mkGame (fresh_board 3) [] [] [] 1 false 0)
  /\ play_game show (fun _ => EmptyString) (fun _ => Skip) 100
       (mkGame (fresh_board 3) [] [] [] 1 false 0)
     = (mkGame (fresh_board 3) [] [] [] (1 + Z.of_nat 100) false 0, OutOfFuel).
Proof.
  apply (@game_without_players_never_ends show (fun _ => EmptyString)
           (fun _ => Skip) (fresh_board 3) 100); reflexivity.
Defined.

(** ** The turn of a human player *)

Lemma set_gboard_same (g : Game) : set_gboard g (gboard g) = g.
Proof. now destruct g. Qed.

(** X28.  What the line typed by a human player does, after the line that
    [input('Play turn...')] reads.  ['exit'] sets [exit_flag] and
    ['skip'] passes, both without touching the board; a line that is no
    command raises its [ValueError].  A move (typed with coordinates from
    1) on a cell already played, or outside the board, is refused and the
    player is asked again.  A move with a coordinate 0 (or a negative one
    down to [-n + 1]) is not refused: the token is written into the cell
    that the subscript counts from the end, the move is recorded, and the
    turn ends with [ValueError] from [empty_cells.remove]. *)
Theorem what_a_typed_line_does (console : nat -> string)
    (parse : string -> command) (n : nat) (g : Game) (p : Player) (fuel : nat) :
  algorithm p = None -> partitioned n (gboard g) ->
  let line := console (S (ticks g)) in
  let g2 := tick (tick g) in
  (parse line = Exit ->
   play_turn console parse (S fuel) g p
   = (mkGame (gboard g) (players g) (token_lookup g) (player_counter g)
             (round_num g) true (S (S (ticks g))),
      Ok tt))
  /\ (parse line = Skip -> play_turn console parse (S fuel) g p = (g2, Ok tt))
  /\ (forall msg, parse line = Malformed msg ->
        play_turn console parse (S fuel) g p = (g2, Raise (ValueError msg)))
  /\ (forall row col, parse line = Move row col ->
        In (row - 1, col - 1)%Z (played_positions (gboard g))
        \/ ~ ((- Z.of_nat n < row <= Z.of_nat n)%Z
              /\ (- Z.of_nat n < col <= Z.of_nat n)%Z) ->
        play_turn console parse (S fuel) g p = human_turn console parse fuel g2 p)
  /\ (forall row col, parse line = Move row col ->
        (- Z.of_nat n < row <= Z.of_nat n)%Z ->
        (- Z.of_nat n < col <= Z.of_nat n)%Z ->
        (row <= 0 \/ col <= 0)%Z ->
        play_turn console parse (S fuel) g p
        = (set_gboard g2
             (mkBoard (num_rows (gboard g)) (num_cols (gboard g))
                (num_cells (gboard g))
                (set_cell (board (gboard g))
                   (Z.to_nat ((row - 1) mod Z.of_nat n))
                   (Z.to_nat ((col - 1) mod Z.of_nat n)) (ptoken p))
                (played_positions (gboard g) ++ [(row - 1, col - 1)%Z])
                (played_tokens (gboard g) ++ [ptoken p])
                (empty_cells (gboard g))),
           Raise (ValueError "list.remove(x): x not in list"))).
Proof.
  intros Halg Hp line g2. subst line g2.
  unfold play_turn. cbv zeta. rewrite Halg.
  cbn [human_turn]. cbv zeta. cbn [tick ticks gboard players token_lookup
                                     player_counter round_num exit_flag].
  split; [intros ->; reflexivity|].
  split; [intros ->; reflexivity|].
  split; [intros msg ->; reflexivity|].
  split.
  - intros row col -> H.
    assert (Hplay : exists msg, play (gboard g) (row - 1) (col - 1) (ptoken p)
                                = (gboard g, Raise (IndexError msg))).
    { destruct H as [H | H].
      - unfold play. apply contains_pos_In in H. rewrite H. eauto.
      - apply (@play_outside n); [exact (part_wf Hp)|]. lia. }
    destruct Hplay as [msg ->]. reflexivity.
  - intros row col -> Hr Hc Hz.
    rewrite (@play_negative n (gboard g) (row - 1) (col - 1) (ptoken p) Hp)
      by lia.
    reflexivity.
Qed.

Lemma carol_game_partitioned : partitioned 3 (gboard carol_game).
Proof. exact demo_board_partitioned. Qed.

Lemma what_a_typed_line_does_witness :
  play_turn (fun _ => EmptyString) reads_row_zero 1 carol_game carol
  = (set_gboard (tick (tick carol_game))
       (mkBoard 3 3 9
          [["X"; " "; " "]; [" "; " "; " "]; [" "; "Y"; " "]]%string
          [(0, 0); (-1, 1)]%Z ["X"; "Y"]%string (empty_cells demo_board)),
     Raise (ValueError "list.remove(x): x not in list")).
Proof.
  pose proof (@what_a_typed_line_does (fun _ => EmptyString) reads_row_zero 3
                carol_game carol 0 eq_refl carol_game_partitioned) as H.
  cbv zeta in H. destruct H as (_ & _ & _ & _ & H).
  rewrite (H 0%Z 2%Z eq_refl); [reflexivity | lia | lia | lia].
Defined.

(** * [misc.py] *)

Lemma range_from_snoc (a b : Z) :
  (a <= b)%Z -> range_from a (b + 1) = range_from a b ++ [b].
Proof.
  intros H. unfold range_from.
  replace (Z.to_nat (b + 1 - a)) with (S (Z.to_nat (b - a))) by lia.
  rewrite seq_S, map_app. cbn [map Nat.add]. do 2 f_equal. lia.
Qed.

Lemma range_from_empty (a : Z) : range_from a a = [].
Proof. unfold range_from. now rewrite Z.sub_diag. Qed.

Lemma reduce_mul_snoc (l : list Z) (y p : Z) :
  reduce_mul l = Ok p -> reduce_mul (l ++ [y]) = Ok (p * y)%Z.
Proof.
  destruct l as [|x l]; [discriminate|]. cbn [reduce_mul app].
  intros H. inversion H. now rewrite fold_left_app.
Qed.

(** One more factor in every product. *)
Lemma f_loop_next (x : Z) : forall indices total t,
  (forall i, In i indices -> (i <= x)%Z) ->
  f_loop x indices total = Ok t ->
  f_loop (x + 1) indices (total * (x + 1)) = Ok (t * (x + 1))%Z.
Proof.
  induction indices as [|i rest IH]; intros total t Hi H.
  - inversion H. reflexivity.
  - cbn [f_loop] in *. apply bind_Ok in H. destruct H as (p & Hp & H).
    rewrite (@range_from_snoc i (x + 1)) by (specialize (Hi i (or_introl eq_refl)); lia).
    rewrite (@reduce_mul_snoc _ (x + 1)%Z p Hp). cbn [bind].
    replace (total * (x + 1) + p * (x + 1))%Z with ((total + p) * (x + 1))%Z by lia.
    apply IH; [|exact H]. intros j Hj. apply Hi. now right.
Qed.

Lemma f_loop_app (x : Z) (l1 l2 : list Z) : forall total t,
  f_loop x l1 total = Ok t -> f_loop x (l1 ++ l2) total = f_loop x l2 t.
Proof.
  induction l1 as [|i l1 IH]; intros total t H.
  - inversion H. reflexivity.
  - cbn [f_loop app] in *. apply bind_Ok in H. destruct H as (p & -> & H).
    cbn [bind]. now apply IH.
Qed.

Lemma In_range_from (a b i : Z) : In i (range_from a b) -> (a <= i < b)%Z.
Proof.
  unfold range_from. intros H. apply in_map_iff in H.
  destruct H as (k & <- & Hk). apply in_seq in Hk. lia.
Qed.

(** X29.  [f(x)] never raises.  It is 0 for [x <= 0], and for [n >= 0]
    the number of non-empty sequences of different cells of a board with
    [n] cells: [f(n + 1) = (n + 1) * (1 + f(n))].  For the 9 cells of the
    3 by 3 board that is 986409. *)
Theorem f_counts_move_sequences (x : Z) :
  f x = Ok (move_sequences (Z.to_nat x))
  /\ f 9 = Ok 986409%Z.
Proof.
  split; [|reflexivity].
  destruct (Z_le_gt_dec x 0) as [Hx | Hx].
  - replace (Z.to_nat x) with 0 by lia. unfold f, range_from.
    replace (Z.to_nat (x + 1 - 1)) with 0 by lia. reflexivity.
  - rewrite <- (Z2Nat.id x) at 1 by lia.
    generalize (Z.to_nat x). clear x Hx. intros n.
    induction n as [|n IH]; [reflexivity|].
    unfold f in *. rewrite Nat2Z.inj_succ. unfold Z.succ.
    rewrite (@range_from_snoc 1 (Z.of_nat n + 1)) by lia.
    pose proof (@f_loop_next (Z.of_nat n) (range_from 1 (Z.of_nat n + 1)) 0
                  (move_sequences n)) as Hnext.
    rewrite Z.mul_0_l in Hnext.
    rewrite (@f_loop_app (Z.of_nat n + 1) _ [Z.of_nat n + 1]%Z 0%Z
               (move_sequences n * (Z.of_nat n + 1))%Z).
    + cbn [f_loop]. rewrite (@range_from_snoc (Z.of_nat n + 1) (Z.of_nat n + 1)) by lia.
      rewrite range_from_empty. cbn [app reduce_mul fold_left bind].
      f_equal. cbn [move_sequences]. rewrite Nat2Z.inj_succ. lia.
    + apply Hnext; [|exact IH]. intros i Hi. apply In_range_from in Hi. lia.
Qed.

(** * Copies on the heap *)

Lemma load_tokens_eq (l : Heap.loc) (h : Heap.heap) :
  Heap.load_tokens l h
  = (h, match nth_error h l with
        | Some (Heap.Tokens cells) => Ok cells
        | Some _ => Raise (TypeError "not a list of tokens")
        | None => Raise (TypeError "no such object")
        end).
Proof.
  unfold Heap.load_tokens, Heap.mbind, Heap.load.
  destruct (nth_error h l) as [[| |]|]; reflexivity.
Qed.

Lemma load_refs_eq (l : Heap.loc) (h : Heap.heap) :
  Heap.load_refs l h
  = (h, match nth_error h l with
        | Some (Heap.Refs rows) => Ok rows
        | Some _ => Raise (TypeError "not a list of lists")
        | None => Raise (TypeError "no such object")
        end).
Proof.
  unfold Heap.load_refs, Heap.mbind, Heap.load.
  destruct (nth_error h l) as [[| |]|]; reflexivity.
Qed.

Lemma load_coords_eq (l : Heap.loc) (h : Heap.heap) :
  Heap.load_coords l h
  = (h, match nth_error h l with
        | Some (Heap.Coords ps) => Ok ps
        | Some _ => Raise (TypeError "not a list of coordinates")
        | None => Raise (TypeError "no such object")
        end).
Proof.
  unfold Heap.load_coords, Heap.mbind, Heap.load.
  destruct (nth_error h l) as [[| |]|]; reflexivity.
Qed.

Lemma mmap_load_tokens_heap (h : Heap.heap) (rows : list Heap.loc) :
  fst (Heap.mmap Heap.load_tokens rows h) = h.
Proof.
  induction rows as [|l rows IH]; simpl; [reflexivity|].
  unfold Heap.mbind at 1. rewrite load_tokens_eq.
  destruct (nth_error h l) as [[cells| |]|]; try reflexivity.
  unfold Heap.mbind.
  destruct (Heap.mmap Heap.load_tokens rows h) as [h0 [ys|e|]]; exact IH.
Qed.

Lemma mmap_load_tokens_ok (h : Heap.heap) (rows : list Heap.loc) (g : grid) :
  Heap.mmap Heap.load_tokens rows h = (h, Ok g)
  <-> Forall2 (fun l cells => nth_error h l = Some (Heap.Tokens cells)) rows g.
Proof.
  revert g. induction rows as [|l rows IH]; intros g; simpl.
  - unfold Heap.ret. split.
    + intros H. inversion H. constructor.
    + intros H. inversion H. reflexivity.
  - unfold Heap.mbind at 1. rewrite load_tokens_eq.
    pose proof (mmap_load_tokens_heap h rows) as Hh.
    unfold Heap.mbind.
    destruct (Heap.mmap Heap.load_tokens rows h) as [h0 o].
    simpl in Hh. subst h0.
    destruct (nth_error h l) as [[cells| |]|] eqn:E.
    + destruct o as [ys|e|].
      * unfold Heap.ret. split.
        -- intros H. inversion H; subst. constructor; [exact E|].
           now apply IH.
        -- intros H. inversion H as [|? ? ? ? Hl Hr]; subst.
           apply IH in Hr. inversion Hr; subst.
           rewrite E in Hl. inversion Hl; subst. reflexivity.
      * split; [discriminate|]. intros H.
        inversion H as [|? ? ? ? Hl Hr]; subst. apply IH in Hr. congruence.
      * split; [discriminate|]. intros H.
        inversion H as [|? ? ? ? Hl Hr]; subst. apply IH in Hr. congruence.
    + split; [discriminate|]. intros H. inversion H; congruence.
    + split; [discriminate|]. intros H. inversion H; congruence.
    + split; [discriminate|]. intros H. inversion H; congruence.
Qed.

Lemma row_values_ok (h : Heap.heap) (b : Heap.Board) (g : grid) :
  Heap.row_values b h = (h, Ok g)
  <-> exists rows,
        nth_error h (Heap.board b) = Some (Heap.Refs rows)
        /\ Forall2 (fun l cells => nth_error h l = Some (Heap.Tokens cells))
                   rows g.
Proof.
  unfold Heap.row_values, Heap.mbind. rewrite load_refs_eq.
  destruct (nth_error h (Heap.board b)) as [[| rows |]|].
  - split; [discriminate | intros (r & H & _); discriminate].
  - rewrite mmap_load_tokens_ok. split.
    + intros H. now exists rows.
    + intros (r & Hr & H). now inversion Hr; subst.
  - split; [discriminate | intros (r & H & _); discriminate].
  - split; [discriminate | intros (r & H & _); discriminate].
Qed.

Lemma row_values_heap (h : Heap.heap) (b : Heap.Board) :
  fst (Heap.row_values b h) = h.
Proof.
  unfold Heap.row_values, Heap.mbind. rewrite load_refs_eq.
  destruct (nth_error h (Heap.board b)) as [[| rows |]|]; try reflexivity.
  apply mmap_load_tokens_heap.
Qed.

Lemma view_holds (h : Heap.heap) (b : Heap.Board) (s : Board) :
  Heap.view h b = Ok s <-> holds h b s.
Proof.
  unfold Heap.view, holds, Heap.mbind.
  destruct (Heap.row_values b h) as [h0 [g|e|]] eqn:Eg.
  - assert (h0 = h) by (now rewrite <- (row_values_heap h b), Eg). subst h0.
    apply row_values_ok in Eg. destruct Eg as (rows & Hb & Hrows).
    rewrite load_coords_eq, load_tokens_eq.
    split.
    + destruct (nth_error h (Heap.played_positions b)) as [[| |pp]|];
        try discriminate.
      destruct (nth_error h (Heap.played_tokens b)) as [[pt| |]|];
        try discriminate.
      rewrite load_coords_eq.
      destruct (nth_error h (Heap.empty_cells b)) as [[| |ec]|];
        try discriminate.
      unfold Heap.ret, Heap.snapshot. simpl. intros H. inversion H; subst.
      simpl. exists rows. repeat split; assumption.
    + intros (rows' & Hb' & Hrows' & Hpp & Hpt & Hec & H1 & H2 & H3).
      rewrite Hpp, Hpt, load_coords_eq, Hec. unfold Heap.ret, Heap.snapshot.
      simpl. rewrite Hb in Hb'. inversion Hb'; subst rows'.
      assert (g = board s).
      { clear -Hrows Hrows'. revert Hrows'. generalize (board s).
        induction Hrows; intros g' H'; inversion H'; subst; [reflexivity|].
        f_equal; [congruence | now apply IHHrows]. }
      subst g. destruct s; simpl in *. now subst.
  - split; [discriminate|]. intros (rows & Hb & Hrows & _).
    assert (Heap.row_values b h = (h, Ok (board s))).
    { apply row_values_ok. now exists rows. }
    congruence.
  - split; [discriminate|]. intros (rows & Hb & Hrows & _).
    assert (Heap.row_values b h = (h, Ok (board s))).
    { apply row_values_ok. now exists rows. }
    congruence.
Qed.

Lemma same_kind_refl (o : Heap.obj) : same_kind o o.
Proof. destruct o; simpl; trivial. Qed.

Lemma same_kind_trans (a b c : Heap.obj) :
  same_kind a b -> same_kind b c -> same_kind a c.
Proof. destruct a, b, c; simpl; try tauto; congruence. Qed.

Lemma frame_refl (L : list Heap.loc) (h : Heap.heap) : frame L h h.
Proof.
  repeat split.
  intros l o H. exists o. split; [exact H | apply same_kind_refl].
Qed.

Lemma frame_trans (L : list Heap.loc) (h1 h2 h3 : Heap.heap) :
  frame L h1 h2 -> frame L h2 h3 -> frame L h1 h3.
Proof.
  intros (Hl1 & Hs1 & Hk1) (Hl2 & Hs2 & Hk2). repeat split.
  - congruence.
  - intros l Hn. unfold same_at in *. rewrite (Hs2 l Hn). apply (Hs1 l Hn).
  - intros l o H. destruct (Hk1 l o H) as (o1 & H1 & K1).
    destruct (Hk2 l o1 H1) as (o2 & H2 & K2).
    exists o2. split; [exact H2 | apply (@same_kind_trans o o1 o2 K1 K2)].
Qed.

Lemma nth_error_replace_nth {A} (k i : nat) (x : A) (l : list A) :
  nth_error (replace_nth k x l) i
  = if Nat.eqb i k then (if Nat.ltb k (length l) then Some x else None)
    else nth_error l i.
Proof.
  revert k i. induction l as [|y l IH]; intros k i.
  - destruct k; simpl; destruct (Nat.eqb i _); destruct i; reflexivity.
  - destruct k as [|k]; destruct i as [|i]; simpl; try reflexivity.
    rewrite IH. destruct (Nat.eqb i k); [|reflexivity].
    change (S k <? S (length l)) with (k <? length l). reflexivity.
Qed.

(** A store of an object of the kind that is there. *)
Lemma frame_store (L : list Heap.loc) (h hk : Heap.heap) (k : Heap.loc)
    (ok o : Heap.obj) :
  frame L h hk -> In k L -> nth_error hk k = Some ok -> same_kind ok o ->
  frame L h (replace_nth k o hk).
Proof.
  intros Hf Hin Hk Hsk. apply (@frame_trans L h hk _ Hf).
  assert (Hlt : k < length hk) by (apply nth_error_Some; congruence).
  repeat split.
  - apply length_replace_nth.
  - intros l Hn. unfold same_at. rewrite nth_error_replace_nth.
    destruct (Nat.eqb_spec l k); [subst; contradiction | reflexivity].
  - intros l o0 H. rewrite nth_error_replace_nth.
    destruct (Nat.eqb_spec l k) as [-> | Hne].
    + apply Nat.ltb_lt in Hlt. rewrite Hlt. exists o. split; [reflexivity|].
      congruence.
    + exists o0. split; [exact H | apply same_kind_refl].
Qed.

Lemma getitem_In {A} (l : list A) (i : Z) (x : A) :
  getitem l i = Ok x -> In x l.
Proof.
  unfold getitem. destruct (norm_index (length l) i) as [k|]; [|discriminate].
  destruct (nth_error l k) eqn:E; [|discriminate].
  intros H. inversion H; subst. now apply nth_error_In in E.
Qed.

Lemma frame_lists_of (L : list Heap.loc) (h h' : Heap.heap) (b : Heap.Board) :
  frame L h h' -> lists_of h' b = lists_of h b.
Proof.
  intros (Hl & _ & Hk). unfold lists_of, grid_rows. do 4 f_equal.
  destruct (nth_error h (Heap.board b)) as [o|] eqn:E.
  - destruct (Hk _ _ E) as (o' & -> & K).
    destruct o, o'; simpl in K; try contradiction; congruence.
  - apply nth_error_None in E. rewrite <- Hl in E. apply nth_error_None in E.
    now rewrite E.
Qed.

Lemma play_frame (b : Heap.Board) (row col : Z) (tok : token)
    (h h' : Heap.heap) (r : outcome unit) :
  Heap.play b row col tok h = (h', r) -> frame (lists_of h b) h h'.
Proof.
  unfold Heap.play, Heap.mbind. rewrite load_coords_eq.
  set (L := lists_of h b).
  assert (Hdone : forall hk (res : outcome unit),
             frame L h hk -> (hk, res) = (h', r) -> frame L h h').
  { intros hk res Hf H. inversion H; subst. exact Hf. }
  pose proof (frame_refl L h) as F0.
  destruct (nth_error h (Heap.played_positions b)) as [[| |pp]|] eqn:Epp;
    try (apply (Hdone _ _ F0)).
  destruct (contains pos_eqb (row, col) pp); [apply (Hdone _ _ F0)|].
  rewrite load_refs_eq.
  destruct (nth_error h (Heap.board b)) as [[|rows|]|] eqn:Eb;
    try (apply (Hdone _ _ F0)).
  unfold Heap.lift at 1.
  destruct (getitem rows row) as [r0|e|] eqn:Eg; try (apply (Hdone _ _ F0)).
  rewrite load_tokens_eq.
  destruct (nth_error h r0) as [[cells| |]|] eqn:Er; try (apply (Hdone _ _ F0)).
  unfold Heap.lift at 1.
  destruct (setitem cells col tok) as [cells'|e|]; try (apply (Hdone _ _ F0)).
  unfold Heap.store at 1.
  assert (F1 : frame L h (replace_nth r0 (Heap.Tokens cells') h)).
  { apply (@frame_store L h h r0 (Heap.Tokens cells) _ F0); trivial;
      try exact I.
    unfold L, lists_of, grid_rows. rewrite Eb. do 4 right.
    apply (@getitem_In _ rows row r0 Eg). }
  set (h1 := replace_nth r0 (Heap.Tokens cells') h) in *.
  unfold Heap.store at 1.
  assert (F2 : frame L h (replace_nth (Heap.played_positions b)
                            (Heap.Coords (pp ++ [(row, col)])) h1)).
  { destruct F1 as (F1l & F1s & F1k).
    destruct (F1k _ _ Epp) as (o' & Ho' & K).
    apply (@frame_store L h h1 _ o' _ (conj F1l (conj F1s F1k))); trivial;
      try (unfold L, lists_of; simpl; tauto);
      destruct o'; simpl in *; tauto. }
  set (h2 := replace_nth (Heap.played_positions b) _ h1) in *.
  rewrite load_tokens_eq.
  destruct (nth_error h2 (Heap.played_tokens b)) as [[pt| |]|] eqn:Ept;
    try (apply (Hdone _ _ F2)).
  unfold Heap.store at 1.
  assert (F3 : frame L h (replace_nth (Heap.played_tokens b)
                            (Heap.Tokens (pt ++ [tok])) h2)).
  { apply (@frame_store L h h2 _ (Heap.Tokens pt) _ F2); trivial;
      try exact I; unfold L, lists_of; simpl; tauto. }
  set (h3 := replace_nth (Heap.played_tokens b) _ h2) in *.
  rewrite load_coords_eq.
  destruct (nth_error h3 (Heap.empty_cells b)) as [[| |ec]|] eqn:Eec;
    try (apply (Hdone _ _ F3)).
  unfold Heap.lift at 1.
  destruct (list_remove pos_eqb (row, col) ec) as [ec'|e|];
    try (apply (Hdone _ _ F3)).
  unfold Heap.store.
  apply Hdone.
  apply (@frame_store L h h3 _ (Heap.Coords ec) _ F3); trivial;
    try exact I; unfold L, lists_of; simpl; tauto.
Qed.

Lemma played_on_frame (b : Heap.Board) (h h' : Heap.heap) :
  played_on b h h' -> frame (lists_of h b) h h'.
Proof.
  induction 1 as [|h1 h2 row col tok r Hp IH Hplay].
  - apply frame_refl.
  - apply (@frame_trans _ h h1 h2 IH). apply play_frame in Hplay.
    now rewrite (@frame_lists_of _ h h1 b IH) in Hplay.
Qed.

Lemma holds_lists (h : Heap.heap) (b : Heap.Board) (s : Board) :
  holds h b s -> forall l, In l (lists_of h b) -> l < length h.
Proof.
  intros (rows & Hb & Hrows & Hpp & Hpt & Hec & _) l.
  unfold lists_of, grid_rows. rewrite Hb. simpl.
  intros [<- | [<- | [<- | [<- | Hin]]]];
    try (apply nth_error_Some; congruence).
  clear Hb. induction Hrows as [|r cells rows g Hr _ IH]; [contradiction|].
  destruct Hin as [<- | Hin]; [apply nth_error_Some; congruence | now apply IH].
Qed.

(** What a board holds depends on its own lists only. *)
Lemma holds_same (h h' : Heap.heap) (b : Heap.Board) (s : Board) :
  holds h b s -> (forall l, In l (lists_of h b) -> same_at h h' l) ->
  holds h' b s.
Proof.
  intros (rows & Hb & Hrows & Hpp & Hpt & Hec & Hn) Hs.
  unfold lists_of, grid_rows, same_at in Hs. rewrite Hb in Hs.
  exists rows. repeat split; try apply Hn.
  - rewrite Hs; [exact Hb | simpl; tauto].
  - assert (Hr : forall l, In l rows -> nth_error h' l = nth_error h l)
      by (intros l Hl; apply Hs; simpl; tauto).
    clear -Hrows Hr. induction Hrows as [|r cells rows g H _ IH]; constructor.
    + rewrite Hr; [exact H | now left].
    + apply IH. intros l Hl. apply Hr. now right.
  - rewrite Hs; [exact Hpp | simpl; tauto].
  - rewrite Hs; [exact Hpt | simpl; tauto].
  - rewrite Hs; [exact Hec | simpl; tauto].
Qed.

Lemma holds_frame (L : list Heap.loc) (h h' : Heap.heap) (b : Heap.Board)
    (s : Board) :
  holds h b s -> frame L h h' ->
  (forall l, In l (lists_of h b) -> ~ In l L) ->
  holds h' b s.
Proof.
  intros Hh (_ & Hs & _) Hd. apply (@holds_same h h' b s Hh).
  intros l Hl. apply Hs. now apply Hd.
Qed.

Lemma holds_app (h J : Heap.heap) (b : Heap.Board) (s : Board) :
  holds h b s -> holds (h ++ J) b s.
Proof.
  intros Hh. apply (@holds_same h (h ++ J) b s Hh).
  intros l Hl. unfold same_at. apply nth_error_app1.
  apply (@holds_lists h b s Hh l Hl).
Qed.

Lemma mmap_alloc (g : grid) (h : Heap.heap) :
  Heap.mmap (fun cells => Heap.alloc (Heap.Tokens cells)) g h
  = (h ++ map Heap.Tokens g, Ok (seq (length h) (length g))).
Proof.
  revert h. induction g as [|cells g IH]; intros h; simpl.
  - unfold Heap.ret. now rewrite app_nil_r.
  - unfold Heap.mbind, Heap.alloc at 1. rewrite IH. unfold Heap.ret.
    rewrite <- app_assoc, length_app. simpl.
    now rewrite Nat.add_1_r.
Qed.

Lemma alloc_grid_eq (g : grid) (h : Heap.heap) :
  Heap.alloc_grid g h
  = ((h ++ map Heap.Tokens g) ++ [Heap.Refs (seq (length h) (length g))],
     Ok (length h + length g)).
Proof.
  unfold Heap.alloc_grid, Heap.mbind. rewrite mmap_alloc. unfold Heap.alloc.
  now rewrite length_app, length_map.
Qed.

Lemma nth_error_last {A} (l : list A) (x : A) :
  nth_error (l ++ [x]) (length l) = Some x.
Proof. rewrite nth_error_app2 by lia. now rewrite Nat.sub_diag. Qed.

Lemma nth_error_grows {A} (l m : list A) (k : nat) (x : A) :
  nth_error l k = Some x -> nth_error (l ++ m) k = Some x.
Proof.
  intros H. rewrite nth_error_app1; [exact H|].
  apply nth_error_Some. congruence.
Qed.

Lemma new_rows (g : grid) (h : Heap.heap) :
  Forall2 (fun l cells => nth_error (h ++ map Heap.Tokens g) l
                          = Some (Heap.Tokens cells))
          (seq (length h) (length g)) g.
Proof.
  revert h. induction g as [|cells g IH]; intros h; simpl; constructor.
  - rewrite nth_error_app2 by lia. now rewrite Nat.sub_diag.
  - specialize (IH (h ++ [Heap.Tokens cells])).
    rewrite <- app_assoc, length_app in IH. simpl in IH.
    now rewrite Nat.add_1_r in IH.
Qed.

Lemma Forall2_grows (h m : Heap.heap) (rows : list Heap.loc) (g : grid) :
  Forall2 (fun l cells => nth_error h l = Some (Heap.Tokens cells)) rows g ->
  Forall2 (fun l cells => nth_error (h ++ m) l = Some (Heap.Tokens cells))
          rows g.
Proof.
  induction 1; constructor; [now apply nth_error_grows | assumption].
Qed.

Lemma Board_init_allocates (n : Z) (h : Heap.heap) :
  exists J nb,
    Heap.Board_init n n h = (h ++ J, Ok nb)
    /\ Heap.num_rows nb = n /\ Heap.num_cols nb = n
    /\ Heap.num_cells nb = (n * n)%Z.
Proof.
  unfold Heap.Board_init. rewrite Z.eqb_refl.
  change (negb true) with false. cbv iota.
  unfold Heap.mbind. rewrite alloc_grid_eq. unfold Heap.alloc, Heap.ret.
  eexists. eexists. split.
  - rewrite <- !app_assoc. reflexivity.
  - simpl. tauto.
Qed.

Lemma copy_square (h : Heap.heap) (b : Heap.Board) (s : Board) :
  holds h b s -> Heap.num_rows b = Heap.num_cols b ->
  exists J c,
    Heap.copy b h = (h ++ J, Ok c)
    /\ holds (h ++ J) c
         (mkBoard (Heap.num_rows b) (Heap.num_rows b)
            (Heap.num_rows b * Heap.num_rows b)
            (board s) (played_positions s) (played_tokens s) (empty_cells s))
    /\ forall l, In l (lists_of (h ++ J) c) -> length h <= l.
Proof.
  intros Hh Hsq. unfold Heap.copy. rewrite <- Hsq.
  destruct (Board_init_allocates (Heap.num_rows b) h)
    as (J0 & nb & E0 & N1 & N2 & N3).
  unfold Heap.mbind at 1. rewrite E0.
  set (h0 := h ++ J0).
  assert (H0 : holds h0 b s) by now apply holds_app.
  assert (Erows : Heap.row_values b h0 = (h0, Ok (board s))).
  { apply row_values_ok. destruct H0 as (rows & Hb & Hrows & _).
    now exists rows. }
  unfold Heap.mbind at 1. rewrite Erows.
  unfold Heap.mbind at 1. rewrite alloc_grid_eq.
  set (h1 := h0 ++ map Heap.Tokens (board s)).
  set (refs := seq (length h0) (length (board s))).
  set (h2 := h1 ++ [Heap.Refs refs]).
  assert (H2 : holds h2 b s) by (unfold h2, h1; now do 2 apply holds_app).
  unfold Heap.mbind at 1. rewrite load_coords_eq.
  destruct H2 as (rows2 & _ & _ & Hpp2 & _). rewrite Hpp2.
  unfold Heap.mbind at 1. unfold Heap.alloc at 1.
  set (h3 := h2 ++ [Heap.Coords (played_positions s)]).
  assert (H3 : holds h3 b s)
    by (unfold h3, h2, h1; now do 3 apply holds_app).
  unfold Heap.mbind at 1. rewrite load_tokens_eq.
  destruct H3 as (rows3 & _ & _ & _ & Hpt3 & _). rewrite Hpt3.
  unfold Heap.mbind at 1. unfold Heap.alloc at 1.
  set (h4 := h3 ++ [Heap.Tokens (played_tokens s)]).
  assert (H4 : holds h4 b s)
    by (unfold h4, h3, h2, h1; now do 4 apply holds_app).
  unfold Heap.mbind at 1. rewrite load_coords_eq.
  destruct H4 as (rows4 & _ & _ & _ & _ & Hec4 & _). rewrite Hec4.
  unfold Heap.mbind at 1. unfold Heap.alloc at 1. unfold Heap.ret.
  set (h5 := h4 ++ [Heap.Coords (empty_cells s)]).
  rewrite N1, N2, N3.
  assert (E5 : h5 = h ++ (J0 ++ map Heap.Tokens (board s) ++ [Heap.Refs refs]
                    ++ [Heap.Coords (played_positions s)]
                    ++ [Heap.Tokens (played_tokens s)]
                    ++ [Heap.Coords (empty_cells s)])).
  { unfold h5, h4, h3, h2, h1, h0. now rewrite <- !app_assoc. }
  assert (L0 : length h <= length h0) by (unfold h0; rewrite length_app; lia).
  assert (L1 : length h1 = length h0 + length (board s))
    by (unfold h1; now rewrite length_app, length_map).
  assert (L2 : length h2 = S (length h1))
    by (unfold h2; rewrite length_app; simpl; lia).
  assert (L3 : length h3 = S (length h2))
    by (unfold h3; rewrite length_app; simpl; lia).
  assert (L4 : length h4 = S (length h3))
    by (unfold h4; rewrite length_app; simpl; lia).
  assert (Hrefs : nth_error h5 (length h0 + length (board s))
                  = Some (Heap.Refs refs)).
  { unfold h5, h4, h3. do 3 apply nth_error_grows.
    rewrite <- L1. apply nth_error_last. }
  exists (J0 ++ map Heap.Tokens (board s) ++ [Heap.Refs refs]
             ++ [Heap.Coords (played_positions s)]
             ++ [Heap.Tokens (played_tokens s)]
             ++ [Heap.Coords (empty_cells s)]).
  eexists. rewrite <- E5. split; [reflexivity|]. split.
  - exists refs. cbn [Heap.board Heap.played_positions Heap.played_tokens
                        Heap.empty_cells Heap.num_rows Heap.num_cols
                        Heap.num_cells board played_positions played_tokens
                        empty_cells num_rows num_cols num_cells].
    repeat split.
    + exact Hrefs.
    + unfold h5, h4, h3, h2. do 4 apply Forall2_grows. apply new_rows.
    + unfold h5, h4. do 2 apply nth_error_grows. apply nth_error_last.
    + unfold h5. apply nth_error_grows. apply nth_error_last.
    + apply nth_error_last.
  - unfold lists_of, grid_rows.
    cbn [Heap.board Heap.played_positions Heap.played_tokens Heap.empty_cells].
    rewrite Hrefs. intros l [<- | [<- | [<- | [<- | Hin]]]]; try lia.
    apply in_seq in Hin. lia.
Qed.


Lemma lists_of_app (h J : Heap.heap) (b : Heap.Board) (s : Board) :
  holds h b s -> lists_of (h ++ J) b = lists_of h b.
Proof.
  intros (rows & Hb & _). unfold lists_of, grid_rows.
  now rewrite (@nth_error_grows _ h J _ _ Hb), Hb.
Qed.

(** X30.  A copy of a square board shares no list with the board.  [copy]
    returns a board with the same grid, histories and empty cells, and
    whatever is played afterwards on the copy (moves that succeed and
    moves that raise) leaves every attribute of the original as it was,
    and the other way round. *)
Theorem copy_is_independent (h : Heap.heap) (b : Heap.Board) (s : Board) :
  Heap.view h b = Ok s -> Heap.num_rows b = Heap.num_cols b ->
  exists h1 c,
    let s' := mkBoard (Heap.num_rows b) (Heap.num_rows b)
                (Heap.num_rows b * Heap.num_rows b)
                (board s) (played_positions s) (played_tokens s)
                (empty_cells s) in
    Heap.copy b h = (h1, Ok c)
    /\ Heap.view h1 c = Ok s'
    /\ (forall h2, played_on c h1 h2 -> Heap.view h2 b = Ok s)
    /\ (forall h2, played_on b h1 h2 -> Heap.view h2 c = Ok s').
Proof.
  intros Hv Hsq. apply view_holds in Hv.
  destruct (@copy_square h b s Hv Hsq) as (J & c & Ec & Hc & Hfresh).
  exists (h ++ J), c. cbv zeta.
  split; [exact Ec|]. split; [apply view_holds; exact Hc|].
  assert (Hb1 : holds (h ++ J) b s) by now apply holds_app.
  assert (Hold : forall l, In l (lists_of (h ++ J) b) -> l < length h).
  { intros l. rewrite (@lists_of_app h J b s Hv).
    apply (@holds_lists h b s Hv). }
  split; intros h2 Hp; apply view_holds; apply played_on_frame in Hp.
  - apply (@holds_frame _ (h ++ J) h2 b s Hb1 Hp).
    intros l Hl Hin. apply Hfresh in Hin. apply Hold in Hl. lia.
  - apply (@holds_frame _ (h ++ J) h2 c _ Hc Hp).
    intros l Hl Hin. apply Hfresh in Hl. apply Hold in Hin. lia.
Qed.

Lemma copy_is_independent_witness :
  exists h1 c,
    Heap.copy centre_board centre_heap = (h1, Ok c)
    /\ Heap.view h1 c = Ok centre_values
    /\ (forall h2, played_on c h1 h2 ->
          Heap.view h2 centre_board = Ok centre_values)
    /\ (forall h2, played_on centre_board h1 h2 ->
          Heap.view h2 c = Ok centre_values).
Proof.
  apply (@copy_is_independent centre_heap centre_board centre_values).
  - vm_compute. reflexivity.
  - reflexivity.
Defined.
